(** * TreeNode codecs: a shallow embedding of the C++ sources

    The development follows the layout of the package sources:
    [common.cpp], [write_binary_tree.cpp], [read_binary_tree.cpp],
    [read_nwka.cpp] and [write_nwka.cpp].

    Conventions.
    - A C++ call either returns, throws, or has no defined behaviour
      (an uninitialised buffer is used after a failed stream read, a
      vector is indexed out of range, ...).  The three cases are the
      constructors [Ok], [Throw] and [Undef] of [outcome]; a [catch (...)]
      handler catches [Throw] only.
    - Bytes and machine integers are [Z]; casts are written out as
      [mod].  A [double] is its 64-bit IEEE-754 pattern, stored in the
      file in the little-endian layout of the writing platform.
    - [size_t] quantities are unbounded naturals. *)

From Stdlib Require Import ZArith String Ascii Bool Lia DecimalString List.
Import ListNotations.
Local Open Scope Z_scope.

(** ** Outcomes of C++ calls *)

Inductive exn : Type :=
| RcppStop (msg : string)
| LengthError
| BadVariantAccess
| InvalidArgument.

Inductive outcome (A : Type) : Type :=
| Ok (a : A)
| Throw (e : exn)
| Undef.

Arguments Ok {A} a.
Arguments Throw {A} e.
Arguments Undef {A}.

Definition bind {A B : Type} (m : outcome A) (k : A -> outcome B) : outcome B :=
  match m with
  | Ok a => k a
  | Throw e => Throw e
  | Undef => Undef
  end.

Notation "x <- m ;; k" := (bind m (fun x => k))
  (at level 61, m at next level, right associativity).
Notation "' p <- m ;; k" := (bind m (fun x => match x with p => k end))
  (at level 61, p pattern, m at next level, right associativity).

Definition is_ok {A : Type} (m : outcome A) : bool :=
  match m with Ok _ => true | _ => false end.

(** Two's complement wrap-around of the fixed-width integer types. *)
Definition wrap32 (z : Z) : Z := (z + 2147483648) mod 4294967296 - 2147483648.
Definition wrap64 (z : Z) : Z :=
  (z + 9223372036854775808) mod 18446744073709551616 - 9223372036854775808.

(** ** Doubles as bit patterns *)

Definition double := Z.

(** [std::nan of the empty tag]: the positive quiet NaN. *)
Definition nan : double := 0x7FF8000000000000.

Definition isnan (d : double) : bool :=
  (Z.land (Z.shiftr d 52) 0x7FF =? 0x7FF) && negb (Z.land d 0xFFFFFFFFFFFFF =? 0).

(** [d > 0] on doubles: false on NaN, on zeros and on negative values. *)
Definition double_gt0 (d : double) : bool :=
  (0 <? d) && (d <=? 0x7FF0000000000000).

(** ** Characters and strings *)

Definition char_code (c : ascii) : Z := Z.of_N (N_of_ascii c).
Definition char_of_code (z : Z) : ascii := ascii_of_N (Z.to_N (z mod 256)).

(** [(int32_t)c] for a [char c]; plain [char] is signed on the platforms
    the package is built for. *)
Definition char_to_int (c : ascii) : Z :=
  let n := char_code c in if n <? 128 then n else n - 256.

Definition strlen (s : string) : Z := Z.of_nat (String.length s).


(** The double quote (code 34), as a character and as a one-character
    string. *)
Definition dquote_char : ascii := ascii_of_nat 34.
Definition dquote : string := String dquote_char EmptyString.
(** ** The number conversions of the C++ library

    The codecs are parameterised by [std::to_string (double)] and
    [std::stod].  The two functions below are used where a concrete
    conversion is needed: [to_string_f] is the "%f" conversion of a
    binary64 value, and [stod_decimal] converts decimal literals (white
    space, a sign, digits with an optional point, an optional exponent)
    with rounding to nearest, ties to even.  [std::stod] also accepts
    hexadecimal literals, infinities and NaNs, which [stod_decimal]
    rejects. *)

Definition pad6 (s : string) : string :=
  String.append (string_of_list_ascii (repeat "0"%char (6 - String.length s))) s.

Definition decimal_of (z : Z) : string :=
  DecimalString.NilZero.string_of_int (Z.to_int z).

(** The quotient of two positive integers rounded to nearest, ties to
    even. *)
Definition round_half_even (num den : Z) : Z :=
  let q := num / den in
  let r := num mod den in
  if (2 * r >? den) || ((2 * r =? den) && Z.odd q) then q + 1 else q.

Definition to_string_f (d : double) : string :=
  let sign := Z.testbit d 63 in
  let E := Z.land (Z.shiftr d 52) 0x7FF in
  let M := Z.land d 0xFFFFFFFFFFFFF in
  let body :=
    if E =? 0x7FF then (if M =? 0 then "inf"%string else "nan"%string)
    else
      let m := if E =? 0 then M else M + 2 ^ 52 in
      let e := (if E =? 0 then 1 else E) - 1075 in
      let q :=
        if e >=? 0 then m * 2 ^ e * 1000000
        else round_half_even (m * 1000000) (2 ^ (- e)) in
      String.append (decimal_of (q / 1000000))
        (String.append "." (pad6 (decimal_of (q mod 1000000)))) in
  if sign then String.append "-" body else body.

(** The binary64 pattern nearest to [num / den] (both positive); [None]
    when the value overflows or is too small for a normal number, the
    cases in which [strtod] reports a range error. *)
Definition binary64_of_ratio (num den : Z) : option Z :=
  let l := Z.log2 num - Z.log2 den in
  let fl := if (if l >=? 0 then num >=? den * 2 ^ l else num * 2 ^ (- l) >=? den)
            then l else l - 1 in
  let e := fl - 52 in
  let q := if e >=? 0 then round_half_even num (den * 2 ^ e)
           else round_half_even (num * 2 ^ (- e)) den in
  let '(q, e) := if q =? 2 ^ 53 then (2 ^ 52, e + 1) else (q, e) in
  let E := e + 1075 in
  if (E <=? 0) || (2047 <=? E) then None
  else Some (E * 2 ^ 52 + (q - 2 ^ 52)).

Definition digit_value (c : ascii) : option Z :=
  let n := Z.of_N (N_of_ascii c) in
  if (48 <=? n) && (n <=? 57) then Some (n - 48) else None.

(** The digits at the front of a list of characters: their value, their
    number, and what follows. *)
Fixpoint read_digits (cs : list ascii) (acc : Z) (n : nat) : Z * nat * list ascii :=
  match cs with
  | c :: r =>
      match digit_value c with
      | Some v => read_digits r (10 * acc + v) (S n)
      | None => (acc, n, cs)
      end
  | [] => (acc, n, cs)
  end.

Fixpoint skip_white (cs : list ascii) (n : nat) : list ascii * nat :=
  match cs with
  | c :: r =>
      let k := Z.of_N (N_of_ascii c) in
      if ((9 <=? k) && (k <=? 13)) || (k =? 32) then skip_white r (S n) else (cs, n)
  | [] => (cs, n)
  end.

Definition read_sign (cs : list ascii) : bool * nat * list ascii :=
  match cs with
  | "-"%char :: r => (true, 1%nat, r)
  | "+"%char :: r => (false, 1%nat, r)
  | _ => (false, 0%nat, cs)
  end.

Definition stod_decimal (s : string) : option (double * nat) :=
  let (cs0, n0) := skip_white (list_ascii_of_string s) 0 in
  let '(negative, n1, cs1) := read_sign cs0 in
  let '(int_part, n2, cs2) := read_digits cs1 0 0 in
  let '(mantissa, n3, cs3) :=
    match cs2 with
    | "."%char :: r => let '(m, n, r') := read_digits r int_part 0 in (m, n, r')
    | _ => (int_part, 0%nat, cs2)
    end in
  let point := match cs2 with "."%char :: _ => 1%nat | _ => 0%nat end in
  if Nat.eqb (n2 + n3) 0 then None
  else
    let '(exponent, n4) :=
      match cs3 with
      | c :: r =>
          if Ascii.eqb c "e" || Ascii.eqb c "E" then
            let '(eneg, ns, r1) := read_sign r in
            let '(x, nd, _) := read_digits r1 0 0 in
            if Nat.eqb nd 0 then (0, 0%nat)
            else ((if eneg then - x else x), (1 + ns + nd)%nat)
          else (0, 0%nat)
      | [] => (0, 0%nat)
      end in
    let consumed := (n0 + n1 + n2 + point + n3 + n4)%nat in
    let scale := exponent - Z.of_nat n3 in
    let sign_bit := if negative then 2 ^ 63 else 0 in
    if mantissa =? 0 then Some (sign_bit, consumed)
    else
      match (if scale >=? 0 then binary64_of_ratio (mantissa * 10 ^ scale) 1
             else binary64_of_ratio mantissa (10 ^ (- scale))) with
      | Some bits => Some (sign_bit + bits, consumed)
      | None => None
      end.
(** * Shared definitions ([common.h], [common.cpp]) *)

(** ** Vectors indexed by machine integers

    [operator[]] outside the vector has no defined behaviour. *)

Definition vget {A : Type} (l : list A) (i : Z) : outcome A :=
  if i <? 0 then Undef
  else match nth_error l (Z.to_nat i) with
       | Some x => Ok x
       | None => Undef
       end.

Fixpoint list_set {A : Type} (l : list A) (i : nat) (x : A) : option (list A) :=
  match l, i with
  | [], _ => None
  | _ :: r, O => Some (x :: r)
  | y :: r, S i' => option_map (cons y) (list_set r i' x)
  end.

Definition vset {A : Type} (l : list A) (i : Z) (x : A) : outcome (list A) :=
  if i <? 0 then Undef
  else match list_set l (Z.to_nat i) x with
       | Some l' => Ok l'
       | None => Undef
       end.

Definition zlength {A : Type} (l : list A) : Z := Z.of_nat (length l).

(** [std::vector<T>(n)] for a signed [n]: a negative size converts to a
    huge [size_t] and the constructor throws. *)
Definition vector_of {A : Type} (n : Z) (x : A) : outcome (list A) :=
  if n <? 0 then Throw LengthError else Ok (repeat x (Z.to_nat n)).

(** ** Strings *)

(** [std::toupper] and [std::tolower] in the "C" locale. *)
Definition toupper (c : ascii) : ascii :=
  let n := char_code c in
  if (97 <=? n) && (n <=? 122) then char_of_code (n - 32) else c.

Definition tolower (c : ascii) : ascii :=
  let n := char_code c in
  if (65 <=? n) && (n <=? 90) then char_of_code (n + 32) else c.

Definition char_eqb (a b : ascii) : bool := Ascii.eqb a b.

Fixpoint equalCI (str1 str2 : string) : bool :=
  match str1, str2 with
  | EmptyString, EmptyString => true
  | String c1 r1, String c2 r2 =>
      (char_eqb c1 c2 || char_eqb (toupper c1) (toupper c2)) && equalCI r1 r2
  | _, _ => false
  end.

(** [std::lexicographical_compare] with a comparison on characters. *)
Fixpoint lex_less (lt : ascii -> ascii -> bool) (s1 s2 : string) : bool :=
  match s1, s2 with
  | _, EmptyString => false
  | EmptyString, String _ _ => true
  | String c1 r1, String c2 r2 =>
      if lt c1 c2 then true
      else if lt c2 c1 then false
      else lex_less lt r1 r2
  end.

Definition ci_less (s1 s2 : string) : bool :=
  lex_less (fun c1 c2 => char_code (tolower c1) <? char_code (tolower c2)) s1 s2.

(** [std::less<std::string>]: bytes compared as unsigned characters. *)
Definition string_less (s1 s2 : string) : bool :=
  lex_less (fun c1 c2 => char_code c1 <? char_code c2) s1 s2.

Definition string_eqb (s1 s2 : string) : bool := String.eqb s1 s2.

Definition string_empty (s : string) : bool :=
  match s with EmptyString => true | _ => false end.

(** [std::to_string] on integers. *)
Definition to_string_int (z : Z) : string :=
  DecimalString.NilZero.string_of_int (Z.to_int z).

(** ** [std::map]

    A map is the list of its entries in key order; two keys are the same
    entry when neither is less than the other. *)

Section StdMap.

Context {K V : Type}.
Variable less : K -> K -> bool.

Definition key_equiv (a b : K) : bool := negb (less a b) && negb (less b a).

Fixpoint map_find (m : list (K * V)) (k : K) : option V :=
  match m with
  | [] => None
  | (k', v) :: r => if key_equiv k' k then Some v else map_find r k
  end.

Definition map_count (m : list (K * V)) (k : K) : nat :=
  match map_find m k with Some _ => 1%nat | None => 0%nat end.

(** [insert]: keeps an existing entry; the flag tells whether the pair
    was inserted. *)
Fixpoint map_insert (m : list (K * V)) (k : K) (v : V) : list (K * V) * bool :=
  match m with
  | [] => ([(k, v)], true)
  | (k', v') :: r =>
      if less k k' then ((k, v) :: m, true)
      else if less k' k then
        let (r', b) := map_insert r k v in ((k', v') :: r', b)
      else (m, false)
  end.

(** [m[k] = v]: overwrites the value of an existing entry (its key is
    kept), inserts otherwise. *)
Fixpoint map_assign (m : list (K * V)) (k : K) (v : V) : list (K * V) :=
  match m with
  | [] => [(k, v)]
  | (k', v') :: r =>
      if less k k' then (k, v) :: m
      else if less k' k then (k', v') :: map_assign r k v
      else (k', v) :: r
  end.

End StdMap.

(** ** The tree model *)

Record Attribute : Type := mkAttribute {
  AttributeName : string;
  IsNumeric : bool
}.

(** [std::variant<std::string, double>] *)
Inductive attrval : Type :=
| VString (s : string)
| VDouble (d : double).

(** [std::variant<std::vector<std::string>, std::vector<double>>] *)
Inductive attrvec : Type :=
| StringVec (l : list string)
| DoubleVec (l : list double).

Definition get_strings (v : attrvec) : outcome (list string) :=
  match v with StringVec l => Ok l | DoubleVec _ => Throw BadVariantAccess end.

Definition get_doubles (v : attrvec) : outcome (list double) :=
  match v with DoubleVec l => Ok l | StringVec _ => Throw BadVariantAccess end.

Definition attrvec_size (v : attrvec) : nat :=
  match v with StringVec l => length l | DoubleVec l => length l end.

Record phylo : Type := mkPhylo {
  Nnode : Z;
  rootEdge : double;
  edge : list (list Z);
  tipLabel : list string;
  nodeLabel : list string;
  edgeLength : list double;
  tipAttributes : list attrvec;
  nodeAttributes : list attrvec;
  attributes : list Attribute;
  hasEdgeLength : bool;
  hasNodeLabel : bool
}.

(** A default-constructed [phylo]. *)
Definition phylo0 : phylo :=
  mkPhylo (-1) nan [] [] [] [] [] [] [] false false.

Record multiPhylo : Type := mkMultiPhylo {
  trees : list phylo;
  treeNames : list string
}.

Definition LENGTHATTRIBUTE : string := "length".
Definition SUPPORTATTRIBUTE : string := "support".
Definition NAMEATTRIBUTE : string := "name".
Definition TREENAMEATTRIBUTE : string := "treename".

(** [attributeIndex]: position of the first attribute with the same name
    (case-insensitively) and the same kind, or -1. *)
Fixpoint attributeIndex_from (i : Z) (attrs : list Attribute) (a : Attribute) : Z :=
  match attrs with
  | [] => -1
  | x :: r =>
      if equalCI (AttributeName x) (AttributeName a)
         && Bool.eqb (IsNumeric x) (IsNumeric a)
      then i
      else attributeIndex_from (i + 1) r a
  end.

Definition attributeIndex (attrs : list Attribute) (a : Attribute) : Z :=
  attributeIndex_from 0 attrs a.

(** ** Canonical traversal ([addChildren])

    The state is the three output vectors and [*currIndex].  Every call
    stores at [*currIndex] and increments it, so a traversal makes at
    most as many calls as the vectors have entries; the recursion is
    bounded accordingly. *)

Record dfs_state : Type := mkDfs {
  sortedParents : list Z;
  sortedChildren : list (list Z);
  sortedNodes : list Z;
  currIndex : Z
}.

Fixpoint addChildren (fuel : nat) (children : list (list Z)) (st : dfs_state)
    (currNonSortedIndex currSortedParent : Z) : outcome (Z * dfs_state) :=
  match fuel with
  | O => Undef
  | S fuel' =>
      sp <- vset (sortedParents st) (currIndex st) currSortedParent ;;
      let myIndex := currIndex st in
      sn <- vset (sortedNodes st) myIndex currNonSortedIndex ;;
      let st1 := mkDfs sp (sortedChildren st) sn (currIndex st + 1) in
      mine <- vget children currNonSortedIndex ;;
      (fix each (cs : list Z) (st : dfs_state) : outcome (Z * dfs_state) :=
         match cs with
         | [] => Ok (myIndex, st)
         | c :: cs' =>
             '(childInd, st2) <- addChildren fuel' children st c myIndex ;;
             row <- vget (sortedChildren st2) myIndex ;;
             sc <- vset (sortedChildren st2) myIndex (row ++ [childInd]) ;;
             each cs' (mkDfs (sortedParents st2) sc (sortedNodes st2) (currIndex st2))
         end) mine st1
  end.

(** The adjacency vectors both serialisers build from the edge list
    (1-based node numbers, entry 0 unused), the root search and the
    traversal. *)
Fixpoint fill_adjacency (edges : list (list Z)) (children : list (list Z))
    (parents : list Z) : outcome (list (list Z) * list Z) :=
  match edges with
  | [] => Ok (children, parents)
  | e :: rest =>
      e0 <- vget e 0 ;;
      e1 <- vget e 1 ;;
      row <- vget children e0 ;;
      children' <- vset children e0 (row ++ [e1]) ;;
      parents' <- vset parents e1 e0 ;;
      fill_adjacency rest children' parents'
  end.

Fixpoint find_root (i : Z) (parents_from_1 : list Z) : Z :=
  match parents_from_1 with
  | [] => -1
  | p :: r => if p =? 0 then i else find_root (i + 1) r
  end.

Definition traverse (tree : phylo) : outcome dfs_state :=
  let tips := zlength (tipLabel tree) in
  parents <- vector_of (Nnode tree + tips + 1) 0 ;;
  children <- vector_of (Nnode tree + tips + 1) ([] : list Z) ;;
  sortedParents <- vector_of (Nnode tree + tips) 0 ;;
  sortedChildren <- vector_of (Nnode tree + tips) ([] : list Z) ;;
  sortedNodes <- vector_of (Nnode tree + tips) 0 ;;
  '(children, parents) <- fill_adjacency (edge tree) children parents ;;
  let rootNode := find_root 1 (tl parents) in
  '(_, st) <- addChildren (S (length sortedParents)) children
                (mkDfs sortedParents sortedChildren sortedNodes 0) rootNode (-1) ;;
  Ok st.
(** * Binary format: output side ([write_binary_tree.cpp]) *)

(** A write appends to the file, so a writer is the list of bytes it
    emits; [tellp] is the length of what has been emitted so far. *)

Definition writeByte (b : Z) : list Z := [b mod 256].

Definition writeDouble (value : double) : list Z :=
  map (fun i => Z.land (Z.shiftr value (8 * i)) 0xff) [0; 1; 2; 3; 4; 5; 6; 7].

Definition writeInt32 (val : Z) : list Z :=
  [ Z.land val 0x000000ff;
    Z.shiftr (Z.land val 0x0000ff00) 8;
    Z.shiftr (Z.land val 0x00ff0000) 16;
    Z.shiftr (Z.land val 0xff000000) 24 ].

Definition writeInt64 (val : Z) : list Z :=
  [ Z.land val 0x00000000000000ff;
    Z.shiftr (Z.land val 0x000000000000ff00) 8;
    Z.shiftr (Z.land val 0x0000000000ff0000) 16;
    Z.shiftr (Z.land val 0x00000000ff000000) 24;
    Z.shiftr (Z.land val 0x000000ff00000000) 32;
    Z.shiftr (Z.land val 0x0000ff0000000000) 40;
    Z.shiftr (Z.land val 0x00ff000000000000) 48;
    Z.shiftr (Z.land val 0xff00000000000000) 56 ].

Definition writeInt (val : Z) : list Z :=
  if val <? 254 then writeByte val
  else writeByte 254 ++ writeInt32 val.

Fixpoint string_chars (s : string) : list ascii :=
  match s with
  | EmptyString => []
  | String c r => c :: string_chars r
  end.

Definition writeMyString (val : string) : list Z :=
  writeInt (wrap32 (strlen val))
  ++ flat_map (fun c => writeInt (char_to_int c)) (string_chars val).

(** [writeShortInt]: the bytes written to the stream, the new value of
    [*currByte] and the returned cursor. *)
Definition writeShortInt (value currByte currIndex : Z) : outcome (list Z * Z * Z) :=
  if value =? 0 then
    (* 00 *)
    if currIndex =? 0 then Ok ([], currByte, 2)
    else if currIndex =? 2 then Ok ([], currByte, 4)
    else if currIndex =? 4 then Ok ([], currByte, 6)
    else if currIndex =? 6 then Ok (writeByte currByte, 0, 0)
    else Throw (RcppStop "Unexpected code path!")
  else if value =? 2 then
    (* 01 *)
    if currIndex =? 0 then Ok ([], Z.lor currByte 0x01 mod 256, 2)
    else if currIndex =? 2 then Ok ([], Z.lor currByte 0x04 mod 256, 4)
    else if currIndex =? 4 then Ok ([], Z.lor currByte 0x10 mod 256, 6)
    else if currIndex =? 6 then Ok (writeByte (Z.lor currByte 0x40), 0, 0)
    else Throw (RcppStop "Unexpected code path!")
  else if value =? 3 then
    (* 10 *)
    if currIndex =? 0 then Ok ([], Z.lor currByte 0x02 mod 256, 2)
    else if currIndex =? 2 then Ok ([], Z.lor currByte 0x08 mod 256, 4)
    else if currIndex =? 4 then Ok ([], Z.lor currByte 0x20 mod 256, 6)
    else if currIndex =? 6 then Ok (writeByte (Z.lor currByte 0x80), 0, 0)
    else Throw (RcppStop "Unexpected code path!")
  else if value =? 1 then
    (* 0011 *)
    if currIndex =? 0 then Ok ([], Z.lor currByte 0x03 mod 256, 4)
    else if currIndex =? 2 then Ok ([], Z.lor currByte 0x0c mod 256, 6)
    else if currIndex =? 4 then Ok (writeByte (Z.lor currByte 0x30), 0, 0)
    else if currIndex =? 6 then Ok (writeByte (Z.lor currByte 0xc0), 0, 2)
    else Throw (RcppStop "Unexpected code path!")
  else if value =? 4 then
    (* 0111 *)
    if currIndex =? 0 then Ok ([], Z.lor currByte 0x07 mod 256, 4)
    else if currIndex =? 2 then Ok ([], Z.lor currByte 0x1c mod 256, 6)
    else if currIndex =? 4 then Ok (writeByte (Z.lor currByte 0x70), 0, 0)
    else if currIndex =? 6 then Ok (writeByte (Z.lor currByte 0xc0), 0x01, 2)
    else Throw (RcppStop "Unexpected code path!")
  else if value =? 5 then
    (* 1011 *)
    if currIndex =? 0 then Ok ([], Z.lor currByte 0x0b mod 256, 4)
    else if currIndex =? 2 then Ok ([], Z.lor currByte 0x2c mod 256, 6)
    else if currIndex =? 4 then Ok (writeByte (Z.lor currByte 0xb0), 0, 0)
    else if currIndex =? 6 then Ok (writeByte (Z.lor currByte 0xc0), 0x02, 2)
    else Throw (RcppStop "Unexpected code path!")
  else
    (* 1111 *)
    if currIndex =? 0 then
      Ok (writeByte (Z.lor currByte 0x0f) ++ writeInt value, 0, 0)
    else if currIndex =? 2 then
      Ok (writeByte (Z.lor currByte 0x3c) ++ writeInt value, 0, 0)
    else if currIndex =? 4 then
      Ok (writeByte (Z.lor currByte 0xf0) ++ writeInt value, 0, 0)
    else if currIndex =? 6 then
      Ok (writeByte (Z.lor currByte 0xc0) ++ writeByte 0x03 ++ writeInt value, 0, 0)
    else Throw (RcppStop "Unexpected code path!").

(** The child-count loop of [writeBinaryTree]: every count goes through
    [writeShortInt]; a partially filled byte is flushed at the end. *)
Fixpoint writeShortInts_from (values : list Z) (currByte currPos : Z)
  : outcome (list Z) :=
  match values with
  | [] => Ok (if currPos =? 0 then [] else writeByte currByte)
  | v :: rest =>
      '(out, cb, cp) <- writeShortInt v currByte currPos ;;
      more <- writeShortInts_from rest cb cp ;;
      Ok (out ++ more)
  end.

Definition writeShortInts (values : list Z) : outcome (list Z) :=
  writeShortInts_from values 0 0.


(** ** Tree records ([writeBinaryTree]) *)

(** [AttributeLess]: attributes are ordered by name alone, in descending
    order of [std::string::compare]. *)
Definition AttributeLess (lhs rhs : Attribute) : bool :=
  string_less (AttributeName rhs) (AttributeName lhs).

Definition name_table : Type := list (string * Z).
Definition attribute_table : Type := list (Attribute * Z).

(** The loop that enters a tree's attributes into a table and its
    reverse list. *)
Fixpoint insert_attributes (attrs : list Attribute) (tbl : attribute_table)
    (rev : list Attribute) : attribute_table * list Attribute :=
  match attrs with
  | [] => (tbl, rev)
  | a :: r =>
      let (tbl', inserted) := map_insert AttributeLess tbl a (zlength tbl) in
      insert_attributes r tbl' (if inserted then rev ++ [a] else rev)
  end.

(** The attribute table as written to the file; the table and its
    reverse list have the same number of entries. *)
Definition writeAttributeTable (rev : list Attribute) : list Z :=
  writeInt (wrap32 (zlength rev))
  ++ flat_map (fun a => writeMyString (AttributeName a)
                        ++ writeInt (if IsNumeric a then 2 else 1)) rev.

(** The lookup [attributes->operator[] (key)]: every entry of the reverse list is a key of the
    table, so the lookup never inserts. *)
Definition table_index (tbl : attribute_table) (a : Attribute) : Z :=
  match map_find AttributeLess tbl a with
  | Some i => wrap32 i
  | None => 0
  end.

(** Whether attribute [j] has a value on the node at [idx]. *)
Definition attribute_set (vecs : list attrvec) (j : Z) (a : Attribute) (idx : Z)
  : outcome bool :=
  vec <- vget vecs j ;;
  if IsNumeric a then
    l <- get_doubles vec ;; value <- vget l idx ;; Ok (negb (isnan value))
  else
    l <- get_strings vec ;; value <- vget l idx ;; Ok (negb (string_empty value)).

Fixpoint count_attributes (vecs : list attrvec) (j : Z) (rev : list Attribute)
    (idx : Z) : outcome Z :=
  match rev with
  | [] => Ok 0
  | a :: r =>
      present <- attribute_set vecs j a idx ;;
      n <- count_attributes vecs (j + 1) r idx ;;
      Ok ((if present then 1 else 0) + n)
  end.

(** The attributes of one node.  The code has this loop twice, for tips
    (over [tipAttributes], name indices written as [iter->second + 1])
    and for internal nodes (over [nodeAttributes], name indices written
    as [iter->second]); [nameShift] is that 1 or 0. *)
Fixpoint write_attributes (vecs : list attrvec) (j : Z) (rev : list Attribute)
    (idx : Z) (nameShift : Z) (globalNames : bool) (names : name_table)
    (tbl : attribute_table) : outcome (list Z) :=
  match rev with
  | [] => Ok []
  | a :: r =>
      let index := table_index tbl a in
      here <-
        (if negb (IsNumeric a) && equalCI (AttributeName a) NAMEATTRIBUTE && globalNames
         then
           vec <- vget vecs j ;;
           l <- get_strings vec ;;
           value <- vget l idx ;;
           if negb (string_empty value) then
             match map_find string_less names value with
             | Some second => Ok (writeInt index ++ writeInt (wrap32 (second + nameShift)))
             | None => Ok (writeInt index ++ writeByte 255 ++ writeMyString value)
             end
           else Ok []
         else if IsNumeric a then
           vec <- vget vecs j ;;
           l <- get_doubles vec ;;
           value <- vget l idx ;;
           if negb (isnan value) then Ok (writeInt index ++ writeDouble value)
           else Ok []
         else
           vec <- vget vecs j ;;
           l <- get_strings vec ;;
           value <- vget l idx ;;
           if negb (string_empty value) then Ok (writeInt index ++ writeMyString value)
           else Ok []) ;;
      more <- write_attributes vecs (j + 1) r idx nameShift globalNames names tbl ;;
      Ok (here ++ more)
  end.

Definition write_node (tree : phylo) (node : Z) (globalNames : bool)
    (names : name_table) (tbl : attribute_table) (rev : list Attribute)
  : outcome (list Z) :=
  let tipCount := wrap32 (zlength (tipLabel tree)) in
  if node <=? tipCount then
    n <- count_attributes (tipAttributes tree) 0 rev (node - 1) ;;
    body <- write_attributes (tipAttributes tree) 0 rev (node - 1) 1
              globalNames names tbl ;;
    Ok (writeInt n ++ body)
  else
    n <- count_attributes (nodeAttributes tree) 0 rev (node - tipCount - 1) ;;
    body <- write_attributes (nodeAttributes tree) 0 rev (node - tipCount - 1) 0
              globalNames names tbl ;;
    Ok (writeInt n ++ body).

Fixpoint write_nodes (tree : phylo) (nodes : list Z) (globalNames : bool)
    (names : name_table) (tbl : attribute_table) (rev : list Attribute)
  : outcome (list Z) :=
  match nodes with
  | [] => Ok []
  | node :: r =>
      here <- write_node tree node globalNames names tbl rev ;;
      more <- write_nodes tree r globalNames names tbl rev ;;
      Ok (here ++ more)
  end.

Definition writeBinaryTree (tree : phylo) (globalNames globalAttributes : bool)
    (names : name_table) (attributesLookup : attribute_table)
    (attributesLookupReverse : list Attribute) : outcome (list Z) :=
  let '(head, tbl, rev) :=
    if negb globalAttributes then
      let (tbl, rev) := insert_attributes (attributes tree) [] [] in
      (writeAttributeTable rev, tbl, rev)
    else (writeByte 0, attributesLookup, attributesLookupReverse) in
  st <- traverse tree ;;
  counts <- writeShortInts (map (fun row => wrap32 (zlength row)) (sortedChildren st)) ;;
  body <- write_nodes tree (sortedNodes st) globalNames names tbl rev ;;
  Ok (head ++ counts ++ body).

(** ** Whole collections ([writeBinaryTrees]) *)

Record scan_state : Type := mkScan {
  allNamesLookup : name_table;
  allNamesLookupReverse : list string;
  allAttributesLookup : attribute_table;
  allAttributesLookupReverse : list Attribute;
  includeNamesPerTree : bool;
  includeAttributesPerTree : bool
}.

Definition scan0 : scan_state := mkScan [] [] [] [] false false.

(** The loop over a tree's attributes: remembers the last text attribute
    called "name" and enters every attribute into the shared table. *)
Fixpoint scan_attributes (attrs : list Attribute) (j nameIndex : Z)
    (tbl : attribute_table) (rev : list Attribute)
  : Z * attribute_table * list Attribute :=
  match attrs with
  | [] => (nameIndex, tbl, rev)
  | a :: r =>
      let nameIndex' :=
        if equalCI (AttributeName a) NAMEATTRIBUTE && negb (IsNumeric a)
        then j else nameIndex in
      let (tbl', inserted) := map_insert AttributeLess tbl a (zlength tbl) in
      scan_attributes r (j + 1) nameIndex' tbl' (if inserted then rev ++ [a] else rev)
  end.

(** The loops over the node names and the tip names: counts the
    non-empty names and enters them into the shared table. *)
Fixpoint scan_names (l : list string) (count : Z) (tbl : name_table)
    (rev : list string) : Z * name_table * list string :=
  match l with
  | [] => (count, tbl, rev)
  | n :: r =>
      if 0 <? strlen n then
        let (tbl', inserted) := map_insert string_less tbl n (zlength tbl) in
        scan_names r (count + 1) tbl' (if inserted then rev ++ [n] else rev)
      else scan_names r count tbl rev
  end.

(** One iteration of the scanning loop. *)
Definition scan_tree (t : phylo) (st : scan_state) : outcome scan_state :=
  let prevNameCount := zlength (allNamesLookup st) in
  let prevAttributeCount := zlength (allAttributesLookup st) in
  let '(nameIndex, atbl, arev) :=
    scan_attributes (attributes t) 0 (-1)
      (allAttributesLookup st) (allAttributesLookupReverse st) in
  nv <- vget (nodeAttributes t) nameIndex ;;
  nodeNames <- get_strings nv ;;
  tv <- vget (tipAttributes t) nameIndex ;;
  tipNames <- get_strings tv ;;
  let '(count1, ntbl1, nrev1) :=
    scan_names nodeNames 0 (allNamesLookup st) (allNamesLookupReverse st) in
  let '(count, ntbl, nrev) := scan_names tipNames count1 ntbl1 nrev1 in
  let maxAttributeCount :=
    Z.max 0 (Z.max (zlength (nodeAttributes t)) (zlength (tipAttributes t))) in
  let names' :=
    if negb (prevNameCount =? 0) && ((zlength ntbl - prevNameCount) * 2 >? count)
    then true else includeNamesPerTree st in
  let attrs' :=
    if negb (prevAttributeCount =? 0)
       && ((zlength atbl - prevAttributeCount) * 2 >? maxAttributeCount)
    then true else includeAttributesPerTree st in
  Ok (mkScan ntbl nrev atbl arev names' attrs').

Fixpoint scan_trees (ts : list phylo) (st : scan_state) : outcome scan_state :=
  match ts with
  | [] => Ok st
  | t :: r =>
      st' <- scan_tree t st ;;
      if includeNamesPerTree st' && includeAttributesPerTree st' then Ok st'
      else scan_trees r st'
  end.

Definition header_magic : list Z := [0x23; 0x54; 0x52; 0x45].
Definition trailer_magic : list Z := [0x45; 0x4e; 0x44; 0xff].

Definition header_byte (includeNames includeAttributes : bool) : Z :=
  if negb includeNames && negb includeAttributes then 3
  else if negb includeNames && includeAttributes then 1
  else if includeNames && negb includeAttributes then 2
  else 0.

(** The loop writing the tree records: [tellp] before each record is its
    address. *)
Fixpoint write_tree_records (ts : list phylo) (tellp : Z) (st : scan_state)
  : outcome (list Z * list Z) :=
  match ts with
  | [] => Ok ([], [])
  | t :: r =>
      rec <- writeBinaryTree t (negb (includeNamesPerTree st))
               (negb (includeAttributesPerTree st))
               (allNamesLookup st) (allAttributesLookup st)
               (allAttributesLookupReverse st) ;;
      '(more, addresses) <- write_tree_records r (tellp + zlength rec) st ;;
      Ok (rec ++ more, tellp :: addresses)
  end.

Definition writeBinaryTrees (mp : multiPhylo) (additionalDataToCopy : list Z)
  : outcome (list Z) :=
  st <- scan_trees (trees mp) scan0 ;;
  let head :=
    header_magic
    ++ writeByte (header_byte (includeNamesPerTree st) (includeAttributesPerTree st))
    ++ (if negb (includeNamesPerTree st) then
          writeInt (wrap32 (zlength (allNamesLookup st)))
          ++ flat_map writeMyString (allNamesLookupReverse st)
        else [])
    ++ (if negb (includeAttributesPerTree st) then
          writeAttributeTable (allAttributesLookupReverse st)
        else []) in
  '(records, addresses) <- write_tree_records (trees mp) (zlength head) st ;;
  let labelAddress := zlength head + zlength records + zlength additionalDataToCopy in
  Ok (head ++ records ++ additionalDataToCopy
      ++ writeInt (wrap32 (zlength addresses))
      ++ flat_map writeInt64 addresses
      ++ writeInt64 labelAddress
      ++ trailer_magic).

(** ** The incremental protocol *)

Definition beginWritingBinaryTrees : list Z := header_magic ++ writeByte 0.

Definition finishWritingBinaryTrees (addresses : list Z)
    (additionalDataToCopy : list Z) : outcome (list Z) :=
  last_address <- vget addresses (zlength addresses - 1) ;;
  let labelAddress := last_address + zlength additionalDataToCopy in
  Ok (additionalDataToCopy
      ++ writeInt (wrap32 (zlength addresses) - 1)
      ++ flat_map writeInt64 (removelast addresses)
      ++ writeInt64 labelAddress
      ++ trailer_magic).
(** * Binary format: input side ([read_binary_tree.cpp]) *)

(** An input file stream: contents, get position, and the failure flag
    that a short read or a bad seek sets.  Once the flag is set, reads
    transfer nothing and seeks do nothing. *)
Record fstream : Type := mkStream {
  sdata : list Z;
  spos : nat;
  sfail : bool
}.

Definition open_stream (bytes : list Z) : fstream := mkStream bytes 0 false.

Definition stream_read (s : fstream) (count : nat) : list Z * fstream :=
  if sfail s then ([], s)
  else
    let got := firstn count (skipn (spos s) (sdata s)) in
    (got, mkStream (sdata s) (spos s + length got)
                   (negb (Nat.eqb (length got) count))).

Definition seekg (s : fstream) (target : Z) : fstream :=
  if sfail s then s
  else if target <? 0 then mkStream (sdata s) (spos s) true
  else mkStream (sdata s) (Z.to_nat target) false.

Definition seekg_cur (s : fstream) (off : Z) : fstream :=
  seekg s (Z.of_nat (spos s) + off).

Definition seekg_end (s : fstream) (off : Z) : fstream :=
  seekg s (Z.of_nat (length (sdata s)) + off).

Definition tellg (s : fstream) : Z :=
  if sfail s then -1 else Z.of_nat (spos s).

(** [readByte] returns an uninitialised buffer when the read fails. *)
Definition readByte (s : fstream) : outcome (Z * fstream) :=
  match stream_read s 1 with
  | ([b], s') => Ok (b, s')
  | _ => Undef
  end.

(** [readBytes] reads into a zero-initialised vector. *)
Definition readBytes (s : fstream) (count : nat) : list Z * fstream :=
  let (got, s') := stream_read s count in
  (got ++ repeat 0 (count - length got), s').

Fixpoint le_value (bytes : list Z) : Z :=
  match bytes with
  | [] => 0
  | b :: rest => b + 256 * le_value rest
  end.

Definition readDouble (s : fstream) : outcome (double * fstream) :=
  let (got, s') := stream_read s 8 in
  if Nat.eqb (length got) 8 then Ok (le_value got, s') else Undef.

Definition readInt32 (s : fstream) : Z * fstream :=
  let (bytes, s') := readBytes s 4 in (wrap32 (le_value bytes), s').

Definition readInt64 (s : fstream) : Z * fstream :=
  let (bytes, s') := readBytes s 8 in (wrap64 (le_value bytes), s').

Definition readInt (s : fstream) : outcome (Z * fstream) :=
  '(b, s1) <- readByte s ;;
  if b <? 254 then Ok (b, s1) else Ok (readInt32 s1).

Fixpoint string_of_chars (l : list ascii) : string :=
  match l with
  | [] => EmptyString
  | c :: r => String c (string_of_chars r)
  end.

Fixpoint readChars (n : nat) (s : fstream) : outcome (list ascii * fstream) :=
  match n with
  | O => Ok ([], s)
  | S n' =>
      '(c, s1) <- readInt s ;;
      '(cs, s2) <- readChars n' s1 ;;
      Ok (char_of_code c :: cs, s2)
  end.

(** [std::vector<char> chars(length)] throws on a negative length. *)
Definition readMyString (s : fstream) : outcome (string * fstream) :=
  '(length, s1) <- readInt s ;;
  if length <? 0 then Throw LengthError
  else
    '(cs, s2) <- readChars (Z.to_nat length) s1 ;;
    Ok (string_of_chars cs, s2).

(** The state threaded through [readShortInt]: the stream, [*currByte]
    and [*currIndex]. *)
Definition sistate : Type := (fstream * Z * Z)%type.

(** The escape branch shared by the four cursor positions. *)
Definition readEscaped (s : fstream) : outcome (Z * sistate) :=
  '(tbr, s1) <- readInt s ;;
  '(b, s2) <- readByte s1 ;;
  Ok (tbr, (s2, b, 0)).

Definition readShortInt (st : sistate) : outcome (Z * sistate) :=
  let '(s, currByte, currIndex) := st in
  if currIndex =? 0 then
    let twoBits := Z.land currByte 0x03 in
    if twoBits =? 0 then Ok (0, (s, currByte, 2))
    else if twoBits =? 1 then Ok (2, (s, currByte, 2))
    else if twoBits =? 2 then Ok (3, (s, currByte, 2))
    else
      let fourBits := Z.land currByte 0x0f in
      if fourBits =? 3 then Ok (1, (s, currByte, 4))
      else if fourBits =? 7 then Ok (4, (s, currByte, 4))
      else if fourBits =? 11 then Ok (5, (s, currByte, 4))
      else readEscaped s
  else if currIndex =? 2 then
    let twoBits := Z.shiftr (Z.land currByte 0x0c) 2 in
    if twoBits =? 0 then Ok (0, (s, currByte, 4))
    else if twoBits =? 1 then Ok (2, (s, currByte, 4))
    else if twoBits =? 2 then Ok (3, (s, currByte, 4))
    else
      let fourBits := Z.shiftr (Z.land currByte 0x3c) 2 in
      if fourBits =? 3 then Ok (1, (s, currByte, 6))
      else if fourBits =? 7 then Ok (4, (s, currByte, 6))
      else if fourBits =? 11 then Ok (5, (s, currByte, 6))
      else readEscaped s
  else if currIndex =? 4 then
    let twoBits := Z.shiftr (Z.land currByte 0x30) 4 in
    if twoBits =? 0 then Ok (0, (s, currByte, 6))
    else if twoBits =? 1 then Ok (2, (s, currByte, 6))
    else if twoBits =? 2 then Ok (3, (s, currByte, 6))
    else
      let fourBits := Z.shiftr (Z.land currByte 0xf0) 4 in
      if fourBits =? 3 then '(b, s1) <- readByte s ;; Ok (1, (s1, b, 0))
      else if fourBits =? 7 then '(b, s1) <- readByte s ;; Ok (4, (s1, b, 0))
      else if fourBits =? 11 then '(b, s1) <- readByte s ;; Ok (5, (s1, b, 0))
      else readEscaped s
  else
    let twoBits := Z.shiftr (Z.land currByte 0xc0) 6 in
    '(b, s1) <- readByte s ;;
    if twoBits =? 0 then Ok (0, (s1, b, 0))
    else if twoBits =? 1 then Ok (2, (s1, b, 0))
    else if twoBits =? 2 then Ok (3, (s1, b, 0))
    else
      let fourBits := Z.lor twoBits (Z.shiftl (Z.land b 0x03) 2) in
      if fourBits =? 3 then Ok (1, (s1, b, 2))
      else if fourBits =? 7 then Ok (4, (s1, b, 2))
      else if fourBits =? 11 then Ok (5, (s1, b, 2))
      else readEscaped s1.

(** The reading protocol of [readBinaryTree] for a known number of
    counts: one byte is read ahead, every count goes through
    [readShortInt], and the stream is moved back by one byte when the
    cursor ends on 0. *)
Fixpoint readShortInts_from (n : nat) (st : sistate) : outcome (list Z * sistate) :=
  match n with
  | O => Ok ([], st)
  | S n' =>
      '(v, st1) <- readShortInt st ;;
      '(vs, st2) <- readShortInts_from n' st1 ;;
      Ok (v :: vs, st2)
  end.

Definition rewind (st : sistate) : fstream :=
  let '(s, _, currIndex) := st in
  if currIndex =? 0 then seekg_cur s (-1) else s.

Definition readShortInts (n : nat) (s : fstream) : outcome (list Z * fstream) :=
  '(currByte, s1) <- readByte s ;;
  '(vs, st) <- readShortInts_from n (s1, currByte, 0) ;;
  Ok (vs, rewind st).



(** * The codecs that print or parse numbers

    [std::to_string (double)] and [std::stod] belong to the C++ library;
    the codecs are parameterised by them.  [stod s] is the parsed value
    and the number of characters consumed, or [None] when [std::stod]
    throws. *)

Section Codecs.

Variable to_string_double : double -> string.
Variable stod : string -> option (double * nat).

(** ** Tree records ([readBinaryTree]) *)

(** The inner loop of the structure reader: climb while the current
    parent has all its children.  A parent precedes its children, so
    the climb takes at most as many steps as there are nodes. *)
Fixpoint climb (fuel : nat) (parents : list Z) (children : list (list Z))
    (addedChildren : list Z) (currParent : Z) : outcome Z :=
  match fuel with
  | O => Undef
  | S fuel' =>
      if currParent >=? 0 then
        row <- vget children currParent ;;
        added <- vget addedChildren currParent ;;
        if zlength row =? added then
          p <- vget parents currParent ;;
          climb fuel' parents children addedChildren p
        else Ok currParent
      else Ok currParent
  end.

Record structure : Type := mkStructure {
  st_parents : list Z;
  st_children : list (list Z);
  st_tipCount : Z;
  st_stream : sistate
}.

(** The loop [while (currParent >= 0)].  Every iteration takes at least
    two bits from the stream, which bounds the number of iterations. *)
Fixpoint read_structure (fuel : nat) (st : sistate) (parents : list Z)
    (children : list (list Z)) (addedChildren : list Z) (currParent tipCount : Z)
  : outcome structure :=
  match fuel with
  | O => Undef
  | S fuel' =>
      if currParent >=? 0 then
        '(currCount, st1) <- readShortInt st ;;
        row <- vector_of currCount 0 ;;
        let children := children ++ [row] in
        let tipCount := if currCount =? 0 then tipCount + 1 else tipCount in
        currParent <- climb (S (length parents)) parents children addedChildren
                        currParent ;;
        if currParent >=? 0 then
          let newNode := wrap32 (zlength parents) in
          row <- vget children currParent ;;
          added <- vget addedChildren currParent ;;
          row' <- vset row added newNode ;;
          children' <- vset children currParent row' ;;
          addedChildren' <- vset addedChildren currParent (added + 1) ;;
          read_structure fuel' st1 (parents ++ [currParent]) children'
            (addedChildren' ++ [0]) newNode tipCount
        else Ok (mkStructure parents children tipCount st1)
      else Ok (mkStructure parents children tipCount st)
  end.

(** The attribute table of a record or of the file header. *)
Fixpoint read_attribute_table (n : nat) (s : fstream)
  : outcome (list Attribute * fstream) :=
  match n with
  | O => Ok ([], s)
  | S n' =>
      '(name, s1) <- readMyString s ;;
      '(kind, s2) <- readInt s1 ;;
      '(more, s3) <- read_attribute_table n' s2 ;;
      Ok (mkAttribute name (kind =? 2) :: more, s3)
  end.

(** The per-node values while a record is read: [edgeLengths],
    [nodeNames] and [nodeAttributes] (one row per attribute).
    [nodeSupport] is only written, never read, and is left out. *)
Record node_values : Type := mkValues {
  edgeLengths : list double;
  nodeNames : list string;
  nodeAttributeRows : list (list attrval)
}.

Definition set_attribute (vals : node_values) (attributeIndex i : Z) (v : attrval)
  : outcome (list (list attrval)) :=
  row <- vget (nodeAttributeRows vals) attributeIndex ;;
  row' <- vset row i v ;;
  vset (nodeAttributeRows vals) attributeIndex row'.

Definition read_attribute (globalNames : bool) (names : list string)
    (attrs : list Attribute) (i : Z) (vals : node_values) (s : fstream)
  : outcome (node_values * fstream) :=
  '(attributeIndex, s1) <- readInt s ;;
  a <- vget attrs attributeIndex ;;
  let attributeName := AttributeName a in
  if IsNumeric a then
    if equalCI attributeName LENGTHATTRIBUTE then
      '(d, s2) <- readDouble s1 ;;
      lengths <- vset (edgeLengths vals) i d ;;
      rows <- set_attribute vals attributeIndex i (VDouble d) ;;
      Ok (mkValues lengths (nodeNames vals) rows, s2)
    else
      '(d, s2) <- readDouble s1 ;;
      rows <- set_attribute vals attributeIndex i (VDouble d) ;;
      Ok (mkValues (edgeLengths vals) (nodeNames vals) rows, s2)
  else if negb (equalCI attributeName NAMEATTRIBUTE) then
    '(str, s2) <- readMyString s1 ;;
    rows <- set_attribute vals attributeIndex i (VString str) ;;
    Ok (mkValues (edgeLengths vals) (nodeNames vals) rows, s2)
  else
    '(name, s2) <-
      (if negb globalNames then readMyString s1
       else
         '(b, s2) <- readByte s1 ;;
         if b =? 0 then Ok (EmptyString, s2)
         else if b <=? 254 then
           '(index, s3) <- readInt (seekg_cur s2 (-1)) ;;
           name <- vget names (index - 1) ;;
           Ok (name, s3)
         else readMyString s2) ;;
    nodeNames' <- vset (nodeNames vals) i name ;;
    rows <- set_attribute vals attributeIndex i (VString name) ;;
    Ok (mkValues (edgeLengths vals) nodeNames' rows, s2).

Fixpoint read_attributes (count : nat) (globalNames : bool) (names : list string)
    (attrs : list Attribute) (i : Z) (vals : node_values) (s : fstream)
  : outcome (node_values * fstream) :=
  match count with
  | O => Ok (vals, s)
  | S count' =>
      '(vals1, s1) <- read_attribute globalNames names attrs i vals s ;;
      read_attributes count' globalNames names attrs i vals1 s1
  end.

Fixpoint read_nodes (remaining_nodes : nat) (i : Z) (globalNames : bool)
    (names : list string) (attrs : list Attribute) (vals : node_values)
    (s : fstream) : outcome (node_values * fstream) :=
  match remaining_nodes with
  | O => Ok (vals, s)
  | S n' =>
      '(attributeCount, s1) <- readInt s ;;
      '(vals1, s2) <- read_attributes (Z.to_nat attributeCount) globalNames names
                        attrs i vals s1 ;;
      read_nodes n' (i + 1) globalNames names attrs vals1 s2
  end.

Definition as_double (v : attrval) : outcome double :=
  match v with VDouble d => Ok d | VString _ => Throw BadVariantAccess end.

Definition as_string (v : attrval) : outcome string :=
  match v with VString s => Ok s | VDouble _ => Throw BadVariantAccess end.

Fixpoint all_ok {A : Type} (l : list (outcome A)) : outcome (list A) :=
  match l with
  | [] => Ok []
  | m :: r => x <- m ;; xs <- all_ok r ;; Ok (x :: xs)
  end.

(** The values of the nodes selected by [keep], in node order. *)
Fixpoint select {A : Type} (keep : list bool) (l : list A) : list A :=
  match keep, l with
  | k :: ks, x :: xs => if k then x :: select ks xs else select ks xs
  | _, _ => []
  end.

(** One attribute's column for the tips or for the internal nodes: the
    loop over the nodes copies [nodeAttributes[j][i]] into slot
    [tipIndex] or [nonTipIndex], which count the tips and the internal
    nodes met so far. *)
Definition attribute_column (a : Attribute) (row : list attrval) (keep : list bool)
  : outcome attrvec :=
  if IsNumeric a then
    l <- all_ok (map as_double (select keep row)) ;; Ok (DoubleVec l)
  else
    l <- all_ok (map as_string (select keep row)) ;; Ok (StringVec l).

Fixpoint attribute_columns (attrs : list Attribute) (rows : list (list attrval))
    (keep : list bool) : outcome (list attrvec) :=
  match attrs, rows with
  | a :: attrs', row :: rows' =>
      col <- attribute_column a row keep ;;
      cols <- attribute_columns attrs' rows' keep ;;
      Ok (col :: cols)
  | _, _ => Ok []
  end.

(** [correspondences]: tips are numbered from 0 and internal nodes from
    [tipCount], each in the order the nodes were read. *)
Fixpoint correspondences_from (is_tip : list bool) (tipIndex nonTipIndex tipCount : Z)
  : list Z :=
  match is_tip with
  | [] => []
  | true :: r =>
      (tipIndex + 1) :: correspondences_from r (tipIndex + 1) nonTipIndex tipCount
  | false :: r =>
      (nonTipIndex + 1 + tipCount)
        :: correspondences_from r tipIndex (nonTipIndex + 1) tipCount
  end.

Fixpoint read_edges (i : Z) (parents_from_1 : list Z) (correspondences : list Z)
  : outcome (list (list Z)) :=
  match parents_from_1 with
  | [] => Ok []
  | p :: r =>
      e0 <- vget correspondences p ;;
      e1 <- vget correspondences i ;;
      more <- read_edges (i + 1) r correspondences ;;
      Ok ([e0; e1] :: more)
  end.

(** The last text attribute called "name" and the last numeric attribute
    called "support". *)
Fixpoint special_indices (attrs : list Attribute) (i nameIndex supportIndex : Z)
  : Z * Z :=
  match attrs with
  | [] => (nameIndex, supportIndex)
  | a :: r =>
      if equalCI (AttributeName a) NAMEATTRIBUTE && negb (IsNumeric a)
      then special_indices r (i + 1) i supportIndex
      else if equalCI (AttributeName a) SUPPORTATTRIBUTE && IsNumeric a
      then special_indices r (i + 1) nameIndex i
      else special_indices r (i + 1) nameIndex supportIndex
  end.

(** Node labels: the internal names when one of them is not empty,
    otherwise the printed supports when one of them is positive. *)
Definition derive_node_labels (nodeAttrs : list attrvec)
    (nameAttributeIndex supportAttributeIndex : Z) : outcome (list string * bool) :=
  found <-
    (if nameAttributeIndex >=? 0 then
       v <- vget nodeAttrs nameAttributeIndex ;;
       l <- get_strings v ;;
       Ok (existsb (fun s => negb (string_empty s)) l)
     else Ok false) ;;
  if (found : bool) then
    v <- vget nodeAttrs nameAttributeIndex ;;
    l <- get_strings v ;;
    Ok (l, true)
  else if supportAttributeIndex >=? 0 then
    v <- vget nodeAttrs supportAttributeIndex ;;
    l <- get_doubles v ;;
    if existsb double_gt0 l then Ok (map to_string_double l, true)
    else Ok ([], false)
  else Ok ([], false).

Definition readBinaryTree (file : fstream) (globalNames : bool)
    (names : list string) (attrs0 : list Attribute) : outcome (phylo * fstream) :=
  '(numAttributes, s1) <- readInt file ;;
  '(attrs, s2) <-
    (if numAttributes >? 0 then read_attribute_table (Z.to_nat numAttributes) s1
     else Ok (attrs0, s1)) ;;
  '(currByte, s3) <- readByte s2 ;;
  shape <- read_structure (S (8 * length (sdata file))) (s3, currByte, 0)
             [-1] [] [0] 0 0 ;;
  let s4 := rewind (st_stream shape) in
  let parents := st_parents shape in
  let children := st_children shape in
  let tipCount := st_tipCount shape in
  let nodeCount := wrap32 (zlength parents) in
  let vals0 :=
    mkValues (repeat nan (length parents)) (repeat EmptyString (length parents))
      (map (fun a => repeat (if IsNumeric a then VDouble nan else VString EmptyString)
                       (length parents)) attrs) in
  let '(nameAttributeIndex, supportAttributeIndex) :=
    special_indices attrs 0 (-1) (-1) in
  '(vals, s5) <- read_nodes (length parents) 0 globalNames names attrs vals0 s4 ;;
  let is_tip := map (fun row => Nat.eqb (length row) 0) children in
  let correspondences := correspondences_from is_tip (-1) (-1) tipCount in
  let tipLabels := select is_tip (nodeNames vals) in
  tipAttrs <- attribute_columns attrs (nodeAttributeRows vals) is_tip ;;
  internalNodeAttributes <-
    attribute_columns attrs (nodeAttributeRows vals) (map negb is_tip) ;;
  edges <- read_edges 1 (tl parents) correspondences ;;
  let correspEdgeLengths := tl (edgeLengths vals) in
  rootEdge <- vget (edgeLengths vals) 0 ;;
  '(labels, hasLabel) <-
    derive_node_labels internalNodeAttributes nameAttributeIndex
      supportAttributeIndex ;;
  Ok (mkPhylo (nodeCount - tipCount) rootEdge edges tipLabels labels
        correspEdgeLengths tipAttrs internalNodeAttributes attrs
        (existsb (fun d => negb (isnan d)) correspEdgeLengths) hasLabel,
      s5).

(** ** Whole files ([readBinaryTrees]) *)

Definition hasValidTrailer (file : fstream) : bool * fstream :=
  let currPos := tellg file in
  let s1 := seekg_end file (-4) in
  let (trailer, s2) := readBytes s1 4 in
  let s3 := seekg s2 currPos in
  (match trailer with
   | [t0; t1; t2; t3] => (t0 =? 0x45) && (t1 =? 0x4e) && (t2 =? 0x44) && (t3 =? 0xff)
   | _ => false
   end, s3).

Fixpoint read_addresses (n : nat) (s : fstream) : list Z * fstream :=
  match n with
  | O => ([], s)
  | S n' =>
      let (a, s1) := readInt64 s in
      let (more, s2) := read_addresses n' s1 in
      (a :: more, s2)
  end.

Fixpoint read_names (n : nat) (s : fstream) : outcome (list string * fstream) :=
  match n with
  | O => Ok ([], s)
  | S n' =>
      '(name, s1) <- readMyString s ;;
      '(more, s2) <- read_names n' s1 ;;
      Ok (name :: more, s2)
  end.

(** The first attribute called "treename", of either kind. *)
Fixpoint treeNameIndex_from (j : Z) (attrs : list Attribute) : Z :=
  match attrs with
  | [] => -1
  | a :: r =>
      if equalCI (AttributeName a) TREENAMEATTRIBUTE then j
      else treeNameIndex_from (j + 1) r
  end.

(** The name of the [ordinal]-th tree read: its root's "TreeName" when
    there is one and it is not empty, "tree<ordinal>" otherwise. *)
Definition binary_tree_name (tree : phylo) (ordinal : Z) : outcome string :=
  let treeName := String.append "tree" (to_string_int ordinal) in
  let treeNameIndex := treeNameIndex_from 0 (attributes tree) in
  if (treeNameIndex >=? 0) && (0 <? zlength (nodeAttributes tree)) then
    v <- vget (nodeAttributes tree) treeNameIndex ;;
    l <- get_strings v ;;
    root <- vget l 0 ;;
    if negb (string_empty root) then Ok root else Ok treeName
  else Ok treeName.

(** The loop over the recorded addresses. *)
Fixpoint read_at_addresses (addresses : list Z) (i : Z) (file : fstream)
    (globalNames : bool) (allNames : list string) (allAttributes : list Attribute)
  : outcome (list phylo * list string) :=
  match addresses with
  | [] => Ok ([], [])
  | address :: r =>
      '(tree, s1) <- readBinaryTree (seekg file address) globalNames allNames
                       allAttributes ;;
      treeName <- binary_tree_name tree (i + 1) ;;
      '(more, moreNames) <- read_at_addresses r (i + 1) s1 globalNames allNames
                              allAttributes ;;
      Ok (tree :: more, treeName :: moreNames)
  end.

(** The recovery loop [while (!error)]: whatever [readBinaryTree] throws
    is caught and ends the loop; the name of a tree is computed outside
    the handler.  A record takes at least two bytes, which bounds the
    number of iterations. *)
Fixpoint read_sequentially (fuel : nat) (i : Z) (file : fstream)
    (globalNames : bool) (allNames : list string) (allAttributes : list Attribute)
  : outcome (list phylo * list string) :=
  match fuel with
  | O => Undef
  | S fuel' =>
      match readBinaryTree file globalNames allNames allAttributes with
      | Throw _ => Ok ([], [])
      | Undef => Undef
      | Ok (tree, s1) =>
          treeName <- binary_tree_name tree (i + 1) ;;
          '(more, moreNames) <- read_sequentially fuel' (i + 1) s1 globalNames
                                  allNames allAttributes ;;
          Ok (tree :: more, treeName :: moreNames)
      end
  end.

(** The shared tables that follow the header byte. *)
Definition read_global_tables (s5 : fstream) (globalNames globalAttributes : bool)
  : outcome (list string * list Attribute * fstream) :=
  '(allNames, s6) <-
    (if globalNames then
       '(numNames, t1) <- readInt s5 ;;
       if numNames <? 0 then Throw LengthError
       else read_names (Z.to_nat numNames) t1
     else Ok ([], s5)) ;;
  '(allAttributes, s7) <-
    (if globalAttributes then
       '(numAttributes, t1) <- readInt s6 ;;
       if numAttributes <? 0 then Throw LengthError
       else read_attribute_table (Z.to_nat numAttributes) t1
     else Ok ([], s6)) ;;
  Ok (allNames, allAttributes, s7).

(** The result of a read: the trees and the warnings raised. *)
Definition readBinaryTrees (file : fstream) : outcome (multiPhylo * list string) :=
  let (header, s1) := readBytes file 4 in
  if negb (match header with
           | [h0; h1; h2; h3] =>
               (h0 =? 0x23) && (h1 =? 0x54) && (h2 =? 0x52) && (h3 =? 0x45)
           | _ => false
           end)
  then Throw (RcppStop "Invalid file header!")
  else
    '(headerByte, s2) <- readByte s1 ;;
    if negb (Z.land headerByte 0xfc =? 0) then Throw (RcppStop "Invalid file header!")
    else
      let globalNames := negb (Z.land headerByte 0x01 =? 0) in
      let globalAttributes := negb (Z.land headerByte 0x02 =? 0) in
      let (validTrailer, s3) := hasValidTrailer s2 in
      '(treeAddresses, s4) <-
        (if (validTrailer : bool) then
           let (labelAddress, t1) := readInt64 (seekg_end s3 (-12)) in
           '(numOfTrees, t2) <- readInt (seekg t1 labelAddress) ;;
           if numOfTrees <? 0 then Throw LengthError
           else Ok (read_addresses (Z.to_nat numOfTrees) t2)
         else Ok ([], s3)) ;;
      '(allNames, allAttributes, s7) <-
        read_global_tables (seekg s4 5) globalNames globalAttributes ;;
      if (validTrailer : bool) then
        '(parsedTrees, names) <- read_at_addresses treeAddresses 0 s7 globalNames
                                   allNames allAttributes ;;
        Ok (mkMultiPhylo parsedTrees names, [])
      else
        '(parsedTrees, names) <- read_sequentially (S (length (sdata file))) 0 s7
                                   globalNames allNames allAttributes ;;
        Ok (mkMultiPhylo parsedTrees names, ["Invalid file trailer!"%string]).

(** * Newick-with-attributes: input side ([read_nwka.cpp]) *)

(** [std::isspace] in the "C" locale. *)
Definition isspace (c : ascii) : bool :=
  let n := char_code c in ((9 <=? n) && (n <=? 13)) || (n =? 32).

(** The value [-1] returned as a [char] at the end of the input. *)
Definition char_eof : ascii := char_of_code 255.

Definition is_char (c : ascii) (lit : string) : bool :=
  match lit with
  | String l EmptyString => char_eqb c l
  | _ => false
  end.

Definition string_snoc (s : string) (c : ascii) : string :=
  String.append s (String c EmptyString).

Fixpoint ltrim (s : string) : string :=
  match s with
  | String c r => if isspace c then ltrim r else s
  | EmptyString => EmptyString
  end.

Fixpoint rtrim (s : string) : string :=
  match s with
  | EmptyString => EmptyString
  | String c r =>
      match rtrim r with
      | EmptyString => if isspace c then EmptyString else String c EmptyString
      | r' => String c r'
      end
  end.

Definition trim (s : string) : string := rtrim (ltrim s).

Fixpoint last_char (s : string) : option ascii :=
  match s with
  | EmptyString => None
  | String c EmptyString => Some c
  | String _ r => last_char r
  end.

Definition first_char (s : string) : option ascii :=
  match s with
  | EmptyString => None
  | String c _ => Some c
  end.

Definition starts_with (s : string) (c : ascii) : bool :=
  match first_char s with Some x => char_eqb x c | None => false end.

Definition ends_with (s : string) (c : ascii) : bool :=
  match last_char s with Some x => char_eqb x c | None => false end.

(** [s.substr (pos, n)] for [pos <= s.size ()]. *)
Definition substr (s : string) (pos n : nat) : string := String.substring pos n s.

Definition drop_last (s : string) : string := substr s 0 (String.length s - 1).

(** The test used throughout [parseAttributes]: the value starts and
    ends with a double quote, or starts and ends with an apostrophe. *)
Definition fully_quoted (value : string) : bool :=
  (starts_with value dquote_char && ends_with value dquote_char)
  || (starts_with value "'" && ends_with value "'").

(** [value.substr (1, value.length () - 2)] *)
Definition strip_quotes (value : string) : string :=
  match String.length value with
  | S O => EmptyString
  | n => substr value 1 (n - 2)
  end.

(** ** [tryParse]

    The [double] version accepts a string that [std::stod] converts
    entirely; it yields NaN otherwise.  The [int] version is only applied
    to strings of at most one character, on which [std::stoi] succeeds
    exactly for a digit. *)
Definition tryParse (val : string) : bool * double :=
  if Nat.eqb (String.length val) 0 then (false, nan)
  else match stod val with
       | Some (parsed, p) =>
           if Nat.eqb p (String.length val) then (true, parsed) else (false, nan)
       | None => (false, nan)
       end.

Definition is_digit (c : ascii) : bool :=
  let n := char_code c in (48 <=? n) && (n <=? 57).

Definition tryParse_int_char (val : string) : bool :=
  match val with
  | String c EmptyString => is_digit c
  | _ => false
  end.

(** ** The tokenizer over a string ([nextToken]) *)

Record token_state : Type := mkTok {
  srPosition : nat;
  escaping : bool;
  escaped : bool;
  openQuotes : bool;
  openApostrophe : bool;
  eof : bool
}.

Definition tok0 (pos : nat) : token_state := mkTok pos false false false false false.

(** The loop skipping white space outside quotes: the character kept and
    the position after it, or [None] at the end of the input. *)
Fixpoint skip_spaces (fuel : nat) (source : string) (pos : nat) (c : ascii)
  : option (ascii * nat) :=
  if isspace c then
    match fuel with
    | O => None
    | S fuel' =>
        match String.get pos source with
        | None => None
        | Some c' => skip_spaces fuel' source (S pos) c'
        end
    end
  else Some (c, pos).

Definition at_end (t : token_state) : ascii * token_state :=
  (char_eof, mkTok (srPosition t) (escaping t) false (openQuotes t)
               (openApostrophe t) true).

Definition nextToken (source : string) (t : token_state) : ascii * token_state :=
  match String.get (srPosition t) source with
  | None => at_end t
  | Some c =>
      let pos := S (srPosition t) in
      if negb (escaping t) then
        if negb (openQuotes t) && negb (openApostrophe t) then
          match skip_spaces (String.length source) source pos c with
          | None =>
              (char_eof, mkTok (String.length source) false false false false true)
          | Some (c, pos) =>
              if is_char c "\" then (c, mkTok pos true false false false false)
              else if is_char c dquote then (c, mkTok pos false false true false false)
              else if is_char c "'" then (c, mkTok pos false false false true false)
              else (c, mkTok pos false false false false false)
          end
        else if openQuotes t then
          if is_char c dquote then
            (c, mkTok pos false false false (openApostrophe t) false)
          else if is_char c "\" then
            (c, mkTok pos true false true (openApostrophe t) false)
          else (c, mkTok pos false false true (openApostrophe t) false)
        else
          if is_char c "'" then (c, mkTok pos false false false false false)
          else if is_char c "\" then (c, mkTok pos true false false true false)
          else (c, mkTok pos false false false true false)
      else (c, mkTok pos false true (openQuotes t) (openApostrophe t) false)
  end.

(** ** Node attributes ([parseAttributes]) *)

(** [std::map<std::string, std::variant<std::string, double>, ci_less>] *)
Definition attribute_map : Type := list (string * attrval).

Definition containsKey (m : attribute_map) (key : string) : bool :=
  match map_find ci_less m key with Some _ => true | None => false end.

(** [!containsKey (m, key) || std::get<std::string> (m[key]).empty ()] *)
Definition string_unset (m : attribute_map) (key : string) : outcome bool :=
  match map_find ci_less m key with
  | None => Ok true
  | Some v => s <- as_string v ;; Ok (string_empty s)
  end.

(** [!containsKey (m, key) || std::isnan (std::get<double> (m[key]))] *)
Definition double_unset (m : attribute_map) (key : string) : outcome bool :=
  match map_find ci_less m key with
  | None => Ok true
  | Some v => d <- as_double v ;; Ok (isnan d)
  end.

(** The first of "Unknown", "Unknown2", "Unknown3", ... that is not a
    key of the map; a map has finitely many keys, which bounds the
    search. *)
Fixpoint unknown_from (fuel : nat) (m : attribute_map) (ind : Z) : string :=
  let newName := String.append "Unknown" (to_string_int ind) in
  match fuel with
  | O => newName
  | S fuel' =>
      if containsKey m newName then unknown_from fuel' m (ind + 1) else newName
  end.

Definition unknown_name (m : attribute_map) : string :=
  if containsKey m "Unknown" then unknown_from (length m) m 2 else "Unknown"%string.

Record attr_state : Type := mkAttrState {
  tok : token_state;
  attributeValue : string;
  attributeName : string;
  openSquareCount : Z;
  openCurlyCount : Z;
  nameFinished : bool;
  lastSeparator : ascii;
  start : bool;
  closedOuterBrackets : bool;
  withinBrackets : bool;
  expectedClosingBrackets : option ascii;
  attrs : attribute_map
}.

Definition comma : ascii := ","%char.

Definition attr_state0 (t : token_state) (m : attribute_map) : attr_state :=
  mkAttrState t EmptyString EmptyString 0 0 false comma true false false None m.

(** The statements repeated in the three branches of the loop:
    leaving a closed bracket block, and noting that a block is open. *)
Definition bracket_flags (closed : bool) (expected : option ascii)
    (start within : bool) : bool * option ascii * bool * bool :=
  let '(closed1, expected1, start1, within1) :=
    if closed then (false, None, true, false)
    else (closed, expected, start, within) in
  let within2 :=
    match expected1 with Some _ => true | None => within1 end in
  (closed1, expected1, start1, within2).

(** A completed [name=value] pair. *)
Definition store_pair (m : attribute_map) (rawName value : string)
  : outcome attribute_map :=
  let name := if starts_with rawName "&" then substr rawName 1 (String.length rawName)
              else rawName in
  let name := if starts_with name "!" then substr name 1 (String.length name)
              else name in
  if equalCI name NAMEATTRIBUTE then
    let value := if fully_quoted value then strip_quotes value else value in
    Ok (map_assign ci_less m "Name"%string (VString value))
  else if equalCI name SUPPORTATTRIBUTE then
    match stod value with
    | Some (d, _) => Ok (map_assign ci_less m "Support"%string (VDouble d))
    | None => Throw InvalidArgument
    end
  else if equalCI name LENGTHATTRIBUTE then
    match stod value with
    | Some (d, _) => Ok (map_assign ci_less m "Length"%string (VDouble d))
    | None => Throw InvalidArgument
    end
  else
    let (ok, result) := tryParse value in
    if ok then Ok (map_assign ci_less m name (VDouble result))
    else
      let value := if fully_quoted value then strip_quotes value else value in
      Ok (map_assign ci_less m name (VString value)).

(** A token without a value, by the separator before it. *)
Definition store_token (m : attribute_map) (token : string) (lastSeparator : ascii)
    (childCount : Z) (withinBrackets closedOuterBrackets : bool)
  : outcome attribute_map :=
  if is_char lastSeparator ":" then
    let (ok, result) := tryParse token in
    if ok then Ok (map_assign ci_less m "Length"%string (VDouble result))
    else Ok (map_assign ci_less m (unknown_name m) (VString token))
  else if is_char lastSeparator "/" then
    let (ok, result) := tryParse token in
    if ok then Ok (map_assign ci_less m "Support"%string (VDouble result))
    else Ok (map_assign ci_less m (unknown_name m) (VString token))
  else if is_char lastSeparator "," then
    let quoted := fully_quoted token in
    let value := if quoted then strip_quotes token else token in
    isName <-
      (if childCount =? 0 then
         noName <- string_unset m "Name" ;;
         if (noName : bool) then
           noLength <- double_unset m "Length" ;;
           if (noLength : bool) then
             noSupport <- double_unset m "Support" ;;
             Ok (if (noSupport : bool) then true else quoted)
           else Ok quoted
         else Ok quoted
       else Ok quoted) ;;
    noName <- string_unset m "Name" ;;
    if noName && negb withinBrackets && negb closedOuterBrackets
       && (isName || negb (tryParse_int_char (substr value 0 1)))
    then Ok (map_assign ci_less m "Name"%string (VString value))
    else
      noSupport <- double_unset m "Support" ;;
      let (ok, result) := tryParse value in
      if noSupport && ok then Ok (map_assign ci_less m "Support"%string (VDouble result))
      else Ok (map_assign ci_less m (unknown_name m) (VString value))
  else Ok m.

(** One iteration of the loop [while (!*eof)]. *)
Definition attr_step (source : string) (childCount : Z) (st : attr_state)
  : outcome attr_state :=
  let '(c2, t) :=
    if negb (closedOuterBrackets st) then nextToken source (tok st)
    else (comma, tok st) in
  let '(c2, expected, start1) :=
    if start st && is_char c2 "[" then (comma, Some "]"%char, false)
    else (c2, expectedClosingBrackets st, start st) in
  let plain := negb (escaped t) && negb (openQuotes t) && negb (openApostrophe t) in
  if is_char c2 "=" && plain then
    let '(closed, expected, start2, within) :=
      bracket_flags (closedOuterBrackets st) expected start1 (withinBrackets st) in
    Ok (mkAttrState t (attributeValue st) (attributeName st) (openSquareCount st)
          (openCurlyCount st) true (lastSeparator st) start2 closed within expected
          (attrs st))
  else if (eof t
           || ((is_char c2 ":" || is_char c2 "/" || is_char c2 ",")
               && (openSquareCount st =? 0) && (openCurlyCount st =? 0)))
          && plain then
    m <-
      (if negb (string_empty (attributeValue st)) then
         store_pair (attrs st) (attributeName st) (attributeValue st)
       else if negb (string_empty (attributeName st)) then
         store_token (attrs st) (attributeName st) (lastSeparator st) childCount
           (withinBrackets st) (closedOuterBrackets st)
       else Ok (attrs st)) ;;
    let '(closed, expected, start2, within) :=
      bracket_flags (closedOuterBrackets st) expected start1 (withinBrackets st) in
    Ok (mkAttrState t EmptyString EmptyString (openSquareCount st) (openCurlyCount st)
          false c2 start2 closed within expected m)
  else
    let '(closed, expected, start2, within) :=
      bracket_flags (closedOuterBrackets st) expected start1 (withinBrackets st) in
    let '(squares, curlies, closed) :=
      if is_char c2 "[" && plain then (openSquareCount st + 1, openCurlyCount st, closed)
      else if is_char c2 "]" && plain then
        if openSquareCount st >? 0 then
          (openSquareCount st - 1, openCurlyCount st, closed)
        else if match expected with Some e => char_eqb e c2 | None => false end
        then (openSquareCount st, openCurlyCount st, true)
        else (openSquareCount st, openCurlyCount st, closed)
      else if is_char c2 "{" && plain then
        (openSquareCount st, openCurlyCount st + 1, closed)
      else if is_char c2 "}" && plain then
        if openCurlyCount st >? 0 then
          (openSquareCount st, openCurlyCount st - 1, closed)
        else (openSquareCount st, openCurlyCount st, closed)
      else (openSquareCount st, openCurlyCount st, closed) in
    let '(name, value) :=
      if negb closed then
        if negb (nameFinished st) then
          (string_snoc (attributeName st) c2, attributeValue st)
        else (attributeName st, string_snoc (attributeValue st) c2)
      else (attributeName st, attributeValue st) in
    Ok (mkAttrState t value name squares curlies (nameFinished st) (lastSeparator st)
          start2 closed within expected (attrs st)).

(** The loop: an iteration takes a character from the input unless a
    bracket block has just been closed, and the iteration after that one
    takes a character again. *)
Fixpoint attr_loop (fuel : nat) (source : string) (childCount : Z) (st : attr_state)
  : outcome attr_state :=
  if eof (tok st) then Ok st
  else
    match fuel with
    | O => Undef
    | S fuel' =>
        st' <- attr_step source childCount st ;;
        attr_loop fuel' source childCount st'
    end.

(** The value of "prob" becomes the support when none was given. *)
Definition prob_support (m : attribute_map) : outcome attribute_map :=
  noSupport <- double_unset m "Support" ;;
  if (noSupport : bool) then
    match map_find ci_less m "prob"%string with
    | Some (VDouble d) => Ok (map_assign ci_less m "Support"%string (VDouble d))
    | Some (VString s) =>
        Ok (map_assign ci_less m "Support"%string (VDouble (snd (tryParse s))))
    | None => Ok m
    end
  else Ok m.

(** The tokenizer flags are local to [parseAttributes]; the position and
    the end-of-input flag belong to the caller. *)
Definition parseAttributes (sr : string) (srPos : nat) (eof0 : bool)
    (m : attribute_map) (childCount : Z) : outcome (nat * bool * attribute_map) :=
  st <- attr_loop (2 * String.length sr + 2) sr childCount
          (attr_state0 (mkTok srPos false false false false eof0) m) ;;
  m' <- prob_support (attrs st) ;;
  Ok (srPosition (tok st), eof (tok st), m').

(** ** The tree grammar ([parseNWKA]) *)

(** The arrays filled while a tree is parsed. *)
Record parse_state : Type := mkParse {
  p_currIndex : Z;
  allParents : list Z;
  allChildren : list (list Z);
  allAttributes : list attribute_map;
  p_tipCount : Z
}.

Definition parse0 : parse_state := mkParse 0 [] [] [] 0.

Record scan : Type := mkScanner {
  sc_tok : token_state;
  closed : bool;
  openCount : Z;
  sc_squares : Z;
  sc_curlies : Z;
  commas : list nat;
  position : nat;
  childrenBuilder : string
}.

(** One iteration of the loop that looks for the closing parenthesis. *)
Definition scan_step (source : string) (sc : scan) : scan :=
  let (c, t) := nextToken source (sc_tok sc) in
  let '(closed', count', squares', curlies', commas') :=
    if negb (escaped t) && negb (openQuotes t) && negb (openApostrophe t) then
      if is_char c "(" then
        (false, openCount sc + 1, sc_squares sc, sc_curlies sc, commas sc)
      else if is_char c ")" then
        if openCount sc >? 0 then
          (false, openCount sc - 1, sc_squares sc, sc_curlies sc, commas sc)
        else (true, openCount sc, sc_squares sc, sc_curlies sc, commas sc)
      else if is_char c "[" then
        (false, openCount sc, sc_squares sc + 1, sc_curlies sc, commas sc)
      else if is_char c "]" then
        (false, openCount sc, sc_squares sc - 1, sc_curlies sc, commas sc)
      else if is_char c "{" then
        (false, openCount sc, sc_squares sc, sc_curlies sc + 1, commas sc)
      else if is_char c "}" then
        (false, openCount sc, sc_squares sc, sc_curlies sc - 1, commas sc)
      else if is_char c "," then
        if (openCount sc =? 0) && (sc_squares sc =? 0) && (sc_curlies sc =? 0)
        then (false, openCount sc, sc_squares sc, sc_curlies sc,
              commas sc ++ [position sc])
        else (false, openCount sc, sc_squares sc, sc_curlies sc, commas sc)
      else (false, openCount sc, sc_squares sc, sc_curlies sc, commas sc)
    else (false, openCount sc, sc_squares sc, sc_curlies sc, commas sc) in
  if negb closed' && negb (eof t) then
    mkScanner t closed' count' squares' curlies' commas' (S (position sc))
      (string_snoc (childrenBuilder sc) c)
  else
    mkScanner t closed' count' squares' curlies' commas' (position sc)
      (childrenBuilder sc).

Fixpoint scan_loop (fuel : nat) (source : string) (sc : scan) : outcome scan :=
  if closed sc || eof (sc_tok sc) then Ok sc
  else
    match fuel with
    | O => Undef
    | S fuel' => scan_loop fuel' source (scan_step source sc)
    end.

(** The children between the recorded commas. *)
Fixpoint split_at (childrenString : string) (from : nat) (commas : list nat)
  : list string :=
  match commas with
  | [] => [substr childrenString from (String.length childrenString - from)]
  | c :: rest =>
      substr childrenString from (c - from) :: split_at childrenString (S c) rest
  end.

Definition split_children (sc : scan) : list string :=
  match commas sc with
  | [] => [childrenBuilder sc]
  | _ => split_at (childrenBuilder sc) 0 (commas sc)
  end.

(** [trim] and the removal of a final semicolon.  On a string that is
    empty after trimming the test compares [npos] with [npos] and the
    erase has no defined behaviour. *)
Definition prepare (source : string) : outcome string :=
  let s := trim source in
  match s with
  | EmptyString => Undef
  | _ => if ends_with s ";" then Ok (drop_last s) else Ok s
  end.

(** A child string is shorter than its parent's, which bounds the depth
    of the recursion by the length of the input. *)
Fixpoint parseNWKA (fuel : nat) (source0 : string) (ps : parse_state) (parent : Z)
  : outcome (Z * parse_state) :=
  match fuel with
  | O => Undef
  | S fuel' =>
      source <- prepare source0 ;;
      if starts_with source "(" then
        sc <- scan_loop (S (String.length source)) source
                (mkScanner (tok0 1) false 0 0 0 [] 0 EmptyString) ;;
        let children := split_children sc in
        let myIndex := p_currIndex ps in
        '(_, _, m) <- parseAttributes source (srPosition (sc_tok sc))
                        (eof (sc_tok sc)) [] (zlength children) ;;
        let ps1 :=
          mkParse (p_currIndex ps + 1) (allParents ps ++ [parent])
            (allChildren ps ++ [[]]) (allAttributes ps ++ [m]) (p_tipCount ps) in
        (fix each (cs : list string) (ps : parse_state) : outcome (Z * parse_state) :=
           match cs with
           | [] => Ok (myIndex, ps)
           | child :: cs' =>
               '(childInd, ps2) <- parseNWKA fuel' child ps myIndex ;;
               row <- vget (allChildren ps2) myIndex ;;
               rows <- vset (allChildren ps2) myIndex (row ++ [childInd]) ;;
               each cs' (mkParse (p_currIndex ps2) (allParents ps2) rows
                           (allAttributes ps2) (p_tipCount ps2))
           end) children ps1
      else
        let myIndex := p_currIndex ps in
        '(_, _, m) <- parseAttributes source 0 false [] 0 ;;
        Ok (myIndex,
            mkParse (p_currIndex ps + 1) (allParents ps ++ [parent])
              (allChildren ps ++ [[]]) (allAttributes ps ++ [m]) (p_tipCount ps + 1))
  end.

(** ** Conversion to the tree model ([convertToPhylo]) *)

(** The edge length recorded for a parsed node: its "Length" when it is a
    number and not NaN. *)
Definition node_length (m : attribute_map) : option double :=
  match map_find ci_less m "Length"%string with
  | Some (VDouble d) => if isnan d then None else Some d
  | _ => None
  end.

(** The attribute columns under construction. *)
Record columns : Type := mkColumns {
  c_attributes : list Attribute;
  c_tips : list attrvec;
  c_nodes : list attrvec
}.

Definition set_in_column (cols : list attrvec) (attrIndex slot : Z) (v : attrval)
  : outcome (list attrvec) :=
  col <- vget cols attrIndex ;;
  match v with
  | VDouble d =>
      l <- get_doubles col ;; l' <- vset l slot d ;; vset cols attrIndex (DoubleVec l')
  | VString s =>
      l <- get_strings col ;; l' <- vset l slot s ;; vset cols attrIndex (StringVec l')
  end.

(** The slot of an attribute, added with empty columns when it is new. *)
Definition attribute_slot (cols : columns) (attr : Attribute) (tipCount nodeCount : Z)
  : outcome (Z * columns) :=
  let attrIndex := attributeIndex (c_attributes cols) attr in
  if attrIndex <? 0 then
    tipsCol <- (if IsNumeric attr then l <- vector_of tipCount nan ;; Ok (DoubleVec l)
                else l <- vector_of tipCount EmptyString ;; Ok (StringVec l)) ;;
    nodesCol <- (if IsNumeric attr then l <- vector_of nodeCount nan ;; Ok (DoubleVec l)
                 else l <- vector_of nodeCount EmptyString ;; Ok (StringVec l)) ;;
    Ok (zlength (c_attributes cols),
        mkColumns (c_attributes cols ++ [attr]) (c_tips cols ++ [tipsCol])
          (c_nodes cols ++ [nodesCol]))
  else Ok (attrIndex, cols).

Definition is_numeric (v : attrval) : bool :=
  match v with VDouble _ => true | VString _ => false end.

(** The loop over the attributes of an internal node, in the order of
    the map. *)
Fixpoint store_node_attributes (m : attribute_map) (cols : columns)
    (slot tipCount nodeCount : Z) : outcome columns :=
  match m with
  | [] => Ok cols
  | (name, v) :: r =>
      '(attrIndex, cols1) <-
        attribute_slot cols (mkAttribute name (is_numeric v)) tipCount nodeCount ;;
      nodes <- set_in_column (c_nodes cols1) attrIndex slot v ;;
      store_node_attributes r
        (mkColumns (c_attributes cols1) (c_tips cols1) nodes) slot tipCount nodeCount
  end.

(** The same loop for a tip; a text attribute called "name" is also the
    tip label. *)
Fixpoint store_tip_attributes (m : attribute_map) (cols : columns)
    (labels : list string) (slot tipCount nodeCount : Z)
  : outcome (columns * list string) :=
  match m with
  | [] => Ok (cols, labels)
  | (name, v) :: r =>
      labels1 <-
        (match v with
         | VString s =>
             if equalCI name NAMEATTRIBUTE then vset labels slot s else Ok labels
         | VDouble _ => Ok labels
         end) ;;
      '(attrIndex, cols1) <-
        attribute_slot cols (mkAttribute name (is_numeric v)) tipCount nodeCount ;;
      tips <- set_in_column (c_tips cols1) attrIndex slot v ;;
      store_tip_attributes r
        (mkColumns (c_attributes cols1) tips (c_nodes cols1)) labels1 slot
        tipCount nodeCount
  end.

Record convert_state : Type := mkConvert {
  cv_edge : list (list Z);
  cv_edgeLength : list double;
  cv_hasEdgeLength : bool;
  cv_tipLabel : list string;
  cv_columns : columns;
  nodeCorresp : list Z;
  cv_tipIndex : Z;
  cv_nonTipIndex : Z
}.

(** One iteration of the loop over the parsed nodes. *)
Definition convert_node (i : Z) (parent : Z) (children : list Z) (m : attribute_map)
    (tipCount nodeCount : Z) (cv : convert_state) : outcome convert_state :=
  let internal := (0 <? zlength children) in
  let tipIndex := if internal then cv_tipIndex cv else cv_tipIndex cv + 1 in
  let nonTipIndex := if internal then cv_nonTipIndex cv + 1 else cv_nonTipIndex cv in
  let number := if internal then nonTipIndex + tipCount else tipIndex in
  corresp <- vset (nodeCorresp cv) i number ;;
  '(edges, lengths, hasLength) <-
    (if parent >=? 0 then
       from <- vget corresp parent ;;
       edges <- vset (cv_edge cv) (i - 1) [wrap32 (from - 1); wrap32 (number - 1)] ;;
       match node_length m with
       | Some d =>
           lengths <- vset (cv_edgeLength cv) (i - 1) d ;;
           Ok (edges, lengths, true)
       | None =>
           lengths <- vset (cv_edgeLength cv) (i - 1) nan ;;
           Ok (edges, lengths, cv_hasEdgeLength cv)
       end
     else Ok (cv_edge cv, cv_edgeLength cv, cv_hasEdgeLength cv)) ;;
  if internal then
    cols <- store_node_attributes m (cv_columns cv) (nonTipIndex - 1) tipCount
              nodeCount ;;
    Ok (mkConvert edges lengths hasLength (cv_tipLabel cv) cols corresp tipIndex
          nonTipIndex)
  else
    '(cols, labels) <- store_tip_attributes m (cv_columns cv) (cv_tipLabel cv)
                         (tipIndex - 1) tipCount nodeCount ;;
    Ok (mkConvert edges lengths hasLength labels cols corresp tipIndex nonTipIndex).

Fixpoint convert_nodes (i : Z) (parents : list Z) (children : list (list Z))
    (maps : list attribute_map) (tipCount nodeCount : Z) (cv : convert_state)
  : outcome convert_state :=
  match parents with
  | [] => Ok cv
  | parent :: parents' =>
      row <- vget children i ;;
      m <- vget maps i ;;
      cv1 <- convert_node i parent row m tipCount nodeCount cv ;;
      convert_nodes (i + 1) parents' children maps tipCount nodeCount cv1
  end.

Definition convertToPhylo (ps : list Z * list (list Z) * list attribute_map)
    (tipCount : Z) : outcome phylo :=
  let '(parents, children, maps) := ps in
  let nodeCount := wrap32 (zlength parents - tipCount) in
  root <- vget maps 0 ;;
  let rootEdge := match node_length root with Some d => d | None => nan end in
  edgeLength0 <- vector_of (zlength parents - 1) 0 ;;
  edge0 <- vector_of (zlength parents - 1) ([] : list Z) ;;
  tipLabel0 <- vector_of tipCount EmptyString ;;
  nodeLabel0 <- vector_of nodeCount EmptyString ;;
  cv <- convert_nodes 0 parents children maps tipCount nodeCount
          (mkConvert edge0 edgeLength0 false tipLabel0 (mkColumns [] [] [])
             (repeat 0 (length parents)) 0 0) ;;
  let cols := cv_columns cv in
  let nameAttributeIndex :=
    attributeIndex (c_attributes cols) (mkAttribute "Name" false) in
  let supportAttributeIndex :=
    attributeIndex (c_attributes cols) (mkAttribute "Support" true) in
  '(labels, hasLabel) <-
    derive_node_labels (c_nodes cols) nameAttributeIndex supportAttributeIndex ;;
  Ok (mkPhylo nodeCount rootEdge (cv_edge cv) (cv_tipLabel cv)
        (if (hasLabel : bool) then labels else nodeLabel0)
        (cv_edgeLength cv) (c_tips cols) (c_nodes cols) (c_attributes cols)
        (cv_hasEdgeLength cv) hasLabel).

(** ** One tree, several trees *)

(** [source->find ("(", 0)] *)
Fixpoint find_paren (s : string) (i : nat) : option nat :=
  match s with
  | EmptyString => None
  | String c r => if is_char c "(" then Some i else find_paren r (S i)
  end.

Definition parseNWKAStringOneTree (source : string) : outcome phylo :=
  let '(treeName, source1) :=
    match find_paren source 0 with
    | Some index =>
        (substr source 0 index, substr source index (String.length source - index))
    | None => (EmptyString, source)
    end in
  '(_, ps) <- parseNWKA (S (String.length source1)) source1 parse0 (-1) ;;
  root <- vget (allAttributes ps) 0 ;;
  let root' :=
    if negb (containsKey root "TreeName") && negb (string_empty treeName)
    then map_assign ci_less root "TreeName"%string (VString treeName)
    else root in
  maps <- vset (allAttributes ps) 0 root' ;;
  convertToPhylo (allParents ps, allChildren ps, maps) (p_tipCount ps).

(** The characters up to the next semicolon outside quotes. *)
Fixpoint statement_loop (fuel : nat) (source : string) (t : token_state)
    (sb : string) : string * token_state :=
  match fuel with
  | O => (sb, t)
  | S fuel' =>
      let (c, t1) := nextToken source t in
      if negb (eof t1)
         && negb (is_char c ";" && negb (escaped t1) && negb (openQuotes t1)
                  && negb (openApostrophe t1))
      then statement_loop fuel' source t1 (string_snoc sb c)
      else (sb, t1)
  end.

(** The loop [while (!eof)] of [parseNWKAString]: a tree that fails to
    parse raises a warning and ends the loop. *)
Fixpoint nwka_trees (fuel : nat) (source : string) (t : token_state)
    (acc : multiPhylo) : outcome (multiPhylo * list string) :=
  if eof t then Ok (acc, [])
  else
    match fuel with
    | O => Undef
    | S fuel' =>
        let (treeString, t1) :=
          statement_loop (S (String.length source)) source t EmptyString in
        if 0 <? strlen treeString then
          match parseNWKAStringOneTree treeString with
          | Ok tree =>
              let treeNameIndex :=
                attributeIndex (attributes tree) (mkAttribute "TreeName" false) in
              match
                (if treeNameIndex <? 0 then
                   Ok (String.append "tree"
                         (to_string_int (zlength (treeNames acc) + 1)))
                 else
                   v <- vget (nodeAttributes tree) treeNameIndex ;;
                   l <- get_strings v ;;
                   vget l 0)
              with
              | Ok name =>
                  nwka_trees fuel' source t1
                    (mkMultiPhylo (trees acc ++ [tree]) (treeNames acc ++ [name]))
              | Throw _ =>
                  Ok (mkMultiPhylo (trees acc ++ [tree]) (treeNames acc),
                      [String.append "An error occurred while parsing tree #"
                         (String.append (to_string_int (zlength (trees acc) + 2)) "!")])
              | Undef => Undef
              end
          | Throw _ =>
              Ok (acc,
                  [String.append "An error occurred while parsing tree #"
                     (String.append (to_string_int (zlength (trees acc) + 1)) "!")])
          | Undef => Undef
          end
        else nwka_trees fuel' source t1 acc
    end.

Definition parseNWKAString (source : string) : outcome (multiPhylo * list string) :=
  nwka_trees (S (String.length source)) source (tok0 0) (mkMultiPhylo [] []).

(** * NEXUS: input side ([parseNEXUSFile]) *)

(** A text file stream: the characters not read yet and [eofbit], which
    a read or a peek at the end of the file sets. *)
Record tstream : Type := mkText {
  tchars : list ascii;
  teof : bool
}.

Definition open_text (content : string) : tstream :=
  mkText (string_chars content) false.

Definition tget (s : tstream) : option ascii * tstream :=
  match tchars s with
  | c :: r => (Some c, mkText r (teof s))
  | [] => (None, mkText [] true)
  end.

Definition tpeek (s : tstream) : option ascii * tstream :=
  match tchars s with
  | c :: _ => (Some c, s)
  | [] => (None, mkText [] true)
  end.

Definition is_delimiter (c : ascii) : bool :=
  is_char c "[" || is_char c "]" || is_char c "," || is_char c ";".

(** The white space before a word: the first character of the word and
    the stream after it, or the stream at its end. *)
Fixpoint skip_blank (cs : list ascii) : option (ascii * list ascii) :=
  match cs with
  | [] => None
  | c :: r => if isspace c then skip_blank r else Some (c, r)
  end.

(** The characters of a word after its first one. *)
Fixpoint word_tail (cs : list ascii) (sb : string) : string * tstream :=
  match cs with
  | [] => (sb, mkText [] true)
  | c :: r =>
      if isspace c || is_delimiter c then (sb, mkText cs false)
      else word_tail r (string_snoc sb c)
  end.

(** [nextWord]: the word and [*eof].  When the first read fails, the
    character variable is compared without having been set. *)
Definition nextWord (s : tstream) : outcome (string * bool * tstream) :=
  match tchars s with
  | [] => Undef
  | _ =>
      match skip_blank (tchars s) with
      | None => Ok (EmptyString, true, mkText [] true)
      | Some (c, r) =>
          if is_delimiter c then Ok (String c EmptyString, false, mkText r (teof s))
          else
            let (w, s') := word_tail r (String c EmptyString) in
            Ok (w, teof s', s')
      end
  end.

(** The tokenizer over a file stream. *)
Record ftoken : Type := mkFtok {
  f_escaping : bool;
  f_escaped : bool;
  f_openQuotes : bool;
  f_openApostrophe : bool
}.

Definition ftok0 : ftoken := mkFtok false false false false.

Definition f_plain (t : ftoken) : bool :=
  negb (f_escaped t) && negb (f_openQuotes t) && negb (f_openApostrophe t).

(** The character, the flags, [*eof] and the stream. *)
Definition nextTokenF (s : tstream) (t : ftoken)
  : outcome (ascii * ftoken * bool * tstream) :=
  if teof s then
    Ok (char_eof, mkFtok (f_escaping t) false (f_openQuotes t) (f_openApostrophe t),
        true, s)
  else
    match tchars s with
    | [] => Undef
    | c :: r =>
        if negb (f_escaping t) then
          if negb (f_openQuotes t) && negb (f_openApostrophe t) then
            match skip_blank (c :: r) with
            | None => Ok (char_eof, mkFtok false false false false, true, mkText [] true)
            | Some (c, r') =>
                let s' := mkText r' false in
                if is_char c "\" then Ok (c, mkFtok true false false false, false, s')
                else if is_char c dquote then
                  Ok (c, mkFtok false false true false, false, s')
                else if is_char c "'" then
                  Ok (c, mkFtok false false false true, false, s')
                else Ok (c, mkFtok false false false false, false, s')
            end
          else if f_openQuotes t then
            let s' := mkText r false in
            if is_char c dquote then
              Ok (c, mkFtok false false false (f_openApostrophe t), false, s')
            else if is_char c "\" then
              Ok (c, mkFtok true false true (f_openApostrophe t), false, s')
            else Ok (c, mkFtok false false true (f_openApostrophe t), false, s')
          else
            let s' := mkText r false in
            if is_char c "'" then Ok (c, mkFtok false false false false, false, s')
            else if is_char c "\" then Ok (c, mkFtok true false false true, false, s')
            else Ok (c, mkFtok false false false true, false, s')
        else
          Ok (c, mkFtok false true (f_openQuotes t) (f_openApostrophe t), false,
              mkText r false)
    end.

Inductive NEXUSStatus : Type :=
| Root
| InCommentInRoot
| InOtherBlock
| InCommentInOtherBlock
| InTreeBlock
| InTranslateStatement
| InTreeStatement
| InCommentInTreeBlock
| InCommentInTranslateStatement
| InCommentInTreeStatementName.

(** [std::map<std::string, std::string>] *)
Definition dictionary : Type := list (string * string).

(** The three loops that read a tree statement after its name share
    their shape: characters are taken until a stop condition holds, and
    a bracket opens or closes a comment. *)
Record reader : Type := mkReader {
  r_stream : tstream;
  r_tok : ftoken;
  r_eof : bool;
  r_char : ascii;
  openComment : bool
}.

Definition comment_after (c : ascii) (openComment : bool) : bool :=
  if is_char c "]" then false
  else if is_char c "[" then true
  else openComment.

Definition read_next (rd : reader) (openComment : bool) : outcome reader :=
  '(c, t, e, s) <- nextTokenF (r_stream rd) (r_tok rd) ;;
  Ok (mkReader s t e c openComment).

(** [while (!eof && (c != '=' || openComment))] *)
Fixpoint skip_to_equals (fuel : nat) (rd : reader) : outcome reader :=
  if negb (r_eof rd) && (negb (is_char (r_char rd) "=") || openComment rd) then
    match fuel with
    | O => Undef
    | S fuel' =>
        rd' <- read_next rd (comment_after (r_char rd) (openComment rd)) ;;
        skip_to_equals fuel' rd'
    end
  else Ok rd.

(** [while (!(c == '(' && !openComment) && !eof)] *)
Fixpoint read_preComments (fuel : nat) (rd : reader) (sb : string)
  : outcome (reader * string) :=
  if negb (is_char (r_char rd) "(" && negb (openComment rd)) && negb (r_eof rd) then
    match fuel with
    | O => Undef
    | S fuel' =>
        rd' <- read_next rd (comment_after (r_char rd) (openComment rd)) ;;
        read_preComments fuel' rd' (string_snoc sb (r_char rd))
    end
  else Ok (rd, sb).

(** [while (!(c == ';' && !openComment && ...) && !eof)] *)
Fixpoint read_tree_text (fuel : nat) (rd : reader) (sb : string)
  : outcome (reader * string) :=
  if negb (is_char (r_char rd) ";" && negb (openComment rd) && f_plain (r_tok rd))
     && negb (r_eof rd) then
    match fuel with
    | O => Undef
    | S fuel' =>
        rd' <- read_next rd (comment_after (r_char rd) (openComment rd)) ;;
        read_tree_text fuel' rd' (string_snoc sb (r_char rd))
    end
  else Ok (rd, sb).

(** The substitution of labels through the translate dictionary. *)
Definition translate_label (dict : dictionary) (label : string) : string :=
  if negb (string_empty label) then
    match map_find string_less dict label with
    | Some name => name
    | None => label
    end
  else label.

(** The attributes found before the tree are given to the root. *)
Fixpoint merge_root_attributes (m : attribute_map) (tree : phylo) : outcome phylo :=
  match m with
  | [] => Ok tree
  | (name, v) :: r =>
      '(attrIndex, cols) <-
        attribute_slot
          (mkColumns (attributes tree) (tipAttributes tree) (nodeAttributes tree))
          (mkAttribute name (is_numeric v)) (zlength (tipLabel tree)) (Nnode tree) ;;
      nodes <- set_in_column (c_nodes cols) attrIndex 0 v ;;
      merge_root_attributes r
        (mkPhylo (Nnode tree) (rootEdge tree) (edge tree) (tipLabel tree)
           (nodeLabel tree) (edgeLength tree) (c_tips cols) nodes
           (c_attributes cols) (hasEdgeLength tree) (hasNodeLabel tree))
  end.

(** What follows the payload of a tree statement: the tree name becomes
    the "TreeName" of the root unless the tree has one, the labels are
    translated, and the attributes before the tree are merged. *)
Definition finish_tree (dict : dictionary) (treeName preComments : string)
    (parsedTree : phylo) : outcome phylo :=
  named <-
    (if attributeIndex (attributes parsedTree) (mkAttribute "TreeName" false) <? 0
     then
       tips <- vector_of (zlength (tipLabel parsedTree)) EmptyString ;;
       nodes <- vector_of (Nnode parsedTree) EmptyString ;;
       nodes' <- vset nodes 0 treeName ;;
       Ok (mkPhylo (Nnode parsedTree) (rootEdge parsedTree) (edge parsedTree)
             (tipLabel parsedTree) (nodeLabel parsedTree) (edgeLength parsedTree)
             (tipAttributes parsedTree ++ [StringVec tips])
             (nodeAttributes parsedTree ++ [StringVec nodes'])
             (attributes parsedTree ++ [mkAttribute "TreeName" false])
             (hasEdgeLength parsedTree) (hasNodeLabel parsedTree))
     else Ok parsedTree) ;;
  let translated :=
    mkPhylo (Nnode named) (rootEdge named) (edge named)
      (map (translate_label dict) (tipLabel named))
      (map (translate_label dict) (nodeLabel named))
      (edgeLength named) (tipAttributes named) (nodeAttributes named)
      (attributes named) (hasEdgeLength named) (hasNodeLabel named) in
  let preCommentsString := trim preComments in
  if negb (string_eqb preCommentsString "[&R]")
     && negb (string_eqb preCommentsString "[&U]") then
    '(_, _, m) <- parseAttributes preCommentsString 0 false [] 2 ;;
    merge_root_attributes m translated
  else Ok translated.

(** The body of a tree statement, from the token after the name. *)
Definition read_tree_statement (file : tstream) (dict : dictionary)
    (treeName : string) : outcome (phylo * bool * tstream) :=
  let fuel := S (length (tchars file)) in
  rd0 <- read_next (mkReader file ftok0 false char_eof false) false ;;
  rd1 <- skip_to_equals fuel rd0 ;;
  rd2 <- read_next rd1 (openComment rd1) ;;
  '(rd3, preComments) <- read_preComments fuel rd2 EmptyString ;;
  '(rd4, treeString) <- read_tree_text fuel rd3 EmptyString ;;
  parsedTree <- parseNWKAStringOneTree treeString ;;
  tree <- finish_tree dict treeName preComments parsedTree ;;
  Ok (tree, r_eof rd4, r_stream rd4).

Record nexus_state : Type := mkNexus {
  status : NEXUSStatus;
  word : string;
  n_eof : bool;
  n_file : tstream;
  translateDictionary : dictionary;
  n_trees : list phylo;
  n_names : list string
}.

Definition BEGINstring : string := "begin".
Definition ENDstring : string := "end".
Definition TREESstring : string := "trees".
Definition TREEstring : string := "tree".
Definition TRANSLATEstring : string := "translate".

Definition with_status (st : nexus_state) (s : NEXUSStatus) : nexus_state :=
  mkNexus s (word st) (n_eof st) (n_file st) (translateDictionary st)
    (n_trees st) (n_names st).

(** The [switch] on the status. *)
Definition nexus_switch (st : nexus_state) : outcome nexus_state :=
  let w := word st in
  match status st with
  | Root =>
      if equalCI w BEGINstring then
        '(w', _, f) <- nextWord (n_file st) ;;
        Ok (mkNexus (if equalCI w' TREESstring then InTreeBlock else InOtherBlock)
              w' (n_eof st) f (translateDictionary st) (n_trees st) (n_names st))
      else if string_eqb w "[" then Ok (with_status st InCommentInRoot)
      else Ok st
  | InCommentInRoot =>
      if string_eqb w "]" then Ok (with_status st Root) else Ok st
  | InOtherBlock =>
      if equalCI w ENDstring then Ok (with_status st Root)
      else if string_eqb w "[" then Ok (with_status st InCommentInOtherBlock)
      else Ok st
  | InCommentInOtherBlock =>
      if string_eqb w "]" then Ok (with_status st InOtherBlock) else Ok st
  | InTreeBlock =>
      if equalCI w TRANSLATEstring then Ok (with_status st InTranslateStatement)
      else if equalCI w TREEstring then Ok (with_status st InTreeStatement)
      else if equalCI w ENDstring then Ok (with_status st Root)
      else if string_eqb w "[" then Ok (with_status st InCommentInTreeBlock)
      else Ok st
  | InCommentInTreeBlock =>
      if string_eqb w "]" then Ok (with_status st InTreeBlock) else Ok st
  | InTranslateStatement =>
      if string_eqb w "[" then Ok (with_status st InCommentInTranslateStatement)
      else if string_eqb w ";" then Ok (with_status st InTreeBlock)
      else if string_eqb w "," then Ok st
      else
        '(w', _, f) <- nextWord (n_file st) ;;
        Ok (mkNexus (status st) w' (n_eof st) f
              (map_assign string_less (translateDictionary st) w w')
              (n_trees st) (n_names st))
  | InCommentInTranslateStatement =>
      if string_eqb w "]" then Ok (with_status st InTranslateStatement) else Ok st
  | InCommentInTreeStatementName =>
      if string_eqb w "]" then Ok (with_status st InTreeStatement) else Ok st
  | InTreeStatement =>
      if string_eqb w "[" then Ok (with_status st InCommentInTreeStatementName)
      else
        '(tree, e, f) <- read_tree_statement (n_file st) (translateDictionary st) w ;;
        Ok (mkNexus InTreeBlock w e f (translateDictionary st)
              (n_trees st ++ [tree]) (n_names st ++ [w]))
  end.

(** The body of the loop: the switch, then the next word. *)
Definition nexus_step (st : nexus_state) : outcome nexus_state :=
  st1 <- nexus_switch st ;;
  '(w, e, f) <- nextWord (n_file st1) ;;
  Ok (mkNexus (status st1) w e f (translateDictionary st1) (n_trees st1)
        (n_names st1)).

(** The loop [while (!eof)].  Every iteration reads from the file, which
    bounds their number. *)
Fixpoint nexus_loop (fuel : nat) (st : nexus_state) : outcome nexus_state :=
  if n_eof st then Ok st
  else
    match fuel with
    | O => Undef
    | S fuel' =>
        st' <- nexus_step st ;;
        nexus_loop fuel' st'
    end.

(** The state in which the loop starts: the first word has been read. *)
Definition nexus_start (content : string) : outcome nexus_state :=
  '(w, e, f) <- nextWord (open_text content) ;;
  Ok (mkNexus Root w e f [] [] []).

(** [parseNEXUSFile] on the content of the file. *)
Definition parseNEXUSFile (content : string) : outcome multiPhylo :=
  st0 <- nexus_start content ;;
  st <- nexus_loop (S (String.length content)) st0 ;;
  Ok (mkMultiPhylo (n_trees st) (n_names st)).

(** * Newick-with-attributes and NEXUS: output side ([write_nwka.cpp]) *)

Definition newline : string := String (ascii_of_nat 10) EmptyString.
Definition tabulation : string := String (ascii_of_nat 9) EmptyString.

Local Open Scope string_scope.

Fixpoint has_apostrophe (s : string) : bool :=
  match s with
  | EmptyString => false
  | String c r => is_char c "'" || has_apostrophe r
  end.

(** The value of a numeric attribute on a node, NaN when the tree has no
    such attribute. *)
Definition numeric_value (attrs : list Attribute) (cols : list attrvec)
    (name : string) (idx : Z) : outcome double :=
  let i := attributeIndex attrs (mkAttribute name true) in
  if i >=? 0 then
    col <- vget cols i ;; l <- get_doubles col ;; vget l idx
  else Ok nan.

(** The items between the brackets: the attributes selected by [keep]
    that have a value on the node. *)
Fixpoint bracket_items (attrs : list Attribute) (cols : list attrvec) (j : Z)
    (idx : Z) (keep : Attribute -> bool) : outcome (list string) :=
  match attrs with
  | [] => Ok []
  | a :: r =>
      here <-
        (if keep a then
           col <- vget cols j ;;
           if IsNumeric a then
             l <- get_doubles col ;;
             value <- vget l idx ;;
             if negb (isnan value)
             then Ok [AttributeName a ++ "=" ++ to_string_double value]
             else Ok []
           else
             l <- get_strings col ;;
             value <- vget l idx ;;
             if negb (string_empty value) then
               if negb (has_apostrophe value)
               then Ok [AttributeName a ++ "='" ++ value ++ "'"]
               else Ok [AttributeName a ++ "=" ++ dquote ++ value ++ dquote]
             else Ok []
         else Ok []) ;;
      more <- bracket_items r cols (j + 1) idx keep ;;
      Ok (here ++ more)%list
  end.

Definition bracket (items : list string) : string :=
  match items with
  | [] => ""
  | _ => "[" ++ String.concat "," items ++ "]"
  end.

Definition length_suffix (edgeLength : double) : string :=
  if negb (isnan edgeLength) then ":" ++ to_string_double edgeLength else "".

(** [appendNodeNWKA]: the text appended for the node at [nodeInd] of the
    traversal.  A child comes after its parent in the traversal, which
    bounds the depth of the recursion. *)
Fixpoint appendNodeNWKA (fuel : nat) (tree : phylo) (dfs : dfs_state) (nodeInd : Z)
  : outcome string :=
  match fuel with
  | O => Undef
  | S fuel' =>
      children <- vget (sortedChildren dfs) nodeInd ;;
      node <- vget (sortedNodes dfs) nodeInd ;;
      match children with
      | [] =>
          name <- vget (tipLabel tree) (node - 1) ;;
          edgeLength <- numeric_value (attributes tree) (tipAttributes tree)
                          "Length" (node - 1) ;;
          items <- bracket_items (attributes tree) (tipAttributes tree) 0 (node - 1)
                     (fun a => negb (equalCI (AttributeName a) NAMEATTRIBUTE)
                               && negb (equalCI (AttributeName a) LENGTHATTRIBUTE)) ;;
          parent <- vget (sortedParents dfs) nodeInd ;;
          Ok ("'" ++ name ++ "'" ++ length_suffix edgeLength ++ bracket items
              ++ (if (parent <? 0)%Z then ";" else ""))
      | _ =>
          inner <-
            (fix each (cs : list Z) : outcome (list string) :=
               match cs with
               | [] => Ok []
               | c :: cs' =>
                   here <- appendNodeNWKA fuel' tree dfs c ;;
                   more <- each cs' ;;
                   Ok (here :: more)
               end) children ;;
          let idx := node - zlength (tipLabel tree) - 1 in
          let nameAttributeIndex :=
            attributeIndex (attributes tree) (mkAttribute "Name" false) in
          myName <-
            (if nameAttributeIndex >=? 0 then
               col <- vget (nodeAttributes tree) nameAttributeIndex ;;
               l <- get_strings col ;;
               vget l idx
             else Ok "") ;;
          mySupport <- numeric_value (attributes tree) (nodeAttributes tree)
                         "Support" idx ;;
          edgeLength <- numeric_value (attributes tree) (nodeAttributes tree)
                          "Length" idx ;;
          items <- bracket_items (attributes tree) (nodeAttributes tree) 0 idx
                     (fun a => (negb (equalCI (AttributeName a) NAMEATTRIBUTE)
                                || negb (isnan mySupport))
                               && negb (equalCI (AttributeName a) LENGTHATTRIBUTE)
                               && negb (equalCI (AttributeName a) SUPPORTATTRIBUTE)) ;;
          parent <- vget (sortedParents dfs) nodeInd ;;
          Ok ("(" ++ String.concat "," inner ++ ")"
              ++ (if negb (string_empty myName) && isnan mySupport
                  then "'" ++ myName ++ "'" else "")
              ++ (if negb (isnan mySupport) then to_string_double mySupport else "")
              ++ length_suffix edgeLength ++ bracket items
              ++ (if (parent <? 0)%Z then ";" else ""))
      end
  end.

(** [toString] with [nwka] set, the form used by the NEXUS writer. *)
Definition toString_nwka (tree : phylo) : outcome string :=
  dfs <- traverse tree ;;
  appendNodeNWKA (S (length (sortedNodes dfs))) tree dfs 0.

(** [translateNames]: every tip label becomes the number the table gives
    it, plus one; looking a label up with [operator[]] enters a missing
    label into the table with the value 0. *)
Fixpoint translate_labels (labels : list string) (translation : list (string * Z))
  : list string * list (string * Z) :=
  match labels with
  | [] => ([], translation)
  | label :: r =>
      let '(value, translation1) :=
        match map_find string_less translation label with
        | Some v => (v, translation)
        | None => (0, map_assign string_less translation label 0)
        end in
      let (r', translation2) := translate_labels r translation1 in
      (to_string_int (value + 1) :: r', translation2)
  end.

Definition translateNames (tree : phylo) (translation : list (string * Z))
  : phylo * list (string * Z) :=
  let (labels, translation') := translate_labels (tipLabel tree) translation in
  (mkPhylo (Nnode tree) (rootEdge tree) (edge tree) labels (nodeLabel tree)
     (edgeLength tree) (tipAttributes tree) (nodeAttributes tree) (attributes tree)
     (hasEdgeLength tree) (hasNodeLabel tree),
   translation').

(** The table of the distinct tip labels, numbered from 0 in the order
    they are first met. *)
Fixpoint collect_labels (labels : list string) (tipLabels : list (string * Z))
    (index : Z) : list (string * Z) * Z :=
  match labels with
  | [] => (tipLabels, index)
  | label :: r =>
      match map_find string_less tipLabels label with
      | Some _ => collect_labels r tipLabels index
      | None => collect_labels r (map_assign string_less tipLabels label index)
                  (index + 1)
      end
  end.

Fixpoint collect_all_labels (ts : list phylo) (tipLabels : list (string * Z))
    (index : Z) : list (string * Z) * Z :=
  match ts with
  | [] => (tipLabels, index)
  | t :: r =>
      let (tipLabels', index') := collect_labels (tipLabel t) tipLabels index in
      collect_all_labels r tipLabels' index'
  end.

Definition quote_if (q : bool) (s : string) : string :=
  if q then "'" ++ s ++ "'" else s.

Fixpoint translate_lines (entries : list (string * Z)) (count index : Z)
    (translateQuotes : bool) : string :=
  match entries with
  | [] => ""
  | (label, number) :: r =>
      tabulation ++ tabulation ++ to_string_int (number + 1) ++ " "
      ++ quote_if translateQuotes label
      ++ (if (count + 1 <? index)%Z then "," ++ newline else newline)
      ++ translate_lines r (count + 1) index translateQuotes
  end.

(** The loop writing the tree statements. *)
Fixpoint tree_statements (ts : list phylo) (i : Z) (names : list string)
    (tipLabels : list (string * Z)) : outcome string :=
  match ts with
  | [] => Ok ""
  | t :: r =>
      let (t', tipLabels') := translateNames t tipLabels in
      name <- vget names i ;;
      body <- toString_nwka t' ;;
      more <- tree_statements r (i + 1) names tipLabels' ;;
      Ok (tabulation ++ "Tree " ++ name ++ " = " ++ body ++ newline ++ more)
  end.

(** [Rcpp_multiPhylo_to_nexus] after the conversion of its argument: the
    content of the file written. *)
Definition multiPhylo_to_nexus (convertedTrees : multiPhylo)
    (translate translateQuotes : bool) : outcome string :=
  let '(tipLabels, head) :=
    if translate then
      let (tipLabels, index) := collect_all_labels (trees convertedTrees) [] 0 in
      (tipLabels,
       "Begin Taxa;" ++ newline ++ tabulation ++ "Dimensions ntax="
       ++ to_string_int index ++ ";" ++ newline ++ tabulation ++ "TaxLabels" ++ newline
       ++ String.concat ""
            (map (fun e => tabulation ++ tabulation
                           ++ quote_if translateQuotes (fst e) ++ newline) tipLabels)
       ++ tabulation ++ tabulation ++ ";" ++ newline ++ "End;" ++ newline ++ newline
       ++ "Begin Trees;" ++ newline ++ tabulation ++ "Translate" ++ newline
       ++ translate_lines tipLabels 0 index translateQuotes
       ++ tabulation ++ tabulation ++ ";" ++ newline)
    else ([], "Begin Trees;" ++ newline) in
  statements <- tree_statements (trees convertedTrees) 0
                  (treeNames convertedTrees) tipLabels ;;
  Ok ("#NEXUS" ++ newline ++ newline ++ head ++ statements ++ "End;" ++ newline).

Local Close Scope string_scope.
(** * Definitions used in the statements and proofs *)

(** What is left to read, and a stream moved forward. *)
Definition remaining (s : fstream) : list Z := skipn (spos s) (sdata s).

Definition advance (s : fstream) (n : nat) : fstream :=
  mkStream (sdata s) (spos s + n) false.

(** Exhaustive check of a boolean property below a bound. *)
Fixpoint all_below (n : nat) (P : Z -> bool) : bool :=
  match n with
  | O => true
  | S k => P (Z.of_nat k) && all_below k P
  end.

(** A child count is a non-negative [int32_t]. *)
Definition count_ok (v : Z) : Prop := 0 <= v < 2147483648.

(** The states [writeShortInt] moves through: [currByte] holds the bits
    below the cursor. *)
Definition cursor_ok (cb ci : Z) : Prop :=
  (ci = 0 /\ cb = 0) \/ (ci = 2 /\ 0 <= cb < 4) \/
  (ci = 4 /\ 0 <= cb < 16) \/ (ci = 6 /\ 0 <= cb < 64).

(** The code of a count (bit pattern and width), and [writeShortInt] in
    arithmetic form. *)
Definition code_of (v : Z) : Z * Z :=
  if v =? 0 then (0, 2) else if v =? 2 then (1, 2) else if v =? 3 then (2, 2)
  else if v =? 1 then (3, 4) else if v =? 4 then (7, 4)
  else if v =? 5 then (11, 4) else (15, 4).

Definition packed (v cb ci : Z) : list Z * Z * Z :=
  let '(k, w) := code_of v in
  if k =? 15 then
    if ci =? 6 then ([cb + 192; 3] ++ writeInt v, 0, 0)
    else ([cb + 15 * 2 ^ ci] ++ writeInt v, 0, 0)
  else if ci + w <? 8 then ([], cb + k * 2 ^ ci, ci + w)
  else if ci + w =? 8 then ([cb + k * 2 ^ ci], 0, 0)
  else ([cb + 192], k / 4, 2).

(** The cursor after a sequence of counts, as [writeShortInt] returns it. *)
Fixpoint writeShortInts_cursor (values : list Z) (currByte currPos : Z)
  : outcome Z :=
  match values with
  | [] => Ok currPos
  | v :: rest =>
      '(_, cb, cp) <- writeShortInt v currByte currPos ;;
      writeShortInts_cursor rest cb cp
  end.

(** A translation table whose entries all carry the number 0. *)
Definition all_zero (translation : list (string * Z)) : Prop :=
  Forall (fun e => snd e = 0) translation.


(** The per-node values keep their sizes: [n] lengths, [n] names, and one
    row of [n] values per attribute. *)
Definition values_sized (n m : nat) (vals : node_values) : Prop :=
  length (edgeLengths vals) = n /\ length (nodeNames vals) = n
  /\ length (nodeAttributeRows vals) = m
  /\ Forall (fun row => length row = n) (nodeAttributeRows vals).


(** The 256 characters. *)
Definition all_ascii : list ascii := map ascii_of_nat (seq 0 256).

(** The offsets at which records written one after the other start, the
    first one at [start]. *)
Fixpoint offsets_from (start : Z) (records : list (list Z)) : list Z :=
  match records with
  | [] => []
  | record :: more => start :: offsets_from (start + zlength record) more
  end.
(** * The deduplication rule of the whole-collection writer

    These definitions follow the words of the specification, not the
    code: they are compared with [scan_trees] below. *)













(** ** Example trees

    Two-tip trees as [convertTree] builds them: attributes Name, Length,
    Support and TreeName, the root last in the node vectors' numbering. *)

Definition one : double := 0x3FF0000000000000.
Definition two : double := 0x4000000000000000.

Definition standard_attributes : list Attribute :=
  [mkAttribute "Name" false; mkAttribute "Length" true;
   mkAttribute "Support" true; mkAttribute "TreeName" false].

Definition cherry (a b treeName : string) : phylo :=
  mkPhylo 1 nan [[3; 1]; [3; 2]] [a; b] [EmptyString] [one; two]
    [StringVec [a; b]; DoubleVec [one; two]; DoubleVec [nan; nan];
     StringVec [EmptyString; EmptyString]]
    [StringVec [EmptyString]; DoubleVec [nan]; DoubleVec [nan]; StringVec [treeName]]
    standard_attributes true false.

Definition named_tree : phylo := cherry "A" "B" "tree2".
Definition other_tree : phylo := cherry "C" "D" "tree2".

Definition diverging_trees : multiPhylo :=
  mkMultiPhylo [cherry "A" "B" "tree1"; other_tree] ["tree1"%string; "tree2"%string].

(** ** More example trees *)

(** The tree ((A,B)X,C) as [convertTree] and [setTreeName] build it from
    an R tree: tips 1 to 3, the root 4 and the clade X 5. *)
Definition named_clade_tree : phylo :=
  mkPhylo 2 nan [[4; 5]; [5; 1]; [5; 2]; [4; 3]]
    ["A"%string; "B"%string; "C"%string] [EmptyString; "X"%string]
    [one; one; two; two]
    [StringVec ["A"%string; "B"%string; "C"%string]; DoubleVec [one; two; two];
     DoubleVec [nan; nan; nan]; StringVec [EmptyString; EmptyString; EmptyString]]
    [StringVec [EmptyString; "X"%string]; DoubleVec [nan; one];
     DoubleVec [nan; nan]; StringVec ["tree1"%string; EmptyString]]
    standard_attributes true true.

Definition named_clade : multiPhylo :=
  mkMultiPhylo [named_clade_tree] ["tree1"%string].

Definition three : double := 0x4008000000000000.
Definition four : double := 0x4010000000000000.
Definition ninety : double := 0x4056800000000000.

(** Scenario B of the specification. *)
Definition scenario_B : string := "(A:1.0,(B:2.0,C:3.0)90:4.0);".

(** ** Example files *)

(** The record of ((A,B)X,C) with its own tables, as [writeBinaryTree]
    writes it. *)
Definition named_clade_record : list Z :=
  [4; 4; 78; 97; 109; 101; 1; 6; 76; 101; 110; 103; 116; 104; 2; 7; 83;
   117; 112; 112; 111; 114; 116; 2; 8; 84; 114; 101; 101; 78; 97; 109;
   101; 1; 5; 0; 1; 3; 5; 116; 114; 101; 101; 49; 2; 0; 1; 88; 1; 0; 0;
   0; 0; 0; 0; 240; 63; 2; 0; 1; 65; 1; 0; 0; 0; 0; 0; 0; 240; 63; 2; 0;
   1; 66; 1; 0; 0; 0; 0; 0; 0; 0; 64; 2; 0; 1; 67; 1; 0; 0; 0; 0; 0; 0;
   0; 64].

(** Bytes that are no record: no attribute table, then a child count of
    -1 (escape 15, marker 254, FF FF FF FF). *)
Definition failing_record : list Z := [0; 15; 254; 255; 255; 255; 255; 0].

(** One record, then bytes that make the next decoding throw. *)
Definition recovered_file : list Z :=
  header_magic ++ [0] ++ named_clade_record ++ failing_record.

(** One record, then the end of the file. *)
Definition truncated_file : list Z := header_magic ++ [0] ++ named_clade_record.

(** The record of a one-node tree whose only attribute is a number called
    TreeName, with the value 5.0. *)
Definition numeric_name_record : list Z :=
  [1; 8; 84; 114; 101; 101; 78; 97; 109; 101; 2;
   0;
   1; 0; 0; 0; 0; 0; 0; 0; 20; 64].

Definition numeric_name_file : list Z :=
  header_magic ++ [0] ++ numeric_name_record ++ failing_record.

(** * The translation of labels, in the words of the specification *)

(** A label that is a key of the dictionary is replaced by the mapped
    value. *)
Definition substitute (dict : dictionary) (label : string) : string :=
  match map_find string_less dict label with
  | Some name => name
  | None => label
  end.

Definition no_empty_key (dict : dictionary) : Prop :=
  Forall (fun e => fst e <> EmptyString) dict.

(** What holds whenever the loop of the reader starts an iteration: the
    word in hand is not empty unless the file has ended, and no key of
    the dictionary is empty. *)
Definition reader_invariant (st : nexus_state) : Prop :=
  (n_eof st = false -> word st <> EmptyString)
  /\ no_empty_key (translateDictionary st).

(** The state of the reader at the start of its [n]-th iteration, when
    the loop gets that far. *)
Fixpoint nexus_iterate (n : nat) (st : nexus_state) : option nexus_state :=
  match n with
  | O => Some st
  | S n' =>
      if n_eof st then None
      else match nexus_step st with
           | Ok st' => nexus_iterate n' st'
           | _ => None
           end
  end.

(** Scenario D of the specification. *)
Definition scenario_D : string :=
  ("#NEXUS" ++ newline ++ "Begin Trees;" ++ newline
   ++ tabulation ++ "Translate" ++ newline
   ++ tabulation ++ tabulation ++ "1 Alpha," ++ newline
   ++ tabulation ++ tabulation ++ "2 Beta" ++ newline
   ++ tabulation ++ tabulation ++ ";" ++ newline
   ++ tabulation ++ "Tree tree1 = (1:1,2:2);" ++ newline
   ++ "End;" ++ newline)%string.

(** * The sequential reading of a file, in the words of the specification *)

(** [s'] is [s] read further: the same file, a position that is not
    before. *)
Definition follows (s s' : fstream) : Prop :=
  sdata s' = sdata s /\ (spos s <= spos s')%nat.

(** Tree records are decoded one after the other, each where the one
    before it ended, until a decoding throws; every tree decoded gets its
    name.  [i] trees have been decoded before. *)
Inductive decodes_until_failure (globalNames : bool) (allNames : list string)
    (allAttributes : list Attribute)
  : fstream -> Z -> list phylo -> list string -> Prop :=
| decoding_fails (file : fstream) (i : Z) (e : exn) :
    readBinaryTree file globalNames allNames allAttributes = Throw e ->
    decodes_until_failure globalNames allNames allAttributes file i [] []
| decoding_goes_on (file s1 : fstream) (i : Z) (tree : phylo) (treeName : string)
    (trees : list phylo) (names : list string) :
    readBinaryTree file globalNames allNames allAttributes = Ok (tree, s1) ->
    binary_tree_name tree (i + 1) = Ok treeName ->
    decodes_until_failure globalNames allNames allAttributes s1 (i + 1) trees names ->
    decodes_until_failure globalNames allNames allAttributes file i
      (tree :: trees) (treeName :: names).

(** The text of the first attribute called "TreeName" (in any case) at
    the root, which is the first internal node; empty when there is none. *)
Definition root_tree_name (tree : phylo) : string :=
  match vget (nodeAttributes tree) (treeNameIndex_from 0 (attributes tree)) with
  | Ok (StringVec (root :: _)) => root
  | _ => EmptyString
  end.

(** The name the specification gives to the [ordinal]-th tree. *)
Definition name_by_rule (tree : phylo) (ordinal : Z) : string :=
  if string_empty (root_tree_name tree)
  then String.append "tree" (to_string_int ordinal)
  else root_tree_name tree.


End Codecs.

(** * Proof-side notions for the arrays of a parsed tree *)

(** The value [convertToPhylo] records for the branch above a parsed
    node: its "Length" when it is a number and not NaN, NaN otherwise. *)
Definition length_or_nan (m : attribute_map) : double :=
  match node_length m with Some d => d | None => nan end.

(** Whether the parsed node [i] has children. *)
Definition has_children (children : list (list Z)) (i : nat) : bool :=
  match nth_error children i with Some (_ :: _) => true | _ => false end.

(** How many of the first [n] parsed nodes are internal ([true]) or tips
    ([false]). *)
Definition count_nodes (internal : bool) (children : list (list Z)) (n : nat) : Z :=
  Z.of_nat
    (length (filter (fun row => Bool.eqb (0 <? zlength row) internal)
               (firstn n children))).

(** The number of the parsed node [i] in the tree model: tips are
    numbered from 1 in the order they are met, internal nodes after the
    tips. *)
Definition node_number (children : list (list Z)) (tipCount : Z) (i : nat) : Z :=
  if has_children children i then count_nodes true children (S i) + tipCount
  else count_nodes false children (S i).

(** What the loop of [convertToPhylo] has established before it visits
    the parsed node [n]. *)
Definition converted (children : list (list Z)) (tipCount : Z) (n : nat)
    (cv : convert_state) : Prop :=
  cv_tipIndex cv = count_nodes false children n
  /\ cv_nonTipIndex cv = count_nodes true children n
  /\ forall j, (j < n)%nat ->
       vget (nodeCorresp cv) (Z.of_nat j) = Ok (node_number children tipCount j).

(** The arrays after a call of [parseNWKA] that started from [ps] with
    the given parent: the call added the node [zlength (allParents ps)]
    and, after it, the nodes of its subtree, whose parents are [np], whose
    rows of children are [nc] and whose attributes are [na].  A node of
    the subtree has its parent in the subtree, before itself, and a row
    lists the nodes that have its owner as parent. *)
Definition grown (ps : parse_state) (parent : Z) (ps' : parse_state)
    (np : list Z) (nc : list (list Z)) (na : list attribute_map) : Prop :=
  let idx := zlength (allParents ps) in
  allParents ps' = allParents ps ++ parent :: np
  /\ allChildren ps' = allChildren ps ++ nc
  /\ allAttributes ps' = allAttributes ps ++ na
  /\ length nc = S (length np)
  /\ length na = S (length np)
  /\ p_currIndex ps' = zlength (allParents ps')
  /\ (forall k p, nth_error np k = Some p -> idx <= p <= idx + Z.of_nat k)
  /\ (forall j row c,
        nth_error nc j = Some row ->
        (In c row <->
         exists k, c = idx + 1 + Z.of_nat k
                   /\ nth_error np k = Some (idx + Z.of_nat j))).

(** The arrays are filled in step: one parent, one row of children and
    one attribute map for each node met so far. *)
Definition aligned (ps : parse_state) : Prop :=
  p_currIndex ps = zlength (allParents ps)
  /\ length (allChildren ps) = length (allParents ps)
  /\ length (allAttributes ps) = length (allParents ps).

(** The rows without children. *)
Definition empty_rows (rows : list (list Z)) : Z :=
  count_nodes false rows (length rows).

(** The text [parseNWKAStringOneTree] hands to the parser: the statement
    from its first opening parenthesis on (what comes before is the name
    of the tree). *)
Definition tree_text (source : string) : string :=
  match find_paren source 0 with
  | Some index => substr source index (String.length source - index)
  | None => source
  end.

(** The arrays of a root with two tips, the first on a branch of
    length 1. *)
Definition example_parents : list Z := [-1; 0; 0].
Definition example_children : list (list Z) := [[1; 2]; []; []].
Definition example_maps : list attribute_map :=
  [[]; [("Length"%string, VDouble one)]; []].

(** * Proof-side notions for the NEXUS writer *)

(** The number a translation table gives to a label. *)
Definition table_number (table : list (string * Z)) (label : string) : Z :=
  match map_find string_less table label with Some v => v | None => 0 end.

(** A table that numbers [n] labels with the numbers from 0 to [n - 1],
    each used once. *)
Definition numbering (table : list (string * Z)) (n : Z) : Prop :=
  zlength table = n
  /\ (forall l v, map_find string_less table l = Some v -> 0 <= v < n)
  /\ (forall l1 l2 v,
        map_find string_less table l1 = Some v ->
        map_find string_less table l2 = Some v -> l1 = l2).

(** * Proof-side notions for the shared tables *)

(** A string that [writeMyString] writes so that it can be read back:
    shorter than 2^31, with no byte 254 or 255 (a byte is written like a
    count, and these two values announce a longer count). *)
Definition writable (str : string) : Prop :=
  strlen str < 2147483648
  /\ forall c, In c (string_chars str) -> char_code c < 254.

(** The tables [writeBinaryTrees] writes after the header byte. *)
Definition shared_tables (globalNames globalAttributes : bool)
    (names : list string) (attrs : list Attribute) : list Z :=
  (if globalNames then
     writeInt (wrap32 (zlength names)) ++ flat_map writeMyString names
   else [])
  ++ (if globalAttributes then writeAttributeTable attrs else []).

(** The scan keeps each table and its list of entries in step. *)
Definition tables_in_step (st : scan_state) : Prop :=
  length (allNamesLookup st) = length (allNamesLookupReverse st)
  /\ length (allAttributesLookup st) = length (allAttributesLookupReverse st).


(** * Proof-side notions for the two tokenizers *)

(** The flags of the string tokenizer, as the file tokenizer holds
    them. *)
Definition flags_of (t : token_state) : ftoken :=
  mkFtok (escaping t) (escaped t) (openQuotes t) (openApostrophe t).

(** A file stream holding the characters of [source] from the position
    of the string tokenizer on. *)
Definition stream_at (source : string) (t : token_state) : tstream :=
  mkText (skipn (srPosition t) (string_chars source)) false.

(** * Proof-side notions for the attribute columns *)

(** A column of [n] values of the kind of its attribute. *)
Definition column_of (n : nat) (a : Attribute) (col : attrvec) : Prop :=
  match col with
  | DoubleVec l => IsNumeric a = true /\ length l = n
  | StringVec l => IsNumeric a = false /\ length l = n
  end.

(** One tip column and one node column per attribute, each of the kind
    of its attribute, for [tips] tips and [nodes] internal nodes. *)
Definition columns_match (tips nodes : nat) (cols : columns) : Prop :=
  Forall2 (column_of tips) (c_attributes cols) (c_tips cols)
  /\ Forall2 (column_of nodes) (c_attributes cols) (c_nodes cols).

(** * Proof-side notions for the structure of a record *)

(** The nodes that name [k] as their parent, in increasing order. *)
Definition kids (parents : list Z) (k : nat) : list Z :=
  map Z.of_nat
    (filter (fun m => match nth_error parents m with
                      | Some p => p =? Z.of_nat k
                      | None => false
                      end)
       (seq 0 (length parents))).

(** [anc parents m k]: the node [k] is met on the way from the node [m]
    to the root. *)
Inductive anc (parents : list Z) : nat -> nat -> Prop :=
| anc_parent (m p : nat) :
    nth_error parents m = Some (Z.of_nat p) -> anc parents m p
| anc_step (m p k : nat) :
    nth_error parents m = Some (Z.of_nat p) -> anc parents p k -> anc parents m k.

(** What the loop of the structure reader has established when it is
    about to read the number of children of the newest node: every older
    node has its row of children, of which the first [addedChildren]
    slots hold the children met so far, and a node with free slots is on
    the way from the newest node to the root. *)
Definition structure_inv (parents : list Z) (children : list (list Z))
    (addedChildren : list Z) (tipCount : Z) : Prop :=
  length addedChildren = length parents
  /\ S (length children) = length parents
  /\ nth_error parents 0 = Some (-1)
  /\ (forall m p, (0 < m)%nat -> nth_error parents m = Some p -> 0 <= p < Z.of_nat m)
  /\ (forall k row a,
        nth_error children k = Some row -> nth_error addedChildren k = Some a ->
        0 <= a <= zlength row /\ firstn (Z.to_nat a) row = kids parents k)
  /\ nth_error addedChildren (length parents - 1) = Some 0
  /\ (forall k row a,
        nth_error children k = Some row -> nth_error addedChildren k = Some a ->
        a <> zlength row -> anc parents (length parents - 1) k)
  /\ tipCount = empty_rows children.

(** A finished structure: a parent and a row of children for every
    node, the root first, every other node after its parent, and every
    row filled with the children of its node, in the order they were
    read. *)
Definition structure_complete (shape : structure) : Prop :=
  length (st_children shape) = length (st_parents shape)
  /\ nth_error (st_parents shape) 0 = Some (-1)
  /\ (forall m p, (0 < m)%nat -> nth_error (st_parents shape) m = Some p ->
                  0 <= p < Z.of_nat m)
  /\ (forall k row, nth_error (st_children shape) k = Some row ->
                    row = kids (st_parents shape) k)
  /\ st_tipCount shape = empty_rows (st_children shape).

(** * Proof-side notions for [trim] *)

(** A string of white space only. *)
Fixpoint all_space (s : string) : bool :=
  match s with
  | EmptyString => true
  | String c r => isspace c && all_space r
  end.

(** A string that neither starts nor ends with white space. *)
Definition trimmed (s : string) : Prop :=
  match first_char s with Some c => isspace c = false | None => True end
  /\ match last_char s with Some c => isspace c = false | None => True end.

(** * Proof-side notions for the branch lengths of a record *)

(** The row of the attribute [j] and the branch lengths hold the same
    numbers. *)
Definition lengths_in_step (j : nat) (vals : node_values) : Prop :=
  nth_error (nodeAttributeRows vals) j = Some (map VDouble (edgeLengths vals)).

(** * Proof-side notions for the order of the nodes in a record *)

(** A tree laid out in the order of a depth-first traversal: a parent
    and a row of children for every node, the root first, every other
    node after its parent, every row filled with the children of its
    node in increasing order, and the nodes between a parent and one of
    its children all below that parent: none of them has its own parent
    before it. *)
Definition preorder_tree (parents : list Z) (children : list (list Z)) : Prop :=
  length children = length parents
  /\ nth_error parents 0 = Some (-1)
  /\ (forall m p, (0 < m)%nat -> nth_error parents m = Some p -> 0 <= p < Z.of_nat m)
  /\ (forall k row, nth_error children k = Some row -> row = kids parents k)
  /\ (forall j t p q,
        nth_error parents j = Some p -> nth_error parents t = Some q ->
        p < Z.of_nat t -> (t < j)%nat -> p <= q).

(** What a call of [addChildren] that started at the index [i] has
    filled in when [*currIndex] is [i']: the nodes after [i] and before
    [i'] have their parents from [i] on, no node between a parent and its
    child has its own parent before that parent, and the nodes from [i]
    to [i'] have their rows of children. *)
Definition block (parents : list Z) (children : list (list Z)) (i i' : nat) : Prop :=
  (forall j, (i < j < i')%nat ->
     exists p, nth_error parents j = Some (Z.of_nat p) /\ (i <= p < j)%nat
               /\ forall t q, (p < t < j)%nat -> nth_error parents t = Some q ->
                    Z.of_nat p <= q)
  /\ (forall k, (i <= k < i')%nat ->
        nth_error children k = Some (kids (firstn i' parents) k)).

(** The state of a traversal that started in the state [st0] at the
    index [i] with the parent [parent], when it has reached the index
    [i']: what came before [i] is as it was, the rows from [i'] on are
    still empty, and the nodes in between are filled in. *)
Definition visited (st0 st : dfs_state) (parent : Z) (i i' : nat) : Prop :=
  currIndex st = Z.of_nat i'
  /\ (i < i' <= length (sortedParents st))%nat
  /\ length (sortedParents st) = length (sortedParents st0)
  /\ length (sortedChildren st) = length (sortedChildren st0)
  /\ (forall j, (j < i)%nat ->
        nth_error (sortedParents st) j = nth_error (sortedParents st0) j)
  /\ (forall k, (k < i)%nat ->
        nth_error (sortedChildren st) k = nth_error (sortedChildren st0) k)
  /\ (forall k, (i' <= k < length (sortedChildren st))%nat ->
        nth_error (sortedChildren st) k = Some [])
  /\ nth_error (sortedParents st) i = Some parent
  /\ block (sortedParents st) (sortedChildren st) i i'.

(** What [addChildren] relies on when it is called at the index [i]
    with the parent [parent]: the nodes stored so far come after their
    parents, the parent is one of them (or none, for the root), and the
    rows from [i] on are still empty. *)
Definition ready (st : dfs_state) (parent : Z) (i : nat) : Prop :=
  currIndex st = Z.of_nat i
  /\ length (sortedChildren st) = length (sortedParents st)
  /\ (forall j p, (j < i)%nat -> nth_error (sortedParents st) j = Some p ->
                  p < Z.of_nat j)
  /\ parent < Z.of_nat i
  /\ (forall k, (i <= k < length (sortedChildren st))%nat ->
        nth_error (sortedChildren st) k = Some []).

(** * Proof-side notions for the nodes behind the sorted indices *)

(** The children the edge list gives to a node, in the order of the
    edges. *)
Fixpoint edge_children (edges : list (list Z)) (node : Z) : list Z :=
  match edges with
  | [] => []
  | e :: rest =>
      match e with
      | e0 :: e1 :: _ =>
          if e0 =? node then e1 :: edge_children rest node
          else edge_children rest node
      | _ => edge_children rest node
      end
  end.

(** The row of sorted indices [row] stands for the nodes [mine]: entry
    by entry, the index lies below [bound] and [sortedNodes] holds the
    node there. *)
Definition names_nodes (sortedNodes : list Z) (bound : nat) (row mine : list Z)
  : Prop :=
  Forall2 (fun j node => 0 <= j < Z.of_nat bound
                         /\ nth_error sortedNodes (Z.to_nat j) = Some node)
    row mine.

(** The rows of the nodes from [i] to [i'] stand for the rows of the
    same nodes in [children]. *)
Definition rows_kept (children : list (list Z)) (st : dfs_state) (i i' : nat)
  : Prop :=
  forall k, (i <= k < i')%nat ->
    exists node row mine,
      nth_error (sortedNodes st) k = Some node
      /\ nth_error (sortedChildren st) k = Some row
      /\ vget children node = Ok mine
      /\ names_nodes (sortedNodes st) i' row mine.

(** The order the structure loop of the reader keeps among the nodes
    read so far: no node between a parent and one of its children has
    its own parent before that parent, and the nodes read after a node
    that lies on the way from the newest node to the root have their
    parents from that node on. *)
Definition in_order (parents : list Z) : Prop :=
  (forall j t p q,
     nth_error parents j = Some p -> nth_error parents t = Some q ->
     p < Z.of_nat t -> (t < j)%nat -> p <= q)
  /\ (forall k t q,
        k = (length parents - 1)%nat \/ anc parents (length parents - 1) k ->
        (k < t)%nat -> nth_error parents t = Some q -> Z.of_nat k <= q).
(** * Proofs: stream primitives *)

Section StreamFacts.

Lemma remaining_advance (s : fstream) (n : nat) :
  remaining (advance s n) = skipn n (remaining s).
Proof.
  unfold remaining, advance; simpl.
  rewrite skipn_skipn. f_equal. lia.
Qed.

Lemma advance_0 (s : fstream) : sfail s = false -> advance s 0 = s.
Proof.
  destruct s as [d p f]; simpl; intros ->. unfold advance; simpl.
  f_equal. lia.
Qed.

Lemma advance_advance (s : fstream) (n m : nat) :
  advance (advance s n) m = advance s (n + m).
Proof. unfold advance; simpl. f_equal. lia. Qed.

Lemma stream_read_ok (s : fstream) (l r : list Z) :
  sfail s = false ->
  remaining s = l ++ r ->
  stream_read s (length l) = (l, advance s (length l)).
Proof.
  intros Hf Hr. unfold stream_read. rewrite Hf.
  fold (remaining s). rewrite Hr.
  rewrite firstn_app, Nat.sub_diag, firstn_all. simpl. rewrite app_nil_r.
  rewrite Nat.eqb_refl. reflexivity.
Qed.

Lemma readByte_ok (s : fstream) (b : Z) (r : list Z) :
  sfail s = false ->
  remaining s = b :: r ->
  readByte s = Ok (b, advance s 1).
Proof.
  intros Hf Hr. unfold readByte.
  pose proof (stream_read_ok s [b] r Hf Hr) as E. simpl in E.
  rewrite E. reflexivity.
Qed.

Lemma remaining_step (s : fstream) (l r : list Z) :
  remaining s = l ++ r -> remaining (advance s (length l)) = r.
Proof.
  intros H. rewrite remaining_advance, H.
  rewrite skipn_app, Nat.sub_diag, skipn_all. reflexivity.
Qed.

End StreamFacts.

(** * Proofs: bit-level facts, checked over all byte values *)

Lemma all_below_spec (n : nat) (P : Z -> bool) :
  all_below n P = true -> forall z, 0 <= z < Z.of_nat n -> P z = true.
Proof.
  induction n as [|k IH]; intros H z Hz; [lia|].
  simpl in H. apply andb_true_iff in H as [Hk Hr].
  destruct (Z.eq_dec z (Z.of_nat k)) as [->|Hne]; [exact Hk|].
  apply IH; [exact Hr | lia].
Qed.

(** [check_below n b]: proves an equation between [Z] expressions in [b]
    by evaluating both sides on every [0 <= b < n]. *)
Ltac check_below n b :=
  apply Z.eqb_eq;
  match goal with
  | |- ?e = true =>
      let P := eval pattern b in e in
      match P with
      | ?f _ => apply (all_below_spec n f); [vm_compute; reflexivity | lia]
      end
  end.

Lemma mask_at (b k w : Z) :
  0 <= k -> 0 <= w ->
  Z.shiftr (Z.land b (Z.shiftl (Z.ones w) k)) k = (b / 2 ^ k) mod 2 ^ w.
Proof.
  intros Hk Hw. rewrite Z.shiftr_land.
  rewrite (Z.shiftr_shiftl_l (Z.ones w) k k) by lia.
  rewrite Z.sub_diag, Z.shiftl_0_r, Z.land_ones by lia.
  rewrite Z.shiftr_div_pow2 by lia. reflexivity.
Qed.

Section ByteFacts.

Variable b : Z.

Lemma land_03 : Z.land b 0x03 = b mod 4.
Proof. exact (Z.land_ones b 2 ltac:(lia)). Qed.

Lemma land_0f : Z.land b 0x0f = b mod 16.
Proof. exact (Z.land_ones b 4 ltac:(lia)). Qed.

Lemma land_0c : Z.shiftr (Z.land b 0x0c) 2 = (b / 4) mod 4.
Proof. exact (mask_at b 2 2 ltac:(lia) ltac:(lia)). Qed.

Lemma land_3c : Z.shiftr (Z.land b 0x3c) 2 = (b / 4) mod 16.
Proof. exact (mask_at b 2 4 ltac:(lia) ltac:(lia)). Qed.

Lemma land_30 : Z.shiftr (Z.land b 0x30) 4 = (b / 16) mod 4.
Proof. exact (mask_at b 4 2 ltac:(lia) ltac:(lia)). Qed.

Lemma land_f0 : Z.shiftr (Z.land b 0xf0) 4 = (b / 16) mod 16.
Proof. exact (mask_at b 4 4 ltac:(lia) ltac:(lia)). Qed.

Lemma land_c0 : Z.shiftr (Z.land b 0xc0) 6 = (b / 64) mod 4.
Proof. exact (mask_at b 6 2 ltac:(lia) ltac:(lia)). Qed.

Lemma lor_span : Z.lor 3 (Z.shiftl (Z.land b 0x03) 2) = 3 + 4 * (b mod 4).
Proof.
  rewrite land_03.
  assert (H : 0 <= b mod 4 < 4) by (apply Z.mod_pos_bound; lia).
  revert H. generalize (b mod 4). intros c H.
  check_below 4%nat c.
Qed.

End ByteFacts.

(** [cb] holds the bits already placed below the cursor: or-ing a code
    above the cursor is an addition. *)
Lemma lor_above (n : nat) (k cb : Z) :
  all_below n (fun c => Z.lor c k mod 256 =? c + k) = true ->
  0 <= cb < Z.of_nat n ->
  Z.lor cb k mod 256 = cb + k.
Proof.
  intros Hall Hcb. apply Z.eqb_eq.
  exact (all_below_spec n (fun c => Z.lor c k mod 256 =? c + k) Hall cb Hcb).
Qed.

(** * Proofs: integers written by [writeInt] are read back by [readInt] *)

Lemma byte_at (v k : Z) :
  0 <= k -> Z.shiftr (Z.land v (Z.shiftl 255 k)) k = (v / 2 ^ k) mod 256.
Proof.
  intros Hk. rewrite Z.shiftr_land.
  rewrite (Z.shiftr_shiftl_l 255 k k) by lia.
  rewrite Z.sub_diag, Z.shiftl_0_r.
  change 255 with (Z.ones 8). rewrite Z.land_ones by lia.
  rewrite Z.shiftr_div_pow2 by lia. reflexivity.
Qed.

Lemma le_value_writeInt32 (v : Z) :
  le_value (writeInt32 v) = v mod 4294967296.
Proof.
  unfold writeInt32, le_value.
  change 0x000000ff with (Z.shiftl 255 0).
  change 0x0000ff00 with (Z.shiftl 255 8).
  change 0x00ff0000 with (Z.shiftl 255 16).
  change 0xff000000 with (Z.shiftl 255 24).
  rewrite <- (Z.shiftr_0_r (Z.land v (Z.shiftl 255 0))).
  rewrite !byte_at by lia.
  change (2 ^ 0) with 1. change (2 ^ 8) with 256.
  change (2 ^ 16) with 65536. change (2 ^ 24) with 16777216.
  Z.div_mod_to_equations. lia.
Qed.

Lemma wrap32_mod (v : Z) :
  -2147483648 <= v < 2147483648 -> wrap32 (v mod 4294967296) = v.
Proof.
  intros H. unfold wrap32. Z.div_mod_to_equations. lia.
Qed.

Lemma writeInt_length (v : Z) : (1 <= length (writeInt v))%nat.
Proof. unfold writeInt. destruct (v <? 254); simpl; lia. Qed.

Lemma readInt_ok (s : fstream) (v : Z) (r : list Z) :
  count_ok v ->
  sfail s = false ->
  remaining s = writeInt v ++ r ->
  readInt s = Ok (v, advance s (length (writeInt v))).
Proof.
  intros Hv Hf Hr. unfold count_ok in Hv. unfold readInt, writeInt in *.
  destruct (Z.ltb_spec v 254) as [Hlt|Hge].
  - unfold writeByte in *. rewrite Z.mod_small in * by lia.
    simpl in Hr. rewrite (readByte_ok s v r Hf Hr). simpl.
    destruct (Z.ltb_spec v 254); [reflexivity | lia].
  - unfold writeByte in Hr. change (254 mod 256) with 254 in Hr.
    simpl in Hr. rewrite (readByte_ok s 254 _ Hf Hr). simpl.
    unfold readInt32, readBytes.
    assert (Hr1 : remaining (advance s 1) = writeInt32 v ++ r).
    { apply (remaining_step s [254]). exact Hr. }
    pose proof (stream_read_ok (advance s 1) (writeInt32 v) r eq_refl Hr1) as E.
    change (length (writeInt32 v)) with 4%nat in E. rewrite E.
    change (4 - length (writeInt32 v))%nat with 0%nat. simpl repeat.
    rewrite app_nil_r, le_value_writeInt32, wrap32_mod by lia.
    rewrite advance_advance. reflexivity.
Qed.

(** * Proofs: the short-int packing *)

Ltac lor_arith :=
  repeat match goal with
  | |- context [Z.lor ?c ?k mod 256] =>
      first [ rewrite (lor_above 1 k c) by (first [ vm_compute; reflexivity | lia ])
            | rewrite (lor_above 4 k c) by (first [ vm_compute; reflexivity | lia ])
            | rewrite (lor_above 16 k c) by (first [ vm_compute; reflexivity | lia ])
            | rewrite (lor_above 64 k c) by (first [ vm_compute; reflexivity | lia ]) ]
  end.

Lemma value_cases (v : Z) :
  count_ok v -> v = 0 \/ v = 1 \/ v = 2 \/ v = 3 \/ v = 4 \/ v = 5 \/ 6 <= v.
Proof. unfold count_ok. lia. Qed.

Ltac eqb_false :=
  repeat match goal with
  | |- context [?x =? ?y] =>
      let H := fresh in
      destruct (Z.eqb_spec x y) as [H|H]; [exfalso; lia|]
  end.


Ltac decide_tests :=
  repeat (cbv beta iota zeta;
  match goal with
  | |- context [?x =? ?y] => destruct (Z.eqb_spec x y); try (exfalso; lia)
  | |- context [?x <? ?y] => destruct (Z.ltb_spec x y); try (exfalso; lia)
  end).

Lemma writeShortInt_packed (v cb ci : Z) :
  cursor_ok cb ci -> count_ok v ->
  writeShortInt v cb ci = Ok (packed v cb ci).
Proof.
  intros Hc Hv.
  destruct (value_cases v Hv) as [->|[->|[->|[->|[->|[->|Hbig]]]]]];
  destruct Hc as [[-> ->]|[[-> Hcb]|[[-> Hcb]|[-> Hcb]]]];
  unfold writeShortInt, packed, code_of, writeByte;
  decide_tests; lor_arith;
  rewrite ?(Z.mod_small cb 256) by lia;
  cbn -[writeInt Z.add]; rewrite ?Z.add_0_r; try reflexivity.
Qed.

Ltac decide_arith :=
  repeat (cbv beta iota zeta;
  match goal with
  | |- context [?x =? ?y] =>
      destruct (Z.eqb_spec x y); try (exfalso; Z.div_mod_to_equations; lia)
  | |- context [?x <? ?y] =>
      destruct (Z.ltb_spec x y); try (exfalso; Z.div_mod_to_equations; lia)
  end).

Ltac read_byte H :=
  match type of H with
  | remaining ?s1 = ?b :: ?t => rewrite (readByte_ok s1 b t eq_refl H); cbv [bind]
  end.

Ltac read_int H Hv :=
  match type of H with
  | remaining ?s1 = writeInt ?v ++ ?r =>
      rewrite (readInt_ok s1 v r Hv eq_refl H); cbv [bind]
  end.

Ltac reader_arith :=
  unfold readShortInt, readEscaped;
  rewrite ?land_03, ?land_0f, ?land_0c, ?land_3c, ?land_30, ?land_f0, ?land_c0.

Lemma readShortInt_packed (v cb ci : Z) (s : fstream) :
  cursor_ok cb ci -> count_ok v -> sfail s = false ->
  let '(out, cb', ci') := packed v cb ci in
  forall B tail,
    B :: remaining s = out ++ tail ->
    (ci' <> 0 -> exists b t, tail = b :: t /\ b mod 2 ^ ci' = cb') ->
    (ci' = 0 -> tail <> []) ->
    exists B',
      readShortInt (s, B, ci) = Ok (v, (advance s (length out), B', ci')) /\
      B' :: remaining (advance s (length out)) = tail.
Proof.
  intros Hc Hv Hf.
  destruct (value_cases v Hv) as [->|[->|[->|[->|[->|[->|Hbig]]]]]];
  destruct Hc as [[-> ->]|[[-> Hcb]|[[-> Hcb]|[-> Hcb]]]];
  unfold packed, code_of; decide_tests;
  intros B tail Hstream Hpre Hne.
  all: cbn [app length Z.add Z.mul Z.pow Z.pow_pos Pos.iter Pos.mul Pos.add Pos.succ Z.div Z.div_eucl Z.pos_div_eucl] in *.
  all: try (destruct Hpre as (b & t & -> & Hb); [lia|]).
  all: try (destruct tail as [|b t]; [exfalso; apply Hne; reflexivity|]).
  all: try clear Hne; try clear Hpre.
  (* no byte completed *)
  all: try (rewrite advance_0 by exact Hf;
            injection Hstream as -> Hrem;
            exists b; split; [|f_equal; exact Hrem];
            reader_arith; decide_arith; reflexivity).
  (* one byte completed, the next byte is read ahead or holds the rest
     of the code *)
  all: try (injection Hstream as -> Hrem;
            exists b; split; [|f_equal; exact (remaining_step s [b] t Hrem)];
            reader_arith; rewrite ?(readByte_ok s b t Hf Hrem); cbv [bind];
            repeat match goal with
            | |- context [Z.lor ?x (Z.shiftl _ 2)] =>
                replace x with 3 by (Z.div_mod_to_equations; lia)
            end;
            rewrite ?lor_span;
            decide_arith; reflexivity).
  (* escape at cursor 0, 2, 4 *)
  1-3: injection Hstream as -> Hrem;
       pose proof (remaining_step s (writeInt v) (b :: t) Hrem) as Hrem1;
       exists b; split;
       [ reader_arith; decide_arith;
         rewrite (readInt_ok s v (b :: t) Hv Hf Hrem); cbv [bind];
         read_byte Hrem1;
         rewrite advance_advance, Nat.add_1_r; reflexivity
       | f_equal;
         replace (S (length (writeInt v))) with (length (writeInt v) + 1)%nat by lia;
         rewrite <- advance_advance;
         exact (remaining_step _ [b] t Hrem1) ].
  (* escape at cursor 6 *)
  injection Hstream as -> Hrem.
  pose proof (remaining_step s [3] _ Hrem) as Hrem1.
  pose proof (remaining_step _ (writeInt v) (b :: t) Hrem1) as Hrem2.
  cbn [length] in Hrem1, Hrem2.
  exists b; split.
  - reader_arith. rewrite (readByte_ok s 3 _ Hf Hrem); cbv [bind].
    replace (((cb + 192) / 64) mod 4) with 3 by (Z.div_mod_to_equations; lia).
    rewrite lor_span. decide_arith.
    read_int Hrem1 Hv. read_byte Hrem2.
    rewrite !advance_advance.
    replace (1 + (length (writeInt v) + 1))%nat with (S (S (length (writeInt v)))) by lia.
    reflexivity.
  - f_equal.
    replace (S (S (length (writeInt v)))) with (1 + length (writeInt v) + 1)%nat by lia.
    rewrite <- !advance_advance.
    exact (remaining_step _ [b] t Hrem2).
Qed.

Lemma packed_shape (v cb ci : Z) :
  cursor_ok cb ci -> count_ok v ->
  let '(out, cb', ci') := packed v cb ci in
  cursor_ok cb' ci' /\
  ((out = [] /\ ci' <> 0 /\
    (ci <> 0 -> forall b, b mod 2 ^ ci' = cb' -> b mod 2 ^ ci = cb)) \/
   (exists b t, out = b :: t /\ (ci <> 0 -> b mod 2 ^ ci = cb))).
Proof.
  intros Hc Hv.
  destruct (value_cases v Hv) as [->|[->|[->|[->|[->|[->|Hbig]]]]]];
  destruct Hc as [[-> ->]|[[-> Hcb]|[[-> Hcb]|[-> Hcb]]]];
  unfold packed, code_of; decide_tests;
  cbn [app Z.add Z.mul Z.pow Z.pow_pos Pos.iter Pos.mul Pos.add Pos.succ
       Z.div Z.div_eucl Z.pos_div_eucl];
  (split; [unfold cursor_ok; Z.div_mod_to_equations; lia|]);
  first [ left; split; [reflexivity|]; split; [lia|];
          intros _ b Hb; Z.div_mod_to_equations; lia
        | right; eexists; eexists; split; [reflexivity|];
          intros _; Z.div_mod_to_equations; lia ].
Qed.

Lemma writeShortInts_head (vs : list Z) :
  forall cb ci more,
    cursor_ok cb ci -> ci <> 0 -> Forall count_ok vs ->
    writeShortInts_from vs cb ci = Ok more ->
    exists b t, more = b :: t /\ b mod 2 ^ ci = cb.
Proof.
  induction vs as [|v vs IH]; intros cb ci more Hc Hci Hvs Hw.
  - simpl in Hw. destruct (Z.eqb_spec ci 0) as [|_]; [contradiction|].
    injection Hw as <-. unfold writeByte. eexists; eexists; split; [reflexivity|].
    destruct Hc as [[-> ->]|[[-> Hcb]|[[-> Hcb]|[-> Hcb]]]];
      cbn [Z.pow Z.pow_pos Pos.iter Pos.mul]; Z.div_mod_to_equations; lia.
  - inversion Hvs as [|? ? Hv Hvs']; subst.
    simpl in Hw. rewrite (writeShortInt_packed v cb ci Hc Hv) in Hw.
    pose proof (packed_shape v cb ci Hc Hv) as Hs.
    destruct (packed v cb ci) as [[out cb'] ci']. cbv [bind] in Hw.
    destruct Hs as [Hc' [(-> & Hci' & Hmod)|(b & t & -> & Hmod)]].
    + destruct (writeShortInts_from vs cb' ci') as [more'| |] eqn:E; try discriminate.
      injection Hw as <-.
      destruct (IH cb' ci' more' Hc' Hci' Hvs' E) as (b & t & -> & Hb).
      exists b, t. split; [reflexivity|]. apply Hmod; assumption.
    + destruct (writeShortInts_from vs cb' ci') as [more'| |]; try discriminate.
      injection Hw as <-. exists b, (t ++ more'). split; [reflexivity|auto].
Qed.

Lemma writeShortInts_nonempty (vs : list Z) :
  forall cb ci more,
    cursor_ok cb ci -> Forall count_ok vs ->
    vs <> [] \/ ci <> 0 ->
    writeShortInts_from vs cb ci = Ok more ->
    more <> [].
Proof.
  destruct vs as [|v vs]; intros cb ci more Hc Hvs Hor Hw.
  - destruct Hor as [?|Hci]; [congruence|].
    destruct (writeShortInts_head [] cb ci more Hc Hci Hvs Hw) as (b & t & -> & _).
    discriminate.
  - inversion Hvs as [|? ? Hv Hvs']; subst.
    simpl in Hw. rewrite (writeShortInt_packed v cb ci Hc Hv) in Hw.
    pose proof (packed_shape v cb ci Hc Hv) as Hs.
    destruct (packed v cb ci) as [[out cb'] ci']. cbv [bind] in Hw.
    destruct (writeShortInts_from vs cb' ci') as [more'| |] eqn:E; try discriminate.
    injection Hw as <-.
    destruct Hs as [Hc' [(-> & Hci' & _)|(b & t & -> & _)]].
    + destruct (writeShortInts_head vs cb' ci' more' Hc' Hci' Hvs' E) as (b & t & -> & _).
      discriminate.
    + discriminate.
Qed.

Lemma writeShortInts_total (vs : list Z) :
  forall cb ci,
    cursor_ok cb ci -> Forall count_ok vs ->
    exists more ci', writeShortInts_from vs cb ci = Ok more /\
                     writeShortInts_cursor vs cb ci = Ok ci'.
Proof.
  induction vs as [|v vs IH]; intros cb ci Hc Hvs.
  - simpl. eauto.
  - inversion Hvs as [|? ? Hv Hvs']; subst.
    simpl. rewrite (writeShortInt_packed v cb ci Hc Hv).
    pose proof (packed_shape v cb ci Hc Hv) as Hs.
    destruct (packed v cb ci) as [[out cb'] ci']. cbv [bind].
    destruct Hs as [Hc' _].
    destruct (IH cb' ci' Hc' Hvs') as (more & cf & -> & ->). eauto.
Qed.

Lemma readShortInts_from_written (vs : list Z) :
  forall cb ci bytes s B rest,
    cursor_ok cb ci -> Forall count_ok vs ->
    writeShortInts_from vs cb ci = Ok bytes ->
    sfail s = false ->
    B :: remaining s = bytes ++ rest ->
    (writeShortInts_cursor vs cb ci = Ok 0 -> rest <> []) ->
    exists s' B' ci',
      readShortInts_from (length vs) (s, B, ci) = Ok (vs, (s', B', ci')) /\
      writeShortInts_cursor vs cb ci = Ok ci' /\
      sdata s' = sdata s /\ sfail s' = false /\
      (spos s' + (if Z.eqb ci' 0 then 0 else 1) = spos s + length bytes)%nat /\
      (if ci' =? 0 then B' :: remaining s' = rest else remaining s' = rest).
Proof.
  induction vs as [|v vs IH]; intros cb ci bytes s B rest Hc Hvs Hw Hf Hstream Hrest.
  - simpl in Hw. injection Hw as <-. simpl.
    exists s, B, ci. repeat split; try assumption.
    + destruct (ci =? 0); simpl; lia.
    + destruct (ci =? 0); simpl in Hstream; [assumption|].
      injection Hstream as _ H. exact H.
  - inversion Hvs as [|? ? Hv Hvs']; subst.
    simpl in Hw, Hrest. cbn [length readShortInts_from writeShortInts_cursor].
    rewrite (writeShortInt_packed v cb ci Hc Hv) in *.
    pose proof (packed_shape v cb ci Hc Hv) as Hs.
    pose proof (readShortInt_packed v cb ci s Hc Hv Hf) as Hr.
    destruct (packed v cb ci) as [[out cb'] ci']. cbv [bind] in Hw, Hrest |- *.
    destruct Hs as [Hc' Hs].
    destruct (writeShortInts_from vs cb' ci') as [more| |] eqn:E; try discriminate.
    injection Hw as <-. rewrite <- app_assoc in Hstream.
    destruct (Hr B (more ++ rest) Hstream) as (B1 & Hread & Hstream1).
    + intros Hci'.
      destruct (writeShortInts_head vs cb' ci' more Hc' Hci' Hvs' E) as (b & t & -> & Hb).
      exists b, (t ++ rest). split; [reflexivity|exact Hb].
    + intros ->. destruct vs as [|v' vs'].
      * simpl in E. injection E as <-. simpl. apply Hrest. reflexivity.
      * assert (Hor : v' :: vs' <> [] \/ 0 <> 0) by (left; discriminate).
        pose proof (writeShortInts_nonempty (v' :: vs') cb' 0 more Hc' Hvs' Hor E)
          as Hne.
        destruct more as [|m0 more]; [exfalso; apply Hne; reflexivity|].
        discriminate.
    + rewrite Hread.
      destruct (IH cb' ci' more (advance s (length out)) B1 rest Hc' Hvs' E eq_refl
                  Hstream1 Hrest)
        as (s' & B' & cf & Hreads & Hcur & Hd & Hfl & Hpos & Hrem).
      rewrite Hreads. exists s', B', cf.
      repeat split; try assumption.
      rewrite length_app. simpl in Hpos. lia.
Qed.


(** C2. Counts written by the bit-packed writer are read back unchanged,
    and the reader ends exactly where the writer stopped: when the last
    count ends on a byte boundary the reader has read one byte ahead and
    moves back by one.  The packed bytes may stand anywhere in a file;
    a byte must follow them when the last count ends on a boundary,
    because the reader then reads ahead. *)
Theorem shortint_roundtrip (counts pre rest : list Z) :
  Forall count_ok counts ->
  (writeShortInts_cursor counts 0 0 = Ok 0 -> rest <> []) ->
  exists bytes s' b' cursor,
    writeShortInts counts = Ok bytes /\
    writeShortInts_cursor counts 0 0 = Ok cursor /\
    (b0 <- readByte (mkStream (pre ++ bytes ++ rest) (length pre) false) ;;
     readShortInts_from (length counts) (snd b0, fst b0, 0))
      = Ok (counts, (s', b', cursor)) /\
    spos s' = (length pre + length bytes + (if Z.eqb cursor 0 then 1 else 0))%nat /\
    readShortInts (length counts) (mkStream (pre ++ bytes ++ rest) (length pre) false)
      = Ok (counts, mkStream (pre ++ bytes ++ rest) (length pre + length bytes) false).
Proof.
  intros Hvs Hrest.
  assert (Hc0 : cursor_ok 0 0) by (left; split; reflexivity).
  destruct (writeShortInts_total counts 0 0 Hc0 Hvs) as (bytes & cf & Hw & Hcur).
  set (s0 := mkStream (pre ++ bytes ++ rest) (length pre) false).
  assert (Hrem0 : remaining s0 = bytes ++ rest).
  { unfold remaining, s0; simpl.
    rewrite skipn_app, Nat.sub_diag, skipn_all. reflexivity. }
  assert (Hne : bytes ++ rest <> []).
  { destruct counts as [|v vs].
    - simpl in Hw. injection Hw as <-. simpl. apply Hrest. reflexivity.
    - assert (Hor : v :: vs <> [] \/ 0 <> 0) by (left; discriminate).
      pose proof (writeShortInts_nonempty (v :: vs) 0 0 bytes Hc0 Hvs Hor Hw) as Hb.
      destruct bytes; [exfalso; apply Hb; reflexivity | discriminate]. }
  assert (HBR : exists B R, bytes ++ rest = B :: R).
  { destruct (bytes ++ rest) as [|B R]; [congruence|eauto]. }
  destruct HBR as (B & R & EB). clear Hne. rewrite EB in Hrem0.
  pose proof (readByte_ok s0 B R eq_refl Hrem0) as Hrb.
  assert (Hrem1 : B :: remaining (advance s0 1) = bytes ++ rest).
  { rewrite EB. f_equal. exact (remaining_step s0 [B] R Hrem0). }
  destruct (readShortInts_from_written counts 0 0 bytes (advance s0 1) B rest
              Hc0 Hvs Hw eq_refl Hrem1 Hrest)
    as (s' & B' & ci' & Hread & Hcur' & Hd & Hfl & Hpos & _).
  rewrite Hcur in Hcur'. injection Hcur' as <-.
  exists bytes, s', B', cf. fold s0.
  assert (Hp : spos s' = (length pre + length bytes + (if Z.eqb cf 0 then 1 else 0))%nat).
  { simpl in Hpos. destruct (Z.eqb cf 0); lia. }
  split; [exact Hw|]. split; [exact Hcur|].
  split; [rewrite Hrb; exact Hread|]. split; [exact Hp|].
  unfold readShortInts. rewrite Hrb. cbv [bind]. rewrite Hread.
  unfold rewind. f_equal. f_equal.
  destruct s' as [d p f]. simpl in Hd, Hfl, Hp. subst d f p.
  destruct (Z.eqb cf 0).
  - unfold seekg_cur, seekg. cbn [sfail spos sdata].
    destruct (Z.ltb_spec (Z.of_nat (length pre + length bytes + 1) + -1) 0); [lia|].
    f_equal. lia.
  - f_equal. lia.
Qed.

Lemma shortint_roundtrip_witness :
  exists bytes s' b' cursor,
    writeShortInts [0; 1; 2; 3; 4; 5; 6; 1000] = Ok bytes /\
    writeShortInts_cursor [0; 1; 2; 3; 4; 5; 6; 1000] 0 0 = Ok cursor /\
    (b0 <- readByte (mkStream ([35] ++ bytes ++ [0]) 1 false) ;;
     readShortInts_from 8 (snd b0, fst b0, 0))
      = Ok ([0; 1; 2; 3; 4; 5; 6; 1000], (s', b', cursor)) /\
    spos s' = (1 + length bytes + (if Z.eqb cursor 0 then 1 else 0))%nat /\
    readShortInts 8 (mkStream ([35] ++ bytes ++ [0]) 1 false)
      = Ok ([0; 1; 2; 3; 4; 5; 6; 1000],
            mkStream ([35] ++ bytes ++ [0]) (1 + length bytes) false).
Proof.
  apply (shortint_roundtrip [0; 1; 2; 3; 4; 5; 6; 1000] [35] [0]).
  - unfold count_ok. repeat constructor; lia.
  - intros _. discriminate.
Defined.

(** * Proofs: the file header *)

Lemma header_check (bytes : list Z) :
  firstn 4 bytes <> header_magic ->
  match fst (readBytes (open_stream bytes) 4) with
  | [h0; h1; h2; h3] => (h0 =? 0x23) && (h1 =? 0x54) && (h2 =? 0x52) && (h3 =? 0x45)
  | _ => false
  end = false.
Proof.
  intros Hne. unfold readBytes, stream_read, open_stream. cbn [sfail spos sdata skipn fst].
  destruct bytes as [|b0 [|b1 [|b2 [|b3 rest]]]]; cbn.
  1-4: repeat match goal with
       | |- context [?x =? ?y] => destruct (Z.eqb_spec x y); cbn; try reflexivity; try lia
       end; try reflexivity.
  cbn in Hne. unfold header_magic in Hne.
  destruct (Z.eqb_spec b0 35); cbn; [|reflexivity].
  destruct (Z.eqb_spec b1 84); cbn; [|reflexivity].
  destruct (Z.eqb_spec b2 82); cbn; [|reflexivity].
  destruct (Z.eqb_spec b3 69); cbn; [|reflexivity].
  subst. congruence.
Qed.

Lemma reserved_bits (hb : Z) :
  (exists i, 2 <= i <= 7 /\ Z.testbit hb i = true) -> Z.land hb 0xfc <> 0.
Proof.
  intros (i & Hi & Hbit) H0.
  assert (Hm : Z.testbit 0xfc i = true).
  { assert (Hc : i = 2 \/ i = 3 \/ i = 4 \/ i = 5 \/ i = 6 \/ i = 7) by lia.
    destruct Hc as [->|[->|[->|[->|[->| ->]]]]]; reflexivity. }
  pose proof (Z.land_spec hb 0xfc i) as Hs.
  rewrite H0, Hbit, Hm, Z.bits_0 in Hs. discriminate.
Qed.

(** C8. Reading a file that does not start with the magic bytes
    23 54 52 45, or whose header byte has one of the bits 2 to 7 set,
    stops with an error: no tree is returned. *)
Theorem bad_header_is_fatal (to_string_double : double -> string) (bytes : list Z) :
  firstn 4 bytes <> header_magic \/
  (exists headerByte rest i,
     bytes = header_magic ++ headerByte :: rest /\
     2 <= i <= 7 /\ Z.testbit headerByte i = true) ->
  readBinaryTrees to_string_double (open_stream bytes)
  = Throw (RcppStop "Invalid file header!").
Proof.
  intros [Hmagic|(hb & rest & i & -> & Hi & Hbit)].
  - unfold readBinaryTrees.
    pose proof (header_check bytes Hmagic) as Hc.
    destruct (readBytes (open_stream bytes) 4) as [header s1]. cbn [fst] in Hc.
    rewrite Hc. reflexivity.
  - assert (Hr : Z.land hb 0xfc <> 0) by (apply reserved_bits; eauto).
    unfold readBinaryTrees, header_magic.
    cbn [readBytes stream_read open_stream app sfail spos sdata skipn firstn length
         Nat.eqb negb Nat.sub repeat].
    cbn [Z.eqb Pos.eqb andb negb].
    cbn [readByte stream_read sfail spos sdata skipn firstn length Nat.add bind
         Nat.eqb negb].
    destruct (Z.eqb_spec (Z.land hb 252) 0) as [E|_]; [contradiction|].
    reflexivity.
Qed.
(** * The deduplication decision *)






Lemma header_byte_bits (n a : bool) :
  Z.testbit (header_byte n a) 0 = negb n /\
  Z.testbit (header_byte n a) 1 = negb a /\
  Z.land (header_byte n a) 0xfc = 0.
Proof. destruct n, a; repeat split; reflexivity. Qed.











Lemma Ok_inj (A : Type) (x y : A) : Ok x = Ok y -> x = y.
Proof. intros H. injection H. auto. Qed.



(** * The binary round trip *)

(** C1 (fails in the code).  The collection holding the one tree ((A,B)X,C)
    is written with a shared name table, in which X has index 0.  The
    writer stores the index of a tip's name plus one, but the index of an
    internal node's name as it is; the reader takes 0 for the empty name
    and any other index minus one.  Read back, the clade has lost its
    name, and the tree its node labels; topology (up to the reader
    counting nodes from 0), tip labels and numbers are kept. *)
Theorem shared_names_lose_node_name (to_string_double : double -> string) :
  exists bytes t',
    writeBinaryTrees named_clade [] = Ok bytes /\
    readBinaryTrees to_string_double (open_stream bytes)
    = Ok (mkMultiPhylo [t'] ["tree1"%string], []) /\
    vget (nodeAttributes named_clade_tree) 0 = Ok (StringVec [EmptyString; "X"%string]) /\
    vget (nodeAttributes t') 0 = Ok (StringVec [EmptyString; EmptyString]) /\
    nodeLabel named_clade_tree = [EmptyString; "X"%string] /\
    nodeLabel t' = [] /\
    tipLabel t' = tipLabel named_clade_tree /\
    map (map Z.succ) (edge t') = edge named_clade_tree /\
    edgeLength t' = edgeLength named_clade_tree.
Proof.
  eexists. eexists.
  split; [vm_compute; reflexivity|].
  split; [vm_compute; reflexivity|].
  repeat split.
Qed.

(** * The NEXUS writer *)

Lemma map_find_all_zero (m : list (string * Z)) (k : string) (v : Z) :
  all_zero m -> map_find string_less m k = Some v -> v = 0.
Proof.
  unfold all_zero. induction m as [|[k' v'] r IH]; intros Hz H; cbn in H.
  - discriminate.
  - inversion Hz as [|e l He Hl]; subst.
    destruct (key_equiv string_less k' k).
    + injection H as <-. exact He.
    + apply IH; assumption.
Qed.

Lemma map_assign_all_zero (m : list (string * Z)) (k : string) :
  all_zero m -> all_zero (map_assign string_less m k 0).
Proof.
  unfold all_zero. induction m as [|[k' v'] r IH]; intros Hz; cbn.
  - constructor; [reflexivity|constructor].
  - inversion Hz as [|e l He Hl]; subst.
    destruct (string_less k k'); [constructor; [reflexivity|assumption]|].
    destruct (string_less k' k); constructor; auto.
Qed.

(** Without a translation table, [translateNames] turns every tip label
    into 1: looking a label up enters it with the value 0. *)
Lemma translate_labels_without_table (labels : list string) :
  forall translation,
    all_zero translation ->
    fst (translate_labels labels translation) = map (fun _ => "1"%string) labels
    /\ all_zero (snd (translate_labels labels translation)).
Proof.
  induction labels as [|label r IH]; intros translation Hz; cbn [translate_labels].
  - split; [reflexivity|exact Hz].
  - destruct (map_find string_less translation label) as [v|] eqn:Hf.
    + rewrite (map_find_all_zero _ _ _ Hz Hf).
      destruct (IH translation Hz) as [H1 H2].
      destruct (translate_labels r translation) as [r' translation2].
      cbn [fst snd map] in *. rewrite H1. split; [reflexivity|exact H2].
    + destruct (IH _ (map_assign_all_zero translation label Hz)) as [H1 H2].
      destruct (translate_labels r (map_assign string_less translation label 0))
        as [r' translation2].
      cbn [fst snd map] in *. rewrite H1. split; [reflexivity|exact H2].
Qed.

(** C4 (fails in the code).  With translation disabled no Taxa block and
    no Translate statement are written, but the tip labels are still
    passed through [translateNames] with an empty table: the tree
    ((A,B)X,C) is written with every tip called 1. *)
Theorem untranslated_tips_are_renamed :
  tipLabel named_clade_tree = ["A"%string; "B"%string; "C"%string] /\
  fst (translate_labels (tipLabel named_clade_tree) [])
  = ["1"%string; "1"%string; "1"%string] /\
  multiPhylo_to_nexus to_string_f named_clade false false
  = Ok ("#NEXUS" ++ newline ++ newline
        ++ "Begin Trees;" ++ newline
        ++ tabulation
        ++ "Tree tree1 = (('1':1.000000,'1':2.000000)'X':1.000000,'1':2.000000)[TreeName='tree1'];"
        ++ newline
        ++ "End;" ++ newline)%string.
Proof.
  split; [reflexivity|]. split; vm_compute; reflexivity.
Qed.

(** * The NWKA parser *)

(** The numbers of scenario B, as [std::stod] reads them. *)
Lemma scenario_B_numbers :
  stod_decimal "1.0" = Some (one, 3%nat) /\
  stod_decimal "2.0" = Some (two, 3%nat) /\
  stod_decimal "3.0" = Some (three, 3%nat) /\
  stod_decimal "4.0" = Some (four, 3%nat) /\
  stod_decimal "90" = Some (ninety, 2%nat).
Proof. repeat split; vm_compute; reflexivity. Qed.

(** C5.  Parsing "(A:1.0,(B:2.0,C:3.0)90:4.0);" gives the tips A, B, C
    (numbered 0, 1, 2), the root (3) and one inner node (4) that is the
    parent of B and C.  The inner node has Support 90 and Length 4.0;
    the tips A, B and C have the lengths 1.0, 2.0 and 3.0, as attributes
    and as edge lengths. *)
Theorem scenario_B_parses (to_string_double : double -> string) :
  exists t,
    parseNWKAStringOneTree to_string_double stod_decimal scenario_B = Ok t /\
    tipLabel t = ["A"%string; "B"%string; "C"%string] /\
    Nnode t = 2 /\
    edge t = [[3; 0]; [3; 4]; [4; 1]; [4; 2]] /\
    edgeLength t = [one; four; two; three] /\
    attributes t = [mkAttribute "Length" true; mkAttribute "Name" false;
                    mkAttribute "Support" true] /\
    vget (nodeAttributes t) 2 = Ok (DoubleVec [nan; ninety]) /\
    vget (nodeAttributes t) 0 = Ok (DoubleVec [nan; four]) /\
    vget (tipAttributes t) 0 = Ok (DoubleVec [one; two; three]) /\
    vget (tipAttributes t) 2 = Ok (DoubleVec [nan; nan; nan]).
Proof.
  eexists. split; [vm_compute; reflexivity|].
  repeat split.
Qed.

(** * The NEXUS reader *)

(** ** Keys of a [std::map<std::string, ...>] are compared exactly *)

Lemma char_code_inj (a b : ascii) : char_code a = char_code b -> a = b.
Proof.
  unfold char_code. intros H. apply N2Z.inj in H.
  rewrite <- (ascii_N_embedding a), <- (ascii_N_embedding b). congruence.
Qed.

Lemma string_less_irrefl (s : string) : string_less s s = false.
Proof.
  unfold string_less. induction s as [|c r IH]; cbn; [reflexivity|].
  rewrite Z.ltb_irrefl. exact IH.
Qed.

Lemma key_equiv_string_less (a b : string) :
  key_equiv string_less a b = true <-> a = b.
Proof.
  unfold key_equiv, string_less. split.
  - revert b. induction a as [|c r IH]; intros [|c' r'] H; cbn in H;
      try reflexivity; try discriminate.
    destruct (Z.ltb_spec (char_code c) (char_code c')) as [Hlt|Hge];
      [discriminate|].
    destruct (Z.ltb_spec (char_code c') (char_code c)) as [Hlt'|Hge'].
    + cbn in H. discriminate.
    + assert (c = c') by (apply char_code_inj; lia). subst c'.
      f_equal. apply IH. exact H.
  - intros <-. pose proof (string_less_irrefl a) as H. unfold string_less in H.
    rewrite H. reflexivity.
Qed.

Lemma map_find_exact (dict : dictionary) (label value : string) :
  map_find string_less dict label = Some value -> In (label, value) dict.
Proof.
  induction dict as [|[k v] r IH]; cbn; intros H; [discriminate|].
  destruct (key_equiv string_less k label) eqn:E.
  - apply key_equiv_string_less in E. injection H as <-. left. congruence.
  - right. apply IH. exact H.
Qed.

Lemma map_find_missing (dict : dictionary) (label : string) :
  (forall k v, In (k, v) dict -> k <> label) ->
  map_find string_less dict label = None.
Proof.
  intros H. destruct (map_find string_less dict label) as [v|] eqn:E; [|reflexivity].
  apply map_find_exact in E. exfalso. exact (H _ _ E eq_refl).
Qed.

Lemma map_find_no_empty_key (dict : dictionary) :
  no_empty_key dict -> map_find string_less dict EmptyString = None.
Proof.
  intros H. apply map_find_missing. intros k v Hin ->.
  unfold no_empty_key in H. rewrite Forall_forall in H.
  exact (H _ Hin eq_refl).
Qed.

Lemma translate_label_substitute (dict : dictionary) (label : string) :
  no_empty_key dict -> translate_label dict label = substitute dict label.
Proof.
  intros H. unfold translate_label, substitute.
  destruct label as [|c r]; cbn [string_empty negb]; [|reflexivity].
  rewrite (map_find_no_empty_key dict H). reflexivity.
Qed.

(** ** The dictionary built by the reader has no empty key *)

Lemma word_tail_nonempty (cs : list ascii) :
  forall sb w s, word_tail cs sb = (w, s) -> sb <> EmptyString -> w <> EmptyString.
Proof.
  induction cs as [|c r IH]; intros sb w s H Hsb; cbn in H.
  - injection H as <- _. exact Hsb.
  - destruct (isspace c || is_delimiter c).
    + injection H as <- _. exact Hsb.
    + apply (IH _ _ _ H). destruct sb; discriminate.
Qed.

Lemma nextWord_nonempty (s s' : tstream) (w : string) :
  nextWord s = Ok (w, false, s') -> w <> EmptyString.
Proof.
  unfold nextWord. destruct (tchars s) as [|c0 r0]; [discriminate|].
  destruct (skip_blank (c0 :: r0)) as [[c r]|]; [|discriminate].
  destruct (is_delimiter c).
  - intros H. injection H as <- _. discriminate.
  - destruct (word_tail r (String c EmptyString)) as [w' s''] eqn:E.
    intros H. injection H as <- _ _.
    apply (word_tail_nonempty _ _ _ _ E). discriminate.
Qed.

Lemma map_assign_no_empty_key (dict : dictionary) (k v : string) :
  no_empty_key dict -> k <> EmptyString ->
  no_empty_key (map_assign string_less dict k v).
Proof.
  unfold no_empty_key. intros Hd Hk.
  induction dict as [|[k' v'] r IH]; cbn.
  - constructor; [exact Hk|constructor].
  - inversion Hd as [|e l He Hl]; subst.
    destruct (string_less k k'); [constructor; [exact Hk|exact Hd]|].
    destruct (string_less k' k); constructor; auto.
Qed.

Section Reader.

Variable to_string_double : double -> string.
Variable stod : string -> option (double * nat).

Lemma nexus_switch_dictionary (st st1 : nexus_state) :
  word st <> EmptyString ->
  no_empty_key (translateDictionary st) ->
  nexus_switch to_string_double stod st = Ok st1 ->
  no_empty_key (translateDictionary st1).
Proof.
  intros Hw Hd H. unfold nexus_switch, with_status in H.
  destruct (status st);
    repeat match type of H with
           | (if ?c then _ else _) = _ => destruct c
           | bind ?m _ = _ => destruct m as [[[? ?] ?]| |]; cbn [bind] in H
           | Ok _ = Ok _ => injection H as <-; cbn [translateDictionary]
           | Throw _ = Ok _ => discriminate H
           | Undef = Ok _ => discriminate H
           end;
    try exact Hd.
  apply map_assign_no_empty_key; assumption.
Qed.

Lemma nexus_step_invariant (st st' : nexus_state) :
  reader_invariant st -> n_eof st = false ->
  nexus_step to_string_double stod st = Ok st' ->
  reader_invariant st'.
Proof.
  intros [Hw Hd] He H. unfold nexus_step in H.
  destruct (nexus_switch to_string_double stod st) as [st1| |] eqn:Hs;
    try discriminate.
  cbn [bind] in H.
  destruct (nextWord (n_file st1)) as [[[w e] f]| |] eqn:Hn; try discriminate.
  cbn [bind] in H. injection H as <-.
  split; cbn [n_eof word translateDictionary].
  - intros ->. exact (nextWord_nonempty _ _ _ Hn).
  - exact (nexus_switch_dictionary st st1 (Hw He) Hd Hs).
Qed.

Lemma nexus_iterate_invariant (n : nat) :
  forall st st',
    reader_invariant st ->
    nexus_iterate to_string_double stod n st = Some st' ->
    reader_invariant st'.
Proof.
  induction n as [|n IH]; intros st st' Hinv H; cbn [nexus_iterate] in H.
  - injection H as <-. exact Hinv.
  - destruct (n_eof st) eqn:He; [discriminate|].
    destruct (nexus_step to_string_double stod st) as [st1| |] eqn:Hs;
      try discriminate.
    exact (IH st1 st' (nexus_step_invariant st st1 Hinv He Hs) H).
Qed.

Lemma nexus_start_invariant (content : string) (st : nexus_state) :
  nexus_start content = Ok st -> reader_invariant st.
Proof.
  unfold nexus_start. intros H.
  destruct (nextWord (open_text content)) as [[[w e] f]| |] eqn:Hn; try discriminate.
  cbn [bind] in H. injection H as <-.
  split; cbn [n_eof word translateDictionary].
  - intros ->. exact (nextWord_nonempty _ _ _ Hn).
  - constructor.
Qed.

End Reader.

(** ** What the reader does with a tree statement *)

Section TreeStatement.

Variable to_string_double : double -> string.
Variable stod : string -> option (double * nat).

Lemma merge_root_attributes_labels (m : attribute_map) :
  forall tree tree',
    merge_root_attributes m tree = Ok tree' ->
    tipLabel tree' = tipLabel tree /\ nodeLabel tree' = nodeLabel tree.
Proof.
  induction m as [|[name v] r IH]; intros tree tree' H; cbn [merge_root_attributes] in H.
  - injection H as <-. split; reflexivity.
  - match type of H with
    | bind ?x _ = _ => destruct x as [[attrIndex cols]| |]; try discriminate
    end.
    cbn [bind] in H.
    match type of H with
    | bind ?x _ = _ => destruct x as [nodes| |]; try discriminate
    end.
    cbn [bind] in H. apply IH in H. cbn [tipLabel nodeLabel] in H. exact H.
Qed.

Lemma finish_tree_labels (dict : dictionary) (treeName preComments : string)
    (parsedTree tree : phylo) :
  finish_tree stod dict treeName preComments parsedTree = Ok tree ->
  tipLabel tree = map (translate_label dict) (tipLabel parsedTree)
  /\ nodeLabel tree = map (translate_label dict) (nodeLabel parsedTree).
Proof.
  unfold finish_tree. intros H.
  match type of H with
  | bind ?x _ = _ =>
      assert (Hnamed : forall named, x = Ok named ->
                tipLabel named = tipLabel parsedTree
                /\ nodeLabel named = nodeLabel parsedTree);
        [|destruct x as [named| |]; try discriminate]
  end.
  { intros named Hn.
    destruct (attributeIndex (attributes parsedTree) (mkAttribute "TreeName" false) <? 0).
    - destruct (vector_of (zlength (tipLabel parsedTree)) EmptyString) as [tips| |];
        try discriminate.
      cbn [bind] in Hn.
      destruct (vector_of (Nnode parsedTree) EmptyString) as [nodes| |];
        try discriminate.
      cbn [bind] in Hn.
      destruct (vset nodes 0 treeName) as [nodes'| |]; try discriminate.
      cbn [bind] in Hn. injection Hn as <-. split; reflexivity.
    - injection Hn as <-. split; reflexivity. }
  destruct (Hnamed named eq_refl) as [Ht Hn]. cbn [bind] in H.
  match type of H with
  | (if ?c then _ else _) = _ => destruct c
  end.
  - match type of H with
    | bind ?x _ = _ => destruct x as [[[p1 p2] m]| |]; try discriminate
    end.
    cbn [bind] in H. apply merge_root_attributes_labels in H.
    cbn [tipLabel nodeLabel] in H. rewrite Ht, Hn in H. exact H.
  - injection H as <-. cbn [tipLabel nodeLabel]. rewrite Ht, Hn. split; reflexivity.
Qed.

Lemma read_tree_statement_finishes (file : tstream) (dict : dictionary)
    (treeName : string) (tree : phylo) (e : bool) (f : tstream) :
  read_tree_statement to_string_double stod file dict treeName = Ok (tree, e, f) ->
  exists rd0 rd1 rd2 rd3 rd4 preComments payload parsed,
    read_next (mkReader file ftok0 false char_eof false) false = Ok rd0 /\
    skip_to_equals (S (length (tchars file))) rd0 = Ok rd1 /\
    read_next rd1 (openComment rd1) = Ok rd2 /\
    read_preComments (S (length (tchars file))) rd2 EmptyString
    = Ok (rd3, preComments) /\
    read_tree_text (S (length (tchars file))) rd3 EmptyString = Ok (rd4, payload) /\
    parseNWKAStringOneTree to_string_double stod payload = Ok parsed /\
    finish_tree stod dict treeName preComments parsed = Ok tree /\
    f = r_stream rd4.
Proof.
  unfold read_tree_statement. intros H.
  destruct (read_next (mkReader file ftok0 false char_eof false) false)
    as [rd0| |] eqn:E0; try discriminate.
  cbn [bind] in H.
  destruct (skip_to_equals (S (length (tchars file))) rd0) as [rd1| |] eqn:E1;
    try discriminate.
  cbn [bind] in H.
  destruct (read_next rd1 (openComment rd1)) as [rd2| |] eqn:E2; try discriminate.
  cbn [bind] in H.
  destruct (read_preComments (S (length (tchars file))) rd2 EmptyString)
    as [[rd3 preComments]| |] eqn:E3; try discriminate.
  cbn [bind] in H.
  destruct (read_tree_text (S (length (tchars file))) rd3 EmptyString)
    as [[rd4 payload]| |] eqn:E4; try discriminate.
  cbn [bind] in H.
  destruct (parseNWKAStringOneTree to_string_double stod payload) as [parsed| |]
    eqn:E5; try discriminate.
  cbn [bind] in H.
  destruct (finish_tree stod dict treeName preComments parsed) as [tree'| |] eqn:Ef;
    try discriminate.
  cbn [bind] in H. apply Ok_inj in H. injection H as <- _ <-.
  exists rd0, rd1, rd2, rd3, rd4, preComments, payload, parsed.
  split; [reflexivity|]. split; [exact E1|]. split; [exact E2|].
  split; [exact E3|]. split; [exact E4|]. split; [exact E5|].
  split; [exact Ef|reflexivity].
Qed.

End TreeStatement.

Lemma nexus_loop_iterates (to_string_double : double -> string)
    (stod : string -> option (double * nat)) (fuel : nat) :
  forall st st',
    nexus_loop to_string_double stod fuel st = Ok st' ->
    exists n, nexus_iterate to_string_double stod n st = Some st' /\ n_eof st' = true.
Proof.
  induction fuel as [|fuel IH]; intros st st' H; cbn [nexus_loop] in H.
  - destruct (n_eof st) eqn:He; [|discriminate].
    injection H as <-. exists 0%nat. split; [reflexivity|exact He].
  - destruct (n_eof st) eqn:He.
    + injection H as <-. exists 0%nat. split; [reflexivity|exact He].
    + destruct (nexus_step to_string_double stod st) as [st1| |] eqn:Hs;
        try discriminate.
      cbn [bind] in H. destruct (IH _ _ H) as (n & Hn & He').
      exists (S n). cbn [nexus_iterate]. rewrite He, Hs. auto.
Qed.

(** C6.  Whenever the reader, started on a file, reaches a Tree statement,
    it reads the statement from the file as the code does (up to the
    equals sign, then the comments before the tree, then the payload, from
    the opening parenthesis to the semicolon that ends the statement), and
    the tree it adds to its result is the tree parsed from that payload
    with every tip label and every node label that is a key of the
    translate dictionary, as read so far, replaced by the mapped value
    (the other labels are kept).  In particular the file of scenario D,
    whose Translate statement maps 1 to Alpha and 2 to Beta and whose
    tree is (1:1,2:2);, gives the tip labels Alpha and Beta. *)
Theorem translate_dictionary_applies :
  (forall (to_string_double : double -> string)
          (stod : string -> option (double * nat))
          (content : string) (n : nat) (st0 st st' : nexus_state),
      nexus_start content = Ok st0 ->
      nexus_iterate to_string_double stod n st0 = Some st ->
      n_eof st = false ->
      status st = InTreeStatement ->
      word st <> "["%string ->
      nexus_switch to_string_double stod st = Ok st' ->
      exists rd0 rd1 rd2 rd3 rd4 preComments payload parsed tree,
        read_next (mkReader (n_file st) ftok0 false char_eof false) false = Ok rd0 /\
        skip_to_equals (S (length (tchars (n_file st)))) rd0 = Ok rd1 /\
        read_next rd1 (openComment rd1) = Ok rd2 /\
        read_preComments (S (length (tchars (n_file st)))) rd2 EmptyString
        = Ok (rd3, preComments) /\
        read_tree_text (S (length (tchars (n_file st)))) rd3 EmptyString
        = Ok (rd4, payload) /\
        parseNWKAStringOneTree to_string_double stod payload = Ok parsed /\
        n_trees st' = n_trees st ++ [tree] /\
        n_file st' = r_stream rd4 /\
        tipLabel tree = map (substitute (translateDictionary st)) (tipLabel parsed) /\
        nodeLabel tree = map (substitute (translateDictionary st)) (nodeLabel parsed))
  /\ (exists tree,
        parseNEXUSFile to_string_f stod_decimal scenario_D
        = Ok (mkMultiPhylo [tree] ["tree1"%string]) /\
        tipLabel tree = ["Alpha"%string; "Beta"%string]).
Proof.
  split.
  - intros to_string_double stod content n st0 st st' H0 Hn He Hst Hw H.
    assert (Hinv : reader_invariant st).
    { apply (nexus_iterate_invariant to_string_double stod n st0 st); [|exact Hn].
      exact (nexus_start_invariant content st0 H0). }
    destruct Hinv as [_ Hd].
    unfold nexus_switch in H. rewrite Hst in H.
    destruct (string_eqb (word st) "[") eqn:Eb.
    { apply String.eqb_eq in Eb. contradiction. }
    destruct (read_tree_statement to_string_double stod (n_file st)
                (translateDictionary st) (word st)) as [[[tree e] f]| |] eqn:Hr;
      try discriminate.
    cbn [bind] in H. injection H as <-. cbn [n_trees n_file].
    destruct (read_tree_statement_finishes _ _ _ _ _ _ _ _ Hr)
      as (rd0 & rd1 & rd2 & rd3 & rd4 & pre & payload & parsed
          & R0 & R1 & R2 & R3 & R4 & Hp & Hf & Hfile).
    destruct (finish_tree_labels _ _ _ _ _ _ Hf) as [Ht Hnl].
    exists rd0, rd1, rd2, rd3, rd4, pre, payload, parsed, tree.
    split; [exact R0|]. split; [exact R1|]. split; [exact R2|].
    split; [exact R3|]. split; [exact R4|].
    split; [exact Hp|]. split; [reflexivity|].
    split; [exact Hfile|].
    rewrite Ht, Hnl. split; apply map_ext; intros l;
      apply translate_label_substitute; exact Hd.
  - eexists. split; [vm_compute; reflexivity|reflexivity].
Qed.

(** ** Exact keys, case-insensitive attribute names *)

Lemma char_equalCI (a b x : ascii) :
  (char_eqb a b || char_eqb (toupper a) (toupper b)) = true ->
  (char_eqb x a || char_eqb (toupper x) (toupper a))
  = (char_eqb x b || char_eqb (toupper x) (toupper b)).
Proof.
  unfold char_eqb. intros H.
  assert (Hu : toupper a = toupper b).
  { apply orb_true_iff in H as [H|H]; apply Ascii.eqb_eq in H; congruence. }
  assert (Hx : forall c, (Ascii.eqb x c || Ascii.eqb (toupper x) (toupper c))
                         = Ascii.eqb (toupper x) (toupper c)).
  { intros c. destruct (Ascii.eqb_spec x c) as [->|_]; [|reflexivity].
    rewrite Ascii.eqb_refl. reflexivity. }
  rewrite !Hx, Hu. reflexivity.
Qed.

Lemma equalCI_same_class (a b : string) :
  equalCI a b = true -> forall x, equalCI x a = equalCI x b.
Proof.
  revert b. induction a as [|c r IH]; intros [|c' r'] H x; cbn in H;
    try discriminate; [reflexivity|].
  apply andb_true_iff in H as [Hc Hr].
  destruct x as [|cx rx]; cbn; [reflexivity|].
  rewrite (char_equalCI c c' cx Hc), (IH r' Hr rx). reflexivity.
Qed.

Lemma attributeIndex_from_case (attrs : list Attribute) (a b : Attribute) :
  equalCI (AttributeName a) (AttributeName b) = true ->
  IsNumeric a = IsNumeric b ->
  forall i, attributeIndex_from i attrs a = attributeIndex_from i attrs b.
Proof.
  intros Hn Hk. induction attrs as [|x r IH]; intros i; cbn; [reflexivity|].
  rewrite (equalCI_same_class _ _ Hn (AttributeName x)), Hk, IH. reflexivity.
Qed.

Lemma translate_label_exact (dict : dictionary) (label : string) :
  (forall k v, In (k, v) dict -> k <> label) -> translate_label dict label = label.
Proof.
  intros H. unfold translate_label. rewrite (map_find_missing dict label H).
  destruct (negb (string_empty label)); reflexivity.
Qed.

(** C9.  A label that is not exactly (byte for byte) a key of the
    translate dictionary is left unchanged by the substitution, whether or
    not it equals a key up to letter case; the position of an attribute,
    in contrast, does not depend on the case of its name.  For instance
    the key alpha does not translate the label Alpha, while LENGTH finds
    the attribute Length. *)
Theorem translation_is_case_sensitive :
  (forall (stod : string -> option (double * nat)) (dict : dictionary)
          (treeName preComments : string) (parsed tree : phylo),
      finish_tree stod dict treeName preComments parsed = Ok tree ->
      forall (i : nat) (label : string),
        (forall k v, In (k, v) dict -> k <> label) ->
        (nth_error (tipLabel parsed) i = Some label ->
         nth_error (tipLabel tree) i = Some label)
        /\ (nth_error (nodeLabel parsed) i = Some label ->
            nth_error (nodeLabel tree) i = Some label))
  /\ (forall (attrs : list Attribute) (a b : Attribute),
        equalCI (AttributeName a) (AttributeName b) = true ->
        IsNumeric a = IsNumeric b ->
        attributeIndex attrs a = attributeIndex attrs b)
  /\ (equalCI "alpha" "Alpha" = true
      /\ translate_label [("alpha"%string, "Homo sapiens"%string)] "Alpha"
         = "Alpha"%string
      /\ translate_label [("alpha"%string, "Homo sapiens"%string)] "alpha"
         = "Homo sapiens"%string
      /\ attributeIndex [mkAttribute "Length" true] (mkAttribute "LENGTH" true) = 0).
Proof.
  split; [|split].
  - intros stod dict treeName preComments parsed tree H i label Hk.
    destruct (finish_tree_labels stod _ _ _ _ _ H) as [Ht Hn].
    rewrite Ht, Hn, !nth_error_map.
    split; intros ->; cbn [option_map]; f_equal; apply translate_label_exact; exact Hk.
  - intros attrs a b Hn Hk. apply attributeIndex_from_case; assumption.
  - repeat split.
Qed.

(** * The sequential reading of a file *)

(** ** Every reader moves forward *)

Lemma follows_refl (s : fstream) : follows s s.
Proof. split; [reflexivity|lia]. Qed.

Lemma follows_trans (s1 s2 s3 : fstream) :
  follows s1 s2 -> follows s2 s3 -> follows s1 s3.
Proof. unfold follows. intros [D1 P1] [D2 P2]. split; [congruence|lia]. Qed.

Lemma stream_read_follows (s s' : fstream) (count : nat) (got : list Z) :
  stream_read s count = (got, s') -> follows s s'.
Proof.
  unfold stream_read. destruct (sfail s); intros H; injection H as <- <-.
  - apply follows_refl.
  - split; cbn; [reflexivity|lia].
Qed.

Lemma readByte_step (s s' : fstream) (b : Z) :
  readByte s = Ok (b, s') ->
  sdata s' = sdata s /\ spos s' = S (spos s) /\ sfail s' = false
  /\ (spos s < length (sdata s))%nat.
Proof.
  unfold readByte, stream_read. destruct (sfail s); [discriminate|].
  destruct (firstn 1 (skipn (spos s) (sdata s))) as [|x [|y l]] eqn:E;
    try discriminate.
  intros H. injection H as <- <-. cbn. repeat split; try lia.
  destruct (Nat.lt_ge_cases (spos s) (length (sdata s))) as [Hlt|Hge]; [exact Hlt|].
  rewrite skipn_all2 in E by lia. discriminate.
Qed.

Lemma readByte_follows (s s' : fstream) (b : Z) :
  readByte s = Ok (b, s') -> follows s s'.
Proof. intros H. apply readByte_step in H as (D & P & _). split; [exact D|lia]. Qed.

Lemma readBytes_follows (s s' : fstream) (count : nat) (l : list Z) :
  readBytes s count = (l, s') -> follows s s'.
Proof.
  unfold readBytes. destruct (stream_read s count) as [got s1] eqn:E.
  intros H. injection H as _ <-. exact (stream_read_follows _ _ _ _ E).
Qed.

Lemma readInt32_follows (s s' : fstream) (v : Z) :
  readInt32 s = (v, s') -> follows s s'.
Proof.
  unfold readInt32. destruct (readBytes s 4) as [l s1] eqn:E.
  intros H. injection H as _ <-. exact (readBytes_follows _ _ _ _ E).
Qed.

Lemma readDouble_follows (s s' : fstream) (d : double) :
  readDouble s = Ok (d, s') -> follows s s'.
Proof.
  unfold readDouble. destruct (stream_read s 8) as [got s1] eqn:E.
  destruct (Nat.eqb (length got) 8); [|discriminate].
  intros H. injection H as _ <-. exact (stream_read_follows _ _ _ _ E).
Qed.

Lemma readInt_step (s s' : fstream) (v : Z) :
  readInt s = Ok (v, s') ->
  follows s s' /\ (spos s < spos s')%nat /\ (spos s < length (sdata s))%nat.
Proof.
  unfold readInt. destruct (readByte s) as [[b s1]| |] eqn:E; try discriminate.
  cbn [bind]. apply readByte_step in E as (D & P & _ & L).
  destruct (b <? 254).
  - intros H. injection H as _ <-. repeat split; try lia. exact D.
  - destruct (readInt32 s1) as [v' s2] eqn:E2. intros H. injection H as _ <-.
    apply readInt32_follows in E2 as [D2 P2].
    repeat split; try lia. congruence.
Qed.

Lemma readInt_follows (s s' : fstream) (v : Z) :
  readInt s = Ok (v, s') -> follows s s'.
Proof. intros H. apply readInt_step in H. tauto. Qed.

Lemma readChars_follows (n : nat) :
  forall s s' cs, readChars n s = Ok (cs, s') -> follows s s'.
Proof.
  induction n as [|n IH]; intros s s' cs H; cbn [readChars] in H.
  - injection H as _ <-. apply follows_refl.
  - destruct (readInt s) as [[c s1]| |] eqn:E1; try discriminate. cbn [bind] in H.
    destruct (readChars n s1) as [[cs' s2]| |] eqn:E2; try discriminate.
    cbn [bind] in H. injection H as _ <-.
    exact (follows_trans _ _ _ (readInt_follows _ _ _ E1) (IH _ _ _ E2)).
Qed.

Lemma readMyString_follows (s s' : fstream) (str : string) :
  readMyString s = Ok (str, s') -> follows s s'.
Proof.
  unfold readMyString.
  destruct (readInt s) as [[n s1]| |] eqn:E1; try discriminate. cbn [bind].
  destruct (n <? 0); [discriminate|].
  destruct (readChars (Z.to_nat n) s1) as [[cs s2]| |] eqn:E2; try discriminate.
  cbn [bind]. intros H. injection H as _ <-.
  exact (follows_trans _ _ _ (readInt_follows _ _ _ E1) (readChars_follows _ _ _ _ E2)).
Qed.

Lemma readEscaped_follows (s s' : fstream) (v b c : Z) :
  readEscaped s = Ok (v, (s', b, c)) -> follows s s'.
Proof.
  unfold readEscaped.
  destruct (readInt s) as [[n s1]| |] eqn:E1; try discriminate. cbn [bind].
  destruct (readByte s1) as [[b1 s2]| |] eqn:E2; try discriminate. cbn [bind].
  intros H. injection H as _ <- _ _.
  exact (follows_trans _ _ _ (readInt_follows _ _ _ E1) (readByte_follows _ _ _ E2)).
Qed.

Lemma readShortInt_follows (s s' : fstream) (b c v b' c' : Z) :
  readShortInt (s, b, c) = Ok (v, (s', b', c')) -> follows s s'.
Proof.
  unfold readShortInt. intros H.
  repeat match type of H with
         | (if ?x then _ else _) = _ => destruct x
         | Ok _ = Ok _ => injection H as _ <- _ _; apply follows_refl
         | readEscaped _ = Ok _ => exact (readEscaped_follows _ _ _ _ _ H)
         | bind (readByte ?x) _ = _ =>
             let E := fresh "E" in
             destruct (readByte x) as [[? ?]| |] eqn:E; try discriminate;
             cbn [bind] in H; apply readByte_follows in E
         end;
    try (injection H as _ <- _ _; assumption);
    try (apply readEscaped_follows in H; eapply follows_trans; eassumption).
Qed.

Section Progress.

Variable to_string_double : double -> string.

Lemma read_structure_follows (fuel : nat) :
  forall s b c parents children added currParent tipCount shape,
    read_structure fuel (s, b, c) parents children added currParent tipCount
    = Ok shape ->
    follows s (fst (fst (st_stream shape))).
Proof.
  induction fuel as [|fuel IH];
    intros s b c parents children added currParent tipCount shape H;
    cbn [read_structure] in H; [discriminate|].
  destruct (currParent >=? 0).
  - destruct (readShortInt (s, b, c)) as [[currCount [[s1 b1] c1]]| |] eqn:E;
      try discriminate.
    cbn [bind] in H. apply readShortInt_follows in E.
    repeat match type of H with
           | bind ?x _ = _ =>
               destruct x as [?| |]; try discriminate; cbn [bind] in H
           end.
    match type of H with
    | (if ?x then _ else _) = _ => destruct x
    end.
    + repeat match type of H with
             | bind ?x _ = _ =>
                 destruct x as [?| |]; try discriminate; cbn [bind] in H
             end.
      apply IH in H. exact (follows_trans _ _ _ E H).
    + injection H as <-. exact E.
  - injection H as <-. apply follows_refl.
Qed.

Lemma rewind_back (s : fstream) (b c : Z) :
  sdata (rewind (s, b, c)) = sdata s /\ (spos s <= S (spos (rewind (s, b, c))))%nat.
Proof.
  unfold rewind, seekg_cur, seekg. destruct (c =? 0); [|split; [reflexivity|lia]].
  destruct (sfail s); [split; [reflexivity|lia]|].
  destruct (Z.of_nat (spos s) + -1 <? 0) eqn:E; cbn; split; try reflexivity; try lia.
Qed.

Lemma read_attribute_follows (globalNames : bool) (names : list string)
    (attrs : list Attribute) (i : Z) (vals vals' : node_values) (s s' : fstream) :
  read_attribute globalNames names attrs i vals s = Ok (vals', s') -> follows s s'.
Proof.
  unfold read_attribute. intros H.
  destruct (readInt s) as [[attributeIndex s1]| |] eqn:E1; try discriminate.
  cbn [bind] in H. apply readInt_follows in E1.
  destruct (vget attrs attributeIndex) as [a| |]; try discriminate. cbn [bind] in H.
  assert (Hd : forall d s2, readDouble s1 = Ok (d, s2) -> follows s s2).
  { intros d s2 E. exact (follows_trans _ _ _ E1 (readDouble_follows _ _ _ E)). }
  assert (Hs : forall str s0 s2, follows s1 s0 -> readMyString s0 = Ok (str, s2) ->
                                 follows s s2).
  { intros str s0 s2 F E.
    exact (follows_trans _ _ _ E1 (follows_trans _ _ _ F (readMyString_follows _ _ _ E))). }
  destruct (IsNumeric a).
  - destruct (equalCI (AttributeName a) LENGTHATTRIBUTE);
      destruct (readDouble s1) as [[d s2]| |] eqn:E2; try discriminate;
      cbn [bind] in H;
      repeat match type of H with
             | bind ?x _ = _ =>
                 destruct x as [?| |]; try discriminate; cbn [bind] in H
             end;
      injection H as _ <-; exact (Hd _ _ eq_refl).
  - destruct (negb (equalCI (AttributeName a) NAMEATTRIBUTE)).
    + destruct (readMyString s1) as [[str s2]| |] eqn:E2; try discriminate.
      cbn [bind] in H.
      repeat match type of H with
             | bind ?x _ = _ =>
                 destruct x as [?| |]; try discriminate; cbn [bind] in H
             end.
      injection H as _ <-. exact (Hs _ _ _ (follows_refl s1) E2).
    + match type of H with
      | bind ?x _ = _ =>
          assert (Hname : forall name s2, x = Ok (name, s2) -> follows s s2);
            [|destruct x as [[name s2]| |]; try discriminate; cbn [bind] in H]
      end.
      { intros name s2 E. destruct (negb globalNames).
        - exact (Hs _ _ _ (follows_refl s1) E).
        - destruct (readByte s1) as [[b t2]| |] eqn:Eb; try discriminate.
          cbn [bind] in E. pose proof (readByte_step _ _ _ Eb) as (D & P & Fl & _).
          destruct (b =? 0).
          + injection E as _ <-.
            exact (follows_trans _ _ _ E1 (readByte_follows _ _ _ Eb)).
          + destruct (b <=? 254).
            * assert (Hseek : follows s1 (seekg_cur t2 (-1))).
              { unfold seekg_cur, seekg. rewrite Fl, P.
                destruct (Z.of_nat (S (spos s1)) + -1 <? 0) eqn:Et.
                - apply Z.ltb_lt in Et. lia.
                - split; cbn [sdata spos]; [exact D|lia]. }
              destruct (readInt (seekg_cur t2 (-1))) as [[index t3]| |] eqn:Ei;
                try discriminate.
              cbn [bind] in E.
              destruct (vget names (index - 1)) as [nm| |]; try discriminate.
              cbn [bind] in E. injection E as _ <-.
              exact (follows_trans _ _ _ E1
                       (follows_trans _ _ _ Hseek (readInt_follows _ _ _ Ei))).
            * exact (Hs _ _ _ (readByte_follows _ _ _ Eb) E). }
      repeat match type of H with
             | bind ?x _ = _ =>
                 destruct x as [?| |]; try discriminate; cbn [bind] in H
             end.
      injection H as _ <-. exact (Hname _ _ eq_refl).
Qed.

Lemma read_attributes_follows (count : nat) (globalNames : bool)
    (names : list string) (attrs : list Attribute) (i : Z) :
  forall vals vals' s s',
    read_attributes count globalNames names attrs i vals s = Ok (vals', s') ->
    follows s s'.
Proof.
  induction count as [|count IH]; intros vals vals' s s' H; cbn [read_attributes] in H.
  - injection H as _ <-. apply follows_refl.
  - destruct (read_attribute globalNames names attrs i vals s) as [[vals1 s1]| |] eqn:E;
      try discriminate.
    cbn [bind] in H.
    exact (follows_trans _ _ _ (read_attribute_follows _ _ _ _ _ _ _ _ E) (IH _ _ _ _ H)).
Qed.

Lemma read_nodes_follows (n : nat) (globalNames : bool) (names : list string)
    (attrs : list Attribute) :
  forall i vals vals' s s',
    read_nodes n i globalNames names attrs vals s = Ok (vals', s') ->
    follows s s' /\ (n <> 0%nat -> (spos s < spos s')%nat).
Proof.
  induction n as [|n IH]; intros i vals vals' s s' H; cbn [read_nodes] in H.
  - injection H as _ <-. split; [apply follows_refl|congruence].
  - destruct (readInt s) as [[attributeCount s1]| |] eqn:E1; try discriminate.
    cbn [bind] in H. apply readInt_step in E1 as (F1 & P1 & _).
    destruct (read_attributes (Z.to_nat attributeCount) globalNames names attrs i vals s1)
      as [[vals1 s2]| |] eqn:E2; try discriminate.
    cbn [bind] in H. apply read_attributes_follows in E2.
    apply IH in H as [F3 _].
    pose proof (follows_trans _ _ _ E2 F3) as [D P].
    split; [exact (follows_trans _ _ _ F1 (conj D P))|]. intros _. lia.
Qed.

Lemma read_attribute_table_follows (n : nat) :
  forall s s' table, read_attribute_table n s = Ok (table, s') -> follows s s'.
Proof.
  induction n as [|n IH]; intros s s' table H; cbn [read_attribute_table] in H.
  - injection H as _ <-. apply follows_refl.
  - destruct (readMyString s) as [[name s1]| |] eqn:E1; try discriminate.
    cbn [bind] in H.
    destruct (readInt s1) as [[kind s2]| |] eqn:E2; try discriminate.
    cbn [bind] in H.
    destruct (read_attribute_table n s2) as [[more s3]| |] eqn:E3; try discriminate.
    cbn [bind] in H. injection H as _ <-.
    exact (follows_trans _ _ _ (readMyString_follows _ _ _ E1)
             (follows_trans _ _ _ (readInt_follows _ _ _ E2) (IH _ _ _ E3))).
Qed.

Lemma readBinaryTree_progress (file : fstream) (globalNames : bool)
    (names : list string) (attrs0 : list Attribute) (tree : phylo) (s' : fstream) :
  readBinaryTree to_string_double file globalNames names attrs0 = Ok (tree, s') ->
  sdata s' = sdata file /\ (spos file < spos s')%nat
  /\ (spos file < length (sdata file))%nat.
Proof.
  unfold readBinaryTree. intros H.
  destruct (readInt file) as [[numAttributes s1]| |] eqn:E1; try discriminate.
  cbn [bind] in H. apply readInt_step in E1 as ([D1 _] & P1 & L1).
  match type of H with
  | bind ?x _ = _ =>
      assert (F2 : forall attrs s2, x = Ok (attrs, s2) -> follows s1 s2);
        [|destruct x as [[attrs s2]| |]; try discriminate; cbn [bind] in H]
  end.
  { intros attrs s2 E. destruct (numAttributes >? 0).
    - exact (read_attribute_table_follows _ _ _ _ E).
    - injection E as _ <-. apply follows_refl. }
  destruct (F2 _ _ eq_refl) as [D2 P2].
  destruct (readByte s2) as [[currByte s3]| |] eqn:E3; try discriminate.
  cbn [bind] in H. apply readByte_step in E3 as (D3 & P3 & _ & _).
  match type of H with
  | bind ?x _ = _ => destruct x as [shape| |] eqn:E4; try discriminate
  end.
  cbn [bind] in H. apply read_structure_follows in E4 as [D4 P4].
  destruct (st_stream shape) as [[s4 b4] c4] eqn:Est. cbn [fst] in D4, P4.
  destruct (rewind_back s4 b4 c4) as [D5 P5].
  destruct (special_indices attrs 0 (-1) (-1)) as [nameIndex supportIndex].
  match type of H with
  | bind ?x _ = _ => destruct x as [[vals s5]| |] eqn:E6; try discriminate
  end.
  cbn [bind] in H. apply read_nodes_follows in E6 as [[D6 P6] _].
  repeat match type of H with
         | bind ?x _ = _ => destruct x as [?| |]; try discriminate; cbn [bind] in H
         | (let '(_, _) := ?p in _) = _ => destruct p
         end.
  apply Ok_inj in H. apply (f_equal snd) in H. cbn [snd] in H. subst s'.
  repeat split; try lia. congruence.
Qed.

End Progress.

(** ** The fallback *)

Section Fallback.

Variable to_string_double : double -> string.

Lemma read_names_follows (n : nat) :
  forall s s' names, read_names n s = Ok (names, s') -> follows s s'.
Proof.
  induction n as [|n IH]; intros s s' names H; cbn [read_names] in H.
  - injection H as _ <-. apply follows_refl.
  - destruct (readMyString s) as [[name s1]| |] eqn:E1; try discriminate.
    cbn [bind] in H.
    destruct (read_names n s1) as [[more s2]| |] eqn:E2; try discriminate.
    cbn [bind] in H. injection H as _ <-.
    exact (follows_trans _ _ _ (readMyString_follows _ _ _ E1) (IH _ _ _ E2)).
Qed.

Lemma read_global_tables_follows (s5 s7 : fstream) (globalNames globalAttributes : bool)
    (allNames : list string) (allAttributes : list Attribute) :
  read_global_tables s5 globalNames globalAttributes = Ok (allNames, allAttributes, s7) ->
  follows s5 s7.
Proof.
  unfold read_global_tables. intros H.
  match type of H with
  | bind ?x _ = _ =>
      assert (F1 : forall l s6, x = Ok (l, s6) -> follows s5 s6);
        [|destruct x as [[l s6]| |]; try discriminate; cbn [bind] in H]
  end.
  { intros l s6 E. destruct globalNames.
    - destruct (readInt s5) as [[n t1]| |] eqn:E1; try discriminate.
      cbn [bind] in E. destruct (n <? 0); [discriminate|].
      exact (follows_trans _ _ _ (readInt_follows _ _ _ E1) (read_names_follows _ _ _ _ E)).
    - injection E as _ <-. apply follows_refl. }
  match type of H with
  | bind ?x _ = _ =>
      assert (F2 : forall l' s7', x = Ok (l', s7') -> follows s6 s7');
        [|destruct x as [[l' s7']| |]; try discriminate; cbn [bind] in H]
  end.
  { intros l' s7' E. destruct globalAttributes.
    - destruct (readInt s6) as [[n t1]| |] eqn:E1; try discriminate.
      cbn [bind] in E. destruct (n <? 0); [discriminate|].
      exact (follows_trans _ _ _ (readInt_follows _ _ _ E1)
               (read_attribute_table_follows _ _ _ _ E)).
    - injection E as _ <-. apply follows_refl. }
  injection H as _ _ <-.
  exact (follows_trans _ _ _ (F1 _ _ eq_refl) (F2 _ _ eq_refl)).
Qed.

(** The loop has fuel for every record of the file. *)
Lemma read_sequentially_decodes (globalNames : bool) (allNames : list string)
    (allAttributes : list Attribute) (file : fstream) (i : Z)
    (trees : list phylo) (names : list string) :
  decodes_until_failure to_string_double globalNames allNames allAttributes
    file i trees names ->
  forall fuel,
    (length (sdata file) - spos file < fuel)%nat ->
    read_sequentially to_string_double fuel i file globalNames allNames allAttributes
    = Ok (trees, names).
Proof.
  induction 1 as [file i e Hthrow|file s1 i tree treeName trees names Hread Hname Hrest IH];
    intros fuel Hfuel.
  - destruct fuel as [|fuel]; [lia|]. cbn [read_sequentially]. rewrite Hthrow.
    reflexivity.
  - destruct fuel as [|fuel]; [lia|]. cbn [read_sequentially]. rewrite Hread, Hname.
    cbn [bind].
    destruct (readBinaryTree_progress _ _ _ _ _ _ _ Hread) as (D & P & L).
    rewrite (IH fuel) by (rewrite D; lia). reflexivity.
Qed.

Lemma binary_tree_name_rule (tree : phylo) (ordinal : Z) (name : string) :
  binary_tree_name tree ordinal = Ok name -> name = name_by_rule tree ordinal.
Proof.
  unfold binary_tree_name, name_by_rule, root_tree_name.
  destruct ((treeNameIndex_from 0 (attributes tree) >=? 0)
            && (0 <? zlength (nodeAttributes tree))) eqn:Hc.
  - destruct (vget (nodeAttributes tree) (treeNameIndex_from 0 (attributes tree)))
      as [v| |]; try discriminate.
    cbn [bind]. destruct v as [l|l]; cbn [get_strings]; try discriminate.
    cbn [bind]. destruct l as [|root l]; [discriminate|].
    change (vget (root :: l) 0) with (Ok root). cbn [bind].
    destruct (string_empty root); cbn [negb]; intros H; injection H as <-; reflexivity.
  - intros H. injection H as <-.
    apply andb_false_iff in Hc as [Hc|Hc].
    + unfold vget. rewrite Z.geb_leb in Hc. apply Z.leb_gt in Hc.
      destruct (treeNameIndex_from 0 (attributes tree) <? 0) eqn:E; [reflexivity|].
      apply Z.ltb_ge in E. lia.
    + apply Z.ltb_ge in Hc. unfold zlength in Hc.
      destruct (nodeAttributes tree); [|cbn in Hc; lia].
      unfold vget. destruct (_ <? 0); [reflexivity|].
      destruct (Z.to_nat _); reflexivity.
Qed.

Lemma decoded_names (globalNames : bool) (allNames : list string)
    (allAttributes : list Attribute) (file : fstream) (i : Z)
    (trees : list phylo) (names : list string) :
  decodes_until_failure to_string_double globalNames allNames allAttributes
    file i trees names ->
  length names = length trees /\
  forall k tree name,
    nth_error trees k = Some tree -> nth_error names k = Some name ->
    name = name_by_rule tree (i + Z.of_nat k + 1).
Proof.
  induction 1 as [file i e Hthrow|file s1 i tree treeName trees names Hread Hname Hrest IH].
  - split; [reflexivity|]. intros [|k]; discriminate.
  - destruct IH as [IHl IHn]. split; [cbn; lia|].
    intros [|k] t n Ht Hn; cbn in Ht, Hn.
    + injection Ht as <-. injection Hn as <-.
      rewrite (binary_tree_name_rule _ _ _ Hname). f_equal. lia.
    + rewrite (IHn k t n Ht Hn). f_equal. lia.
Qed.

End Fallback.

Lemma hasValidTrailer_after_header (bytes : list Z) :
  (5 <= length bytes)%nat ->
  skipn (length bytes - 4) bytes <> trailer_magic ->
  hasValidTrailer (mkStream bytes 5 false) = (false, mkStream bytes 5 false).
Proof.
  intros Hlen Hne.
  unfold hasValidTrailer, tellg, seekg_end, seekg, readBytes, stream_read.
  cbn [sfail sdata spos].
  replace (Z.of_nat (length bytes) + -4 <? 0) with false
    by (symmetry; apply Z.ltb_ge; lia).
  cbn [sfail sdata spos].
  replace (Z.to_nat (Z.of_nat (length bytes) + -4)) with (length bytes - 4)%nat by lia.
  set (tail := skipn (length bytes - 4) bytes) in *.
  assert (Ht : length tail = 4%nat) by (unfold tail; rewrite length_skipn; lia).
  destruct tail as [|t0 [|t1 [|t2 [|t3 [|t4 tail]]]]]; try discriminate.
  cbn [firstn length Nat.eqb negb Nat.sub repeat app sfail sdata spos].
  change (5 <? 0) with false. cbn [Z.to_nat Pos.to_nat Pos.iter_op Nat.add].
  f_equal.
  destruct (Z.eqb_spec t0 0x45); [|reflexivity].
  destruct (Z.eqb_spec t1 0x4e); [|reflexivity].
  destruct (Z.eqb_spec t2 0x44); [|reflexivity].
  destruct (Z.eqb_spec t3 0xff); [|reflexivity].
  subst. exfalso. apply Hne. reflexivity.
Qed.

(** What the fallback does when a decoding throws.  On a file with a
    valid header whose last four bytes are not the trailer, the reader
    warns and decodes tree records one after the other from the end of the
    shared tables, each where the one before ended; when a decoding
    throws and the name of every decoded tree can be taken, it returns
    exactly the trees decoded before the exception, each named by the text
    of its root's TreeName when that is not empty and tree<n>, n counting
    from 1, otherwise. *)
Theorem sequential_fallback (to_string_double : double -> string)
    (bytes rest : list Z) (headerByte : Z)
    (allNames : list string) (allAttributes : list Attribute) (s7 : fstream)
    (trees : list phylo) (names : list string) :
  bytes = header_magic ++ headerByte :: rest ->
  Z.land headerByte 0xfc = 0 ->
  skipn (length bytes - 4) bytes <> trailer_magic ->
  read_global_tables (mkStream bytes 5 false)
    (negb (Z.land headerByte 0x01 =? 0)) (negb (Z.land headerByte 0x02 =? 0))
  = Ok (allNames, allAttributes, s7) ->
  decodes_until_failure to_string_double (negb (Z.land headerByte 0x01 =? 0))
    allNames allAttributes s7 0 trees names ->
  readBinaryTrees to_string_double (open_stream bytes)
  = Ok (mkMultiPhylo trees names, ["Invalid file trailer!"%string])
  /\ length names = length trees
  /\ forall k tree name,
       nth_error trees k = Some tree -> nth_error names k = Some name ->
       name = name_by_rule tree (Z.of_nat k + 1).
Proof.
  intros Hbytes Hreserved Htrailer Htables Hdecodes.
  destruct (decoded_names _ _ _ _ _ _ _ _ Hdecodes) as [Hl Hn].
  split; [|split; [exact Hl|exact Hn]].
  assert (Hlen : (5 <= length bytes)%nat).
  { rewrite Hbytes, length_app. cbn. lia. }
  pose proof (hasValidTrailer_after_header bytes Hlen Htrailer) as Hvalid.
  pose proof (read_global_tables_follows _ _ _ _ _ _ Htables) as [D7 P7].
  cbn [sdata spos] in D7, P7.
  pose proof (read_sequentially_decodes to_string_double _ _ _ _ _ _ _ Hdecodes
                (S (length bytes))) as Hseq.
  rewrite D7 in Hseq. specialize (Hseq ltac:(lia)).
  unfold readBinaryTrees.
  assert (Hhead : readBytes (open_stream bytes) 4
                  = (header_magic, mkStream bytes 4 false)).
  { rewrite Hbytes. reflexivity. }
  rewrite Hhead. cbn [header_magic negb Z.eqb Pos.eqb andb].
  assert (Hbyte : readByte (mkStream bytes 4 false)
                  = Ok (headerByte, mkStream bytes 5 false)).
  { rewrite Hbytes. reflexivity. }
  rewrite Hbyte. cbn [bind]. rewrite Hreserved. cbn [Z.eqb negb].
  rewrite Hvalid. cbn [bind].
  replace (seekg (mkStream bytes 5 false) 5) with (mkStream bytes 5 false)
    by reflexivity.
  rewrite Htables. cbn [bind].
  cbn [open_stream sdata]. rewrite Hseq. reflexivity.
Qed.

(** C3 (fails in the code).  Scenario C of the specification: the file
    [writeBinaryTrees] writes for the collection holding the one tree
    ((A,B)X,C), with the last byte of its trailer changed from FF to 00.
    The reader takes the fallback: it reads the shared tables and decodes
    the one record, which ends before the end of the file.  The loop is
    meant to stop when a decoding fails, but it stops only on an
    exception, and no read is ever checked: the next decoding takes the
    directory for a record and reads past the end of the file, where
    [readByte] returns a byte that was never set.  Nothing is known about
    what the reader returns; the tree it had decoded is not returned. *)
Theorem corrupted_trailer_is_not_recovered (to_string_double : double -> string) :
  exists body names attrs s7 tree s1,
    writeBinaryTrees named_clade [] = Ok (body ++ [0xff])
    /\ skipn (length body - 3) (body ++ [0xff]) = trailer_magic
    /\ skipn (length body - 3) (body ++ [0]) <> trailer_magic
    /\ read_global_tables (mkStream (body ++ [0]) 5 false) true true
       = Ok (names, attrs, s7)
    /\ readBinaryTree to_string_double s7 true names attrs = Ok (tree, s1)
    /\ tipLabel tree = ["A"%string; "B"%string; "C"%string]
    /\ (spos s1 < length body)%nat
    /\ readBinaryTree to_string_double s1 true names attrs = Undef
    /\ readBinaryTrees to_string_double (open_stream (body ++ [0])) = Undef.
Proof.
  exists [35; 84; 82; 69; 3; 4; 1; 88; 1; 65; 1; 66; 1; 67; 4; 4; 78; 97;
          109; 101; 1; 6; 76; 101; 110; 103; 116; 104; 2; 7; 83; 117; 112;
          112; 111; 114; 116; 2; 8; 84; 114; 101; 101; 78; 97; 109; 101; 1;
          0; 5; 0; 1; 3; 5; 116; 114; 101; 101; 49; 2; 0; 0; 1; 0; 0; 0; 0;
          0; 0; 240; 63; 2; 0; 2; 1; 0; 0; 0; 0; 0; 0; 240; 63; 2; 0; 3; 1;
          0; 0; 0; 0; 0; 0; 0; 64; 2; 0; 4; 1; 0; 0; 0; 0; 0; 0; 0; 64; 1;
          48; 0; 0; 0; 0; 0; 0; 0; 107; 0; 0; 0; 0; 0; 0; 0; 69; 78; 68].
  eexists. eexists. eexists. eexists. eexists.
  split; [vm_compute; reflexivity|].
  split; [vm_compute; reflexivity|].
  split; [vm_compute; discriminate|].
  split; [vm_compute; reflexivity|].
  split; [vm_compute; reflexivity|].
  split; [reflexivity|].
  split; [vm_compute; lia|].
  split; vm_compute; reflexivity.
Qed.
(** * Round trips of the binary primitives *)

Lemma le_value_bytes (v : Z) (n : nat) :
  le_value (map (fun i => (v / 2 ^ (8 * Z.of_nat i)) mod 256) (seq 0 n))
  = v mod 2 ^ (8 * Z.of_nat n).
Proof.
  revert v. induction n as [|n IH]; intros v.
  - cbn. rewrite Z.mod_1_r. reflexivity.
  - cbn [seq map le_value]. rewrite <- seq_shift, map_map.
    assert (E : map (fun i => (v / 2 ^ (8 * Z.of_nat (S i))) mod 256) (seq 0 n)
                = map (fun i => ((v / 256) / 2 ^ (8 * Z.of_nat i)) mod 256) (seq 0 n)).
    { apply map_ext. intros i. f_equal.
      replace (8 * Z.of_nat (S i)) with (8 + 8 * Z.of_nat i) by lia.
      rewrite Z.pow_add_r by lia. change (2 ^ 8) with 256.
      rewrite Z.div_div by lia. reflexivity. }
    rewrite E, IH. change (8 * Z.of_nat 0) with 0. change (2 ^ 0) with 1.
    rewrite Z.div_1_r.
    replace (8 * Z.of_nat (S n)) with (8 + 8 * Z.of_nat n) by lia.
    rewrite Z.pow_add_r by lia. change (2 ^ 8) with 256.
    rewrite Z.rem_mul_r by lia. reflexivity.
Qed.

Lemma le_value_writeDouble (d : double) : le_value (writeDouble d) = d mod 2 ^ 64.
Proof.
  unfold writeDouble.
  change (2 ^ 64) with (2 ^ (8 * Z.of_nat 8)).
  rewrite <- (le_value_bytes d 8).
  assert (H : forall i, 0 <= i ->
                Z.land (Z.shiftr d (8 * i)) 0xff = (d / 2 ^ (8 * i)) mod 256).
  { intros i Hi. change 0xff with (Z.ones 8).
    rewrite Z.land_ones, Z.shiftr_div_pow2 by lia. reflexivity. }
  cbn [seq map]. rewrite !H by lia. reflexivity.
Qed.

Lemma le_value_writeInt64 (v : Z) : le_value (writeInt64 v) = v mod 2 ^ 64.
Proof.
  unfold writeInt64.
  change (2 ^ 64) with (2 ^ (8 * Z.of_nat 8)).
  rewrite <- (le_value_bytes v 8). cbn [seq map].
  change 0x00000000000000ff with (Z.shiftl 255 0).
  change 0x000000000000ff00 with (Z.shiftl 255 8).
  change 0x0000000000ff0000 with (Z.shiftl 255 16).
  change 0x00000000ff000000 with (Z.shiftl 255 24).
  change 0x000000ff00000000 with (Z.shiftl 255 32).
  change 0x0000ff0000000000 with (Z.shiftl 255 40).
  change 0x00ff000000000000 with (Z.shiftl 255 48).
  change 0xff00000000000000 with (Z.shiftl 255 56).
  rewrite <- (Z.shiftr_0_r (Z.land v (Z.shiftl 255 0))).
  rewrite !byte_at by lia. reflexivity.
Qed.

Lemma wrap64_mod (v : Z) :
  -9223372036854775808 <= v < 9223372036854775808 -> wrap64 (v mod 2 ^ 64) = v.
Proof.
  intros H. unfold wrap64. change (2 ^ 64) with 18446744073709551616.
  Z.div_mod_to_equations. lia.
Qed.

(** X1.  An [int32_t] written by [writeInt] is read back by [readInt],
    which stops right after it, exactly when it is not negative: a
    negative value is written as one byte and is never read back. *)
Theorem writeInt_readInt (s : fstream) (v : Z) (r : list Z) :
  -2147483648 <= v < 2147483648 ->
  sfail s = false ->
  remaining s = writeInt v ++ r ->
  (readInt s = Ok (v, advance s (length (writeInt v))) <-> 0 <= v).
Proof.
  intros Hv Hf Hr. split.
  - intros H. destruct (Z.lt_ge_cases v 0) as [Hneg|Hpos]; [exfalso|exact Hpos].
    unfold writeInt, writeByte in Hr, H.
    destruct (Z.ltb_spec v 254) as [_|Hge]; [|lia].
    cbn [app length] in Hr, H.
    unfold readInt in H. rewrite (readByte_ok s (v mod 256) r Hf Hr) in H.
    cbn [bind] in H.
    destruct (v mod 256 <? 254) eqn:Hb.
    + apply Ok_inj in H. apply (f_equal fst) in H. cbn [fst] in H.
      pose proof (Z.mod_pos_bound v 256 ltac:(lia)). lia.
    + apply Ok_inj in H.
      unfold readInt32, readBytes, stream_read in H. cbn [advance sfail] in H.
      pose proof (f_equal (fun p => spos (snd p)) H) as Hp.
      pose proof (f_equal (fun p => sfail (snd p)) H) as Hs.
      cbn [snd spos sfail advance sdata] in Hp, Hs.
      destruct (firstn 4 (skipn (spos s + 1) (sdata s))) as [|x l];
        cbn [length] in Hp, Hs; [discriminate Hs|lia].
  - intros Hpos. apply (readInt_ok s v r); [unfold count_ok; lia|exact Hf|exact Hr].
Qed.

(** X2.  The eight bytes [writeDouble] writes for a 64-bit pattern are
    read back by [readDouble] as the same pattern. *)
Theorem writeDouble_readDouble (s : fstream) (d : double) (r : list Z) :
  0 <= d < 2 ^ 64 ->
  sfail s = false ->
  remaining s = writeDouble d ++ r ->
  readDouble s = Ok (d, advance s 8).
Proof.
  intros Hd Hf Hr. unfold readDouble.
  pose proof (stream_read_ok s (writeDouble d) r Hf Hr) as E.
  change (length (writeDouble d)) with 8%nat in E. rewrite E.
  change (length (writeDouble d)) with 8%nat. cbn [Nat.eqb].
  rewrite le_value_writeDouble, Z.mod_small by exact Hd. reflexivity.
Qed.

(** X3.  An [int64_t] written by [writeInt64] is read back by
    [readInt64]. *)
Theorem writeInt64_readInt64 (s : fstream) (v : Z) (r : list Z) :
  -9223372036854775808 <= v < 9223372036854775808 ->
  sfail s = false ->
  remaining s = writeInt64 v ++ r ->
  readInt64 s = (v, advance s 8).
Proof.
  intros Hv Hf Hr. unfold readInt64, readBytes.
  pose proof (stream_read_ok s (writeInt64 v) r Hf Hr) as E.
  change (length (writeInt64 v)) with 8%nat in E. rewrite E.
  change (8 - length (writeInt64 v))%nat with 0%nat. cbn [repeat].
  rewrite app_nil_r, le_value_writeInt64, wrap64_mod by exact Hv. reflexivity.
Qed.

Lemma char_code_range (c : ascii) : 0 <= char_code c < 256.
Proof.
  unfold char_code. pose proof (N_ascii_bounded c). lia.
Qed.

Lemma char_of_code_char_code (c : ascii) : char_of_code (char_code c) = c.
Proof.
  unfold char_of_code. rewrite Z.mod_small by apply char_code_range.
  unfold char_code. rewrite N2Z.id. apply ascii_N_embedding.
Qed.

Lemma writeInt_char (c : ascii) :
  char_code c < 254 -> writeInt (char_to_int c) = [char_code c].
Proof.
  intros H. pose proof (char_code_range c) as R.
  unfold writeInt, writeByte, char_to_int.
  destruct (Z.ltb_spec (char_code c) 128).
  - destruct (Z.ltb_spec (char_code c) 254); [|lia].
    rewrite Z.mod_small by lia. reflexivity.
  - destruct (Z.ltb_spec (char_code c - 256) 254); [|lia].
    f_equal. Z.div_mod_to_equations. lia.
Qed.

Lemma readChars_written (cs : list ascii) :
  forall s r,
    (forall c, In c cs -> char_code c < 254) ->
    sfail s = false ->
    remaining s = flat_map (fun c => writeInt (char_to_int c)) cs ++ r ->
    readChars (length cs) s = Ok (cs, advance s (length cs))
    /\ length (flat_map (fun c => writeInt (char_to_int c)) cs) = length cs.
Proof.
  induction cs as [|c cs IH]; intros s r Hc Hf Hr.
  - cbn. rewrite advance_0 by exact Hf. split; reflexivity.
  - cbn [flat_map length readChars] in *.
    rewrite (writeInt_char c) in * by (apply Hc; left; reflexivity).
    cbn [app] in Hr. unfold readInt.
    rewrite (readByte_ok s (char_code c) _ Hf Hr). cbn [bind].
    destruct (Z.ltb_spec (char_code c) 254) as [_|Hge];
      [|specialize (Hc c (or_introl eq_refl)); lia].
    cbn [bind].
    destruct (IH (advance s 1) r) as [E L].
    + intros c' Hin. apply Hc. right. exact Hin.
    + reflexivity.
    + apply (remaining_step s [char_code c]). exact Hr.
    + rewrite E. cbn [bind]. rewrite char_of_code_char_code, advance_advance.
      split; [reflexivity|]. cbn [app length]. rewrite L. reflexivity.
Qed.

Lemma string_of_chars_string_chars (str : string) :
  string_of_chars (string_chars str) = str.
Proof. induction str as [|c r IH]; cbn; [reflexivity|rewrite IH; reflexivity]. Qed.

Lemma length_string_chars (str : string) :
  length (string_chars str) = String.length str.
Proof. induction str as [|c r IH]; cbn; [reflexivity|rewrite IH; reflexivity]. Qed.

(** X4.  A string shorter than 2^31 none of whose bytes is 254 or 255 is
    read back by [readMyString] as it was written by [writeMyString],
    and the reader stops right after it. *)
Theorem writeMyString_readMyString (s : fstream) (str : string) (r : list Z) :
  strlen str < 2147483648 ->
  (forall c, In c (string_chars str) -> char_code c < 254) ->
  sfail s = false ->
  remaining s = writeMyString str ++ r ->
  readMyString s = Ok (str, advance s (length (writeMyString str))).
Proof.
  intros Hlen Hc Hf Hr. unfold writeMyString in *. unfold strlen in *.
  rewrite <- (length_string_chars str) in *.
  set (n := length (string_chars str)) in *.
  assert (Hw : wrap32 (Z.of_nat n) = Z.of_nat n).
  { unfold wrap32. Z.div_mod_to_equations. lia. }
  rewrite Hw in *. rewrite <- app_assoc in Hr.
  unfold readMyString.
  rewrite (readInt_ok s (Z.of_nat n) _ ltac:(unfold count_ok; lia) Hf Hr).
  cbn [bind]. destruct (Z.ltb_spec (Z.of_nat n) 0); [lia|].
  rewrite Nat2Z.id.
  destruct (readChars_written (string_chars str)
              (advance s (length (writeInt (Z.of_nat n)))) r Hc eq_refl)
    as [E L].
  { apply (remaining_step s _ _ Hr). }
  fold n in E, L. rewrite E. cbn [bind].
  rewrite string_of_chars_string_chars, advance_advance.
  rewrite length_app, L. reflexivity.
Qed.

(** * The shape of a tree read from a record *)

Lemma list_set_length {A : Type} (l : list A) :
  forall i x l', list_set l i x = Some l' -> length l' = length l.
Proof.
  induction l as [|y r IH]; intros i x l' H; cbn in H; [discriminate|].
  destruct i as [|i].
  - injection H as <-. reflexivity.
  - destruct (list_set r i x) as [r'|] eqn:E; [|discriminate].
    cbn in H. injection H as <-. cbn. f_equal. exact (IH _ _ _ E).
Qed.

Lemma vset_length {A : Type} (l l' : list A) (i : Z) (x : A) :
  vset l i x = Ok l' -> length l' = length l.
Proof.
  unfold vset. destruct (i <? 0); [discriminate|].
  destruct (list_set l (Z.to_nat i) x) as [r|] eqn:E; [|discriminate].
  intros H. injection H as <-. exact (list_set_length _ _ _ _ E).
Qed.

Lemma list_set_Forall {A : Type} (P : A -> Prop) (l : list A) :
  forall i x l', list_set l i x = Some l' -> Forall P l -> P x -> Forall P l'.
Proof.
  induction l as [|y r IH]; intros i x l' H HF Hx; cbn in H; [discriminate|].
  inversion HF as [|? ? Hy Hr]; subst.
  destruct i as [|i].
  - injection H as <-. constructor; assumption.
  - destruct (list_set r i x) as [r'|] eqn:E; [|discriminate].
    cbn in H. injection H as <-. constructor; [assumption|]. exact (IH _ _ _ E Hr Hx).
Qed.

Lemma vset_Forall {A : Type} (P : A -> Prop) (l l' : list A) (i : Z) (x : A) :
  vset l i x = Ok l' -> Forall P l -> P x -> Forall P l'.
Proof.
  unfold vset. destruct (i <? 0); [discriminate|].
  destruct (list_set l (Z.to_nat i) x) as [r|] eqn:E; [|discriminate].
  intros H. injection H as <-. exact (list_set_Forall _ _ _ _ _ E).
Qed.

Lemma vget_In {A : Type} (l : list A) (i : Z) (x : A) : vget l i = Ok x -> In x l.
Proof.
  unfold vget. destruct (i <? 0); [discriminate|].
  destruct (nth_error l (Z.to_nat i)) as [y|] eqn:E; [|discriminate].
  intros H. injection H as <-. exact (nth_error_In _ _ E).
Qed.

Lemma set_attribute_sized (n m : nat) (vals : node_values) (j i : Z) (v : attrval)
    (rows : list (list attrval)) :
  values_sized n m vals ->
  set_attribute vals j i v = Ok rows ->
  length rows = m /\ Forall (fun row => length row = n) rows.
Proof.
  intros (_ & _ & Hm & HF). unfold set_attribute.
  destruct (vget (nodeAttributeRows vals) j) as [row| |] eqn:Er; try discriminate.
  cbn [bind]. destruct (vset row i v) as [row'| |] eqn:Es; try discriminate.
  cbn [bind]. intros H. split.
  - rewrite (vset_length _ _ _ _ H). exact Hm.
  - apply (vset_Forall _ _ _ _ _ H HF).
    rewrite (vset_length _ _ _ _ Es).
    rewrite Forall_forall in HF. apply HF. exact (vget_In _ _ _ Er).
Qed.

Lemma read_attribute_sized (n m : nat) (globalNames : bool) (names : list string)
    (attrs : list Attribute) (i : Z) (vals vals' : node_values) (s s' : fstream) :
  values_sized n m vals ->
  read_attribute globalNames names attrs i vals s = Ok (vals', s') ->
  values_sized n m vals'.
Proof.
  intros Hv H. pose proof Hv as (Hl & Hn & _). unfold read_attribute in H.
  repeat match type of H with
         | bind ?x _ = _ =>
             let E := fresh "E" in
             destruct x as [?| |] eqn:E; try discriminate; cbn [bind] in H
         | (let '(_, _) := ?p in _) = _ => destruct p
         | (if ?c then _ else _) = _ => destruct c
         end;
    apply Ok_inj in H; apply (f_equal fst) in H; cbn [fst] in H; subst vals';
    unfold values_sized; cbn [edgeLengths nodeNames nodeAttributeRows];
    repeat match goal with
           | E : vset _ _ _ = Ok _ |- _ => apply vset_length in E
           | E : set_attribute _ _ _ _ = Ok _ |- _ =>
               apply (set_attribute_sized n m _ _ _ _ _ Hv) in E; destruct E
           end;
    repeat split; try congruence; assumption.
Qed.

Lemma read_attributes_sized (n m : nat) (count : nat) (globalNames : bool)
    (names : list string) (attrs : list Attribute) (i : Z) :
  forall vals vals' s s',
    values_sized n m vals ->
    read_attributes count globalNames names attrs i vals s = Ok (vals', s') ->
    values_sized n m vals'.
Proof.
  induction count as [|count IH]; intros vals vals' s s' Hv H; cbn [read_attributes] in H.
  - apply Ok_inj in H. apply (f_equal fst) in H. cbn [fst] in H. subst. exact Hv.
  - destruct (read_attribute globalNames names attrs i vals s) as [[vals1 s1]| |] eqn:E;
      try discriminate.
    cbn [bind] in H.
    exact (IH _ _ _ _ (read_attribute_sized _ _ _ _ _ _ _ _ _ _ Hv E) H).
Qed.

Lemma read_nodes_sized (n m : nat) (k : nat) (globalNames : bool)
    (names : list string) (attrs : list Attribute) :
  forall i vals vals' s s',
    values_sized n m vals ->
    read_nodes k i globalNames names attrs vals s = Ok (vals', s') ->
    values_sized n m vals'.
Proof.
  induction k as [|k IH]; intros i vals vals' s s' Hv H; cbn [read_nodes] in H.
  - apply Ok_inj in H. apply (f_equal fst) in H. cbn [fst] in H. subst. exact Hv.
  - destruct (readInt s) as [[attributeCount s1]| |]; try discriminate.
    cbn [bind] in H.
    destruct (read_attributes (Z.to_nat attributeCount) globalNames names attrs i vals s1)
      as [[vals1 s2]| |] eqn:E; try discriminate.
    cbn [bind] in H.
    exact (IH _ _ _ _ _ (read_attributes_sized _ _ _ _ _ _ _ _ _ _ _ Hv E) H).
Qed.

Lemma all_ok_length {A : Type} (l : list (outcome A)) :
  forall xs, all_ok l = Ok xs -> length xs = length l.
Proof.
  induction l as [|m r IH]; intros xs H; cbn [all_ok] in H.
  - injection H as <-. reflexivity.
  - destruct m as [x| |]; try discriminate. cbn [bind] in H.
    destruct (all_ok r) as [ys| |]; try discriminate. cbn [bind] in H.
    injection H as <-. cbn. f_equal. apply IH. reflexivity.
Qed.

Lemma select_length {A B : Type} (keep : list bool) :
  forall (l : list A) (l' : list B),
    length l = length l' -> length (select keep l) = length (select keep l').
Proof.
  induction keep as [|k ks IH]; intros [|x xs] [|y ys] H; cbn in *;
    try reflexivity; try discriminate.
  destruct k; cbn; [f_equal|]; apply IH; lia.
Qed.

Lemma attribute_column_size (a : Attribute) (row : list attrval) (keep : list bool)
    (col : attrvec) :
  attribute_column a row keep = Ok col ->
  attrvec_size col = length (select keep row).
Proof.
  unfold attribute_column. destruct (IsNumeric a).
  - destruct (all_ok (map as_double (select keep row))) as [l| |] eqn:E; try discriminate.
    cbn [bind]. intros H. injection H as <-. cbn.
    rewrite (all_ok_length _ _ E), length_map. reflexivity.
  - destruct (all_ok (map as_string (select keep row))) as [l| |] eqn:E; try discriminate.
    cbn [bind]. intros H. injection H as <-. cbn.
    rewrite (all_ok_length _ _ E), length_map. reflexivity.
Qed.

Lemma attribute_columns_shape (n : nat) (keep : list bool) (attrs : list Attribute) :
  forall rows cols,
    length rows = length attrs ->
    Forall (fun row => length row = n) rows ->
    attribute_columns attrs rows keep = Ok cols ->
    length cols = length attrs
    /\ Forall (fun col => attrvec_size col = length (select keep (repeat tt n))) cols.
Proof.
  induction attrs as [|a attrs IH]; intros rows cols Hl HF H.
  - cbn in H. injection H as <-. split; [reflexivity|constructor].
  - destruct rows as [|row rows]; [discriminate|]. cbn [attribute_columns] in H.
    destruct (attribute_column a row keep) as [col| |] eqn:Ec; try discriminate.
    cbn [bind] in H.
    destruct (attribute_columns attrs rows keep) as [cols'| |] eqn:Er; try discriminate.
    cbn [bind] in H. injection H as <-.
    inversion HF as [|? ? Hrow Hrows]; subst.
    destruct (IH rows cols' ltac:(cbn in Hl; lia) Hrows Er) as [L F].
    split; [cbn; lia|]. constructor; [|exact F].
    rewrite (attribute_column_size _ _ _ _ Ec).
    apply select_length. rewrite repeat_length. reflexivity.
Qed.

Lemma read_edges_shape (parents_from_1 : list Z) (correspondences : list Z) :
  forall i edges,
    read_edges i parents_from_1 correspondences = Ok edges ->
    length edges = length parents_from_1
    /\ Forall (fun e => length e = 2%nat) edges.
Proof.
  induction parents_from_1 as [|p r IH]; intros i edges H; cbn [read_edges] in H.
  - injection H as <-. split; [reflexivity|constructor].
  - destruct (vget correspondences p) as [e0| |]; try discriminate. cbn [bind] in H.
    destruct (vget correspondences i) as [e1| |]; try discriminate. cbn [bind] in H.
    destruct (read_edges (i + 1) r correspondences) as [more| |] eqn:E;
      try discriminate.
    cbn [bind] in H. injection H as <-.
    destruct (IH _ _ E) as [L F]. split; [cbn; lia|constructor; [reflexivity|exact F]].
Qed.

Section Shape.

Variable to_string_double : double -> string.

(** X6.  Whatever record [readBinaryTree] decodes, the tree it returns is
    rectangular: as many edge lengths as edges, two node numbers per edge,
    one tip column and one node column per attribute, every tip column as
    long as the list of tip labels, and all node columns of one size. *)
Theorem readBinaryTree_shape (file s' : fstream) (globalNames : bool)
    (names : list string) (attrs0 : list Attribute) (tree : phylo) :
  readBinaryTree to_string_double file globalNames names attrs0 = Ok (tree, s') ->
  length (edgeLength tree) = length (edge tree)
  /\ Forall (fun e => length e = 2%nat) (edge tree)
  /\ length (tipAttributes tree) = length (attributes tree)
  /\ length (nodeAttributes tree) = length (attributes tree)
  /\ Forall (fun col => attrvec_size col = length (tipLabel tree)) (tipAttributes tree)
  /\ exists internal,
       Forall (fun col => attrvec_size col = internal) (nodeAttributes tree).
Proof.
  unfold readBinaryTree. intros H.
  destruct (readInt file) as [[numAttributes s1]| |]; try discriminate.
  cbn [bind] in H.
  match type of H with
  | bind ?x _ = _ => destruct x as [[attrs s2]| |]; try discriminate
  end.
  cbn [bind] in H.
  destruct (readByte s2) as [[currByte s3]| |]; try discriminate. cbn [bind] in H.
  match type of H with
  | bind ?x _ = _ => destruct x as [shape| |]; try discriminate
  end.
  cbn [bind] in H.
  destruct (special_indices attrs 0 (-1) (-1)) as [nameIndex supportIndex].
  set (n := length (st_parents shape)) in *.
  match type of H with
  | bind (read_nodes _ _ _ _ _ ?v0 _) _ = _ =>
      assert (H0 : values_sized n (length attrs) v0)
  end.
  { unfold values_sized. cbn [edgeLengths nodeNames nodeAttributeRows].
    rewrite !repeat_length, length_map. repeat split.
    apply Forall_forall. intros row Hin. apply in_map_iff in Hin as (a & <- & _).
    apply repeat_length. }
  match type of H with
  | bind ?x _ = _ => destruct x as [[vals s5]| |] eqn:En; try discriminate
  end.
  cbn [bind] in H.
  pose proof (read_nodes_sized _ _ _ _ _ _ _ _ _ _ _ H0 En) as (Hl & Hn & Hm & HF).
  match type of H with
  | bind ?x _ = _ => destruct x as [tipAttrs| |] eqn:Et; try discriminate
  end.
  cbn [bind] in H.
  match type of H with
  | bind ?x _ = _ => destruct x as [nodeAttrs| |] eqn:Ei; try discriminate
  end.
  cbn [bind] in H.
  match type of H with
  | bind ?x _ = _ => destruct x as [edges| |] eqn:Ee; try discriminate
  end.
  cbn [bind] in H.
  match type of H with
  | bind ?x _ = _ => destruct x as [root| |]; try discriminate
  end.
  cbn [bind] in H.
  match type of H with
  | bind ?x _ = _ => destruct x as [[labels hasLabel]| |]; try discriminate
  end.
  cbn [bind] in H. apply Ok_inj in H. apply (f_equal fst) in H. cbn [fst] in H.
  subst tree.
  cbn [edgeLength edge tipAttributes nodeAttributes attributes tipLabel].
  destruct (read_edges_shape _ _ _ _ Ee) as [Le Fe].
  destruct (attribute_columns_shape n _ _ _ _ Hm HF Et) as [Lt Ft].
  destruct (attribute_columns_shape n _ _ _ _ Hm HF Ei) as [Li Fi].
  repeat split; try assumption.
  - rewrite Le. destruct (edgeLengths vals) as [|d ds];
      destruct (st_parents shape) as [|p ps]; cbn in *; try lia.
  - revert Ft. apply Forall_impl.
    intros col ->. apply select_length. rewrite repeat_length. symmetry. exact Hn.
  - eexists. exact Fi.
Qed.

End Shape.

(** * Case-insensitive names *)

Lemma all_ascii_complete (c : ascii) : In c all_ascii.
Proof.
  unfold all_ascii. apply in_map_iff. exists (nat_of_ascii c). split.
  - apply ascii_nat_embedding.
  - apply in_seq. pose proof (nat_ascii_bounded c). lia.
Qed.

Lemma for_all_chars (P : ascii -> ascii -> bool) :
  forallb (fun c1 => forallb (P c1) all_ascii) all_ascii = true ->
  forall c1 c2, P c1 c2 = true.
Proof.
  intros H c1 c2. rewrite forallb_forall in H.
  specialize (H c1 (all_ascii_complete c1)). rewrite forallb_forall in H.
  exact (H c2 (all_ascii_complete c2)).
Qed.

Lemma char_equalCI_refl (c : ascii) :
  (char_eqb c c || char_eqb (toupper c) (toupper c)) = true.
Proof. unfold char_eqb. rewrite Ascii.eqb_refl. reflexivity. Qed.

Lemma equalCI_refl (a : string) : equalCI a a = true.
Proof.
  induction a as [|c r IH]; cbn; [reflexivity|].
  rewrite char_equalCI_refl, IH. reflexivity.
Qed.

Lemma equalCI_sym (a b : string) : equalCI a b = equalCI b a.
Proof.
  revert b. induction a as [|c r IH]; intros [|c' r']; cbn; try reflexivity.
  unfold char_eqb. rewrite (Ascii.eqb_sym c c'), (Ascii.eqb_sym (toupper c) (toupper c')).
  rewrite IH. reflexivity.
Qed.

(** X7.  [equalCI] is an equivalence relation on strings, and strings it
    equates have the same length. *)
Theorem equalCI_equivalence :
  (forall a, equalCI a a = true)
  /\ (forall a b, equalCI a b = equalCI b a)
  /\ (forall a b c, equalCI a b = true -> equalCI b c = true -> equalCI a c = true)
  /\ (forall a b, equalCI a b = true -> String.length a = String.length b).
Proof.
  split; [exact equalCI_refl|]. split; [exact equalCI_sym|]. split.
  - intros a b c Hab Hbc. rewrite (equalCI_sym a c).
    rewrite (equalCI_same_class a b Hab c), equalCI_sym. exact Hbc.
  - intros a. induction a as [|x r IH]; intros [|y r'] H; cbn in H;
      try discriminate; [reflexivity|].
    apply andb_true_iff in H as [_ H]. cbn. f_equal. exact (IH _ H).
Qed.

(** The comparison of [ci_less] on two characters, and the test of
    [equalCI] on them. *)
Lemma char_orders_agree (c1 c2 : ascii) :
  Bool.eqb
    (negb (char_code (tolower c1) <? char_code (tolower c2))
     && negb (char_code (tolower c2) <? char_code (tolower c1)))
    (char_eqb c1 c2 || char_eqb (toupper c1) (toupper c2)) = true.
Proof.
  revert c1 c2. apply for_all_chars. vm_compute. reflexivity.
Qed.

(** X8.  Two strings are the same key of a map ordered by [ci_less]
    (neither is less than the other) exactly when [equalCI] holds of
    them: the attribute maps of the parser and [attributeIndex] agree on
    which names are the same. *)
Theorem ci_less_agrees_with_equalCI (a b : string) :
  key_equiv ci_less a b = equalCI a b.
Proof.
  unfold key_equiv, ci_less. revert b.
  induction a as [|c1 r1 IH]; intros [|c2 r2]; cbn; try reflexivity.
  pose proof (char_orders_agree c1 c2) as H. apply Bool.eqb_prop in H.
  destruct (Z.ltb_spec (char_code (tolower c1)) (char_code (tolower c2))) as [L12|G12];
    destruct (Z.ltb_spec (char_code (tolower c2)) (char_code (tolower c1))) as [L21|G21];
    cbn in H |- *; try lia; rewrite <- H; cbn; try reflexivity.
  apply IH.
Qed.

Lemma attributeIndex_from_spec (attrs : list Attribute) (a : Attribute) :
  forall i0,
    (attributeIndex_from i0 attrs a = -1
     /\ forall x, In x attrs ->
                  equalCI (AttributeName x) (AttributeName a)
                  && Bool.eqb (IsNumeric x) (IsNumeric a) = false)
    \/ (exists (k : nat) (x : Attribute),
          attributeIndex_from i0 attrs a = i0 + Z.of_nat k
          /\ nth_error attrs k = Some x
          /\ equalCI (AttributeName x) (AttributeName a)
             && Bool.eqb (IsNumeric x) (IsNumeric a) = true
          /\ forall j y, (j < k)%nat -> nth_error attrs j = Some y ->
                         equalCI (AttributeName y) (AttributeName a)
                         && Bool.eqb (IsNumeric y) (IsNumeric a) = false).
Proof.
  induction attrs as [|x r IH]; intros i0; cbn [attributeIndex_from].
  - left. split; [reflexivity|]. intros x [].
  - destruct (equalCI (AttributeName x) (AttributeName a)
              && Bool.eqb (IsNumeric x) (IsNumeric a)) eqn:E.
    + right. exists 0%nat, x. repeat split; [lia|exact E|]. intros j y Hj. lia.
    + destruct (IH (i0 + 1)) as [[H1 H2]|(k & y & H1 & H2 & H3 & H4)].
      * left. split; [exact H1|]. intros z [<-|Hz]; [exact E|exact (H2 z Hz)].
      * right. exists (S k), y. repeat split; [rewrite H1; lia|exact H2|exact H3|].
        intros [|j] z Hj Hz; cbn in Hz.
        -- injection Hz as <-. exact E.
        -- apply (H4 j z); [lia|exact Hz].
Qed.

(** X9.  [attributeIndex] returns -1 exactly when no attribute of the
    list has the name (up to case) and the kind asked for; otherwise it
    returns the position of the first one that has. *)
Theorem attributeIndex_finds_first (attrs : list Attribute) (a : Attribute) :
  (attributeIndex attrs a = -1
   /\ forall x, In x attrs ->
                equalCI (AttributeName x) (AttributeName a)
                && Bool.eqb (IsNumeric x) (IsNumeric a) = false)
  \/ (exists (k : nat) (x : Attribute),
        attributeIndex attrs a = Z.of_nat k
        /\ nth_error attrs k = Some x
        /\ equalCI (AttributeName x) (AttributeName a) = true
        /\ IsNumeric x = IsNumeric a
        /\ forall j y, (j < k)%nat -> nth_error attrs j = Some y ->
                       equalCI (AttributeName y) (AttributeName a)
                       && Bool.eqb (IsNumeric y) (IsNumeric a) = false).
Proof.
  unfold attributeIndex.
  destruct (attributeIndex_from_spec attrs a 0) as [H|(k & x & H1 & H2 & H3 & H4)].
  - left. exact H.
  - right. exists k, x. apply andb_true_iff in H3 as [H3 H5].
    apply Bool.eqb_prop in H5. repeat split; assumption.
Qed.

(** * What the readers keep *)


(** X10.  However far the NEXUS reader has got in a file, no key of its
    translate dictionary is the empty string, and the word it holds is
    not empty unless the file has ended. *)
Theorem translate_keys_are_not_empty (to_string_double : double -> string)
    (stod : string -> option (double * nat)) (content : string) (n : nat)
    (st0 st : nexus_state) :
  nexus_start content = Ok st0 ->
  nexus_iterate to_string_double stod n st0 = Some st ->
  Forall (fun entry => fst entry <> EmptyString) (translateDictionary st)
  /\ (n_eof st = false -> word st <> EmptyString).
Proof.
  intros H0 Hn.
  destruct (nexus_iterate_invariant to_string_double stod n st0 st
              (nexus_start_invariant content st0 H0) Hn) as [Hw Hd].
  split; [exact Hd|exact Hw].
Qed.


(** * The directory of tree addresses *)

Lemma readInt64_ok (s : fstream) (v : Z) (r : list Z) :
  -9223372036854775808 <= v < 9223372036854775808 ->
  sfail s = false ->
  remaining s = writeInt64 v ++ r ->
  readInt64 s = (v, advance s 8).
Proof.
  intros Hv Hf Hr. unfold readInt64, readBytes.
  pose proof (stream_read_ok s (writeInt64 v) r Hf Hr) as E.
  change (length (writeInt64 v)) with 8%nat in E. rewrite E.
  change (8 - length (writeInt64 v))%nat with 0%nat. cbn [repeat].
  rewrite app_nil_r, le_value_writeInt64, wrap64_mod by exact Hv. reflexivity.
Qed.

Lemma read_addresses_written (addrs : list Z) :
  forall s r,
    Forall (fun a => -9223372036854775808 <= a < 9223372036854775808) addrs ->
    sfail s = false ->
    remaining s = flat_map writeInt64 addrs ++ r ->
    read_addresses (length addrs) s = (addrs, advance s (8 * length addrs)).
Proof.
  induction addrs as [|a addrs IH]; intros s r HF Hf Hr.
  - cbn. rewrite advance_0 by exact Hf. reflexivity.
  - inversion HF as [|? ? Ha Hrest]; subst.
    cbn [flat_map] in Hr. rewrite <- app_assoc in Hr.
    cbn [length read_addresses].
    rewrite (readInt64_ok s a _ Ha Hf Hr).
    rewrite (IH (advance s 8) r Hrest eq_refl).
    + rewrite advance_advance. f_equal. f_equal. lia.
    + exact (remaining_step s (writeInt64 a) _ Hr).
Qed.

Lemma remaining_at (pre post : list Z) :
  remaining (mkStream (pre ++ post) (length pre) false) = post.
Proof.
  unfold remaining. cbn [spos sdata].
  rewrite skipn_app, Nat.sub_diag, skipn_all. reflexivity.
Qed.

Lemma hasValidTrailer_written (pre : list Z) :
  (1 <= length pre)%nat ->
  hasValidTrailer (mkStream (pre ++ trailer_magic) 5 false)
  = (true, mkStream (pre ++ trailer_magic) 5 false).
Proof.
  intros Hlen.
  unfold hasValidTrailer, tellg, seekg_end, seekg, readBytes, stream_read.
  cbn [sfail sdata spos].
  rewrite length_app. change (length trailer_magic) with 4%nat.
  replace (Z.of_nat (length pre + 4) + -4 <? 0) with false
    by (symmetry; apply Z.ltb_ge; lia).
  cbn [sfail sdata spos].
  replace (Z.to_nat (Z.of_nat (length pre + 4) + -4)) with (length pre) by lia.
  rewrite skipn_app, Nat.sub_diag, skipn_all. cbn [skipn app].
  reflexivity.
Qed.

Section Directory.

Variable to_string_double : double -> string.

(** A file that ends with a directory: the count, the addresses, the
    address of the directory itself and the trailer. *)
Lemma directory_is_read (pre rest : list Z) (headerByte : Z) (addrs : list Z) :
  pre = header_magic ++ headerByte :: rest ->
  Z.land headerByte 0xfc = 0 ->
  Forall (fun a => -9223372036854775808 <= a < 9223372036854775808) addrs ->
  zlength addrs < 2147483648 ->
  zlength pre < 9223372036854775808 ->
  let file :=
    pre ++ writeInt (zlength addrs) ++ flat_map writeInt64 addrs
    ++ writeInt64 (zlength pre) ++ trailer_magic in
  readBinaryTrees to_string_double (open_stream file)
  = ('(allNames, allAttributes, s7) <-
       read_global_tables (mkStream file 5 false)
         (negb (Z.land headerByte 0x01 =? 0)) (negb (Z.land headerByte 0x02 =? 0)) ;;
     '(parsedTrees, names) <-
       read_at_addresses to_string_double addrs 0 s7 (negb (Z.land headerByte 0x01 =? 0))
         allNames allAttributes ;;
     Ok (mkMultiPhylo parsedTrees names, [])).
Proof.
  intros Hpre Hreserved Haddrs Hcount Hsize file.
  set (dir := writeInt (zlength addrs) ++ flat_map writeInt64 addrs) in *.
  assert (Hfile : file = (pre ++ dir ++ writeInt64 (zlength pre)) ++ trailer_magic).
  { unfold file, dir. rewrite <- !app_assoc. reflexivity. }
  assert (Hhead : readBytes (open_stream file) 4 = (header_magic, mkStream file 4 false)).
  { unfold file. rewrite Hpre. reflexivity. }
  assert (Hbyte : readByte (mkStream file 4 false)
                  = Ok (headerByte, mkStream file 5 false)).
  { unfold file. rewrite Hpre. reflexivity. }
  assert (Hvalid : hasValidTrailer (mkStream file 5 false)
                   = (true, mkStream file 5 false)).
  { rewrite Hfile. apply hasValidTrailer_written.
    rewrite length_app, Hpre, length_app. cbn. lia. }
  assert (Hseek : seekg_end (mkStream file 5 false) (-12)
                  = mkStream file (length (pre ++ dir)) false).
  { unfold seekg_end, seekg. cbn [sfail sdata].
    assert (Hl : length file = (length (pre ++ dir) + 12)%nat).
    { rewrite Hfile, !length_app. cbn. lia. }
    rewrite Hl.
    replace (Z.of_nat (length (pre ++ dir) + 12) + -12 <? 0) with false
      by (symmetry; apply Z.ltb_ge; lia).
    f_equal. lia. }
  assert (Hlabel : readInt64 (mkStream file (length (pre ++ dir)) false)
                   = (zlength pre, mkStream file (length (pre ++ dir) + 8) false)).
  { change (mkStream file (length (pre ++ dir) + 8) false)
      with (advance (mkStream file (length (pre ++ dir)) false) 8).
    apply (readInt64_ok _ _ trailer_magic).
    - unfold zlength in Hsize |- *. lia.
    - reflexivity.
    - assert (E : file = (pre ++ dir) ++ writeInt64 (zlength pre) ++ trailer_magic)
        by (unfold file, dir; rewrite <- !app_assoc; reflexivity).
      rewrite E. apply remaining_at. }
  assert (Hseek2 : seekg (mkStream file (length (pre ++ dir) + 8) false) (zlength pre)
                   = mkStream file (length pre) false).
  { unfold seekg. cbn [sfail sdata]. unfold zlength.
    replace (Z.of_nat (length pre) <? 0) with false by (symmetry; apply Z.ltb_ge; lia).
    rewrite Nat2Z.id. reflexivity. }
  assert (Hrem : remaining (mkStream file (length pre) false)
                 = writeInt (zlength addrs)
                   ++ flat_map writeInt64 addrs ++ writeInt64 (zlength pre) ++ trailer_magic).
  { unfold file. apply remaining_at. }
  assert (Hcnt : readInt (mkStream file (length pre) false)
                 = Ok (zlength addrs,
                       advance (mkStream file (length pre) false)
                         (length (writeInt (zlength addrs))))).
  { assert (Hok : count_ok (zlength addrs)).
    { unfold count_ok. unfold zlength in Hcount |- *. lia. }
    exact (readInt_ok (mkStream file (length pre) false) _ _ Hok eq_refl Hrem). }
  assert (Hread : read_addresses (length addrs)
                    (advance (mkStream file (length pre) false)
                       (length (writeInt (zlength addrs))))
                  = (addrs,
                     advance (advance (mkStream file (length pre) false)
                                (length (writeInt (zlength addrs))))
                       (8 * length addrs))).
  { apply (read_addresses_written addrs
             (advance (mkStream file (length pre) false)
                (length (writeInt (zlength addrs))))
             (writeInt64 (zlength pre) ++ trailer_magic) Haddrs eq_refl).
    apply (remaining_step _ _ _ Hrem). }
  unfold readBinaryTrees. rewrite Hhead.
  cbn [header_magic negb Z.eqb Pos.eqb andb]. rewrite Hbyte. cbn [bind].
  rewrite Hreserved. cbn [Z.eqb negb]. rewrite Hvalid.
  rewrite Hseek, Hlabel, Hseek2, Hcnt. cbn [bind].
  replace (zlength addrs <? 0) with false
    by (symmetry; apply Z.ltb_ge; unfold zlength; lia).
  unfold zlength at 1. rewrite Nat2Z.id, Hread. cbn [bind].
  reflexivity.
Qed.

End Directory.

Lemma vget_last {A : Type} (l : list A) (x : A) :
  vget (l ++ [x]) (zlength (l ++ [x]) - 1) = Ok x.
Proof.
  unfold vget, zlength. rewrite length_app. cbn [length].
  replace (Z.of_nat (length l + 1) - 1 <? 0) with false
    by (symmetry; apply Z.ltb_ge; lia).
  replace (Z.to_nat (Z.of_nat (length l + 1) - 1)) with (length l) by lia.
  rewrite nth_error_app2, Nat.sub_diag by lia. reflexivity.
Qed.

Lemma wrap32_small (n : Z) : -2147483648 <= n < 2147483648 -> wrap32 n = n.
Proof. intros H. unfold wrap32. Z.div_mod_to_equations. lia. Qed.

(** X11. The incremental writer's closing step indexes the file: when
    [finishWritingBinaryTrees] is given the addresses recorded while a
    file was written (the start of every tree, then the end of the body)
    and the file starts with a header whose reserved bits are clear, the
    reader finds the trailer, reads the directory and decodes one tree at
    each recorded address; the additional data copied before the
    directory is never decoded. *)
Theorem finished_file_is_indexed (to_string_double : double -> string)
    (body rest extra offsets tail : list Z) (headerByte : Z) :
  body = header_magic ++ headerByte :: rest ->
  Z.land headerByte 0xfc = 0 ->
  Forall (fun a => -9223372036854775808 <= a < 9223372036854775808) offsets ->
  zlength offsets < 2147483647 ->
  zlength body + zlength extra < 9223372036854775808 ->
  finishWritingBinaryTrees (offsets ++ [zlength body]) extra = Ok tail ->
  readBinaryTrees to_string_double (open_stream (body ++ tail))
  = ('(allNames, allAttributes, s7) <-
       read_global_tables (mkStream (body ++ tail) 5 false)
         (negb (Z.land headerByte 0x01 =? 0)) (negb (Z.land headerByte 0x02 =? 0)) ;;
     '(parsedTrees, names) <-
       read_at_addresses to_string_double offsets 0 s7
         (negb (Z.land headerByte 0x01 =? 0)) allNames allAttributes ;;
     Ok (mkMultiPhylo parsedTrees names, [])).
Proof.
  intros Hbody Hreserved Hrange Hcount Hsize Hfinish.
  unfold finishWritingBinaryTrees in Hfinish.
  rewrite vget_last in Hfinish. cbn [bind] in Hfinish.
  rewrite removelast_last in Hfinish.
  assert (Hn : wrap32 (zlength (offsets ++ [zlength body])) - 1 = zlength offsets).
  { unfold zlength in Hcount |- *. rewrite length_app. cbn [length].
    rewrite wrap32_small by lia. lia. }
  rewrite Hn in Hfinish. apply Ok_inj in Hfinish. subst tail.
  assert (Hz : zlength body + zlength extra = zlength (body ++ extra)).
  { unfold zlength. rewrite length_app. lia. }
  rewrite Hz in *.
  replace (body ++ extra ++ writeInt (zlength offsets) ++ flat_map writeInt64 offsets
           ++ writeInt64 (zlength (body ++ extra)) ++ trailer_magic)
    with ((body ++ extra) ++ writeInt (zlength offsets) ++ flat_map writeInt64 offsets
          ++ writeInt64 (zlength (body ++ extra)) ++ trailer_magic)
    by (rewrite <- app_assoc; reflexivity).
  apply (directory_is_read to_string_double (body ++ extra) (rest ++ extra) headerByte
           offsets).
  - rewrite Hbody, <- app_assoc. reflexivity.
  - exact Hreserved.
  - exact Hrange.
  - lia.
  - exact Hsize.
Qed.

Lemma write_tree_records_offsets (ts : list phylo) (st : scan_state) :
  forall tellp records addresses,
    write_tree_records ts tellp st = Ok (records, addresses) ->
    exists each,
      Forall2 (fun t rec =>
                 writeBinaryTree t (negb (includeNamesPerTree st))
                   (negb (includeAttributesPerTree st))
                   (allNamesLookup st) (allAttributesLookup st)
                   (allAttributesLookupReverse st) = Ok rec) ts each
      /\ records = concat each
      /\ addresses = offsets_from tellp each.
Proof.
  induction ts as [|t r IH]; intros tellp records addresses H.
  - injection H as <- <-. exists []. repeat split. constructor.
  - cbn [write_tree_records] in H.
    match type of H with
    | context [writeBinaryTree ?a ?b ?c ?d ?e ?f] =>
        destruct (writeBinaryTree a b c d e f) as [rec| |] eqn:Hrec; try discriminate
    end.
    cbn [bind] in H.
    destruct (write_tree_records r (tellp + zlength rec) st) as [[more addrs]| |] eqn:Hmore;
      try discriminate.
    cbn [bind] in H. apply Ok_inj in H.
    assert (E1 : records = rec ++ more) by congruence.
    assert (E2 : addresses = tellp :: addrs) by congruence.
    destruct (IH _ _ _ Hmore) as (each & HF & -> & ->).
    exists (rec :: each). subst. repeat split. constructor; assumption.
Qed.

Lemma offsets_from_range (each : list (list Z)) :
  forall start,
    Forall (fun a => start <= a <= start + zlength (concat each)) (offsets_from start each).
Proof.
  induction each as [|rec each IH]; intros start; cbn [offsets_from concat].
  - constructor.
  - assert (Hl : zlength (rec ++ concat each) = zlength rec + zlength (concat each)).
    { unfold zlength. rewrite length_app. lia. }
    constructor.
    + rewrite Hl. unfold zlength. lia.
    + specialize (IH (start + zlength rec)). revert IH. apply Forall_impl.
      intros a Ha. rewrite Hl. unfold zlength in *. lia.
Qed.

Lemma offsets_from_length (each : list (list Z)) :
  forall start, length (offsets_from start each) = length each.
Proof.
  induction each as [|rec each IH]; intros start; cbn; [reflexivity|].
  rewrite IH. reflexivity.
Qed.

(** X12. A file written by [writeBinaryTrees] is read through its
    directory: the file is the header, the global tables, one record per
    tree and a rest, and [readBinaryTrees] decodes one tree at the first
    byte of each record, in the order of the trees, instead of scanning the
    file sequentially. *)
Theorem written_file_is_indexed (to_string_double : double -> string)
    (mp : multiPhylo) (extra bytes : list Z) :
  writeBinaryTrees mp extra = Ok bytes ->
  zlength (trees mp) < 2147483648 ->
  zlength bytes < 9223372036854775808 ->
  exists (st : scan_state) (headerByte : Z) (tables : list Z)
         (records : list (list Z)) (rest : list Z),
    scan_trees (trees mp) scan0 = Ok st
    /\ Forall2 (fun t record =>
                 writeBinaryTree t (negb (includeNamesPerTree st))
                   (negb (includeAttributesPerTree st))
                   (allNamesLookup st) (allAttributesLookup st)
                   (allAttributesLookupReverse st) = Ok record)
         (trees mp) records
    /\ bytes = header_magic ++ headerByte :: tables ++ concat records ++ rest
    /\ readBinaryTrees to_string_double (open_stream bytes)
       = ('(allNames, allAttributes, s7) <-
            read_global_tables (mkStream bytes 5 false)
              (negb (Z.land headerByte 0x01 =? 0))
              (negb (Z.land headerByte 0x02 =? 0)) ;;
          '(parsedTrees, names) <-
            read_at_addresses to_string_double
              (offsets_from (5 + zlength tables) records) 0 s7
              (negb (Z.land headerByte 0x01 =? 0)) allNames allAttributes ;;
          Ok (mkMultiPhylo parsedTrees names, [])).
Proof.
  intros Hwrite Hcount Hsize. unfold writeBinaryTrees in Hwrite.
  destruct (scan_trees (trees mp) scan0) as [st| |] eqn:Hscan; try discriminate.
  cbn [bind] in Hwrite.
  set (hb := header_byte (includeNamesPerTree st) (includeAttributesPerTree st)) in *.
  match type of Hwrite with
  | context [writeByte hb ++ ?t] => set (tables := t) in *
  end.
  assert (Hhb : writeByte hb = [hb]).
  { unfold writeByte, hb. destruct (includeNamesPerTree st), (includeAttributesPerTree st);
      reflexivity. }
  rewrite Hhb in Hwrite.
  match type of Hwrite with
  | context [write_tree_records (trees mp) ?p st] =>
      destruct (write_tree_records (trees mp) p st) as [[recs addrs]| |] eqn:Hrecs;
        try discriminate
  end.
  cbn [bind] in Hwrite. apply Ok_inj in Hwrite.
  destruct (write_tree_records_offsets _ _ _ _ _ Hrecs) as (each & HF & -> & ->).
  assert (Hhead : zlength (header_magic ++ [hb] ++ tables) = 5 + zlength tables).
  { unfold zlength, header_magic. rewrite !length_app. cbn [length]. lia. }
  rewrite Hhead in *.
  set (offs := offsets_from (5 + zlength tables) each) in *.
  assert (Hn : length offs = length (trees mp)).
  { unfold offs. rewrite offsets_from_length. symmetry. exact (Forall2_length HF). }
  assert (Hw : wrap32 (zlength offs) = zlength offs).
  { apply wrap32_small. unfold zlength in Hcount |- *. rewrite Hn. lia. }
  rewrite Hw in Hwrite.
  set (pre := (header_magic ++ [hb] ++ tables) ++ concat each ++ extra).
  assert (Hpre : 5 + zlength tables + zlength (concat each) + zlength extra = zlength pre).
  { unfold pre, zlength, header_magic. rewrite !length_app. cbn [length]. lia. }
  rewrite Hpre in Hwrite.
  assert (Hbytes : bytes
                   = pre ++ writeInt (zlength offs) ++ flat_map writeInt64 offs
                     ++ writeInt64 (zlength pre) ++ trailer_magic).
  { rewrite <- Hwrite. unfold pre. rewrite <- !app_assoc. reflexivity. }
  assert (Hle : zlength pre <= zlength bytes).
  { rewrite Hbytes. unfold zlength. rewrite length_app. lia. }
  exists st, hb, tables, each.
  eexists. split; [reflexivity|]. split; [exact HF|]. split.
  - rewrite Hbytes. unfold pre. rewrite <- !app_assoc. cbn [app]. reflexivity.
  - rewrite Hbytes.
    apply (directory_is_read to_string_double pre (tables ++ concat each ++ extra) hb).
    + unfold pre. rewrite <- !app_assoc. reflexivity.
    + unfold hb. destruct (includeNamesPerTree st), (includeAttributesPerTree st);
        reflexivity.
    + pose proof (offsets_from_range each (5 + zlength tables)) as HR.
      fold offs in HR. revert HR. apply Forall_impl. intros a Ha.
      assert (0 <= zlength tables) by (unfold zlength; lia).
      assert (0 <= zlength extra) by (unfold zlength; lia).
      lia.
    + change (zlength offs < 2147483648). unfold zlength in Hcount |- *.
      rewrite Hn. lia.
    + lia.
Qed.

(** * The tree built from the parsed arrays *)

Lemma vget_nat {A : Type} (l : list A) (n : nat) :
  vget l (Z.of_nat n) = match nth_error l n with Some x => Ok x | None => Undef end.
Proof.
  unfold vget. replace (Z.of_nat n <? 0) with false by (symmetry; apply Z.ltb_ge; lia).
  rewrite Nat2Z.id. reflexivity.
Qed.

Lemma vget_Ok {A : Type} (l : list A) (i : Z) (x : A) :
  vget l i = Ok x -> 0 <= i /\ nth_error l (Z.to_nat i) = Some x.
Proof.
  unfold vget. destruct (i <? 0) eqn:E; [discriminate|]. apply Z.ltb_ge in E.
  destruct (nth_error l (Z.to_nat i)) as [y|]; [|discriminate].
  intros H. injection H as <-. split; [exact E|reflexivity].
Qed.

Lemma list_set_same {A : Type} (l : list A) :
  forall i x l', list_set l i x = Some l' -> nth_error l' i = Some x.
Proof.
  induction l as [|y r IH]; intros i x l' H; cbn in H; [discriminate|].
  destruct i as [|i].
  - injection H as <-. reflexivity.
  - destruct (list_set r i x) as [r'|] eqn:E; [|discriminate].
    cbn in H. injection H as <-. cbn. exact (IH _ _ _ E).
Qed.

Lemma list_set_other {A : Type} (l : list A) :
  forall i x l' k, list_set l i x = Some l' -> k <> i -> nth_error l' k = nth_error l k.
Proof.
  induction l as [|y r IH]; intros i x l' k H Hk; cbn in H; [discriminate|].
  destruct i as [|i].
  - injection H as <-. destruct k; [contradiction|reflexivity].
  - destruct (list_set r i x) as [r'|] eqn:E; [|discriminate].
    cbn in H. injection H as <-. destruct k as [|k]; [reflexivity|].
    cbn. apply (IH _ _ _ _ E). congruence.
Qed.

Lemma vset_same {A : Type} (l l' : list A) (i : Z) (x : A) :
  vset l i x = Ok l' -> 0 <= i /\ vget l' i = Ok x.
Proof.
  unfold vset, vget. destruct (i <? 0) eqn:E; [discriminate|]. apply Z.ltb_ge in E.
  destruct (list_set l (Z.to_nat i) x) as [r|] eqn:Es; [|discriminate].
  intros H. injection H as <-. rewrite (list_set_same _ _ _ _ Es). split; [exact E|reflexivity].
Qed.

Lemma vset_other {A : Type} (l l' : list A) (i k : Z) (x : A) :
  vset l i x = Ok l' -> k <> i -> vget l' k = vget l k.
Proof.
  unfold vset, vget. destruct (i <? 0) eqn:E; [discriminate|]. apply Z.ltb_ge in E.
  destruct (list_set l (Z.to_nat i) x) as [r|] eqn:Es; [|discriminate].
  intros H Hk. injection H as <-. destruct (k <? 0) eqn:Ek; [reflexivity|].
  apply Z.ltb_ge in Ek. rewrite (list_set_other _ _ _ _ (Z.to_nat k) Es) by lia.
  reflexivity.
Qed.

Lemma firstn_S_nth {A : Type} (l : list A) :
  forall n x, nth_error l n = Some x -> firstn (S n) l = firstn n l ++ [x].
Proof.
  induction l as [|y r IH]; intros [|n] x H; try discriminate.
  - injection H as <-. reflexivity.
  - cbn [nth_error] in H. cbn [firstn app]. f_equal.
    exact (IH n x H).
Qed.

Lemma count_nodes_S (b : bool) (children : list (list Z)) (n : nat) (row : list Z) :
  nth_error children n = Some row ->
  count_nodes b children (S n)
  = count_nodes b children n + (if Bool.eqb (0 <? zlength row) b then 1 else 0).
Proof.
  intros H. unfold count_nodes. rewrite (firstn_S_nth _ _ _ H), filter_app, length_app.
  cbn [filter]. destruct (Bool.eqb (0 <? zlength row) b); cbn [length]; lia.
Qed.

Section Convert.

Variables (children : list (list Z)) (maps : list attribute_map) (tipCount nodeCount : Z).

Lemma convert_node_spec (n : nat) (parent : Z) (row : list Z) (m : attribute_map)
    (cv cv1 : convert_state) :
  nth_error children n = Some row ->
  convert_node (Z.of_nat n) parent row m tipCount nodeCount cv = Ok cv1 ->
  converted children tipCount n cv ->
  converted children tipCount (S n) cv1
  /\ length (cv_edge cv1) = length (cv_edge cv)
  /\ length (cv_edgeLength cv1) = length (cv_edgeLength cv)
  /\ (forall k, k <> Z.of_nat n - 1 ->
        vget (cv_edge cv1) k = vget (cv_edge cv) k
        /\ vget (cv_edgeLength cv1) k = vget (cv_edgeLength cv) k)
  /\ (parent < 0 ->
        cv_edge cv1 = cv_edge cv /\ cv_edgeLength cv1 = cv_edgeLength cv)
  /\ (forall p, parent = Z.of_nat p -> (p < n)%nat ->
        vget (cv_edge cv1) (Z.of_nat n - 1)
        = Ok [wrap32 (node_number children tipCount p - 1);
              wrap32 (node_number children tipCount n - 1)]
        /\ vget (cv_edgeLength cv1) (Z.of_nat n - 1) = Ok (length_or_nan m)).
Proof.
  intros Hrow H (Ht & Hn & Hc). unfold convert_node in H.
  set (internal := 0 <? zlength row) in *.
  assert (Hint : has_children children n = internal).
  { unfold has_children, internal, zlength. rewrite Hrow. destruct row; reflexivity. }
  set (tipIndex := if internal then cv_tipIndex cv else cv_tipIndex cv + 1) in *.
  set (nonTipIndex := if internal then cv_nonTipIndex cv + 1 else cv_nonTipIndex cv) in *.
  set (number := if internal then nonTipIndex + tipCount else tipIndex) in *.
  assert (Hnum : number = node_number children tipCount n).
  { unfold number, node_number, nonTipIndex, tipIndex.
    rewrite Hint, !(count_nodes_S _ _ _ _ Hrow). fold internal.
    destruct internal; cbn [Bool.eqb]; lia. }
  assert (Htip : tipIndex = count_nodes false children (S n)).
  { unfold tipIndex. rewrite (count_nodes_S _ _ _ _ Hrow). fold internal.
    destruct internal; cbn [Bool.eqb]; lia. }
  assert (Hnon : nonTipIndex = count_nodes true children (S n)).
  { unfold nonTipIndex. rewrite (count_nodes_S _ _ _ _ Hrow). fold internal.
    destruct internal; cbn [Bool.eqb]; lia. }
  destruct (vset (nodeCorresp cv) (Z.of_nat n) number) as [corresp| |] eqn:Ec;
    try discriminate.
  cbn [bind] in H.
  assert (Hc1 : forall j, (j < S n)%nat ->
                  vget corresp (Z.of_nat j) = Ok (node_number children tipCount j)).
  { intros j Hj. destruct (Nat.eq_dec j n) as [->|Hne].
    - rewrite <- Hnum. exact (proj2 (vset_same _ _ _ _ Ec)).
    - rewrite (vset_other _ _ _ (Z.of_nat j) _ Ec) by lia. apply Hc. lia. }
  match type of H with
  | (bind ?e _) = _ =>
      assert (He : exists edges lengths hasLength,
                 e = Ok (edges, lengths, hasLength)
                 /\ length edges = length (cv_edge cv)
                 /\ length lengths = length (cv_edgeLength cv)
                 /\ (forall k, k <> Z.of_nat n - 1 ->
                       vget edges k = vget (cv_edge cv) k
                       /\ vget lengths k = vget (cv_edgeLength cv) k)
                 /\ (parent < 0 -> edges = cv_edge cv /\ lengths = cv_edgeLength cv)
                 /\ (forall p, parent = Z.of_nat p -> (p < n)%nat ->
                       vget edges (Z.of_nat n - 1)
                       = Ok [wrap32 (node_number children tipCount p - 1);
                             wrap32 (node_number children tipCount n - 1)]
                       /\ vget lengths (Z.of_nat n - 1) = Ok (length_or_nan m)));
      [|destruct He as (edges & lengths & hasLength & He & Hle & Hll & Hoth & Hneg & Hslot);
        rewrite He in H; cbn [bind] in H]
  end.
  { destruct (parent >=? 0) eqn:Ep.
    - apply Z.geb_le in Ep.
      destruct (vget corresp parent) as [from| |] eqn:Ef; try discriminate.
      cbn [bind] in H |- *.
      match type of H with
      | context [vset (cv_edge cv) ?i ?x] =>
          destruct (vset (cv_edge cv) i x) as [edges| |] eqn:Ee; try discriminate
      end.
      cbn [bind] in H |- *.
      assert (Hlen : exists lengths hasLength,
                 match node_length m with
                 | Some d => lengths <- vset (cv_edgeLength cv) (Z.of_nat n - 1) d ;;
                             Ok (edges, lengths, true)
                 | None => lengths <- vset (cv_edgeLength cv) (Z.of_nat n - 1) nan ;;
                           Ok (edges, lengths, cv_hasEdgeLength cv)
                 end = Ok (edges, lengths, hasLength)
                 /\ vset (cv_edgeLength cv) (Z.of_nat n - 1) (length_or_nan m) = Ok lengths).
      { unfold length_or_nan. destruct (node_length m) as [d|].
        - destruct (vset (cv_edgeLength cv) (Z.of_nat n - 1) d) as [lengths| |] eqn:El;
            try discriminate.
          exists lengths, true. split; reflexivity.
        - destruct (vset (cv_edgeLength cv) (Z.of_nat n - 1) nan) as [lengths| |] eqn:El;
            try discriminate.
          exists lengths, (cv_hasEdgeLength cv). split; reflexivity. }
      destruct Hlen as (lengths & hasLength & Hlen & El).
      exists edges, lengths, hasLength. split; [exact Hlen|].
      split; [exact (vset_length _ _ _ _ Ee)|].
      split; [exact (vset_length _ _ _ _ El)|].
      split; [|split].
      + intros k Hk. split.
        * exact (vset_other _ _ _ k _ Ee Hk).
        * exact (vset_other _ _ _ k _ El Hk).
      + lia.
      + intros p -> Hp. split.
        * rewrite (Hc1 p) in Ef by lia. apply Ok_inj in Ef. subst from.
          rewrite <- Hnum. exact (proj2 (vset_same _ _ _ _ Ee)).
        * exact (proj2 (vset_same _ _ _ _ El)).
    - rewrite Z.geb_leb in Ep. apply Z.leb_gt in Ep.
      exists (cv_edge cv), (cv_edgeLength cv), (cv_hasEdgeLength cv).
      split; [reflexivity|]. repeat split; lia. }
  assert (Hfin : nodeCorresp cv1 = corresp /\ cv_tipIndex cv1 = tipIndex
                 /\ cv_nonTipIndex cv1 = nonTipIndex
                 /\ cv_edge cv1 = edges /\ cv_edgeLength cv1 = lengths).
  { destruct internal.
    - destruct (store_node_attributes m (cv_columns cv) (nonTipIndex - 1) tipCount nodeCount)
        as [cols| |]; try discriminate.
      cbn [bind] in H. apply Ok_inj in H. subst cv1. repeat split.
    - destruct (store_tip_attributes m (cv_columns cv) (cv_tipLabel cv) (tipIndex - 1)
                  tipCount nodeCount) as [[cols labels]| |]; try discriminate.
      cbn [bind] in H. apply Ok_inj in H. subst cv1. repeat split. }
  destruct Hfin as (F1 & F2 & F3 & F4 & F5).
  rewrite F4, F5. repeat split; try assumption.
  - rewrite F2. exact Htip.
  - rewrite F3. exact Hnon.
  - rewrite F1. exact Hc1.
  - apply Hoth; assumption.
  - apply Hoth; assumption.
  - apply Hneg; assumption.
  - apply Hneg; assumption.
  - apply (Hslot p); assumption.
  - apply (Hslot p); assumption.
Qed.

Lemma convert_nodes_spec (rest : list Z) :
  forall (n : nat) (cv cv' : convert_state),
    convert_nodes (Z.of_nat n) rest children maps tipCount nodeCount cv = Ok cv' ->
    converted children tipCount n cv ->
    length (cv_edge cv') = length (cv_edge cv)
    /\ length (cv_edgeLength cv') = length (cv_edgeLength cv)
    /\ (forall k, k < Z.of_nat n - 1 ->
          vget (cv_edge cv') k = vget (cv_edge cv) k
          /\ vget (cv_edgeLength cv') k = vget (cv_edgeLength cv) k)
    /\ (forall j p m,
          nth_error rest j = Some (Z.of_nat p) -> (p < n + j)%nat ->
          nth_error maps (n + j) = Some m ->
          vget (cv_edge cv') (Z.of_nat (n + j) - 1)
          = Ok [wrap32 (node_number children tipCount p - 1);
                wrap32 (node_number children tipCount (n + j) - 1)]
          /\ vget (cv_edgeLength cv') (Z.of_nat (n + j) - 1) = Ok (length_or_nan m)).
Proof.
  induction rest as [|parent rest IH]; intros n cv cv' H Hinv.
  - cbn in H. apply Ok_inj in H. subst cv'.
    split; [reflexivity|]. split; [reflexivity|]. split.
    + intros k _. split; reflexivity.
    + intros j q m Hj. destruct j; discriminate Hj.
  - cbn [convert_nodes] in H.
    rewrite !vget_nat in H.
    destruct (nth_error children n) as [row|] eqn:Hrow; try discriminate.
    cbn [bind] in H.
    destruct (nth_error maps n) as [m0|] eqn:Hm0; try discriminate.
    cbn [bind] in H.
    destruct (convert_node (Z.of_nat n) parent row m0 tipCount nodeCount cv)
      as [cv1| |] eqn:Hstep; try discriminate.
    cbn [bind] in H.
    replace (Z.of_nat n + 1) with (Z.of_nat (S n)) in H by lia.
    destruct (convert_node_spec n parent row m0 cv cv1 Hrow Hstep Hinv)
      as (Hinv1 & Hle & Hll & Hoth & _ & Hslot).
    destruct (IH (S n) cv1 cv' H Hinv1) as (Hle' & Hll' & Hkeep & Hrest).
    split; [congruence|]. split; [congruence|]. split.
    + intros k Hk. destruct (Hkeep k) as [K1 K2]; [lia|].
      destruct (Hoth k) as [O1 O2]; [lia|]. split; congruence.
    + intros [|j] p m Hj Hp Hm.
      * cbn in Hj. injection Hj as ->. rewrite Nat.add_0_r in *.
        rewrite Hm0 in Hm. injection Hm as <-.
        destruct (Hkeep (Z.of_nat n - 1)) as [K1 K2]; [lia|].
        destruct (Hslot p eq_refl Hp) as [S1 S2]. split; congruence.
      * cbn in Hj. replace (n + S j)%nat with (S n + j)%nat in * by lia.
        apply (Hrest j p m Hj); [lia|exact Hm].
Qed.

End Convert.

Lemma vector_of_length {A : Type} (n : Z) (x : A) (l : list A) :
  vector_of n x = Ok l -> length l = Z.to_nat n.
Proof.
  unfold vector_of. destruct (n <? 0); [discriminate|].
  intros H. injection H as <-. apply repeat_length.
Qed.

Lemma convertToPhylo_spec (to_string_double : double -> string)
    (parents : list Z) (children : list (list Z))
    (maps : list attribute_map) (tipCount : Z) (tree : phylo) :
  convertToPhylo to_string_double (parents, children, maps) tipCount = Ok tree ->
  (exists root, vget maps 0 = Ok root /\ rootEdge tree = length_or_nan root)
  /\ length (edge tree) = (length parents - 1)%nat
  /\ length (edgeLength tree) = (length parents - 1)%nat
  /\ forall (i p : nat) (m : attribute_map),
       nth_error parents i = Some (Z.of_nat p) -> (p < i)%nat ->
       nth_error maps i = Some m ->
       vget (edge tree) (Z.of_nat i - 1)
       = Ok [wrap32 (node_number children tipCount p - 1);
             wrap32 (node_number children tipCount i - 1)]
       /\ vget (edgeLength tree) (Z.of_nat i - 1) = Ok (length_or_nan m).
Proof.
  intros H. unfold convertToPhylo in H.
  destruct (vget maps 0) as [root| |] eqn:Hroot; try discriminate.
  cbn [bind] in H.
  destruct (vector_of (zlength parents - 1) 0) as [edgeLength0| |] eqn:E0; try discriminate.
  cbn [bind] in H.
  destruct (vector_of (zlength parents - 1) ([] : list Z)) as [edge0| |] eqn:E1;
    try discriminate.
  cbn [bind] in H.
  destruct (vector_of tipCount EmptyString) as [tipLabel0| |]; try discriminate.
  cbn [bind] in H.
  destruct (vector_of (wrap32 (zlength parents - tipCount)) EmptyString)
    as [nodeLabel0| |]; try discriminate.
  cbn [bind] in H.
  match type of H with
  | context [convert_nodes 0 parents children maps tipCount ?nc ?cv0] =>
      destruct (convert_nodes 0 parents children maps tipCount nc cv0)
        as [cv| |] eqn:Hloop; try discriminate;
      pose proof (convert_nodes_spec children maps tipCount nc parents 0 cv0 cv Hloop)
        as Hspec
  end.
  cbn [bind] in H.
  match type of H with
  | context [derive_node_labels ?a ?b ?c] =>
      destruct (derive_node_labels a b c) as [[labels hasLabel]| |]; try discriminate
  end.
  cbn [bind] in H. apply Ok_inj in H. subst tree. cbn [rootEdge edge edgeLength].
  destruct Hspec as (Hle & Hll & _ & Hslots).
  { repeat split. intros j Hj. lia. }
  cbn [cv_edge cv_edgeLength] in Hle, Hll.
  split; [exists root; split; reflexivity|].
  split; [rewrite Hle, (vector_of_length _ _ _ E1); unfold zlength; lia|].
  split; [rewrite Hll; etransitivity;
          [exact (vector_of_length _ _ _ E0)|unfold zlength; lia]|].
  intros i p m Hi Hp Hm. exact (Hslots i p m Hi Hp Hm).
Qed.

(** X13. [convertToPhylo] keeps the root's length apart from the branch
    lengths: the root edge is the "Length" of the first parsed node when
    that is a number other than NaN, and NaN otherwise; the edge list and
    the branch lengths have one slot for each parsed node but the first;
    and for a node [i] whose parent [p] comes before it, slot [i - 1]
    holds the edge from the number of [p] to the number of [i] (both
    0-based) and the node's own length, NaN when it has none. *)
Theorem convertToPhylo_branches (to_string_double : double -> string)
    (parents : list Z) (children : list (list Z))
    (maps : list attribute_map) (tipCount : Z) (tree : phylo) :
  convertToPhylo to_string_double (parents, children, maps) tipCount = Ok tree ->
  (exists root, vget maps 0 = Ok root /\ rootEdge tree = length_or_nan root)
  /\ length (edge tree) = (length parents - 1)%nat
  /\ length (edgeLength tree) = (length parents - 1)%nat
  /\ forall (i p : nat) (m : attribute_map),
       nth_error parents i = Some (Z.of_nat p) -> (p < i)%nat ->
       nth_error maps i = Some m ->
       vget (edge tree) (Z.of_nat i - 1)
       = Ok [wrap32 (node_number children tipCount p - 1);
             wrap32 (node_number children tipCount i - 1)]
       /\ vget (edgeLength tree) (Z.of_nat i - 1) = Ok (length_or_nan m).
Proof. exact (convertToPhylo_spec to_string_double parents children maps tipCount tree). Qed.

(** * The arrays filled by the parser *)

Lemma nth_error_middle {A : Type} (a b : list A) (x y : A) (k : nat) :
  nth_error (a ++ x :: b) k = Some y <->
  ((k < length a)%nat /\ nth_error a k = Some y)
  \/ (k = length a /\ x = y)
  \/ ((length a < k)%nat /\ nth_error b (k - length a - 1) = Some y).
Proof.
  destruct (Nat.lt_ge_cases k (length a)) as [Hlt|Hge].
  - rewrite nth_error_app1 by exact Hlt. split.
    + intros H. left. split; assumption.
    + intros [[_ H]|[[H _]|[H _]]]; [exact H|lia|lia].
  - rewrite nth_error_app2 by exact Hge.
    destruct (k - length a)%nat as [|d] eqn:E.
    + cbn [nth_error]. split.
      * intros H. injection H as <-. right. left. split; [lia|reflexivity].
      * intros [[H _]|[[_ H]|[H _]]]; [lia|congruence|lia].
    + cbn [nth_error]. replace (S d - 1)%nat with d by lia. split.
      * intros H. right. right. split; [lia|exact H].
      * intros [[H _]|[[H _]|[_ H]]]; [lia|lia|exact H].
Qed.

Lemma list_set_middle {A : Type} (a b : list A) (x y : A) :
  list_set (a ++ x :: b) (length a) y = Some (a ++ y :: b).
Proof.
  induction a as [|z a IH]; [reflexivity|].
  cbn [app length list_set]. rewrite IH. reflexivity.
Qed.

Lemma nth_error_at {A : Type} (a b : list A) (x : A) :
  nth_error (a ++ x :: b) (length a) = Some x.
Proof. rewrite nth_error_app2, Nat.sub_diag by lia. reflexivity. Qed.

Lemma grown_aligned (ps ps' : parse_state) (parent : Z) np nc na :
  aligned ps -> grown ps parent ps' np nc na -> aligned ps'.
Proof.
  intros (A1 & A2 & A3) (G1 & G2 & G3 & G4 & G5 & G6 & _).
  split; [exact G6|]. rewrite G1, G2, G3, !length_app. cbn [length]. lia.
Qed.

(** A child's subtree is appended to the subtree of its parent. *)
Lemma grown_child (ps cur ps2 : parse_state) (parent : Z) np nc na np2 nc2 na2
    (row : list Z) (rows : list (list Z)) :
  aligned ps ->
  grown ps parent cur np nc na ->
  grown cur (zlength (allParents ps)) ps2 np2 nc2 na2 ->
  vget (allChildren ps2) (zlength (allParents ps)) = Ok row ->
  vset (allChildren ps2) (zlength (allParents ps)) (row ++ [zlength (allParents cur)])
  = Ok rows ->
  row = hd [] nc
  /\ grown ps parent
       (mkParse (p_currIndex ps2) (allParents ps2) rows (allAttributes ps2)
          (p_tipCount ps2))
       (np ++ zlength (allParents ps) :: np2)
       ((row ++ [zlength (allParents cur)]) :: tl nc ++ nc2)
       (na ++ na2).
Proof.
  intros (A1 & A2 & A3) (G1 & G2 & G3 & G4 & G5 & G6 & G7 & G8)
    (H1 & H2 & H3 & H4 & H5 & H6 & H7 & H8) Hget Hset.
  destruct nc as [|row0 t]; [discriminate G4|].
  cbn [length] in G4. injection G4 as G4.
  set (idx := zlength (allParents ps)) in *.
  assert (Hidx : idx = Z.of_nat (length (allChildren ps))) by (unfold idx, zlength; lia).
  assert (Hcur : zlength (allParents cur) = idx + 1 + Z.of_nat (length np)).
  { rewrite G1. unfold idx, zlength. rewrite length_app. cbn [length]. lia. }
  assert (Hrows2 : allChildren ps2 = allChildren ps ++ row0 :: (t ++ nc2)).
  { rewrite H2, G2, <- app_assoc. reflexivity. }
  assert (Hrow : row = row0).
  { rewrite Hrows2, Hidx, vget_nat, nth_error_at in Hget. apply Ok_inj in Hget.
    symmetry. exact Hget. }
  subst row.
  assert (Hrows : rows = allChildren ps ++ (row0 ++ [zlength (allParents cur)]) :: (t ++ nc2)).
  { unfold vset in Hset. rewrite Hrows2, Hidx in Hset.
    replace (Z.of_nat (length (allChildren ps)) <? 0) with false in Hset
      by (symmetry; apply Z.ltb_ge; lia).
    rewrite Nat2Z.id, list_set_middle in Hset. apply Ok_inj in Hset.
    symmetry. exact Hset. }
  split; [reflexivity|].
  unfold grown. cbn [allParents allChildren allAttributes p_currIndex hd tl].
  fold idx.
  split; [rewrite H1, G1, <- app_assoc; reflexivity|].
  split; [exact Hrows|].
  split; [rewrite H3, G3, <- app_assoc; reflexivity|].
  split; [cbn [length]; rewrite !length_app; cbn [length]; lia|].
  split; [rewrite !length_app; cbn [length]; lia|].
  split; [exact H6|].
  split.
  - intros k p Hk. apply nth_error_middle in Hk.
    destruct Hk as [[Hlt Hk]|[[Hk <-]|[Hlt Hk]]].
    + exact (G7 k p Hk).
    + lia.
    + specialize (H7 _ _ Hk). lia.
  - intros j row c Hj.
    destruct j as [|j].
    + cbn [nth_error] in Hj. injection Hj as <-.
      rewrite in_app_iff. cbn [In]. split.
      * intros [Hin|[Hc|[]]].
        -- apply (G8 0%nat row0 c eq_refl) in Hin. destruct Hin as (k & Hc & Hk).
           exists k. split; [exact Hc|]. apply nth_error_middle. left.
           split; [|exact Hk]. apply nth_error_Some. congruence.
        -- exists (length np). split; [lia|]. apply nth_error_middle. right. left.
           split; [reflexivity|]. f_equal. lia.
      * intros (k & Hc & Hk). apply nth_error_middle in Hk.
        destruct Hk as [[Hlt Hk]|[[Hk _]|[Hlt Hk]]].
        -- left. apply (G8 0%nat row0 c eq_refl). exists k. split; assumption.
        -- right. left. lia.
        -- specialize (H7 _ _ Hk). lia.
    + cbn [nth_error] in Hj.
      destruct (Nat.lt_ge_cases j (length t)) as [Hlt|Hge].
      * rewrite nth_error_app1 in Hj by exact Hlt.
        rewrite (G8 (S j) row c Hj). split.
        -- intros (k & Hc & Hk). exists k. split; [exact Hc|].
           apply nth_error_middle. left. split; [|exact Hk].
           apply nth_error_Some. congruence.
        -- intros (k & Hc & Hk). apply nth_error_middle in Hk.
           destruct Hk as [[Hl Hk]|[[Hk E]|[Hl Hk]]].
           ++ exists k. split; assumption.
           ++ lia.
           ++ specialize (H7 _ _ Hk). lia.
      * rewrite nth_error_app2 in Hj by exact Hge.
        rewrite (H8 (j - length t)%nat row c Hj). split.
        -- intros (k & Hc & Hk). exists (length np + 1 + k)%nat. split; [lia|].
           apply nth_error_middle. right. right. split; [lia|].
           replace (length np + 1 + k - length np - 1)%nat with k by lia.
           rewrite Hk. f_equal. lia.
        -- intros (k & Hc & Hk). apply nth_error_middle in Hk.
           destruct Hk as [[Hl Hk]|[[Hk E]|[Hl Hk]]].
           ++ specialize (G7 _ _ Hk). lia.
           ++ lia.
           ++ exists (k - length np - 1)%nat. split; [lia|].
              rewrite Hk. f_equal. lia.
Qed.

Lemma split_children_nonempty (sc : scan) : split_children sc <> [].
Proof.
  unfold split_children. destruct (commas sc) as [|c r]; [discriminate|].
  cbn [split_at]. discriminate.
Qed.

Lemma empty_rows_app (a b : list (list Z)) :
  empty_rows (a ++ b) = empty_rows a + empty_rows b.
Proof.
  unfold empty_rows, count_nodes. rewrite !firstn_all, filter_app, length_app. lia.
Qed.

Lemma empty_rows_cons (row : list Z) (rows : list (list Z)) :
  empty_rows (row :: rows)
  = (match row with [] => 1 | _ => 0 end) + empty_rows rows.
Proof.
  change (row :: rows) with ([row] ++ rows). rewrite empty_rows_app. f_equal.
  destruct row; reflexivity.
Qed.

Lemma grown_leaf (ps : parse_state) (parent : Z) (m : attribute_map) (tips : Z) :
  aligned ps ->
  grown ps parent
    (mkParse (p_currIndex ps + 1) (allParents ps ++ [parent]) (allChildren ps ++ [[]])
       (allAttributes ps ++ [m]) tips)
    [] [[]] [m].
Proof.
  intros (A1 & A2 & A3). unfold grown.
  cbn [allParents allChildren allAttributes p_currIndex length].
  repeat split; try reflexivity.
  - rewrite A1. unfold zlength. rewrite length_app. cbn [length]. lia.
  - destruct k; discriminate.
  - destruct k; discriminate.
  - destruct j as [|j]; [|destruct j; discriminate].
    injection H as <-. intros [].
  - intros (k & _ & Hk). destruct k; discriminate.
Qed.

Section Parser.

Variable stod : string -> option (double * nat).

Lemma parseNWKA_grows (fuel : nat) :
  forall src ps parent idx ps',
    aligned ps ->
    parseNWKA stod fuel src ps parent = Ok (idx, ps') ->
    idx = zlength (allParents ps)
    /\ exists np nc na,
         grown ps parent ps' np nc na
         /\ p_tipCount ps' = p_tipCount ps + empty_rows nc.
Proof.
  induction fuel as [|fuel IH]; intros src ps parent idx ps' Hal H; [discriminate|].
  cbn [parseNWKA] in H.
  destruct (prepare src) as [source| |]; try discriminate.
  cbn [bind] in H.
  destruct (starts_with source "(").
  - match type of H with
    | bind ?x _ = _ => destruct x as [sc| |]; try discriminate
    end.
    cbn [bind] in H.
    match type of H with
    | bind ?x _ = _ => destruct x as [[[pos e] m]| |]; try discriminate
    end.
    cbn [bind] in H.
    match type of H with
    | ?f ?cs ?p1 = _ => set (each := f) in H; set (ps1 := p1) in H
    end.
    assert (Hloop :
      forall cs cur np nc na,
        grown ps parent cur np nc na ->
        p_tipCount cur = p_tipCount ps + empty_rows (tl nc) ->
        cs <> [] \/ hd [] nc <> [] ->
        each cs cur = Ok (idx, ps') ->
        idx = p_currIndex ps
        /\ exists np' nc' na',
             grown ps parent ps' np' nc' na'
             /\ p_tipCount ps' = p_tipCount ps + empty_rows (tl nc')
             /\ hd [] nc' <> []).
    { induction cs as [|child cs IHcs]; intros cur np nc na Hg Ht Hne Hrun.
      - unfold each in Hrun. apply Ok_inj in Hrun.
        injection Hrun as E1 E2. subst cur. split; [symmetry; exact E1|].
        exists np, nc, na. split; [exact Hg|]. split; [exact Ht|].
        destruct Hne as [Hne|Hne]; [contradiction|exact Hne].
      - unfold each in Hrun. lazy beta iota in Hrun. fold each in Hrun.
        destruct (parseNWKA stod fuel child cur (p_currIndex ps))
          as [[childInd ps2]| |] eqn:Hchild; try discriminate.
        cbn [bind] in Hrun.
        destruct (vget (allChildren ps2) (p_currIndex ps)) as [row| |] eqn:Hget;
          try discriminate.
        cbn [bind] in Hrun.
        destruct (vset (allChildren ps2) (p_currIndex ps) (row ++ [childInd]))
          as [rows| |] eqn:Hset; try discriminate.
        cbn [bind] in Hrun.
        pose proof (grown_aligned _ _ _ _ _ _ Hal Hg) as Hcur.
        destruct (IH _ _ _ _ _ Hcur Hchild) as (-> & np2 & nc2 & na2 & Hg2 & Ht2).
        destruct Hal as (A1 & A2 & A3).
        rewrite A1 in Hget, Hset, Hg2.
        destruct (grown_child ps cur ps2 parent np nc na np2 nc2 na2 row rows
                    (conj A1 (conj A2 A3)) Hg Hg2 Hget Hset) as (Hrow & Hg3).
        eapply IHcs; [exact Hg3| |right; cbn [hd]; destruct row; discriminate|exact Hrun].
        cbn [p_tipCount tl]. rewrite empty_rows_app. lia. }
    destruct (Hloop (split_children sc) ps1 [] [[]] [m]) as (Hi & np & nc & na & Hg & Ht & Hh).
    + apply grown_leaf. exact Hal.
    + unfold empty_rows, count_nodes. cbn. lia.
    + left. apply split_children_nonempty.
    + assumption.
    + split; [rewrite Hi; exact (proj1 Hal)|].
      exists np, nc, na. split; [exact Hg|]. rewrite Ht.
      destruct nc as [|h t]; [contradiction Hh; reflexivity|].
      cbn [hd tl] in *. rewrite empty_rows_cons. destruct h; [contradiction|lia].
  - match type of H with
    | bind ?x _ = _ => destruct x as [[[pos e] m]| |]; try discriminate
    end.
    cbn [bind] in H. apply Ok_inj in H. injection H as E1 E2. subst ps'.
    split; [rewrite <- E1; exact (proj1 Hal)|].
    exists [], [[]], [m]. split; [apply grown_leaf; exact Hal|].
    cbn [p_tipCount]. unfold empty_rows, count_nodes. cbn. lia.
Qed.

End Parser.

Lemma aligned_parse0 : aligned parse0.
Proof. repeat split. Qed.

(** X14. The arrays [parseNWKA] fills describe a tree in the order its
    nodes are met: the three arrays have one entry per node, the first
    node is the result and has the parent -1, every other node has its
    parent before it, a row of children lists exactly the nodes that name
    its owner as their parent, and the tip count is the number of nodes
    without children. *)
Theorem parseNWKA_arrays (stod : string -> option (double * nat)) (fuel : nat)
    (source : string) (idx : Z) (ps : parse_state) :
  parseNWKA stod fuel source parse0 (-1) = Ok (idx, ps) ->
  idx = 0
  /\ length (allChildren ps) = length (allParents ps)
  /\ length (allAttributes ps) = length (allParents ps)
  /\ p_tipCount ps = empty_rows (allChildren ps)
  /\ nth_error (allParents ps) 0 = Some (-1)
  /\ (forall (i : nat) (p : Z),
        (0 < i)%nat -> nth_error (allParents ps) i = Some p -> 0 <= p < Z.of_nat i)
  /\ (forall (i : nat) (row : list Z) (c : Z),
        nth_error (allChildren ps) i = Some row ->
        (In c row <-> vget (allParents ps) c = Ok (Z.of_nat i))).
Proof.
  intros H.
  destruct (parseNWKA_grows stod fuel _ _ _ _ _ aligned_parse0 H)
    as (Hi & np & nc & na & (G1 & G2 & G3 & G4 & G5 & G6 & G7 & G8) & Ht).
  cbn [parse0 allParents allChildren allAttributes p_tipCount app zlength length] in *.
  change (zlength (@nil Z)) with 0 in *.
  split; [exact Hi|].
  rewrite G1, G2, G3. cbn [length nth_error].
  split; [exact G4|]. split; [exact G5|]. split; [exact Ht|]. split; [reflexivity|].
  split.
  - intros [|i] p Hlt Hp; [lia|]. cbn [nth_error] in Hp.
    specialize (G7 _ _ Hp). lia.
  - intros i row c Hrow. rewrite (G8 i row c Hrow). split.
    + intros (k & -> & Hk).
      replace (0 + 1 + Z.of_nat k) with (Z.of_nat (S k)) by lia.
      rewrite vget_nat. cbn [nth_error]. rewrite Hk. reflexivity.
    + intros Hc. apply vget_Ok in Hc. destruct Hc as [Hc0 Hc].
      destruct (Z.to_nat c) as [|k] eqn:Ek.
      * cbn [nth_error] in Hc. injection Hc as Hc. lia.
      * cbn [nth_error] in Hc. exists k. split; [lia|exact Hc].
Qed.

Lemma map_assign_other {V : Type} (less : string -> string -> bool)
    (m : list (string * V)) (k k2 : string) (v : V) :
  map_find less m k = None ->
  key_equiv less k k2 = false ->
  map_find less (map_assign less m k v) k2 = map_find less m k2.
Proof.
  intros Hnone Hk. induction m as [|[k' v'] r IH].
  - cbn. rewrite Hk. reflexivity.
  - cbn [map_find] in Hnone. cbn [map_assign].
    destruct (key_equiv less k' k) eqn:E; [discriminate|].
    destruct (less k k') eqn:L1.
    + cbn [map_find]. rewrite Hk. reflexivity.
    + destruct (less k' k) eqn:L2.
      * cbn [map_find]. destruct (key_equiv less k' k2); [reflexivity|].
        exact (IH Hnone).
      * unfold key_equiv in E. rewrite L1, L2 in E. discriminate E.
Qed.

(** X15. A tree parsed from a Newick statement has one edge and one
    branch length for every node but the root, in the order the nodes
    appear in the text: slot [i - 1] holds the edge from the parent of
    node [i] to node [i] and that node's "Length" (NaN when it has none
    or when it is not a number), and the "Length" of the root is kept in
    the root edge only. *)
Theorem parsed_tree_branches (to_string_double : double -> string)
    (stod : string -> option (double * nat)) (source : string) (tree : phylo) :
  parseNWKAStringOneTree to_string_double stod source = Ok tree ->
  exists ps : parse_state,
    parseNWKA stod (S (String.length (tree_text source))) (tree_text source) parse0 (-1)
    = Ok (0, ps)
    /\ length (edge tree) = (length (allParents ps) - 1)%nat
    /\ length (edgeLength tree) = (length (allParents ps) - 1)%nat
    /\ (exists root,
          nth_error (allAttributes ps) 0 = Some root
          /\ rootEdge tree = length_or_nan root)
    /\ forall i : nat,
         (1 <= i < length (allParents ps))%nat ->
         exists (p : nat) (m : attribute_map),
           nth_error (allParents ps) i = Some (Z.of_nat p)
           /\ (p < i)%nat
           /\ nth_error (allAttributes ps) i = Some m
           /\ vget (edge tree) (Z.of_nat i - 1)
              = Ok [wrap32 (node_number (allChildren ps) (p_tipCount ps) p - 1);
                    wrap32 (node_number (allChildren ps) (p_tipCount ps) i - 1)]
           /\ vget (edgeLength tree) (Z.of_nat i - 1) = Ok (length_or_nan m).
Proof.
  intros H. unfold parseNWKAStringOneTree in H.
  assert (Hsrc : (let '(_, source1) :=
                    match find_paren source 0 with
                    | Some index =>
                        (substr source 0 index,
                         substr source index (String.length source - index))
                    | None => (EmptyString, source)
                    end in source1) = tree_text source).
  { unfold tree_text. destruct (find_paren source 0); reflexivity. }
  destruct (match find_paren source 0 with
            | Some index =>
                (substr source 0 index,
                 substr source index (String.length source - index))
            | None => (EmptyString, source)
            end) as [treeName source1].
  subst source1.
  destruct (parseNWKA stod (S (String.length (tree_text source))) (tree_text source)
              parse0 (-1)) as [[idx ps]| |] eqn:Hparse; try discriminate.
  cbn [bind] in H.
  destruct (parseNWKA_grows stod _ _ _ _ _ _ aligned_parse0 Hparse)
    as (Hi & np & nc & na & (G1 & G2 & G3 & G4 & G5 & G6 & G7 & G8) & Ht).
  cbn [parse0 allParents allChildren allAttributes p_tipCount app zlength length] in *.
  change (zlength (@nil Z)) with 0 in *. subst idx.
  destruct (vget (allAttributes ps) 0) as [root| |] eqn:Hroot; try discriminate.
  cbn [bind] in H.
  match type of H with
  | context [vset (allAttributes ps) 0 ?r] =>
      set (root' := r) in *;
      destruct (vset (allAttributes ps) 0 root') as [maps| |] eqn:Hmaps; try discriminate
  end.
  cbn [bind] in H.
  destruct (convertToPhylo_spec _ _ _ _ _ _ H) as ((r0 & Hr0 & Hre) & Hle & Hll & Hslots).
  exists ps. split; [reflexivity|]. split; [exact Hle|]. split; [exact Hll|]. split.
  - exists root. apply vget_Ok in Hroot. split; [exact (proj2 Hroot)|].
    rewrite (proj2 (vset_same _ _ _ _ Hmaps)) in Hr0. apply Ok_inj in Hr0. subst r0.
    rewrite Hre. unfold length_or_nan, node_length, root'.
    destruct (negb (containsKey root "TreeName"%string) && negb (string_empty treeName))
      eqn:Hc;
      [|reflexivity].
    rewrite map_assign_other; [reflexivity| |reflexivity].
    apply andb_true_iff in Hc. destruct Hc as [Hc _]. unfold containsKey in Hc.
    destruct (map_find ci_less root "TreeName"%string); [discriminate Hc|reflexivity].
  - intros i Hi. rewrite G1 in Hi |- *. destruct i as [|i]; [lia|].
    cbn [length] in Hi. change (nth_error (-1 :: np) (S i)) with (nth_error np i).
    destruct (nth_error np i) as [p|] eqn:Hp;
      [|apply nth_error_None in Hp; lia].
    pose proof (G7 _ _ Hp) as Hb.
    destruct (nth_error (allAttributes ps) (S i)) as [m|] eqn:Hm;
      [|apply nth_error_None in Hm; rewrite G3, G5 in Hm; cbn [length] in Hm; lia].
    exists (Z.to_nat p), m. rewrite Z2Nat.id by lia.
    split; [reflexivity|]. split; [lia|]. split; [reflexivity|].
    apply (Hslots (S i) (Z.to_nat p) m).
    + rewrite G1. cbn [nth_error]. rewrite Hp, Z2Nat.id by lia. reflexivity.
    + lia.
    + pose proof (vset_other _ _ 0 (Z.of_nat (S i)) _ Hmaps) as Ho.
      rewrite !vget_nat, Hm in Ho. specialize (Ho ltac:(lia)).
      destruct (nth_error maps (S i)); [congruence|discriminate].
Qed.

(** * The Translate table of the NEXUS writer *)

Lemma key_equiv_string_neq (a b : string) :
  a <> b -> key_equiv string_less a b = false.
Proof.
  intros H. destruct (key_equiv string_less a b) eqn:E; [|reflexivity].
  apply key_equiv_string_less in E. contradiction.
Qed.

Lemma key_equiv_string_refl (a : string) : key_equiv string_less a a = true.
Proof. apply key_equiv_string_less. reflexivity. Qed.

Lemma string_less_neq (a b : string) : string_less a b = true -> a <> b.
Proof. intros H ->. rewrite string_less_irrefl in H. discriminate H. Qed.

Lemma map_find_assign_same (m : list (string * Z)) (k : string) (v : Z) :
  map_find string_less (map_assign string_less m k v) k = Some v.
Proof.
  induction m as [|[k' v'] r IH]; cbn [map_assign map_find].
  - rewrite key_equiv_string_refl. reflexivity.
  - destruct (string_less k k') eqn:L1.
    + cbn [map_find]. rewrite key_equiv_string_refl. reflexivity.
    + destruct (string_less k' k) eqn:L2; cbn [map_find].
      * rewrite (key_equiv_string_neq _ _ (string_less_neq _ _ L2)). exact IH.
      * unfold key_equiv. rewrite L1, L2. reflexivity.
Qed.

Lemma map_find_assign_other (m : list (string * Z)) (k k2 : string) (v : Z) :
  k <> k2 ->
  map_find string_less (map_assign string_less m k v) k2 = map_find string_less m k2.
Proof.
  intros Hne. induction m as [|[k' v'] r IH]; cbn [map_assign map_find].
  - rewrite (key_equiv_string_neq _ _ Hne). reflexivity.
  - destruct (string_less k k') eqn:L1.
    + cbn [map_find]. rewrite (key_equiv_string_neq _ _ Hne). reflexivity.
    + destruct (string_less k' k) eqn:L2; cbn [map_find].
      * rewrite IH. reflexivity.
      * assert (E : k' = k).
        { apply key_equiv_string_less. unfold key_equiv. rewrite L1, L2. reflexivity. }
        subst k'. rewrite (key_equiv_string_neq _ _ Hne). reflexivity.
Qed.

Lemma map_assign_new_length (m : list (string * Z)) (k : string) (v : Z) :
  map_find string_less m k = None ->
  length (map_assign string_less m k v) = S (length m).
Proof.
  induction m as [|[k' v'] r IH]; cbn [map_assign map_find]; intros H.
  - reflexivity.
  - destruct (key_equiv string_less k' k) eqn:E; [discriminate|].
    destruct (string_less k k') eqn:L1; [reflexivity|].
    destruct (string_less k' k) eqn:L2.
    + cbn [length]. rewrite (IH H). reflexivity.
    + unfold key_equiv in E. rewrite L1, L2 in E. discriminate E.
Qed.

Lemma numbering_extend (table : list (string * Z)) (n : Z) (label : string) :
  numbering table n ->
  map_find string_less table label = None ->
  numbering (map_assign string_less table label n) (n + 1).
Proof.
  intros (Hlen & Hrange & Hinj) Hnew. split; [|split].
  - unfold zlength in *. rewrite (map_assign_new_length _ _ _ Hnew). lia.
  - intros l v Hl. destruct (string_dec label l) as [<-|Hne].
    + rewrite map_find_assign_same in Hl. injection Hl as <-.
      unfold zlength in Hlen. lia.
    + rewrite (map_find_assign_other _ _ _ _ Hne) in Hl.
      specialize (Hrange _ _ Hl). lia.
  - intros l1 l2 v H1 H2.
    destruct (string_dec label l1) as [E1|N1]; destruct (string_dec label l2) as [E2|N2].
    + congruence.
    + subst l1. rewrite map_find_assign_same in H1. injection H1 as <-.
      rewrite (map_find_assign_other _ _ _ _ N2) in H2.
      specialize (Hrange _ _ H2). lia.
    + subst l2. rewrite map_find_assign_same in H2. injection H2 as <-.
      rewrite (map_find_assign_other _ _ _ _ N1) in H1.
      specialize (Hrange _ _ H1). lia.
    + rewrite (map_find_assign_other _ _ _ _ N1) in H1.
      rewrite (map_find_assign_other _ _ _ _ N2) in H2.
      exact (Hinj _ _ _ H1 H2).
Qed.

(** The table after the labels of one tree: it is still a numbering, it
    keeps the numbers given before and it numbers every label of the
    tree. *)
Lemma collect_labels_spec (labels : list string) :
  forall table n table' n',
    collect_labels labels table n = (table', n') ->
    numbering table n ->
    numbering table' n'
    /\ (forall l v, map_find string_less table l = Some v ->
                    map_find string_less table' l = Some v)
    /\ (forall l, In l labels -> exists v, map_find string_less table' l = Some v).
Proof.
  induction labels as [|label r IH]; intros table n table' n' H Hnum;
    cbn [collect_labels] in H.
  - injection H as <- <-. split; [exact Hnum|]. split; [auto|]. intros l [].
  - destruct (map_find string_less table label) as [v0|] eqn:Hf.
    + destruct (IH _ _ _ _ H Hnum) as (H1 & H2 & H3).
      split; [exact H1|]. split; [exact H2|].
      intros l [<-|Hin]; [exists v0; exact (H2 _ _ Hf)|exact (H3 l Hin)].
    + destruct (IH _ _ _ _ H (numbering_extend _ _ _ Hnum Hf)) as (H1 & H2 & H3).
      split; [exact H1|]. split.
      * intros l v Hl. apply H2. rewrite map_find_assign_other; [exact Hl|].
        intros <-. congruence.
      * intros l [<-|Hin]; [|exact (H3 l Hin)].
        exists n. apply H2. apply map_find_assign_same.
Qed.

Lemma collect_all_labels_spec (ts : list phylo) :
  forall table n table' n',
    collect_all_labels ts table n = (table', n') ->
    numbering table n ->
    numbering table' n'
    /\ (forall l v, map_find string_less table l = Some v ->
                    map_find string_less table' l = Some v)
    /\ (forall t l, In t ts -> In l (tipLabel t) ->
                    exists v, map_find string_less table' l = Some v).
Proof.
  induction ts as [|t r IH]; intros table n table' n' H Hnum;
    cbn [collect_all_labels] in H.
  - injection H as <- <-. split; [exact Hnum|]. split; [auto|]. intros t l [].
  - destruct (collect_labels (tipLabel t) table n) as [table1 n1] eqn:Hone.
    destruct (collect_labels_spec _ _ _ _ _ Hone Hnum) as (N1 & K1 & F1).
    destruct (IH _ _ _ _ H N1) as (N2 & K2 & F2).
    split; [exact N2|]. split; [intros l v Hl; exact (K2 _ _ (K1 _ _ Hl))|].
    intros t0 l [<-|Hin] Hl.
    + destruct (F1 l Hl) as [v Hv]. exists v. exact (K2 _ _ Hv).
    + exact (F2 t0 l Hin Hl).
Qed.

(** Labels that are all in the table are replaced by their numbers, and
    the table is left as it is. *)
Lemma translate_labels_known (labels : list string) (table : list (string * Z)) :
  (forall l, In l labels -> exists v, map_find string_less table l = Some v) ->
  translate_labels labels table
  = (map (fun l => to_string_int (table_number table l + 1)) labels, table).
Proof.
  induction labels as [|label r IH]; intros H; cbn [translate_labels map].
  - reflexivity.
  - destruct (H label (or_introl eq_refl)) as [v Hv].
    unfold table_number at 1. rewrite Hv.
    rewrite IH by (intros l Hl; apply H; right; exact Hl). reflexivity.
Qed.

Lemma numbering_empty : numbering [] 0.
Proof.
  split; [reflexivity|]. split; intros; discriminate.
Qed.

(** X16. With translation on, the tree statements agree with the
    Translate table: the table built from the tip labels of all the trees
    numbers the distinct labels from 0 on, each number used once, and
    [translateNames] replaces every tip label of every tree by the number
    the table gives it, plus one, without adding to the table. *)
Theorem translated_labels_follow_table (ts : list phylo) (table : list (string * Z))
    (index : Z) :
  collect_all_labels ts [] 0 = (table, index) ->
  numbering table index
  /\ forall t, In t ts ->
       tipLabel (fst (translateNames t table))
       = map (fun l => to_string_int (table_number table l + 1)) (tipLabel t)
       /\ snd (translateNames t table) = table
       /\ forall l, In l (tipLabel t) ->
            exists v, map_find string_less table l = Some v /\ 0 <= v < index.
Proof.
  intros H.
  destruct (collect_all_labels_spec ts [] 0 table index H numbering_empty)
    as (Hnum & _ & Hall).
  split; [exact Hnum|]. intros t Ht.
  assert (Hknown : translate_labels (tipLabel t) table
                   = (map (fun l => to_string_int (table_number table l + 1))
                        (tipLabel t), table)).
  { apply translate_labels_known. intros l Hl. exact (Hall t l Ht Hl). }
  unfold translateNames. rewrite Hknown. cbn [fst snd tipLabel].
  split; [reflexivity|]. split; [reflexivity|].
  intros l Hl. destruct (Hall t l Ht Hl) as [v Hv]. exists v.
  split; [exact Hv|]. exact (proj1 (proj2 Hnum) _ _ Hv).
Qed.

(** * The shared tables *)

Lemma readMyString_written (s : fstream) (str : string) (r : list Z) :
  writable str ->
  sfail s = false ->
  remaining s = writeMyString str ++ r ->
  readMyString s = Ok (str, advance s (length (writeMyString str))).
Proof.
  intros [Hlen Hc] Hf Hr. unfold writeMyString in *. unfold strlen in *.
  rewrite <- (length_string_chars str) in *.
  set (n := length (string_chars str)) in *.
  assert (Hw : wrap32 (Z.of_nat n) = Z.of_nat n) by (apply wrap32_small; lia).
  rewrite Hw in *. rewrite <- app_assoc in Hr.
  unfold readMyString.
  rewrite (readInt_ok s (Z.of_nat n) _ ltac:(unfold count_ok; lia) Hf Hr).
  cbn [bind]. destruct (Z.ltb_spec (Z.of_nat n) 0); [lia|].
  rewrite Nat2Z.id.
  destruct (readChars_written (string_chars str)
              (advance s (length (writeInt (Z.of_nat n)))) r Hc eq_refl)
    as [E L].
  { apply (remaining_step s _ _ Hr). }
  fold n in E, L. rewrite E. cbn [bind].
  rewrite string_of_chars_string_chars, advance_advance.
  rewrite length_app, L. reflexivity.
Qed.

Lemma read_names_written (names : list string) :
  forall s r,
    Forall writable names ->
    sfail s = false ->
    remaining s = flat_map writeMyString names ++ r ->
    read_names (length names) s
    = Ok (names, advance s (length (flat_map writeMyString names))).
Proof.
  induction names as [|name names IH]; intros s r HF Hf Hr.
  - cbn. rewrite advance_0 by exact Hf. reflexivity.
  - inversion HF as [|? ? Hname Hrest]; subst.
    cbn [flat_map] in Hr |- *. rewrite <- app_assoc in Hr.
    cbn [length read_names].
    rewrite (readMyString_written s name _ Hname Hf Hr). cbn [bind].
    rewrite (IH (advance s (length (writeMyString name))) r Hrest eq_refl
               (remaining_step s _ _ Hr)).
    cbn [bind]. rewrite advance_advance, length_app. reflexivity.
Qed.

Lemma read_attribute_table_written (attrs : list Attribute) :
  forall s r,
    Forall (fun a => writable (AttributeName a)) attrs ->
    sfail s = false ->
    remaining s
    = flat_map (fun a => writeMyString (AttributeName a)
                         ++ writeInt (if IsNumeric a then 2 else 1)) attrs ++ r ->
    read_attribute_table (length attrs) s
    = Ok (attrs,
          advance s
            (length (flat_map (fun a => writeMyString (AttributeName a)
                                        ++ writeInt (if IsNumeric a then 2 else 1))
                       attrs))).
Proof.
  induction attrs as [|a attrs IH]; intros s r HF Hf Hr.
  - cbn. rewrite advance_0 by exact Hf. reflexivity.
  - inversion HF as [|? ? Hname Hrest]; subst.
    cbn [flat_map] in Hr |- *. rewrite <- !app_assoc in Hr.
    cbn [length read_attribute_table].
    rewrite (readMyString_written s _ _ Hname Hf Hr). cbn [bind].
    pose proof (remaining_step s _ _ Hr) as Hr1.
    assert (Hk : count_ok (if IsNumeric a then 2 else 1))
      by (unfold count_ok; destruct (IsNumeric a); lia).
    rewrite (readInt_ok (advance s (length (writeMyString (AttributeName a)))) _ _
               Hk eq_refl Hr1).
    cbn [bind].
    rewrite (IH (advance (advance s (length (writeMyString (AttributeName a))))
                   (length (writeInt (if IsNumeric a then 2 else 1))))
               r Hrest eq_refl (remaining_step _ _ _ Hr1)).
    cbn [bind].
    rewrite !advance_advance, !length_app. f_equal. f_equal.
    + destruct a as [name numeric]. cbn [AttributeName IsNumeric].
      destruct numeric; reflexivity.
    + f_equal. lia.
Qed.

Lemma read_global_tables_written (globalNames globalAttributes : bool)
    (names : list string) (attrs : list Attribute) (s : fstream) (r : list Z) :
  Forall writable names ->
  Forall (fun a => writable (AttributeName a)) attrs ->
  zlength names < 2147483648 ->
  zlength attrs < 2147483648 ->
  sfail s = false ->
  remaining s = shared_tables globalNames globalAttributes names attrs ++ r ->
  read_global_tables s globalNames globalAttributes
  = Ok (if globalNames then names else [],
        if globalAttributes then attrs else [],
        advance s (length (shared_tables globalNames globalAttributes names attrs))).
Proof.
  intros Hnames Hattrs Hn Ha Hf Hr. unfold shared_tables in *.
  unfold read_global_tables.
  assert (Wn : wrap32 (zlength names) = zlength names)
    by (apply wrap32_small; unfold zlength in *; lia).
  assert (Wa : wrap32 (zlength attrs) = zlength attrs)
    by (apply wrap32_small; unfold zlength in *; lia).
  set (namesPart := if globalNames
                    then writeInt (wrap32 (zlength names)) ++ flat_map writeMyString names
                    else []) in *.
  assert (Hfirst :
    (if globalNames then
       '(numNames, t1) <- readInt s ;;
       if numNames <? 0 then Throw LengthError
       else read_names (Z.to_nat numNames) t1
     else Ok ([], s))
    = Ok (if globalNames then names else [], advance s (length namesPart))).
  { unfold namesPart in *. destruct globalNames.
    - rewrite Wn in *. rewrite <- !app_assoc in Hr.
      rewrite (readInt_ok s (zlength names) _
                 ltac:(unfold count_ok, zlength in *; lia) Hf Hr).
      cbn [bind]. destruct (Z.ltb_spec (zlength names) 0);
        [unfold zlength in *; lia|].
      unfold zlength at 1. rewrite Nat2Z.id.
      rewrite (read_names_written names (advance s (length (writeInt (zlength names))))
                 _ Hnames eq_refl (remaining_step s _ _ Hr)).
      rewrite advance_advance, length_app. reflexivity.
    - cbn [length]. rewrite advance_0 by exact Hf. reflexivity. }
  rewrite Hfirst. cbn [bind].
  rewrite <- app_assoc in Hr.
  pose proof (remaining_step s _ _ Hr) as Hr1.
  destruct globalAttributes.
  - unfold writeAttributeTable in *. rewrite Wa in *. rewrite <- !app_assoc in Hr1.
    rewrite (readInt_ok (advance s (length namesPart)) (zlength attrs) _
               ltac:(unfold count_ok, zlength in *; lia) eq_refl Hr1).
    cbn [bind]. destruct (Z.ltb_spec (zlength attrs) 0); [unfold zlength in *; lia|].
    unfold zlength at 1. rewrite Nat2Z.id.
    rewrite (read_attribute_table_written attrs
               (advance (advance s (length namesPart))
                  (length (writeInt (zlength attrs))))
               _ Hattrs eq_refl (remaining_step _ _ _ Hr1)).
    cbn [bind]. rewrite !advance_advance, !length_app. f_equal.
  - cbn [bind]. rewrite app_nil_r. reflexivity.
Qed.

(** X17. The shared tables are read back as they were written: when
    the stream holds the table of names and the table of attributes that
    [writeBinaryTrees] writes for its two flags, [read_global_tables]
    returns these names and these attributes and stops right after them,
    provided each table has fewer than 2^31 entries and every name is
    shorter than 2^31 and has no byte 254 or 255. *)
Theorem shared_tables_roundtrip (globalNames globalAttributes : bool)
    (names : list string) (attrs : list Attribute) (s : fstream) (r : list Z) :
  Forall writable names ->
  Forall (fun a => writable (AttributeName a)) attrs ->
  zlength names < 2147483648 ->
  zlength attrs < 2147483648 ->
  sfail s = false ->
  remaining s = shared_tables globalNames globalAttributes names attrs ++ r ->
  read_global_tables s globalNames globalAttributes
  = Ok (if globalNames then names else [],
        if globalAttributes then attrs else [],
        advance s (length (shared_tables globalNames globalAttributes names attrs))).
Proof. exact (read_global_tables_written globalNames globalAttributes names attrs s r). Qed.

(** * The tables of a written file *)

Lemma map_insert_length {K V : Type} (less : K -> K -> bool) (m : list (K * V))
    (k : K) (v : V) :
  length (fst (map_insert less m k v))
  = (length m + (if snd (map_insert less m k v) then 1 else 0))%nat.
Proof.
  induction m as [|[k' v'] r IH]; cbn [map_insert].
  - reflexivity.
  - destruct (less k k'); [cbn; lia|].
    destruct (less k' k); [|cbn; lia].
    destruct (map_insert less r k v) as [r' b]. cbn [fst snd length] in *. lia.
Qed.

Lemma scan_names_lengths (l : list string) :
  forall count tbl rev count' tbl' rev',
    scan_names l count tbl rev = (count', tbl', rev') ->
    length tbl = length rev -> length tbl' = length rev'.
Proof.
  induction l as [|n r IH]; intros count tbl rev count' tbl' rev' H Hl;
    cbn [scan_names] in H.
  - injection H as _ <- <-. exact Hl.
  - destruct (0 <? strlen n).
    + pose proof (map_insert_length string_less tbl n (zlength tbl)) as Hi.
      destruct (map_insert string_less tbl n (zlength tbl)) as [tbl1 inserted].
      cbn [fst snd] in Hi. apply (IH _ _ _ _ _ _ H).
      destruct inserted; [rewrite length_app; cbn [length]|]; lia.
    + exact (IH _ _ _ _ _ _ H Hl).
Qed.

Lemma scan_attributes_lengths (attrs : list Attribute) :
  forall j nameIndex tbl rev nameIndex' tbl' rev',
    scan_attributes attrs j nameIndex tbl rev = (nameIndex', tbl', rev') ->
    length tbl = length rev -> length tbl' = length rev'.
Proof.
  induction attrs as [|a r IH]; intros j nameIndex tbl rev nameIndex' tbl' rev' H Hl;
    cbn [scan_attributes] in H.
  - injection H as _ <- <-. exact Hl.
  - pose proof (map_insert_length AttributeLess tbl a (zlength tbl)) as Hi.
    destruct (map_insert AttributeLess tbl a (zlength tbl)) as [tbl1 inserted].
    cbn [fst snd] in Hi. apply (IH _ _ _ _ _ _ _ H).
    destruct inserted; [rewrite length_app; cbn [length]|]; lia.
Qed.

Lemma scan_tree_in_step (t : phylo) (st st' : scan_state) :
  scan_tree t st = Ok st' -> tables_in_step st -> tables_in_step st'.
Proof.
  intros H [Hn Ha]. unfold scan_tree in H.
  destruct (scan_attributes (attributes t) 0 (-1) (allAttributesLookup st)
              (allAttributesLookupReverse st)) as [[nameIndex atbl] arev] eqn:Ea.
  destruct (vget (nodeAttributes t) nameIndex) as [nv| |]; try discriminate.
  cbn [bind] in H.
  destruct (get_strings nv) as [nodeNames| |]; try discriminate.
  cbn [bind] in H.
  destruct (vget (tipAttributes t) nameIndex) as [tv| |]; try discriminate.
  cbn [bind] in H.
  destruct (get_strings tv) as [tipNames| |]; try discriminate.
  cbn [bind] in H.
  destruct (scan_names nodeNames 0 (allNamesLookup st) (allNamesLookupReverse st))
    as [[count1 ntbl1] nrev1] eqn:E1.
  destruct (scan_names tipNames count1 ntbl1 nrev1) as [[count ntbl] nrev] eqn:E2.
  apply Ok_inj in H. subst st'. split; cbn.
  - exact (scan_names_lengths _ _ _ _ _ _ _ E2 (scan_names_lengths _ _ _ _ _ _ _ E1 Hn)).
  - exact (scan_attributes_lengths _ _ _ _ _ _ _ _ Ea Ha).
Qed.

Lemma scan_trees_in_step (ts : list phylo) :
  forall st st', scan_trees ts st = Ok st' -> tables_in_step st -> tables_in_step st'.
Proof.
  induction ts as [|t r IH]; intros st st' H Hs; cbn [scan_trees] in H.
  - apply Ok_inj in H. subst st'. exact Hs.
  - destruct (scan_tree t st) as [st1| |] eqn:E1; try discriminate.
    cbn [bind] in H. pose proof (scan_tree_in_step _ _ _ E1 Hs) as Hs1.
    destruct (includeNamesPerTree st1 && includeAttributesPerTree st1).
    + apply Ok_inj in H. subst st'. exact Hs1.
    + exact (IH _ _ H Hs1).
Qed.

Lemma flat_map_length_ge {A B : Type} (f : A -> list B) (l : list A) :
  (forall x, (1 <= length (f x))%nat) -> (length l <= length (flat_map f l))%nat.
Proof.
  intros H. induction l as [|x r IH]; cbn [flat_map length]; [lia|].
  rewrite length_app. specialize (H x). lia.
Qed.

Lemma writeMyString_length (str : string) : (1 <= length (writeMyString str))%nat.
Proof.
  unfold writeMyString. rewrite length_app.
  pose proof (writeInt_length (wrap32 (strlen str))). lia.
Qed.

Lemma shared_tables_counts (globalNames globalAttributes : bool)
    (names : list string) (attrs : list Attribute) :
  (length (if globalNames then names else [])
   <= length (shared_tables globalNames globalAttributes names attrs))%nat
  /\ (length (if globalAttributes then attrs else [])
      <= length (shared_tables globalNames globalAttributes names attrs))%nat.
Proof.
  unfold shared_tables, writeAttributeTable. rewrite !length_app.
  split.
  - destruct globalNames; cbn [length]; [|lia].
    rewrite length_app.
    pose proof (flat_map_length_ge writeMyString names writeMyString_length). lia.
  - destruct globalAttributes; cbn [length]; [|lia].
    rewrite length_app.
    pose proof (flat_map_length_ge
                  (fun a => writeMyString (AttributeName a)
                            ++ writeInt (if IsNumeric a then 2 else 1)) attrs) as H.
    assert (forall a : Attribute,
              (1 <= length (writeMyString (AttributeName a)
                            ++ writeInt (if IsNumeric a then 2 else 1)))%nat) as Hone.
    { intros a. rewrite length_app. pose proof (writeMyString_length (AttributeName a)).
      lia. }
    specialize (H Hone). lia.
Qed.

Lemma shared_tables_unused (globalNames globalAttributes : bool)
    (names : list string) (attrs : list Attribute) :
  shared_tables globalNames globalAttributes names attrs
  = shared_tables globalNames globalAttributes
      (if globalNames then names else []) (if globalAttributes then attrs else []).
Proof. destruct globalNames, globalAttributes; reflexivity. Qed.

(** X18. A file written by [writeBinaryTrees] is read with the tables
    it was written with: when the file is shorter than 2^31 bytes and no
    shared name has a byte 254 or 255, [readBinaryTrees] decodes one tree
    at the first byte of each record, and decodes it with the names and
    the attributes that the writer's scan collected (with none where the
    scan decided that every tree carries its own). *)
Theorem written_tables_are_read (to_string_double : double -> string)
    (mp : multiPhylo) (extra bytes : list Z) (st : scan_state) :
  writeBinaryTrees mp extra = Ok bytes ->
  scan_trees (trees mp) scan0 = Ok st ->
  Forall writable (allNamesLookupReverse st) ->
  Forall (fun a => writable (AttributeName a)) (allAttributesLookupReverse st) ->
  zlength bytes < 2147483648 ->
  let globalNames := negb (includeNamesPerTree st) in
  let globalAttributes := negb (includeAttributesPerTree st) in
  let tables :=
    shared_tables globalNames globalAttributes (allNamesLookupReverse st)
      (allAttributesLookupReverse st) in
  exists records : list (list Z),
    Forall2 (fun t record =>
               writeBinaryTree t globalNames globalAttributes (allNamesLookup st)
                 (allAttributesLookup st) (allAttributesLookupReverse st) = Ok record)
      (trees mp) records
    /\ readBinaryTrees to_string_double (open_stream bytes)
       = ('(parsedTrees, names) <-
            read_at_addresses to_string_double
              (offsets_from (5 + zlength tables) records) 0
              (mkStream bytes (5 + length tables) false) globalNames
              (if globalNames then allNamesLookupReverse st else [])
              (if globalAttributes then allAttributesLookupReverse st else []) ;;
          Ok (mkMultiPhylo parsedTrees names, [])).
Proof.
  intros Hwrite Hscan Hnames Hattrs Hsize globalNames globalAttributes tables.
  assert (Hstep : tables_in_step st).
  { apply (scan_trees_in_step _ _ _ Hscan). split; reflexivity. }
  destruct Hstep as [Hstep _].
  unfold writeBinaryTrees in Hwrite. rewrite Hscan in Hwrite. cbn [bind] in Hwrite.
  set (hb := header_byte (includeNamesPerTree st) (includeAttributesPerTree st)) in *.
  assert (Htables :
    (if negb (includeNamesPerTree st) then
       writeInt (wrap32 (zlength (allNamesLookup st)))
       ++ flat_map writeMyString (allNamesLookupReverse st)
     else [])
    ++ (if negb (includeAttributesPerTree st) then
          writeAttributeTable (allAttributesLookupReverse st)
        else []) = tables).
  { unfold tables, shared_tables, globalNames, globalAttributes, zlength.
    rewrite Hstep. reflexivity. }
  rewrite Htables in Hwrite.
  assert (Hhb : writeByte hb = [hb]).
  { unfold writeByte, hb. destruct (includeNamesPerTree st), (includeAttributesPerTree st);
      reflexivity. }
  rewrite Hhb in Hwrite.
  match type of Hwrite with
  | context [write_tree_records (trees mp) ?p st] =>
      destruct (write_tree_records (trees mp) p st) as [[recs addrs]| |] eqn:Hrecs;
        try discriminate
  end.
  cbn [bind] in Hwrite. apply Ok_inj in Hwrite.
  destruct (write_tree_records_offsets _ _ _ _ _ Hrecs) as (each & HF & -> & ->).
  assert (Hhead : zlength (header_magic ++ [hb] ++ tables) = 5 + zlength tables).
  { unfold zlength, header_magic. rewrite !length_app. cbn [length]. lia. }
  rewrite Hhead in *.
  set (offs := offsets_from (5 + zlength tables) each) in *.
  set (pre := (header_magic ++ [hb] ++ tables) ++ concat each ++ extra).
  assert (Hpre : 5 + zlength tables + zlength (concat each) + zlength extra = zlength pre).
  { unfold pre, zlength, header_magic. rewrite !length_app. cbn [length]. lia. }
  rewrite Hpre in Hwrite.
  assert (Hlen : 8 * zlength offs + zlength pre <= zlength bytes).
  { rewrite <- Hwrite. unfold zlength. rewrite <- !app_assoc, !length_app.
    fold pre.
    assert (L : length (flat_map writeInt64 offs) = (8 * length offs)%nat).
    { clear. induction offs as [|a r IH]; [reflexivity|].
      cbn [flat_map]. rewrite length_app, IH. cbn [length writeInt64]. 
      change (length (writeInt64 a)) with 8%nat. lia. }
    unfold pre at 1. rewrite <- !app_assoc, !length_app.
    unfold pre. rewrite !length_app. lia. }
  assert (Hw : wrap32 (zlength offs) = zlength offs).
  { apply wrap32_small. unfold zlength in *. lia. }
  rewrite Hw in Hwrite.
  assert (Hbytes : bytes
                   = pre ++ writeInt (zlength offs) ++ flat_map writeInt64 offs
                     ++ writeInt64 (zlength pre) ++ trailer_magic).
  { rewrite <- Hwrite. unfold pre. rewrite <- !app_assoc. reflexivity. }
  exists each. split; [exact HF|].
  assert (Hflags : negb (Z.land hb 0x01 =? 0) = globalNames
                   /\ negb (Z.land hb 0x02 =? 0) = globalAttributes).
  { unfold hb, globalNames, globalAttributes.
    destruct (includeNamesPerTree st), (includeAttributesPerTree st); split; reflexivity. }
  destruct Hflags as [Hf1 Hf2].
  assert (Hread : readBinaryTrees to_string_double (open_stream bytes)
                  = ('(allNames, allAttributes, s7) <-
                       read_global_tables (mkStream bytes 5 false) globalNames
                         globalAttributes ;;
                     '(parsedTrees, names) <-
                       read_at_addresses to_string_double offs 0 s7 globalNames
                         allNames allAttributes ;;
                     Ok (mkMultiPhylo parsedTrees names, []))).
  { rewrite <- Hf1, <- Hf2, Hbytes.
    apply (directory_is_read to_string_double pre (tables ++ concat each ++ extra) hb).
    - unfold pre. rewrite <- !app_assoc. reflexivity.
    - unfold hb. destruct (includeNamesPerTree st), (includeAttributesPerTree st);
        reflexivity.
    - pose proof (offsets_from_range each (5 + zlength tables)) as HR.
      fold offs in HR. revert HR. apply Forall_impl. intros a Ha.
      assert (0 <= zlength tables) by (unfold zlength; lia).
      assert (0 <= zlength extra) by (unfold zlength; lia).
      assert (0 <= zlength offs) by (unfold zlength; lia).
      lia.
    - change (zlength offs < 2147483648). unfold zlength in *. lia.
    - unfold zlength in *. lia. }
  rewrite Hread.
  destruct (shared_tables_counts globalNames globalAttributes
              (allNamesLookupReverse st) (allAttributesLookupReverse st)) as [Cn Ca].
  fold tables in Cn, Ca.
  assert (Htl : zlength tables <= zlength pre).
  { unfold pre, zlength. rewrite !length_app. lia. }
  rewrite (read_global_tables_written globalNames globalAttributes
             (if globalNames then allNamesLookupReverse st else [])
             (if globalAttributes then allAttributesLookupReverse st else [])
             (mkStream bytes 5 false)
             (concat each ++ extra ++ writeInt (zlength offs) ++ flat_map writeInt64 offs
              ++ writeInt64 (zlength pre) ++ trailer_magic)).
  - cbn [bind]. rewrite <- shared_tables_unused. fold tables.
    unfold advance. cbn [sdata spos].
    destruct globalNames, globalAttributes; reflexivity.
  - destruct globalNames; [exact Hnames|constructor].
  - destruct globalAttributes; [exact Hattrs|constructor].
  - unfold zlength in *. lia.
  - unfold zlength in *. lia.
  - reflexivity.
  - rewrite <- shared_tables_unused. fold tables.
    rewrite Hbytes. unfold pre, remaining, header_magic. cbn [sdata spos].
    rewrite <- !app_assoc. reflexivity.
Qed.

(** * The trailer check *)

(** X19. The trailer check looks at the end of the file only: on a
    stream in a good state over a file of at least four bytes it leaves
    the read position where it was and answers yes exactly when the last
    four bytes are 45 4E 44 FF; on a shorter file it answers no and
    leaves the stream in a failed state. *)
Theorem hasValidTrailer_checks_the_end (s : fstream) :
  sfail s = false ->
  ((4 <= length (sdata s))%nat ->
   snd (hasValidTrailer s) = s
   /\ (fst (hasValidTrailer s) = true
       <-> skipn (length (sdata s) - 4) (sdata s) = trailer_magic))
  /\ ((length (sdata s) < 4)%nat ->
      hasValidTrailer s = (false, mkStream (sdata s) (spos s) true)).
Proof.
  destruct s as [bytes pos failed]. cbn [sfail sdata spos]. intros ->. split.
  - intros Hlen.
    unfold hasValidTrailer, tellg, seekg_end, seekg, readBytes, stream_read.
    cbn [sfail sdata spos].
    replace (Z.of_nat (length bytes) + -4 <? 0) with false
      by (symmetry; apply Z.ltb_ge; lia).
    cbn [sfail sdata spos].
    replace (Z.to_nat (Z.of_nat (length bytes) + -4)) with (length bytes - 4)%nat by lia.
    set (tail := skipn (length bytes - 4) bytes) in *.
    assert (Ht : length tail = 4%nat) by (unfold tail; rewrite length_skipn; lia).
    destruct tail as [|t0 [|t1 [|t2 [|t3 [|t4 tail]]]]]; try discriminate.
    cbn [firstn length Nat.eqb negb Nat.sub repeat app sfail sdata spos fst snd].
    replace (Z.of_nat pos <? 0) with false by (symmetry; apply Z.ltb_ge; lia).
    rewrite Nat2Z.id. split; [reflexivity|].
    unfold trailer_magic. rewrite !andb_true_iff, !Z.eqb_eq. split.
    + intros [[[-> ->] ->] ->]. reflexivity.
    + intros H. injection H as -> -> -> ->. repeat split.
  - intros Hlen.
    unfold hasValidTrailer, tellg, seekg_end, seekg, readBytes, stream_read.
    cbn [sfail sdata spos].
    replace (Z.of_nat (length bytes) + -4 <? 0) with true
      by (symmetry; apply Z.ltb_lt; lia).
    cbn [sfail sdata spos length app repeat Nat.sub]. reflexivity.
Qed.

(** * The two tokenizers *)

Lemma get_string_chars (s : string) :
  forall n, String.get n s = nth_error (string_chars s) n.
Proof.
  induction s as [|c r IH]; intros [|n]; cbn; try reflexivity. apply IH.
Qed.

Lemma skipn_nth_error {A : Type} (l : list A) :
  forall n x, nth_error l n = Some x -> skipn n l = x :: skipn (S n) l.
Proof.
  induction l as [|y r IH]; intros [|n] x H; try discriminate.
  - injection H as <-. reflexivity.
  - cbn [nth_error] in H. cbn [skipn]. exact (IH n x H).
Qed.

Lemma skipn_nth_error_none {A : Type} (l : list A) (n : nat) :
  nth_error l n = None -> skipn n l = [].
Proof. intros H. apply skipn_all2. apply nth_error_None. exact H. Qed.

(** The loop that skips white space is the same in both tokenizers. *)
Lemma skip_spaces_blank (source : string) (fuel : nat) :
  forall pos c,
    (String.length source - pos <= fuel)%nat ->
    match skip_blank (c :: skipn pos (string_chars source)) with
    | None => skip_spaces fuel source pos c = None
    | Some (c', r') =>
        exists pos', skip_spaces fuel source pos c = Some (c', pos')
                     /\ r' = skipn pos' (string_chars source)
    end.
Proof.
  induction fuel as [|fuel IH]; intros pos c Hfuel; cbn [skip_blank skip_spaces].
  - rewrite skipn_all2 by (rewrite length_string_chars; lia).
    destruct (isspace c); cbn [skip_blank]; [reflexivity|].
    exists pos. split; [reflexivity|].
    symmetry. apply skipn_all2. rewrite length_string_chars. lia.
  - destruct (isspace c).
    + rewrite get_string_chars.
      destruct (nth_error (string_chars source) pos) as [c'|] eqn:E.
      * rewrite (skipn_nth_error _ _ _ E). apply IH. lia.
      * rewrite (skipn_nth_error_none _ _ E). reflexivity.
    + exists pos. split; reflexivity.
Qed.

(** X20. The tokenizer over a file and the tokenizer over a string
    agree as long as a character is left: from the same position and with
    the same flags they return the same character, the same flags and the
    same end-of-input flag, and they stop at the same place. *)
Theorem tokenizers_agree (source : string) (t : token_state) :
  (srPosition t < String.length source)%nat ->
  nextTokenF (stream_at source t) (flags_of t)
  = Ok (fst (nextToken source t),
        flags_of (snd (nextToken source t)),
        eof (snd (nextToken source t)),
        mkText (skipn (srPosition (snd (nextToken source t))) (string_chars source))
          (eof (snd (nextToken source t)))).
Proof.
  intros Hpos. unfold nextToken, nextTokenF, stream_at, flags_of.
  cbn [teof tchars f_escaping f_escaped f_openQuotes f_openApostrophe].
  rewrite get_string_chars.
  destruct (nth_error (string_chars source) (srPosition t)) as [c|] eqn:E;
    [|apply nth_error_None in E; rewrite length_string_chars in E; lia].
  rewrite (skipn_nth_error _ _ _ E).
  destruct (escaping t); cbn [negb]; [reflexivity|].
  destruct (openQuotes t); cbn [negb andb].
  - destruct (is_char c dquote); [reflexivity|].
    destruct (is_char c "\"); reflexivity.
  - destruct (openApostrophe t); cbn [negb].
    + destruct (is_char c "'"); [reflexivity|].
      destruct (is_char c "\"); reflexivity.
    + pose proof (skip_spaces_blank source (String.length source) (S (srPosition t)) c
                    ltac:(lia)) as Hs.
      destruct (skip_blank (c :: skipn (S (srPosition t)) (string_chars source)))
        as [[c' r']|].
      * destruct Hs as (pos' & -> & ->).
        destruct (is_char c' "\"); [reflexivity|].
        destruct (is_char c' dquote); [reflexivity|].
        destruct (is_char c' "'"); reflexivity.
      * rewrite Hs. cbn [fst snd srPosition eof escaping escaped openQuotes openApostrophe].
        rewrite skipn_all2 by (rewrite length_string_chars; lia). reflexivity.
Qed.

(** * The columns built from the parsed arrays *)

Lemma list_set_Forall2 {A B : Type} (R : A -> B -> Prop) (l1 : list A) :
  forall (l2 l2' : list B) (i : nat) (y' : B),
    Forall2 R l1 l2 ->
    list_set l2 i y' = Some l2' ->
    (forall x y, nth_error l1 i = Some x -> nth_error l2 i = Some y -> R x y -> R x y') ->
    Forall2 R l1 l2'.
Proof.
  induction l1 as [|x r IH]; intros l2 l2' i y' HF Hset Hy.
  - inversion HF; subst. destruct i; discriminate Hset.
  - inversion HF as [|? y ? r2 Hxy Hr]; subst.
    destruct i as [|i]; cbn [list_set] in Hset.
    + injection Hset as <-. constructor; [|exact Hr].
      exact (Hy x y eq_refl eq_refl Hxy).
    + destruct (list_set r2 i y') as [r2'|] eqn:E; [|discriminate].
      cbn in Hset. injection Hset as <-. constructor; [exact Hxy|].
      apply (IH r2 r2' i y' Hr E). intros x0 y0 H1 H2. exact (Hy x0 y0 H1 H2).
Qed.

Lemma set_in_column_match (n : nat) (attrs : list Attribute) (cols cols' : list attrvec)
    (attrIndex slot : Z) (v : attrval) :
  Forall2 (column_of n) attrs cols ->
  set_in_column cols attrIndex slot v = Ok cols' ->
  Forall2 (column_of n) attrs cols'.
Proof.
  intros HF H. unfold set_in_column in H.
  destruct (vget cols attrIndex) as [col| |] eqn:Hget; try discriminate.
  cbn [bind] in H. apply vget_Ok in Hget. destruct Hget as [Hi Hget].
  assert (Hgen : forall col',
             (forall a, column_of n a col -> column_of n a col') ->
             vset cols attrIndex col' = Ok cols' ->
             Forall2 (column_of n) attrs cols').
  { intros col' Himp Hset. unfold vset in Hset.
    destruct (attrIndex <? 0); [discriminate|].
    destruct (list_set cols (Z.to_nat attrIndex) col') as [l|] eqn:E; [|discriminate].
    apply Ok_inj in Hset. subst l.
    apply (list_set_Forall2 _ _ _ _ _ _ HF E).
    intros x y _ Hy Hxy. rewrite Hget in Hy. injection Hy as <-. exact (Himp x Hxy). }
  destruct v as [s|d].
  - destruct (get_strings col) as [l| |] eqn:Hl; try discriminate. cbn [bind] in H.
    destruct (vset l slot s) as [l'| |] eqn:Hs; try discriminate. cbn [bind] in H.
    apply (Hgen (StringVec l')); [|exact H].
    destruct col as [l0|l0]; [|discriminate]. injection Hl as ->.
    intros a [Ha Hn]. split; [exact Ha|]. rewrite (vset_length _ _ _ _ Hs). exact Hn.
  - destruct (get_doubles col) as [l| |] eqn:Hl; try discriminate. cbn [bind] in H.
    destruct (vset l slot d) as [l'| |] eqn:Hs; try discriminate. cbn [bind] in H.
    apply (Hgen (DoubleVec l')); [|exact H].
    destruct col as [l0|l0]; [discriminate|]. injection Hl as ->.
    intros a [Ha Hn]. split; [exact Ha|]. rewrite (vset_length _ _ _ _ Hs). exact Hn.
Qed.

Section Columns.

Variables tipCount nodeCount : Z.

Lemma attribute_slot_match (cols cols' : columns) (attr : Attribute) (attrIndex : Z) :
  columns_match (Z.to_nat tipCount) (Z.to_nat nodeCount) cols ->
  attribute_slot cols attr tipCount nodeCount = Ok (attrIndex, cols') ->
  columns_match (Z.to_nat tipCount) (Z.to_nat nodeCount) cols'.
Proof.
  intros [Ht Hn] H. unfold attribute_slot in H.
  destruct (attributeIndex (c_attributes cols) attr <? 0).
  - assert (Hnew : forall count : Z,
               forall col,
                 (if IsNumeric attr
                  then l <- vector_of count nan ;; Ok (DoubleVec l)
                  else l <- vector_of count EmptyString ;; Ok (StringVec l)) = Ok col ->
                 column_of (Z.to_nat count) attr col).
    { intros count col Hc. destruct (IsNumeric attr) eqn:Ek.
      - destruct (vector_of count nan) as [l| |] eqn:El; try discriminate.
        cbn [bind] in Hc. apply Ok_inj in Hc. subst col.
        split; [exact Ek|exact (vector_of_length _ _ _ El)].
      - destruct (vector_of count EmptyString) as [l| |] eqn:El; try discriminate.
        cbn [bind] in Hc. apply Ok_inj in Hc. subst col.
        split; [exact Ek|exact (vector_of_length _ _ _ El)]. }
    match type of H with
    | bind ?x _ = _ => destruct x as [tipsCol| |] eqn:E1; try discriminate
    end.
    cbn [bind] in H.
    match type of H with
    | bind ?x _ = _ => destruct x as [nodesCol| |] eqn:E2; try discriminate
    end.
    cbn [bind] in H. apply Ok_inj in H. injection H as _ <-.
    split; cbn [c_attributes c_tips c_nodes]; apply Forall2_app; try assumption;
      constructor; try constructor; apply Hnew; assumption.
  - apply Ok_inj in H. injection H as _ <-. split; assumption.
Qed.

Lemma store_node_attributes_match (m : attribute_map) :
  forall cols cols' slot,
    columns_match (Z.to_nat tipCount) (Z.to_nat nodeCount) cols ->
    store_node_attributes m cols slot tipCount nodeCount = Ok cols' ->
    columns_match (Z.to_nat tipCount) (Z.to_nat nodeCount) cols'.
Proof.
  induction m as [|[name v] r IH]; intros cols cols' slot Hm H;
    cbn [store_node_attributes] in H.
  - apply Ok_inj in H. subst cols'. exact Hm.
  - match type of H with
    | bind ?x _ = _ => destruct x as [[attrIndex cols1]| |] eqn:E1; try discriminate
    end.
    cbn [bind] in H.
    destruct (attribute_slot_match _ _ _ _ Hm E1) as [Ht Hn].
    match type of H with
    | bind ?x _ = _ => destruct x as [nodes| |] eqn:E2; try discriminate
    end.
    cbn [bind] in H.
    refine (IH (mkColumns (c_attributes cols1) (c_tips cols1) nodes) _ _ _ H).
    split; cbn [c_attributes c_tips c_nodes];
      [exact Ht|exact (set_in_column_match _ _ _ _ _ _ _ Hn E2)].
Qed.

Lemma store_tip_attributes_match (m : attribute_map) :
  forall cols cols' labels labels' slot,
    columns_match (Z.to_nat tipCount) (Z.to_nat nodeCount) cols ->
    store_tip_attributes m cols labels slot tipCount nodeCount = Ok (cols', labels') ->
    columns_match (Z.to_nat tipCount) (Z.to_nat nodeCount) cols'
    /\ length labels' = length labels.
Proof.
  induction m as [|[name v] r IH]; intros cols cols' labels labels' slot Hm H;
    cbn [store_tip_attributes] in H.
  - apply Ok_inj in H. injection H as <- <-. split; [exact Hm|reflexivity].
  - match type of H with
    | bind ?x _ = _ => destruct x as [labels1| |] eqn:E0; try discriminate
    end.
    cbn [bind] in H.
    assert (Hl : length labels1 = length labels).
    { destruct v as [s|d].
      - destruct (equalCI name NAMEATTRIBUTE).
        + exact (vset_length _ _ _ _ E0).
        + apply Ok_inj in E0. subst labels1. reflexivity.
      - apply Ok_inj in E0. subst labels1. reflexivity. }
    match type of H with
    | bind ?x _ = _ => destruct x as [[attrIndex cols1]| |] eqn:E1; try discriminate
    end.
    cbn [bind] in H.
    destruct (attribute_slot_match _ _ _ _ Hm E1) as [Ht Hn].
    match type of H with
    | bind ?x _ = _ => destruct x as [tips| |] eqn:E2; try discriminate
    end.
    cbn [bind] in H.
    destruct (IH (mkColumns (c_attributes cols1) tips (c_nodes cols1)) _ _ _ _
                (conj (set_in_column_match _ _ _ _ _ _ _ Ht E2) Hn) H)
      as [Hm' Hl'].
    split; [exact Hm'|congruence].
Qed.

Lemma convert_node_match (i parent : Z) (row : list Z) (m : attribute_map)
    (cv cv' : convert_state) :
  convert_node i parent row m tipCount nodeCount cv = Ok cv' ->
  columns_match (Z.to_nat tipCount) (Z.to_nat nodeCount) (cv_columns cv) ->
  columns_match (Z.to_nat tipCount) (Z.to_nat nodeCount) (cv_columns cv')
  /\ length (cv_tipLabel cv') = length (cv_tipLabel cv).
Proof.
  intros H Hm. unfold convert_node in H.
  match type of H with
  | bind ?x _ = _ => destruct x as [corresp| |]; try discriminate
  end.
  cbn [bind] in H.
  match type of H with
  | bind ?x _ = _ => destruct x as [[[edges lengths] hasLength]| |]; try discriminate
  end.
  cbn [bind] in H.
  destruct (0 <? zlength row).
  - match type of H with
    | bind ?x _ = _ => destruct x as [cols| |] eqn:E; try discriminate
    end.
    cbn [bind] in H. apply Ok_inj in H. subst cv'. cbn [cv_columns cv_tipLabel].
    split; [exact (store_node_attributes_match _ _ _ _ Hm E)|reflexivity].
  - match type of H with
    | bind ?x _ = _ => destruct x as [[cols labels]| |] eqn:E; try discriminate
    end.
    cbn [bind] in H. apply Ok_inj in H. subst cv'. cbn [cv_columns cv_tipLabel].
    exact (store_tip_attributes_match _ _ _ _ _ _ Hm E).
Qed.

Lemma convert_nodes_match (parents : list Z) (children : list (list Z))
    (maps : list attribute_map) :
  forall i cv cv',
    convert_nodes i parents children maps tipCount nodeCount cv = Ok cv' ->
    columns_match (Z.to_nat tipCount) (Z.to_nat nodeCount) (cv_columns cv) ->
    columns_match (Z.to_nat tipCount) (Z.to_nat nodeCount) (cv_columns cv')
    /\ length (cv_tipLabel cv') = length (cv_tipLabel cv).
Proof.
  induction parents as [|parent rest IH]; intros i cv cv' H Hm;
    cbn [convert_nodes] in H.
  - apply Ok_inj in H. subst cv'. split; [exact Hm|reflexivity].
  - destruct (vget children i) as [row| |]; try discriminate. cbn [bind] in H.
    destruct (vget maps i) as [m| |]; try discriminate. cbn [bind] in H.
    destruct (convert_node i parent row m tipCount nodeCount cv) as [cv1| |] eqn:E;
      try discriminate.
    cbn [bind] in H.
    destruct (convert_node_match _ _ _ _ _ _ E Hm) as [Hm1 Hl1].
    destruct (IH _ _ _ H Hm1) as [Hm2 Hl2]. split; [exact Hm2|congruence].
Qed.

End Columns.

Lemma Forall2_In_right {A B : Type} (R : A -> B -> Prop) (l1 : list A) (l2 : list B)
    (y : B) :
  Forall2 R l1 l2 -> In y l2 -> exists x, In x l1 /\ R x y.
Proof.
  induction 1 as [|x y0 r1 r2 Hxy HF IH]; intros Hin; [destruct Hin|].
  destruct Hin as [<-|Hin].
  - exists x. split; [left; reflexivity|exact Hxy].
  - destruct (IH Hin) as (x' & Hx & Hr). exists x'. split; [right; exact Hx|exact Hr].
Qed.

Lemma column_of_size (n : nat) (a : Attribute) (col : attrvec) :
  column_of n a col -> attrvec_size col = n.
Proof. destruct col; intros [_ H]; exact H. Qed.

Section NodeLabels.

Variable to_string_double : double -> string.

Lemma derive_node_labels_length (n : nat) (attrs : list Attribute)
    (nodeAttrs : list attrvec) (nameIndex supportIndex : Z) (labels : list string) :
  Forall2 (column_of n) attrs nodeAttrs ->
  derive_node_labels to_string_double nodeAttrs nameIndex supportIndex = Ok (labels, true) ->
  length labels = n.
Proof.
  intros HF H. unfold derive_node_labels in H.
  assert (Hcol : forall i col, vget nodeAttrs i = Ok col -> attrvec_size col = n).
  { intros i col Hg. apply vget_In in Hg.
    destruct (Forall2_In_right _ _ _ _ HF Hg) as (a & _ & Ha).
    exact (column_of_size _ _ _ Ha). }
  match type of H with
  | bind ?x _ = _ => destruct x as [found| |]; try discriminate
  end.
  cbn [bind] in H. destruct found.
  - destruct (vget nodeAttrs nameIndex) as [v| |] eqn:Ev; try discriminate.
    cbn [bind] in H. destruct v as [l|l]; try discriminate. cbn [get_strings bind] in H.
    apply Ok_inj in H. injection H as <-. exact (Hcol _ _ Ev).
  - destruct (supportIndex >=? 0); [|discriminate].
    destruct (vget nodeAttrs supportIndex) as [v| |] eqn:Ev; try discriminate.
    cbn [bind] in H. destruct v as [l|l]; try discriminate. cbn [get_doubles bind] in H.
    destruct (existsb double_gt0 l); [|discriminate].
    apply Ok_inj in H. injection H as <-. rewrite length_map. exact (Hcol _ _ Ev).
Qed.

(** X21. Whatever arrays [convertToPhylo] is given, the tree it
    returns is rectangular: as many tip labels as the tip count, as many
    node labels as internal nodes, as many edge lengths as edges, and for
    every attribute one tip column and one node column of the kind of the
    attribute (numbers for a numeric attribute, text otherwise), with one
    entry per tip and one entry per internal node. *)
Theorem convertToPhylo_shape (parents : list Z) (children : list (list Z))
    (maps : list attribute_map) (tipCount : Z) (tree : phylo) :
  convertToPhylo to_string_double (parents, children, maps) tipCount = Ok tree ->
  Nnode tree = wrap32 (zlength parents - tipCount)
  /\ length (tipLabel tree) = Z.to_nat tipCount
  /\ length (nodeLabel tree) = Z.to_nat (Nnode tree)
  /\ length (edgeLength tree) = length (edge tree)
  /\ Forall2 (column_of (Z.to_nat tipCount)) (attributes tree) (tipAttributes tree)
  /\ Forall2 (column_of (Z.to_nat (Nnode tree))) (attributes tree) (nodeAttributes tree).
Proof.
  intros H. unfold convertToPhylo in H.
  destruct (vget maps 0) as [root| |]; try discriminate. cbn [bind] in H.
  destruct (vector_of (zlength parents - 1) 0) as [edgeLength0| |] eqn:E0; try discriminate.
  cbn [bind] in H.
  destruct (vector_of (zlength parents - 1) ([] : list Z)) as [edge0| |] eqn:E1;
    try discriminate.
  cbn [bind] in H.
  destruct (vector_of tipCount EmptyString) as [tipLabel0| |] eqn:E2; try discriminate.
  cbn [bind] in H.
  destruct (vector_of (wrap32 (zlength parents - tipCount)) EmptyString)
    as [nodeLabel0| |] eqn:E3; try discriminate.
  cbn [bind] in H.
  set (nodeCount := wrap32 (zlength parents - tipCount)) in *.
  match type of H with
  | context [convert_nodes 0 parents children maps tipCount nodeCount ?cv0] =>
      destruct (convert_nodes 0 parents children maps tipCount nodeCount cv0)
        as [cv| |] eqn:Hloop; try discriminate;
      pose proof (convert_nodes_match tipCount nodeCount parents children maps 0 cv0 cv
                    Hloop) as Hm;
      pose proof (convert_nodes_spec children maps tipCount nodeCount parents 0 cv0 cv
                    Hloop) as Hs
  end.
  cbn [bind] in H.
  destruct Hm as [[Ht Hn] Hl]; [split; constructor|].
  destruct Hs as (Hle & Hll & _); [repeat split; intros j Hj; lia|].
  cbn [cv_tipLabel cv_edge cv_edgeLength] in Hl, Hle, Hll.
  match type of H with
  | context [derive_node_labels ?f ?a ?b ?c] =>
      destruct (derive_node_labels f a b c) as [[labels hasLabel]| |] eqn:Ed;
        try discriminate
  end.
  cbn [bind] in H. apply Ok_inj in H. subst tree.
  cbn [Nnode tipLabel nodeLabel edgeLength edge attributes tipAttributes nodeAttributes].
  split; [reflexivity|].
  split; [rewrite Hl; exact (vector_of_length _ _ _ E2)|].
  split.
  - destruct hasLabel.
    + exact (derive_node_labels_length _ _ _ _ _ _ Hn Ed).
    + exact (vector_of_length _ _ _ E3).
  - split; [|split; assumption].
    rewrite Hle, Hll. etransitivity; [exact (vector_of_length _ _ _ E0)|].
    symmetry. exact (vector_of_length _ _ _ E1).
Qed.

End NodeLabels.

(** * The structure of a record *)

Lemma kids_app (parents : list Z) (b : Z) (k : nat) :
  kids (parents ++ [b]) k
  = kids parents k ++ (if b =? Z.of_nat k then [Z.of_nat (length parents)] else []).
Proof.
  unfold kids. rewrite length_app. cbn [length].
  replace (length parents + 1)%nat with (S (length parents)) by lia.
  rewrite seq_S, filter_app, map_app. cbn [Nat.add filter]. f_equal.
  - f_equal. apply filter_ext_in. intros m Hm. apply in_seq in Hm.
    rewrite nth_error_app1 by lia. reflexivity.
  - rewrite nth_error_app2, Nat.sub_diag by lia. cbn [nth_error].
    destruct (b =? Z.of_nat k); reflexivity.
Qed.

Lemma kids_newest (parents : list Z) (k : nat) :
  (forall m p, nth_error parents m = Some p -> p < Z.of_nat k) ->
  kids parents k = [].
Proof.
  intros H. unfold kids.
  replace (filter _ (seq 0 (length parents))) with (@nil nat); [reflexivity|].
  symmetry.
  induction (seq 0 (length parents)) as [|m r IH]; [reflexivity|].
  cbn [filter]. destruct (nth_error parents m) as [p|] eqn:E; [|exact IH].
  specialize (H _ _ E). destruct (Z.eqb_spec p (Z.of_nat k)); [lia|exact IH].
Qed.

Lemma firstn_list_set {A : Type} (row : list A) :
  forall a x row', list_set row a x = Some row' -> firstn (S a) row' = firstn a row ++ [x].
Proof.
  induction row as [|y r IH]; intros a x row' H; cbn [list_set] in H; [discriminate|].
  destruct a as [|a].
  - injection H as <-. reflexivity.
  - destruct (list_set r a x) as [r'|] eqn:E; [|discriminate].
    cbn in H. injection H as <-. cbn [firstn app]. f_equal. exact (IH _ _ _ E).
Qed.

Lemma anc_app (parents : list Z) (b : Z) (m k : nat) :
  anc parents m k -> anc (parents ++ [b]) m k.
Proof.
  induction 1 as [m p H|m p k H _ IH].
  - apply anc_parent. rewrite nth_error_app1; [exact H|].
    apply nth_error_Some. congruence.
  - apply (anc_step _ m p k); [|exact IH].
    rewrite nth_error_app1; [exact H|]. apply nth_error_Some. congruence.
Qed.

Lemma anc_inv (parents : list Z) (m k p : nat) :
  anc parents m k -> nth_error parents m = Some (Z.of_nat p) ->
  k = p \/ anc parents p k.
Proof.
  intros H Hp. inversion H as [m0 p0 H0|m0 p0 k0 H0 H1]; subst.
  - left. rewrite Hp in H0. injection H0 as H0. lia.
  - right. rewrite Hp in H0. injection H0 as H0.
    apply Nat2Z.inj in H0. subst p0. exact H1.
Qed.

Lemma anc_root (parents : list Z) (m k : nat) :
  anc parents m k -> nth_error parents m = Some (-1) -> False.
Proof.
  intros H Hp. inversion H as [m0 p0 H0|m0 p0 k0 H0 H1]; subst;
    rewrite Hp in H0; injection H0 as H0; lia.
Qed.

Section Climb.

Variables (parents : list Z) (children : list (list Z)) (addedChildren : list Z).

Hypothesis root_first : nth_error parents 0 = Some (-1).
Hypothesis parent_before :
  forall m p, (0 < m)%nat -> nth_error parents m = Some p -> 0 <= p < Z.of_nat m.

(** The climb stops at the first node with a free slot on the way to the
    root, or leaves the tree when there is none. *)
Lemma climb_spec (fuel : nat) :
  forall (c : nat) (a : Z),
    climb fuel parents children addedChildren (Z.of_nat c) = Ok a ->
    (a = -1
     /\ forall k, k = c \/ anc parents c k ->
          exists row ak, nth_error children k = Some row
                         /\ nth_error addedChildren k = Some ak /\ zlength row = ak)
    \/ (exists b,
          a = Z.of_nat b /\ (b = c \/ anc parents c b)
          /\ (exists row ab, nth_error children b = Some row
                             /\ nth_error addedChildren b = Some ab
                             /\ zlength row <> ab)
          /\ forall k, k = c \/ anc parents c k -> ~ (k = b \/ anc parents b k) ->
               exists row ak, nth_error children k = Some row
                              /\ nth_error addedChildren k = Some ak
                              /\ zlength row = ak).
Proof.
  induction fuel as [|fuel IH]; intros c a H; [discriminate|].
  cbn [climb] in H.
  replace (Z.of_nat c >=? 0) with true in H by (symmetry; apply Z.geb_le; lia).
  rewrite !vget_nat in H.
  destruct (nth_error children c) as [row|] eqn:Hrow; try discriminate.
  cbn [bind] in H.
  destruct (nth_error addedChildren c) as [ac|] eqn:Hac; try discriminate.
  cbn [bind] in H.
  destruct (Z.eqb_spec (zlength row) ac) as [Hfull|Hopen].
  - destruct (nth_error parents c) as [p|] eqn:Hp; try discriminate.
    cbn [bind] in H.
    destruct c as [|c'].
    + rewrite root_first in Hp. injection Hp as <-.
      destruct fuel as [|fuel']; [discriminate|].
      cbn [climb] in H. change (-1 >=? 0) with false in H. apply Ok_inj in H. subst a.
      left. split; [reflexivity|]. intros k [->|Hk].
      * exists row, ac. repeat split; assumption.
      * exfalso. exact (anc_root _ _ _ Hk root_first).
    + pose proof (parent_before (S c') p ltac:(lia) Hp) as Hb.
      assert (Ep : p = Z.of_nat (Z.to_nat p)) by lia.
      rewrite Ep in H, Hp. set (p' := Z.to_nat p) in *.
      destruct (IH p' a H) as [[Ha Hall]|(b & Ha & Hb' & Hnf & Hall)].
      * left. split; [exact Ha|]. intros k [->|Hk].
        -- exists row, ac. repeat split; assumption.
        -- apply Hall. exact (anc_inv _ _ _ _ Hk Hp).
      * right. exists b. split; [exact Ha|]. split.
        -- right. destruct Hb' as [->|Hb'];
             [apply anc_parent; exact Hp|exact (anc_step _ _ _ _ Hp Hb')].
        -- split; [exact Hnf|]. intros k [->|Hk] Hnot.
           ++ exists row, ac. repeat split; assumption.
           ++ apply Hall; [exact (anc_inv _ _ _ _ Hk Hp)|exact Hnot].
  - apply Ok_inj in H. subst a. right. exists c. split; [reflexivity|].
    split; [left; reflexivity|]. split.
    + exists row, ac. repeat split; assumption.
    + intros k Hk Hnot. contradiction.
Qed.

End Climb.

Lemma anc_lt (parents : list Z) (m k : nat) :
  (forall m p, nth_error parents m = Some p -> p < Z.of_nat m) ->
  anc parents m k -> (k < m)%nat.
Proof.
  intros Hb. induction 1 as [m p H|m p k H _ IH].
  - specialize (Hb _ _ H). lia.
  - specialize (Hb _ _ H). lia.
Qed.

Lemma list_set_empty_rows (rows : list (list Z)) :
  forall b r r' rows',
    nth_error rows b = Some r -> list_set rows b r' = Some rows' ->
    length r' = length r -> empty_rows rows' = empty_rows rows.
Proof.
  induction rows as [|x rest IH]; intros b r r' rows' Hget Hset Hlen;
    [destruct b; discriminate|].
  destruct b as [|b]; cbn [nth_error list_set] in *.
  - injection Hget as ->. injection Hset as <-. rewrite !empty_rows_cons.
    destruct r, r'; cbn [length] in Hlen; try discriminate; reflexivity.
  - destruct (list_set rest b r') as [rest'|] eqn:E; [|discriminate].
    cbn in Hset. injection Hset as <-. rewrite !empty_rows_cons.
    rewrite (IH _ _ _ _ Hget E Hlen). reflexivity.
Qed.

Lemma vset_Ok {A : Type} (l l' : list A) (i : Z) (x : A) :
  vset l i x = Ok l' -> 0 <= i /\ list_set l (Z.to_nat i) x = Some l'.
Proof.
  unfold vset. destruct (i <? 0) eqn:E; [discriminate|]. apply Z.ltb_ge in E.
  destruct (list_set l (Z.to_nat i) x) as [r|]; [|discriminate].
  intros H. apply Ok_inj in H. subst r. split; [exact E|reflexivity].
Qed.

Lemma read_structure_grows (fuel : nat) :
  forall st parents children addedChildren cur tipCount shape,
    read_structure fuel st parents children addedChildren cur tipCount = Ok shape ->
    (length parents <= length (st_parents shape))%nat.
Proof.
  induction fuel as [|fuel IH]; intros st parents children added cur tc shape H;
    [discriminate|].
  cbn [read_structure] in H.
  destruct (cur >=? 0).
  - destruct (readShortInt st) as [[currCount st1]| |]; try discriminate.
    cbn [bind] in H.
    destruct (vector_of currCount 0) as [row0| |]; try discriminate.
    cbn [bind] in H.
    match type of H with
    | bind ?x _ = _ => destruct x as [a| |]; try discriminate
    end.
    cbn [bind] in H.
    destruct (a >=? 0).
    + match type of H with
      | bind ?x _ = _ => destruct x as [rowb| |]; try discriminate
      end.
      cbn [bind] in H.
      match type of H with
      | bind ?x _ = _ => destruct x as [ab| |]; try discriminate
      end.
      cbn [bind] in H.
      match type of H with
      | bind ?x _ = _ => destruct x as [rowb'| |]; try discriminate
      end.
      cbn [bind] in H.
      match type of H with
      | bind ?x _ = _ => destruct x as [children2| |]; try discriminate
      end.
      cbn [bind] in H.
      match type of H with
      | bind ?x _ = _ => destruct x as [added2| |]; try discriminate
      end.
      cbn [bind] in H.
      specialize (IH _ _ _ _ _ _ _ H). rewrite length_app in IH. lia.
    + apply Ok_inj in H. subst shape. cbn. lia.
  - apply Ok_inj in H. subst shape. cbn. lia.
Qed.

(** ** One iteration of the loop *)

(** Whether [k] is [b] or is met on the way from [b] to the root can be
    decided by walking up from [b]. *)
Lemma anc_decide (parents : list Z) (b k : nat) :
  (forall m p, nth_error parents m = Some p -> p < Z.of_nat m) ->
  (k = b \/ anc parents b k) \/ ~ (k = b \/ anc parents b k).
Proof.
  intros Hbefore.
  destruct (Nat.eq_dec k b) as [->|Hneq]; [left; left; reflexivity|].
  destruct (Nat.lt_ge_cases k b) as [Hlt|Hge].
  - revert k Hneq Hlt. induction b as [b IHb] using lt_wf_ind. intros k Hneq Hlt.
    destruct (nth_error parents b) as [p|] eqn:Hp.
    + destruct (Z.ltb_spec p 0) as [Hneg|Hpos].
      * right. intros [->|Hanc]; [lia|].
        inversion Hanc as [m0 p0 H0|m0 p0 k0 H0 H1]; subst;
          rewrite Hp in H0; injection H0 as H0; lia.
      * pose proof (Hbefore _ _ Hp) as Hpb.
        assert (Ep : p = Z.of_nat (Z.to_nat p)) by lia.
        destruct (Nat.eq_dec k (Z.to_nat p)) as [->|Hnp].
        -- left. right. apply anc_parent. rewrite Hp, Ep, Nat2Z.id. reflexivity.
        -- destruct (Nat.lt_ge_cases k (Z.to_nat p)) as [Hkp|Hkp].
           ++ destruct (IHb (Z.to_nat p) ltac:(lia) k Hnp Hkp) as [[->|Hyes]|Hno].
              ** lia.
              ** left. right. apply (anc_step _ b (Z.to_nat p) k);
                   [rewrite Hp; f_equal; exact Ep|exact Hyes].
              ** right. intros [->|Hanc]; [lia|].
                 rewrite Ep in Hp.
                 destruct (anc_inv _ _ _ _ Hanc Hp) as [->|Hup]; [lia|].
                 apply Hno. right. exact Hup.
           ++ right. intros [->|Hanc]; [lia|].
              rewrite Ep in Hp.
              destruct (anc_inv _ _ _ _ Hanc Hp) as [->|Hup]; [lia|].
              pose proof (anc_lt _ _ _ Hbefore Hup). lia.
    + right. intros [->|Hanc]; [lia|].
      inversion Hanc as [m0 p0 H0|m0 p0 k0 H0 H1]; subst;
        rewrite Hp in H0; discriminate H0.
  - right. intros [->|Hanc]; [lia|].
    pose proof (anc_lt _ _ _ Hbefore Hanc). lia.
Qed.

Section Step.

Variables (parents : list Z) (children : list (list Z)) (added : list Z) (tc : Z).
Variables (currCount : Z) (row0 : list Z).

Hypothesis Hinv : structure_inv parents children added tc.
Hypothesis Hcount : 0 <= currCount.
Hypothesis Hrow0 : length row0 = Z.to_nat currCount.

Lemma step_length : length (children ++ [row0]) = length parents.
Proof.
  destruct Hinv as (_ & A2 & _). rewrite length_app. cbn [length]. lia.
Qed.

Lemma step_before : forall m p, nth_error parents m = Some p -> p < Z.of_nat m.
Proof.
  destruct Hinv as (_ & _ & A3 & A4 & _).
  intros [|m] p Hp; [rewrite A3 in Hp; injection Hp as <-; lia|].
  specialize (A4 (S m) p ltac:(lia) Hp). lia.
Qed.

(** Every node has its row now. *)
Lemma step_rows (k : nat) (row : list Z) (a : Z) :
  nth_error (children ++ [row0]) k = Some row -> nth_error added k = Some a ->
  0 <= a <= zlength row /\ firstn (Z.to_nat a) row = kids parents k.
Proof.
  pose proof step_length as Hlen1. pose proof step_before as Hbefore.
  destruct Hinv as (A1 & A2 & A3 & A4 & A5 & A6 & A7 & A8).
  intros Hrow Ha.
  destruct (Nat.lt_ge_cases k (length children)) as [Hlt|Hge].
  - rewrite nth_error_app1 in Hrow by exact Hlt. exact (A5 k row a Hrow Ha).
  - assert (k = (length parents - 1)%nat).
    { assert (k < length parents)%nat
        by (rewrite <- Hlen1; apply nth_error_Some; congruence). lia. }
    subst k. rewrite A6 in Ha. injection Ha as <-.
    split; [unfold zlength; lia|]. cbn [Z.to_nat firstn]. symmetry.
    apply kids_newest. intros m p Hp.
    assert (m < length parents)%nat by (apply nth_error_Some; congruence).
    specialize (Hbefore _ _ Hp). lia.
Qed.

Lemma step_open (k : nat) (row : list Z) (a : Z) :
  nth_error (children ++ [row0]) k = Some row -> nth_error added k = Some a ->
  a <> zlength row ->
  k = (length parents - 1)%nat \/ anc parents (length parents - 1) k.
Proof.
  pose proof step_length as Hlen1.
  destruct Hinv as (A1 & A2 & A3 & A4 & A5 & A6 & A7 & A8).
  intros Hrow Ha Hopen.
  destruct (Nat.lt_ge_cases k (length children)) as [Hlt|Hge].
  - rewrite nth_error_app1 in Hrow by exact Hlt. right. exact (A7 k row a Hrow Ha Hopen).
  - left. assert (k < length parents)%nat
      by (rewrite <- Hlen1; apply nth_error_Some; congruence). lia.
Qed.

Lemma step_tips :
  (if currCount =? 0 then tc + 1 else tc) = empty_rows (children ++ [row0]).
Proof.
  destruct Hinv as (A1 & A2 & A3 & A4 & A5 & A6 & A7 & A8).
  rewrite empty_rows_app, empty_rows_cons, <- A8.
  change (empty_rows []) with 0.
  destruct (Z.eqb_spec currCount 0) as [->|Hne].
  - destruct row0; [lia|cbn in Hrow0; lia].
  - destruct row0; [cbn in Hrow0; lia|lia].
Qed.

(** The loop ends with a complete tree when the climb finds no free
    slot. *)
Lemma step_done (st1 : sistate) :
  (forall k, k = (length parents - 1)%nat \/ anc parents (length parents - 1) k ->
     exists row ak, nth_error (children ++ [row0]) k = Some row
                    /\ nth_error added k = Some ak /\ zlength row = ak) ->
  structure_complete
    (mkStructure parents (children ++ [row0])
       (if currCount =? 0 then tc + 1 else tc) st1).
Proof.
  intros Hall. pose proof step_length as Hlen1.
  pose proof Hinv as (A1 & A2 & A3 & A4 & A5 & A6 & A7 & A8).
  unfold structure_complete. cbn [st_parents st_children st_tipCount].
  split; [exact Hlen1|]. split; [exact A3|]. split; [exact A4|].
  split; [|exact step_tips].
  intros k row Hrow.
  assert (Hk : (k < length parents)%nat)
    by (rewrite <- Hlen1; apply nth_error_Some; congruence).
  destruct (nth_error added k) as [ak|] eqn:Hak;
    [|apply nth_error_None in Hak; lia].
  destruct (step_rows k row ak Hrow Hak) as [Hr Hf].
  destruct (Z.eq_dec ak (zlength row)) as [Hfull|Hopen].
  - rewrite <- Hf, Hfull. unfold zlength. rewrite Nat2Z.id, firstn_all. reflexivity.
  - exfalso.
    destruct (Hall k (step_open k row ak Hrow Hak Hopen)) as (row' & ak' & R1 & R2 & R3).
    rewrite Hrow in R1. rewrite Hak in R2. congruence.
Qed.

(** The loop goes on with a new node under the node [b] at which the
    climb stopped. *)
Lemma step_next (b : nat) (rowb rowb' : list Z) (ab : Z)
    (children2 : list (list Z)) (added2 : list Z) :
  nth_error (children ++ [row0]) b = Some rowb ->
  nth_error added b = Some ab ->
  (forall k, k = (length parents - 1)%nat \/ anc parents (length parents - 1) k ->
     ~ (k = b \/ anc parents b k) ->
     exists row ak, nth_error (children ++ [row0]) k = Some row
                    /\ nth_error added k = Some ak /\ zlength row = ak) ->
  list_set rowb (Z.to_nat ab) (Z.of_nat (length parents)) = Some rowb' ->
  list_set (children ++ [row0]) b rowb' = Some children2 ->
  list_set added b (ab + 1) = Some added2 ->
  structure_inv (parents ++ [Z.of_nat b]) children2 (added2 ++ [0])
    (if currCount =? 0 then tc + 1 else tc).
Proof.
  intros Hrowb Hab Hall Erow' Echildren' Eadded'.
  pose proof step_length as Hlen1. pose proof step_before as Hbefore.
  pose proof Hinv as (A1 & A2 & A3 & A4 & A5 & A6 & A7 & A8).
  set (n := length parents) in *.
  assert (Hb : (b < n)%nat) by (rewrite <- Hlen1; apply nth_error_Some; congruence).
  destruct (step_rows b rowb ab Hrowb Hab) as [Hab_range Hab_kids].
  unfold structure_inv. rewrite !length_app. cbn [length]. fold n.
  rewrite (list_set_length _ _ _ _ Echildren'), (list_set_length _ _ _ _ Eadded').
  split; [lia|]. split; [lia|].
  split; [rewrite nth_error_app1 by (fold n; lia); exact A3|].
  split.
  { intros m p Hm Hp. destruct (Nat.lt_ge_cases m n) as [Hlt|Hge].
    - rewrite nth_error_app1 in Hp by exact Hlt. exact (A4 m p Hm Hp).
    - assert (m = n).
      { assert (m < n + 1)%nat; [|lia].
        replace (n + 1)%nat with (length (parents ++ [Z.of_nat b]))
          by (rewrite length_app; cbn [length]; reflexivity).
        apply nth_error_Some. congruence. }
      subst m. rewrite nth_error_app2, Nat.sub_diag in Hp by (fold n; lia).
      cbn in Hp. injection Hp as <-. lia. }
  split.
  { intros k row a Hrow Ha.
    assert (Hk : (k < n)%nat).
    { rewrite <- Hlen1, <- (list_set_length _ _ _ _ Echildren').
      apply nth_error_Some. congruence. }
    rewrite nth_error_app1 in Ha by (rewrite (list_set_length _ _ _ _ Eadded'); lia).
    rewrite kids_app.
    destruct (Nat.eq_dec k b) as [->|Hne].
    - rewrite (list_set_same _ _ _ _ Echildren') in Hrow. injection Hrow as <-.
      rewrite (list_set_same _ _ _ _ Eadded') in Ha. injection Ha as <-.
      rewrite Z.eqb_refl.
      assert (Hl : length rowb' = length rowb) by exact (list_set_length _ _ _ _ Erow').
      assert (Hlt : (Z.to_nat ab < length rowb)%nat).
      { apply nth_error_Some. intros Hnone.
        assert (Hs : nth_error rowb' (Z.to_nat ab) = Some (Z.of_nat n))
          by exact (list_set_same _ _ _ _ Erow').
        assert (Z.to_nat ab < length rowb')%nat by (apply nth_error_Some; congruence).
        apply nth_error_None in Hnone. lia. }
      unfold zlength in *. split; [lia|].
      replace (Z.to_nat (ab + 1)) with (S (Z.to_nat ab)) by lia.
      rewrite (firstn_list_set _ _ _ _ Erow'), Hab_kids. reflexivity.
    - rewrite (list_set_other _ _ _ _ k Echildren' Hne) in Hrow.
      rewrite (list_set_other _ _ _ _ k Eadded' Hne) in Ha.
      destruct (Z.eqb_spec (Z.of_nat b) (Z.of_nat k)); [lia|].
      rewrite app_nil_r. exact (step_rows k row a Hrow Ha). }
  split.
  { replace (n + 1 - 1)%nat with n by lia.
    rewrite nth_error_app2 by (rewrite (list_set_length _ _ _ _ Eadded'); lia).
    rewrite (list_set_length _ _ _ _ Eadded'), A1, Nat.sub_diag. reflexivity. }
  split.
  { intros k row a Hrow Ha Hopen.
    replace (n + 1 - 1)%nat with n by lia.
    assert (Hk : (k < n)%nat).
    { rewrite <- Hlen1, <- (list_set_length _ _ _ _ Echildren').
      apply nth_error_Some. congruence. }
    rewrite nth_error_app1 in Ha by (rewrite (list_set_length _ _ _ _ Eadded'); lia).
    assert (Hparent : nth_error (parents ++ [Z.of_nat b]) n = Some (Z.of_nat b)).
    { rewrite nth_error_app2, Nat.sub_diag by (fold n; lia). reflexivity. }
    destruct (Nat.eq_dec k b) as [->|Hne]; [apply anc_parent; exact Hparent|].
    rewrite (list_set_other _ _ _ _ k Echildren' Hne) in Hrow.
    rewrite (list_set_other _ _ _ _ k Eadded' Hne) in Ha.
    pose proof (step_open k row a Hrow Ha Hopen) as Hon.
    destruct (anc_decide parents b k Hbefore) as [[->|Hunder]|Hnot].
    - contradiction.
    - apply (anc_step _ n b k Hparent). apply anc_app. exact Hunder.
    - exfalso. destruct (Hall k Hon Hnot) as (row' & ak' & R1 & R2 & R3).
      rewrite Hrow in R1. rewrite Ha in R2. congruence. }
  rewrite step_tips. symmetry.
  apply (list_set_empty_rows _ _ _ _ _ Hrowb Echildren').
  exact (list_set_length _ _ _ _ Erow').
Qed.

End Step.

Lemma read_structure_complete (fuel : nat) :
  forall st parents children addedChildren tipCount shape,
    structure_inv parents children addedChildren tipCount ->
    read_structure fuel st parents children addedChildren
      (Z.of_nat (length parents - 1)) tipCount = Ok shape ->
    zlength (st_parents shape) <= 2147483648 ->
    structure_complete shape.
Proof.
  induction fuel as [|fuel IH];
    intros st parents children added tc shape Hinv H Hsize; [discriminate|].
  pose proof Hinv as (A1 & A2 & A3 & A4 & _).
  set (n := length parents) in *.
  cbn [read_structure] in H.
  replace (Z.of_nat (n - 1) >=? 0) with true in H by (symmetry; apply Z.geb_le; lia).
  destruct (readShortInt st) as [[currCount st1]| |]; try discriminate.
  cbn [bind] in H.
  destruct (vector_of currCount 0) as [row0| |] eqn:Erow0; try discriminate.
  cbn [bind] in H.
  assert (Hcount : 0 <= currCount /\ length row0 = Z.to_nat currCount).
  { unfold vector_of in Erow0. destruct (Z.ltb_spec currCount 0); [discriminate|].
    apply Ok_inj in Erow0. subst row0. rewrite repeat_length. split; [lia|reflexivity]. }
  destruct Hcount as [Hcount Hrow0].
  match type of H with
  | bind ?x _ = _ => destruct x as [a| |] eqn:Hclimb; try discriminate
  end.
  cbn [bind] in H.
  destruct (climb_spec parents (children ++ [row0]) added A3 A4 _ _ _ Hclimb)
    as [[Ha Hall]|(b & Ha & Hchain & (rowb & ab & Hrowb & Hab & Hopenb) & Hall)].
  - subst a. change (-1 >=? 0) with false in H. apply Ok_inj in H. subst shape.
    exact (step_done parents children added tc currCount row0 Hinv Hcount Hrow0 st1 Hall).
  - subst a.
    replace (Z.of_nat b >=? 0) with true in H by (symmetry; apply Z.geb_le; lia).
    rewrite !vget_nat, Hrowb in H. cbn [bind] in H. rewrite Hab in H. cbn [bind] in H.
    destruct (vset rowb ab (wrap32 (zlength parents))) as [rowb'| |] eqn:Erow;
      try discriminate.
    cbn [bind] in H.
    destruct (vset (children ++ [row0]) (Z.of_nat b) rowb') as [children2| |]
      eqn:Echildren; try discriminate.
    cbn [bind] in H.
    destruct (vset added (Z.of_nat b) (ab + 1)) as [added2| |] eqn:Eadded;
      try discriminate.
    cbn [bind] in H.
    pose proof (read_structure_grows _ _ _ _ _ _ _ _ H) as Hgrow.
    rewrite length_app in Hgrow. cbn [length] in Hgrow.
    assert (Hnew : wrap32 (zlength parents) = Z.of_nat n).
    { apply wrap32_small. unfold zlength in *. fold n. lia. }
    rewrite Hnew in *.
    destruct (vset_Ok _ _ _ _ Erow) as [_ Erow'].
    destruct (vset_Ok _ _ _ _ Echildren) as [_ Echildren'].
    destruct (vset_Ok _ _ _ _ Eadded) as [_ Eadded'].
    rewrite Nat2Z.id in Echildren', Eadded'.
    apply (IH st1 (parents ++ [Z.of_nat b]) children2 (added2 ++ [0])
             (if currCount =? 0 then tc + 1 else tc) shape);
      [|rewrite length_app; cbn [length];
        replace (length parents + 1 - 1)%nat with n by (fold n; lia); exact H
       |exact Hsize].
    exact (step_next parents children added tc currCount row0 Hinv Hcount Hrow0 b rowb rowb' ab
             children2 added2 Hrowb Hab Hall Erow' Echildren' Eadded').
Qed.

Lemma structure_inv_start : structure_inv [-1] [] [0] 0.
Proof.
  unfold structure_inv. cbn [length]. repeat split; try reflexivity.
  - destruct m as [|[|m]]; try lia; discriminate.
  - destruct m as [|[|m]]; try lia; discriminate.
  - destruct k; discriminate.
  - destruct k; discriminate.
  - destruct k; discriminate.
  - intros k row a Hrow. destruct k; discriminate Hrow.
Qed.

(** X22. The structure [readBinaryTree] decodes from the numbers of
    children is a tree laid out in the order its nodes were read: when the
    loop ends, there is a row of children for every node, the first node
    is the root, every other node comes after its parent, every row is
    completely filled with the nodes that name its owner as parent, in
    increasing order, and the tip count is the number of empty rows.
    Node numbers are 32-bit, so the statement is for at most 2^31
    nodes. *)
Theorem read_structure_is_a_tree (fuel : nat) (st : sistate) (shape : structure) :
  read_structure fuel st [-1] [] [0] 0 0 = Ok shape ->
  zlength (st_parents shape) <= 2147483648 ->
  length (st_children shape) = length (st_parents shape)
  /\ nth_error (st_parents shape) 0 = Some (-1)
  /\ (forall (m : nat) (p : Z),
        (0 < m)%nat -> nth_error (st_parents shape) m = Some p -> 0 <= p < Z.of_nat m)
  /\ (forall (k : nat) (row : list Z),
        nth_error (st_children shape) k = Some row -> row = kids (st_parents shape) k)
  /\ st_tipCount shape = empty_rows (st_children shape).
Proof.
  intros H Hsize.
  exact (read_structure_complete fuel st [-1] [] [0] 0 shape structure_inv_start H Hsize).
Qed.

(** * Trimming *)

Lemma ltrim_spec (s : string) :
  exists l, s = String.append l (ltrim s) /\ all_space l = true
            /\ match first_char (ltrim s) with
               | Some c => isspace c = false
               | None => True
               end.
Proof.
  induction s as [|c r IH].
  - exists EmptyString. repeat split.
  - cbn [ltrim]. destruct (isspace c) eqn:E.
    + destruct IH as (l & Hs & Hl & Hf). exists (String c l). split; [|split].
      * cbn [String.append]. f_equal. exact Hs.
      * cbn [all_space]. rewrite E, Hl. reflexivity.
      * exact Hf.
    + exists EmptyString. split; [reflexivity|]. split; [reflexivity|exact E].
Qed.

Lemma rtrim_spec (s : string) :
  exists r, s = String.append (rtrim s) r /\ all_space r = true
            /\ match last_char (rtrim s) with
               | Some c => isspace c = false
               | None => True
               end
            /\ first_char (rtrim s)
               = match rtrim s with EmptyString => None | _ => first_char s end.
Proof.
  induction s as [|c r IH].
  - exists EmptyString. repeat split.
  - destruct IH as (t & Hs & Ht & Hl & Hf). cbn [rtrim].
    destruct (rtrim r) as [|c' r'] eqn:Er.
    + destruct (isspace c) eqn:E.
      * exists (String c r). cbn [String.append] in *. split; [reflexivity|].
        split; [cbn [all_space]; rewrite E, Hs, Ht; reflexivity|].
        split; reflexivity.
      * exists r. cbn [String.append] in *. split; [f_equal; exact Hs|].
        split; [rewrite Hs; exact Ht|]. split; [exact E|reflexivity].
    + exists t. cbn [String.append] in *. split; [f_equal; exact Hs|].
      split; [exact Ht|]. split; [exact Hl|reflexivity].
Qed.

Lemma rtrim_trimmed (s : string) :
  trimmed s -> rtrim s = s.
Proof.
  intros [_ Hl]. induction s as [|c r IH]; [reflexivity|].
  cbn [rtrim]. destruct r as [|c' r'].
  - cbn [rtrim]. cbn in Hl. rewrite Hl. reflexivity.
  - rewrite IH by exact Hl. reflexivity.
Qed.

Lemma ltrim_trimmed (s : string) :
  trimmed s -> ltrim s = s.
Proof.
  intros [Hf _]. destruct s as [|c r]; [reflexivity|].
  cbn in Hf. cbn [ltrim]. rewrite Hf. reflexivity.
Qed.

(** X23. [trim] removes the white space around a string and nothing
    else: the string is its trimmed form between two runs of white space,
    the trimmed form neither starts nor ends with white space, and
    trimming twice changes nothing more. *)
Theorem trim_removes_outer_white_space (s : string) :
  trimmed (trim s)
  /\ (exists l r, s = String.append l (String.append (trim s) r)
                  /\ all_space l = true /\ all_space r = true)
  /\ trim (trim s) = trim s.
Proof.
  unfold trim.
  destruct (ltrim_spec s) as (l & Hs & Hl & Hf).
  destruct (rtrim_spec (ltrim s)) as (r & Hs' & Hr & Hlast & Hfirst).
  assert (Ht : trimmed (rtrim (ltrim s))).
  { split; [|exact Hlast]. rewrite Hfirst.
    destruct (rtrim (ltrim s)); [exact I|exact Hf]. }
  split; [exact Ht|]. split.
  - exists l, r. split; [|split; assumption].
    rewrite <- Hs'. exact Hs.
  - rewrite (ltrim_trimmed _ Ht). exact (rtrim_trimmed _ Ht).
Qed.

(** * The branch lengths of a decoded record *)

Lemma list_set_map {A B : Type} (f : A -> B) (l : list A) :
  forall i x, list_set (map f l) i (f x) = option_map (map f) (list_set l i x).
Proof.
  induction l as [|y r IH]; intros i x; cbn [map list_set]; [reflexivity|].
  destruct i as [|i]; [reflexivity|].
  rewrite IH. destruct (list_set r i x); reflexivity.
Qed.

Lemma select_map {A B : Type} (f : A -> B) (keep : list bool) :
  forall l, select keep (map f l) = map f (select keep l).
Proof.
  induction keep as [|k ks IH]; intros [|x xs]; cbn [select map]; try reflexivity.
  destruct k; cbn [map]; rewrite IH; reflexivity.
Qed.

Lemma all_ok_doubles (l : list double) :
  all_ok (map as_double (map VDouble l)) = Ok l.
Proof.
  induction l as [|d r IH]; cbn [map all_ok as_double bind]; [reflexivity|].
  rewrite IH. reflexivity.
Qed.

Lemma attribute_columns_nth (attrs : list Attribute) :
  forall rows keep cols j a row,
    attribute_columns attrs rows keep = Ok cols ->
    nth_error attrs j = Some a -> nth_error rows j = Some row ->
    exists col, nth_error cols j = Some col /\ attribute_column a row keep = Ok col.
Proof.
  induction attrs as [|a0 attrs IH]; intros rows keep cols j a row H Ha Hrow;
    [destruct j; discriminate|].
  destruct rows as [|row0 rows]; [destruct j; discriminate|].
  cbn [attribute_columns] in H.
  destruct (attribute_column a0 row0 keep) as [col0| |] eqn:E0; try discriminate.
  cbn [bind] in H.
  destruct (attribute_columns attrs rows keep) as [more| |] eqn:E1; try discriminate.
  cbn [bind] in H. apply Ok_inj in H. subst cols.
  destruct j as [|j]; cbn [nth_error] in *.
  - injection Ha as <-. injection Hrow as <-. exists col0. split; [reflexivity|exact E0].
  - exact (IH _ _ _ _ _ _ E1 Ha Hrow).
Qed.

Section Lengths.

Variables (globalNames : bool) (names : list string) (attrs : list Attribute).
Variables (j : nat) (a : Attribute).

Hypothesis length_attribute : nth_error attrs j = Some a.
Hypothesis length_is_numeric : IsNumeric a = true.
Hypothesis length_is_named : equalCI (AttributeName a) LENGTHATTRIBUTE = true.
Hypothesis length_is_unique :
  forall j' a', nth_error attrs j' = Some a' -> IsNumeric a' = true ->
                equalCI (AttributeName a') LENGTHATTRIBUTE = true -> j' = j.

Lemma set_attribute_other (vals : node_values) (k i : Z) (v : attrval)
    (rows : list (list attrval)) :
  set_attribute vals k i v = Ok rows -> Z.to_nat k <> j ->
  nth_error rows j = nth_error (nodeAttributeRows vals) j.
Proof.
  unfold set_attribute. intros H Hk.
  destruct (vget (nodeAttributeRows vals) k) as [row| |]; try discriminate.
  cbn [bind] in H.
  destruct (vset row i v) as [row'| |]; try discriminate. cbn [bind] in H.
  destruct (vset_Ok _ _ _ _ H) as [_ Hs].
  apply (list_set_other _ _ _ _ j Hs). congruence.
Qed.

Lemma read_attribute_lengths (i : Z) (vals vals' : node_values) (s s' : fstream) :
  lengths_in_step j vals ->
  read_attribute globalNames names attrs i vals s = Ok (vals', s') ->
  lengths_in_step j vals'.
Proof.
  unfold lengths_in_step. intros Hinv H. unfold read_attribute in H.
  destruct (readInt s) as [[k s1]| |]; try discriminate. cbn [bind] in H.
  destruct (vget attrs k) as [a'| |] eqn:Ha'; try discriminate. cbn [bind] in H.
  apply vget_Ok in Ha'. destruct Ha' as [Hk Ha'].
  destruct (IsNumeric a') eqn:Enum.
  - destruct (equalCI (AttributeName a') LENGTHATTRIBUTE) eqn:Elen.
    + pose proof (length_is_unique _ _ Ha' Enum Elen) as Hj.
      destruct (readDouble s1) as [[d s2]| |]; try discriminate. cbn [bind] in H.
      destruct (vset (edgeLengths vals) i d) as [lengths| |] eqn:El; try discriminate.
      cbn [bind] in H.
      destruct (set_attribute vals k i (VDouble d)) as [rows| |] eqn:Er; try discriminate.
      cbn [bind] in H. apply Ok_inj in H. apply (f_equal fst) in H. cbn [fst] in H.
      subst vals'. cbn [nodeAttributeRows edgeLengths].
      unfold set_attribute in Er.
      destruct (vget (nodeAttributeRows vals) k) as [row| |] eqn:Erow; try discriminate.
      cbn [bind] in Er.
      apply vget_Ok in Erow. destruct Erow as [_ Erow]. rewrite Hj, Hinv in Erow.
      injection Erow as <-.
      destruct (vset (map VDouble (edgeLengths vals)) i (VDouble d)) as [row'| |] eqn:Es;
        try discriminate.
      cbn [bind] in Er.
      destruct (vset_Ok _ _ _ _ Er) as [_ Er']. rewrite Hj in Er'.
      rewrite (list_set_same _ _ _ _ Er'). f_equal.
      destruct (vset_Ok _ _ _ _ Es) as [_ Es'].
      destruct (vset_Ok _ _ _ _ El) as [_ El'].
      rewrite list_set_map, El' in Es'. cbn in Es'. injection Es' as <-. reflexivity.
    + destruct (readDouble s1) as [[d s2]| |]; try discriminate. cbn [bind] in H.
      destruct (set_attribute vals k i (VDouble d)) as [rows| |] eqn:Er; try discriminate.
      cbn [bind] in H. apply Ok_inj in H. apply (f_equal fst) in H. cbn [fst] in H.
      subst vals'. cbn [nodeAttributeRows edgeLengths].
      rewrite (set_attribute_other _ _ _ _ _ Er); [exact Hinv|].
      intros Hj. rewrite Hj, length_attribute in Ha'. injection Ha' as <-. congruence.
  - assert (Hne : Z.to_nat k <> j).
    { intros Hj. rewrite Hj, length_attribute in Ha'. injection Ha' as <-. congruence. }
    destruct (negb (equalCI (AttributeName a') NAMEATTRIBUTE)).
    + destruct (readMyString s1) as [[str s2]| |]; try discriminate. cbn [bind] in H.
      destruct (set_attribute vals k i (VString str)) as [rows| |] eqn:Er;
        try discriminate.
      cbn [bind] in H. apply Ok_inj in H. apply (f_equal fst) in H. cbn [fst] in H.
      subst vals'. cbn [nodeAttributeRows edgeLengths].
      rewrite (set_attribute_other _ _ _ _ _ Er Hne). exact Hinv.
    + match type of H with
      | bind ?x _ = _ => destruct x as [[name s2]| |]; try discriminate
      end.
      cbn [bind] in H.
      destruct (vset (nodeNames vals) i name) as [nodeNames'| |]; try discriminate.
      cbn [bind] in H.
      destruct (set_attribute vals k i (VString name)) as [rows| |] eqn:Er;
        try discriminate.
      cbn [bind] in H. apply Ok_inj in H. apply (f_equal fst) in H. cbn [fst] in H.
      subst vals'. cbn [nodeAttributeRows edgeLengths].
      rewrite (set_attribute_other _ _ _ _ _ Er Hne). exact Hinv.
Qed.

Lemma read_attributes_lengths (count : nat) (i : Z) :
  forall vals vals' s s',
    lengths_in_step j vals ->
    read_attributes count globalNames names attrs i vals s = Ok (vals', s') ->
    lengths_in_step j vals'.
Proof.
  induction count as [|count IH]; intros vals vals' s s' Hv H; cbn [read_attributes] in H.
  - apply Ok_inj in H. apply (f_equal fst) in H. cbn [fst] in H. subst. exact Hv.
  - destruct (read_attribute globalNames names attrs i vals s) as [[vals1 s1]| |] eqn:E;
      try discriminate.
    cbn [bind] in H.
    exact (IH _ _ _ _ (read_attribute_lengths _ _ _ _ _ Hv E) H).
Qed.

Lemma read_nodes_lengths (k : nat) :
  forall i vals vals' s s',
    lengths_in_step j vals ->
    read_nodes k i globalNames names attrs vals s = Ok (vals', s') ->
    lengths_in_step j vals'.
Proof.
  induction k as [|k IH]; intros i vals vals' s s' Hv H; cbn [read_nodes] in H.
  - apply Ok_inj in H. apply (f_equal fst) in H. cbn [fst] in H. subst. exact Hv.
  - destruct (readInt s) as [[attributeCount s1]| |]; try discriminate.
    cbn [bind] in H.
    destruct (read_attributes (Z.to_nat attributeCount) globalNames names attrs i vals s1)
      as [[vals1 s2]| |] eqn:E; try discriminate.
    cbn [bind] in H.
    exact (IH _ _ _ _ _ (read_attributes_lengths _ _ _ _ _ _ Hv E) H).
Qed.

End Lengths.

Section DecodedLengths.

Variable to_string_double : double -> string.

(** X24. In a decoded record the length of the root is kept apart
    from the branch lengths, and both agree with the length attribute.
    The structure is the one [readBinaryTree] reads from the record
    itself: after the number of attributes and the attribute table (the
    shared one when the record has none), one byte ahead, by the
    structure loop.  When the tree has exactly one numeric attribute
    called "length" (in any case), the root edge followed by the edge
    lengths has one entry per node of that structure, and the column of
    that attribute holds these very numbers, the entries of the tips (the
    nodes without children) in the tip column and the entries of the
    internal nodes in the node column. *)
Theorem readBinaryTree_lengths (file s' : fstream) (globalNames : bool)
    (names : list string) (attrs0 : list Attribute) (tree : phylo)
    (j : nat) (a : Attribute) :
  readBinaryTree to_string_double file globalNames names attrs0 = Ok (tree, s') ->
  nth_error (attributes tree) j = Some a ->
  IsNumeric a = true ->
  equalCI (AttributeName a) LENGTHATTRIBUTE = true ->
  (forall j' a', nth_error (attributes tree) j' = Some a' -> IsNumeric a' = true ->
                 equalCI (AttributeName a') LENGTHATTRIBUTE = true -> j' = j) ->
  exists (numAttributes : Z) (s1 : fstream) (attrs : list Attribute) (s2 : fstream)
         (currByte : Z) (s3 : fstream) (shape : structure),
    readInt file = Ok (numAttributes, s1)
    /\ (if numAttributes >? 0 then read_attribute_table (Z.to_nat numAttributes) s1
        else Ok (attrs0, s1)) = Ok (attrs, s2)
    /\ readByte s2 = Ok (currByte, s3)
    /\ read_structure (S (8 * length (sdata file))) (s3, currByte, 0) [-1] [] [0] 0 0
       = Ok shape
    /\ attributes tree = attrs
    /\ length (rootEdge tree :: edgeLength tree) = length (st_parents shape)
    /\ let is_tip := map (fun row => Nat.eqb (length row) 0) (st_children shape) in
       nth_error (tipAttributes tree) j
       = Some (DoubleVec (select is_tip (rootEdge tree :: edgeLength tree)))
       /\ nth_error (nodeAttributes tree) j
          = Some (DoubleVec (select (map negb is_tip) (rootEdge tree :: edgeLength tree))).
Proof.
  unfold readBinaryTree. intros H Ha Hnum Hname Huniq.
  destruct (readInt file) as [[numAttributes s1]| |] eqn:Eint; try discriminate.
  cbn [bind] in H.
  match type of H with
  | bind ?x _ = _ => destruct x as [[attrs s2]| |] eqn:Eattrs; try discriminate
  end.
  cbn [bind] in H.
  destruct (readByte s2) as [[currByte s3]| |] eqn:Ebyte; try discriminate.
  cbn [bind] in H.
  match type of H with
  | bind ?x _ = _ => destruct x as [shape| |] eqn:Eshape; try discriminate
  end.
  cbn [bind] in H.
  destruct (special_indices attrs 0 (-1) (-1)) as [nameIndex supportIndex].
  set (n := length (st_parents shape)) in *.
  match type of H with
  | bind (read_nodes _ _ _ _ _ ?v0 _) _ = _ => set (vals0 := v0) in *
  end.
  match type of H with
  | bind ?x _ = _ => destruct x as [[vals s5]| |] eqn:En; try discriminate
  end.
  cbn [bind] in H.
  match type of H with
  | bind ?x _ = _ => destruct x as [tipAttrs| |] eqn:Et; try discriminate
  end.
  cbn [bind] in H.
  match type of H with
  | bind ?x _ = _ => destruct x as [nodeAttrs| |] eqn:Ei; try discriminate
  end.
  cbn [bind] in H.
  match type of H with
  | bind ?x _ = _ => destruct x as [edges| |] eqn:Ee; try discriminate
  end.
  cbn [bind] in H.
  match type of H with
  | bind ?x _ = _ => destruct x as [root| |] eqn:Eroot; try discriminate
  end.
  cbn [bind] in H.
  match type of H with
  | bind ?x _ = _ => destruct x as [[labels hasLabel]| |]; try discriminate
  end.
  cbn [bind] in H. apply Ok_inj in H. apply (f_equal fst) in H. cbn [fst] in H.
  subst tree.
  cbn [edgeLength rootEdge tipAttributes nodeAttributes attributes] in *.
  assert (H0 : values_sized n (length attrs) vals0).
  { unfold values_sized, vals0. cbn [edgeLengths nodeNames nodeAttributeRows].
    rewrite !repeat_length, length_map. repeat split.
    apply Forall_forall. intros row Hin. apply in_map_iff in Hin as (a0 & <- & _).
    apply repeat_length. }
  pose proof (read_nodes_sized _ _ _ _ _ _ _ _ _ _ _ H0 En) as (Hl & _).
  assert (Hstart : lengths_in_step j vals0).
  { unfold lengths_in_step, vals0. cbn [nodeAttributeRows edgeLengths].
    rewrite nth_error_map, Ha. cbn [option_map]. rewrite Hnum, map_repeat. reflexivity. }
  pose proof (read_nodes_lengths globalNames names attrs j a Ha Hnum Hname Huniq
                _ _ _ _ _ _ Hstart En) as Hstep.
  unfold lengths_in_step in Hstep.
  assert (Hall : root :: tl (edgeLengths vals) = edgeLengths vals).
  { apply vget_Ok in Eroot. destruct Eroot as [_ Eroot].
    destruct (edgeLengths vals) as [|d ds]; [discriminate|].
    cbn in Eroot. injection Eroot as ->. reflexivity. }
  exists numAttributes, s1, attrs, s2, currByte, s3, shape.
  split; [reflexivity|]. split; [exact Eattrs|]. split; [exact Ebyte|].
  split; [exact Eshape|]. split; [reflexivity|].
  rewrite Hall. split; [exact Hl|].
  cbn zeta. split.
  - destruct (attribute_columns_nth _ _ _ _ _ _ _ Et Ha Hstep) as (col & Hcol & Hc).
    rewrite Hcol. f_equal. unfold attribute_column in Hc. rewrite Hnum in Hc.
    rewrite select_map, all_ok_doubles in Hc. cbn [bind] in Hc.
    apply Ok_inj in Hc. symmetry. exact Hc.
  - destruct (attribute_columns_nth _ _ _ _ _ _ _ Ei Ha Hstep) as (col & Hcol & Hc).
    rewrite Hcol. f_equal. unfold attribute_column in Hc. rewrite Hnum in Hc.
    rewrite select_map, all_ok_doubles in Hc. cbn [bind] in Hc.
    apply Ok_inj in Hc. symmetry. exact Hc.
Qed.

End DecodedLengths.

(** * The edges of a decoded record *)

Lemma read_edges_nth (parents_from_1 : list Z) (correspondences : list Z) :
  forall i edges k p,
    read_edges i parents_from_1 correspondences = Ok edges ->
    nth_error parents_from_1 k = Some p ->
    exists e0 e1,
      vget correspondences p = Ok e0
      /\ vget correspondences (i + Z.of_nat k) = Ok e1
      /\ nth_error edges k = Some [e0; e1].
Proof.
  induction parents_from_1 as [|q r IH]; intros i edges k p H Hk;
    [destruct k; discriminate|].
  cbn [read_edges] in H.
  destruct (vget correspondences q) as [e0| |] eqn:E0; try discriminate.
  cbn [bind] in H.
  destruct (vget correspondences i) as [e1| |] eqn:E1; try discriminate.
  cbn [bind] in H.
  destruct (read_edges (i + 1) r correspondences) as [more| |] eqn:Em; try discriminate.
  cbn [bind] in H. apply Ok_inj in H. subst edges.
  destruct k as [|k]; cbn [nth_error] in *.
  - injection Hk as <-. exists e0, e1. rewrite Z.add_0_r. repeat split; assumption.
  - destruct (IH _ _ _ _ Em Hk) as (f0 & f1 & F0 & F1 & F2).
    exists f0, f1. split; [exact F0|]. split; [|exact F2].
    replace (i + Z.of_nat (S k)) with (i + 1 + Z.of_nat k) by lia. exact F1.
Qed.

Lemma read_edges_length (parents_from_1 : list Z) (correspondences : list Z) :
  forall i edges,
    read_edges i parents_from_1 correspondences = Ok edges ->
    length edges = length parents_from_1.
Proof.
  induction parents_from_1 as [|q r IH]; intros i edges H; cbn [read_edges] in H.
  - apply Ok_inj in H. subst edges. reflexivity.
  - destruct (vget correspondences q) as [e0| |]; try discriminate.
    cbn [bind] in H.
    destruct (vget correspondences i) as [e1| |]; try discriminate.
    cbn [bind] in H.
    destruct (read_edges (i + 1) r correspondences) as [more| |] eqn:Em;
      try discriminate.
    cbn [bind] in H. apply Ok_inj in H. subst edges. cbn [length].
    rewrite (IH _ _ Em). reflexivity.
Qed.

(** The numbers given to the nodes of a record: tips from 0 in the order
    they were read, internal nodes after the tips. *)
Lemma correspondences_nth (children : list (list Z)) (tipCount : Z) :
  forall (done : list (list Z)) (rest : list (list Z)) (i : nat) (row : list Z),
    children = done ++ rest ->
    nth_error rest i = Some row ->
    nth_error
      (correspondences_from (map (fun row => Nat.eqb (length row) 0) rest)
         (count_nodes false children (length done) - 1)
         (count_nodes true children (length done) - 1) tipCount) i
    = Some (node_number children tipCount (length done + i) - 1).
Proof.
  intros done rest. revert done.
  induction rest as [|r0 rest IH]; intros done i row Hc Hi; [destruct i; discriminate|].
  assert (Hr0 : nth_error children (length done) = Some r0).
  { rewrite Hc, nth_error_app2, Nat.sub_diag by lia. reflexivity. }
  assert (Hnext : children = (done ++ [r0]) ++ rest)
    by (rewrite <- app_assoc; exact Hc).
  cbn [map correspondences_from].
  destruct i as [|i].
  - rewrite Nat.add_0_r. unfold node_number, has_children. rewrite Hr0.
    rewrite !(count_nodes_S _ _ _ _ Hr0).
    destruct r0 as [|x r0]; cbn [length Nat.eqb nth_error]; f_equal;
      unfold zlength; cbn [length Bool.eqb Z.ltb Z.of_nat Z.compare]; cbn; lia.
  - cbn [nth_error] in Hi.
    specialize (IH (done ++ [r0]) i row Hnext Hi).
    rewrite length_app in IH. cbn [length] in IH.
    replace (length done + 1)%nat with (S (length done)) in IH by lia.
    rewrite !(count_nodes_S _ _ _ _ Hr0) in IH.
    replace (length done + S i)%nat with (S (length done) + i)%nat by lia.
    destruct r0 as [|x r0]; cbn [length Nat.eqb nth_error].
    + unfold zlength in IH. cbn [length Z.of_nat Z.ltb Z.compare Bool.eqb] in IH.
      rewrite <- IH. f_equal. f_equal; lia.
    + assert (E : (0 <? zlength (x :: r0)) = true)
        by (apply Z.ltb_lt; unfold zlength; cbn [length]; lia).
      rewrite E in IH. cbn [Bool.eqb] in IH.
      rewrite <- IH. f_equal. f_equal; lia.
Qed.

Lemma correspondences_length (is_tip : list bool) :
  forall t nt tc, length (correspondences_from is_tip t nt tc) = length is_tip.
Proof.
  induction is_tip as [|b r IH]; intros t nt tc; [reflexivity|].
  destruct b; cbn [correspondences_from length]; rewrite IH; reflexivity.
Qed.

Lemma correspondences_entry (children : list (list Z)) (tipCount : Z) (i : nat) (e : Z) :
  nth_error
    (correspondences_from (map (fun row => Nat.eqb (length row) 0) children)
       (-1) (-1) tipCount) i = Some e ->
  e = node_number children tipCount i - 1.
Proof.
  intros H.
  assert (Hi : (i < length children)%nat).
  { rewrite <- (length_map (fun row => Nat.eqb (length row) 0)),
      <- (correspondences_length _ (-1) (-1) tipCount).
    apply nth_error_Some. congruence. }
  destruct (nth_error children i) as [row|] eqn:Hrow;
    [|apply nth_error_None in Hrow; lia].
  pose proof (correspondences_nth children tipCount [] children i row eq_refl Hrow) as Hn.
  cbn [length Nat.add] in Hn.
  change (count_nodes false children 0 - 1) with (-1) in Hn.
  change (count_nodes true children 0 - 1) with (-1) in Hn.
  rewrite Hn in H. injection H as <-. reflexivity.
Qed.

Lemma nth_error_tl {A : Type} (l : list A) (i : nat) :
  nth_error (tl l) i = nth_error l (S i).
Proof. destruct l; [destruct i; reflexivity|reflexivity]. Qed.

Section DecodedEdges.

Variable to_string_double : double -> string.

(** X25. The edges of a decoded record follow its structure.  The
    structure is the one [readBinaryTree] reads from the record itself:
    after the number of attributes and the attribute table (the shared
    one when the record has none), one byte ahead, by the structure loop.
    The tree has one edge for every node of that structure but the first,
    in the order the nodes were read, and the edge of a node goes from the
    number of its parent to its own number, where the tips are numbered
    from 0 in the order they were read and the internal nodes after the
    tips; the number of internal nodes is the number of nodes less the
    tips. *)
Theorem readBinaryTree_edges (file s' : fstream) (globalNames : bool)
    (names : list string) (attrs0 : list Attribute) (tree : phylo) :
  readBinaryTree to_string_double file globalNames names attrs0 = Ok (tree, s') ->
  exists (numAttributes : Z) (s1 : fstream) (attrs : list Attribute) (s2 : fstream)
         (currByte : Z) (s3 : fstream) (shape : structure),
    readInt file = Ok (numAttributes, s1)
    /\ (if numAttributes >? 0 then read_attribute_table (Z.to_nat numAttributes) s1
        else Ok (attrs0, s1)) = Ok (attrs, s2)
    /\ readByte s2 = Ok (currByte, s3)
    /\ read_structure (S (8 * length (sdata file))) (s3, currByte, 0) [-1] [] [0] 0 0
       = Ok shape
    /\ Nnode tree = wrap32 (zlength (st_parents shape)) - st_tipCount shape
    /\ length (edge tree) = (length (st_parents shape) - 1)%nat
    /\ forall (i : nat) (p : Z),
         nth_error (st_parents shape) (S i) = Some p ->
         0 <= p
         /\ nth_error (edge tree) i
            = Some [node_number (st_children shape) (st_tipCount shape) (Z.to_nat p) - 1;
                    node_number (st_children shape) (st_tipCount shape) (S i) - 1].
Proof.
  unfold readBinaryTree. intros H.
  destruct (readInt file) as [[numAttributes s1]| |] eqn:Eint; try discriminate.
  cbn [bind] in H.
  match type of H with
  | bind ?x _ = _ => destruct x as [[attrs s2]| |] eqn:Eattrs; try discriminate
  end.
  cbn [bind] in H.
  destruct (readByte s2) as [[currByte s3]| |] eqn:Ebyte; try discriminate.
  cbn [bind] in H.
  match type of H with
  | bind ?x _ = _ => destruct x as [shape| |] eqn:Eshape; try discriminate
  end.
  cbn [bind] in H.
  destruct (special_indices attrs 0 (-1) (-1)) as [nameIndex supportIndex].
  match type of H with
  | bind ?x _ = _ => destruct x as [[vals s5]| |]; try discriminate
  end.
  cbn [bind] in H.
  match type of H with
  | bind ?x _ = _ => destruct x as [tipAttrs| |]; try discriminate
  end.
  cbn [bind] in H.
  match type of H with
  | bind ?x _ = _ => destruct x as [nodeAttrs| |]; try discriminate
  end.
  cbn [bind] in H.
  match type of H with
  | bind ?x _ = _ => destruct x as [edges| |] eqn:Ee; try discriminate
  end.
  cbn [bind] in H.
  match type of H with
  | bind ?x _ = _ => destruct x as [root| |]; try discriminate
  end.
  cbn [bind] in H.
  match type of H with
  | bind ?x _ = _ => destruct x as [[labels hasLabel]| |]; try discriminate
  end.
  cbn [bind] in H. apply Ok_inj in H. apply (f_equal fst) in H. cbn [fst] in H.
  subst tree. cbn [edge Nnode].
  exists numAttributes, s1, attrs, s2, currByte, s3, shape.
  split; [reflexivity|]. split; [exact Eattrs|]. split; [exact Ebyte|].
  split; [exact Eshape|]. split; [reflexivity|].
  split.
  { rewrite (read_edges_length _ _ _ _ Ee).
    destruct (st_parents shape); cbn [tl length]; lia. }
  intros i p Hp. rewrite <- nth_error_tl in Hp.
  destruct (read_edges_nth _ _ _ _ _ _ Ee Hp) as (e0 & e1 & H0 & H1 & H2).
  apply vget_Ok in H0. destruct H0 as [Hp0 H0].
  replace (1 + Z.of_nat i) with (Z.of_nat (S i)) in H1 by lia.
  apply vget_Ok in H1. destruct H1 as [_ H1]. rewrite Nat2Z.id in H1.
  apply correspondences_entry in H0. apply correspondences_entry in H1.
  split; [exact Hp0|]. rewrite H2, H0, H1. reflexivity.
Qed.

End DecodedEdges.
(** * Reading back the structure of a tree *)

Lemma anc_linear (parents : list Z) (c x y : nat) :
  anc parents c x -> anc parents c y -> x = y \/ anc parents x y \/ anc parents y x.
Proof.
  intros Hx. revert y. induction Hx as [c p Hp|c p x Hp Hx IH]; intros y Hy.
  - destruct (anc_inv _ _ _ _ Hy Hp) as [->|Hpy]; [left; reflexivity|].
    right. left. exact Hpy.
  - destruct (anc_inv _ _ _ _ Hy Hp) as [->|Hpy].
    + right. right. exact Hx.
    + exact (IH y Hpy).
Qed.

Lemma nth_error_firstn_some {A : Type} (l : list A) (m c : nat) (v : A) :
  nth_error (firstn m l) c = Some v -> nth_error l c = Some v.
Proof.
  rewrite nth_error_firstn. destruct (c <? m)%nat; [auto|discriminate].
Qed.

Lemma nth_error_firstn_below {A : Type} (l : list A) (m c : nat) :
  (c < m)%nat -> nth_error (firstn m l) c = nth_error l c.
Proof.
  intros H. rewrite nth_error_firstn.
  replace (c <? m)%nat with true by (symmetry; apply Nat.ltb_lt; exact H). reflexivity.
Qed.

Lemma anc_firstn (parents : list Z) (m x y : nat) :
  (forall k p, nth_error parents k = Some p -> p < Z.of_nat k) ->
  (x < m)%nat ->
  (anc (firstn m parents) x y <-> anc parents x y).
Proof.
  intros Hbefore Hx. split.
  - clear Hx. induction 1 as [c p Hp|c p k Hp _ IH].
    + apply anc_parent. exact (nth_error_firstn_some _ _ _ _ Hp).
    + exact (anc_step _ _ _ _ (nth_error_firstn_some _ _ _ _ Hp) IH).
  - intros H. revert Hx. induction H as [c p Hp|c p k Hp _ IH]; intros Hx.
    + apply anc_parent. rewrite nth_error_firstn_below by exact Hx. exact Hp.
    + apply (anc_step _ c p k).
      * rewrite nth_error_firstn_below by exact Hx. exact Hp.
      * apply IH. specialize (Hbefore _ _ Hp). lia.
Qed.

Lemma kids_split (parents : list Z) (m k : nat) :
  (m <= length parents)%nat ->
  kids parents k
  = kids (firstn m parents) k
    ++ map Z.of_nat
         (filter (fun j => match nth_error parents j with
                           | Some p => p =? Z.of_nat k
                           | None => false
                           end)
            (seq m (length parents - m))).
Proof.
  intros Hm. unfold kids. rewrite length_firstn, Nat.min_l by exact Hm.
  replace (length parents) with (m + (length parents - m))%nat at 1 by lia.
  rewrite seq_app, filter_app, map_app. cbn [Nat.add]. f_equal. f_equal.
  apply filter_ext_in. intros j Hj. apply in_seq in Hj.
  rewrite nth_error_firstn_below by lia. reflexivity.
Qed.

(** A node has all its children among the first [m] nodes exactly when
    no later node names it as parent. *)
Lemma kids_complete (parents : list Z) (m k : nat) :
  (m <= length parents)%nat ->
  (length (kids (firstn m parents) k) = length (kids parents k)
   <-> forall j, (m <= j)%nat -> nth_error parents j <> Some (Z.of_nat k)).
Proof.
  intros Hm. rewrite (kids_split parents m k Hm), length_app, length_map.
  set (later := filter _ (seq m (length parents - m))). split.
  - intros Hlen j Hj Hp.
    assert (Hin : In j later).
    { unfold later. apply filter_In. split.
      - apply in_seq. assert (j < length parents)%nat
          by (apply nth_error_Some; congruence). lia.
      - rewrite Hp. apply Z.eqb_refl. }
    destruct later; [destruct Hin|cbn [length] in Hlen; lia].
  - intros Hnone. destruct later as [|j r] eqn:E; [cbn [length]; lia|].
    exfalso. assert (Hin : In j later) by (rewrite E; left; reflexivity).
    unfold later in Hin. apply filter_In in Hin. destruct Hin as [Hseq Htest].
    apply in_seq in Hseq.
    destruct (nth_error parents j) as [p|] eqn:Hp; [|discriminate].
    apply Z.eqb_eq in Htest. subst p. exact (Hnone j ltac:(lia) Hp).
Qed.

Lemma list_set_total {A : Type} (l : list A) (i : nat) (x : A) :
  (i < length l)%nat -> exists l', list_set l i x = Some l'.
Proof.
  revert i. induction l as [|y r IH]; intros i Hi; [cbn in Hi; lia|].
  destruct i as [|i]; cbn [list_set]; [eexists; reflexivity|].
  destruct (IH i) as [r' Hr]; [cbn in Hi; lia|]. rewrite Hr. eexists. reflexivity.
Qed.

Lemma vset_nat {A : Type} (l : list A) (n : nat) (x : A) :
  vset l (Z.of_nat n) x
  = match list_set l n x with Some l' => Ok l' | None => Undef end.
Proof.
  unfold vset. replace (Z.of_nat n <? 0) with false by (symmetry; apply Z.ltb_ge; lia).
  rewrite Nat2Z.id. reflexivity.
Qed.

Section ClimbTotal.

Variables (parents : list Z) (children : list (list Z)) (addedChildren : list Z).

Hypothesis root_first : nth_error parents 0 = Some (-1).
Hypothesis parent_before :
  forall m p, (0 < m)%nat -> nth_error parents m = Some p -> 0 <= p < Z.of_nat m.
Hypothesis rows_present : length children = length parents.
Hypothesis added_present : length addedChildren = length parents.

Lemma climb_total :
  forall (c fuel : nat),
    (c < length parents)%nat -> (c + 2 <= fuel)%nat ->
    exists a, climb fuel parents children addedChildren (Z.of_nat c) = Ok a.
Proof.
  induction c as [c IH] using lt_wf_ind. intros fuel Hc Hfuel.
  destruct fuel as [|fuel]; [lia|]. cbn [climb].
  replace (Z.of_nat c >=? 0) with true by (symmetry; apply Z.geb_le; lia).
  rewrite !vget_nat.
  destruct (nth_error children c) as [row|] eqn:Hrow;
    [|apply nth_error_None in Hrow; lia].
  cbn [bind].
  destruct (nth_error addedChildren c) as [ac|] eqn:Hac;
    [|apply nth_error_None in Hac; lia].
  cbn [bind].
  destruct (zlength row =? ac); [|eexists; reflexivity].
  destruct (nth_error parents c) as [p|] eqn:Hp;
    [|apply nth_error_None in Hp; lia].
  cbn [bind].
  destruct c as [|c'].
  - rewrite root_first in Hp. injection Hp as <-.
    destruct fuel as [|fuel]; [lia|]. cbn [climb]. change (-1 >=? 0) with false.
    eexists. reflexivity.
  - pose proof (parent_before (S c') p ltac:(lia) Hp) as Hb.
    replace p with (Z.of_nat (Z.to_nat p)) by lia.
    apply IH; lia.
Qed.

End ClimbTotal.

Lemma skipn_nth {A : Type} (l : list A) :
  forall i x, nth_error l i = Some x -> skipn i l = x :: skipn (S i) l.
Proof.
  induction l as [|y r IH]; intros [|i] x H; try discriminate.
  - injection H as <-. reflexivity.
  - cbn [nth_error] in H. exact (IH i x H).
Qed.

(** In such an order the parent of a node is met on the way from the
    node before it to the root, and the nodes passed on that way before
    the parent have no child from that node on. *)
Lemma preorder_path (parents : list Z) :
  (forall k p, nth_error parents k = Some p -> p < Z.of_nat k) ->
  (forall j t p q,
     nth_error parents j = Some p -> nth_error parents t = Some q ->
     p < Z.of_nat t -> (t < j)%nat -> p <= q) ->
  forall m p,
    nth_error parents (S m) = Some (Z.of_nat p) ->
    (p = m \/ anc parents m p)
    /\ forall k, k = m \/ anc parents m k -> anc parents k p ->
         forall j, (S m <= j)%nat -> nth_error parents j <> Some (Z.of_nat k).
Proof.
  intros Hbefore Hnc m p Hp. pose proof (Hbefore _ _ Hp) as Hpm. split.
  - assert (Hup : forall t, (p <= t <= m)%nat -> p = t \/ anc parents t p).
    { induction t as [t IH] using lt_wf_ind. intros Ht.
      destruct (Nat.eq_dec p t) as [|Hne]; [left; assumption|right].
      destruct (nth_error parents t) as [q|] eqn:Hq.
      - pose proof (Hbefore _ _ Hq) as Hqt.
        pose proof (Hnc (S m) t _ q Hp Hq ltac:(lia) ltac:(lia)) as Hpq.
        assert (Hq' : nth_error parents t = Some (Z.of_nat (Z.to_nat q)))
          by (rewrite Hq; f_equal; lia).
        destruct (IH (Z.to_nat q) ltac:(lia) ltac:(lia)) as [He|Ha].
        + apply anc_parent. rewrite He. exact Hq'.
        + exact (anc_step _ _ _ _ Hq' Ha).
      - apply nth_error_None in Hq.
        assert (S m < length parents)%nat by (apply nth_error_Some; congruence). lia. }
    exact (Hup m ltac:(lia)).
  - intros k Hk Hkp j Hj Hjk.
    pose proof (anc_lt _ _ _ Hbefore Hkp) as Hlt.
    assert (Hkm : (k <= m)%nat).
    { destruct Hk as [->|Hk]; [lia|]. pose proof (anc_lt _ _ _ Hbefore Hk). lia. }
    destruct (Nat.eq_dec j (S m)) as [->|Hne].
    + rewrite Hp in Hjk. injection Hjk as Hjk. lia.
    + pose proof (Hnc j (S m) _ _ Hjk Hp ltac:(lia) ltac:(lia)). lia.
Qed.

Section Rebuild.

Variables (target : list Z) (rows : list (list Z)).
Hypothesis Htree : preorder_tree target rows.
Hypothesis Hsize : zlength target < 2147483648.

Lemma target_before : forall k p, nth_error target k = Some p -> p < Z.of_nat k.
Proof.
  destruct Htree as (_ & T2 & T3 & _).
  intros [|k] p Hp; [rewrite T2 in Hp; injection Hp as <-; lia|].
  specialize (T3 (S k) p ltac:(lia) Hp). lia.
Qed.

Lemma state_length (m : nat) :
  (m <= length target)%nat -> length (firstn m target) = m.
Proof. intros H. rewrite length_firstn. lia. Qed.

Section State.

Variables (m : nat) (children : list (list Z)) (added : list Z) (tc : Z).
Variables (row0 rowm : list Z).
Hypothesis Hm : (1 <= m <= length target)%nat.
Hypothesis Hinv : structure_inv (firstn m target) children added tc.
Hypothesis Hsz :
  forall k row, nth_error children k = Some row ->
    exists row', nth_error rows k = Some row' /\ length row = length row'.
Hypothesis Hrowm : nth_error rows (m - 1) = Some rowm.
Hypothesis Hrow0 : length row0 = length rowm.

Lemma state_before :
  forall k p, nth_error (firstn m target) k = Some p -> p < Z.of_nat k.
Proof.
  intros k p Hp. exact (target_before k p (nth_error_firstn_some _ _ _ _ Hp)).
Qed.

Lemma state_sizes (k : nat) (row : list Z) :
  nth_error (children ++ [row0]) k = Some row ->
  exists row', nth_error rows k = Some row' /\ length row = length row'.
Proof.
  pose proof (state_length m (proj2 Hm)) as Hlen.
  destruct Hinv as (_ & A2 & _). rewrite Hlen in A2.
  intros Hrow. destruct (Nat.lt_ge_cases k (length children)) as [Hlt|Hge].
  - rewrite nth_error_app1 in Hrow by exact Hlt. exact (Hsz k row Hrow).
  - assert (Hk : (k < length (children ++ [row0]))%nat)
      by (apply nth_error_Some; congruence).
    rewrite length_app in Hk. cbn [length] in Hk.
    assert (k = (m - 1)%nat) by lia. subst k.
    rewrite nth_error_app2 in Hrow by lia.
    replace (m - 1 - length children)%nat with 0%nat in Hrow by lia.
    cbn [nth_error] in Hrow. injection Hrow as <-.
    exists rowm. split; [exact Hrowm|exact Hrow0].
Qed.

(** A row is full exactly when its node has no child left to come. *)
Lemma state_full (k : nat) (row : list Z) (a : Z) :
  nth_error (children ++ [row0]) k = Some row -> nth_error added k = Some a ->
  (zlength row = a
   <-> forall j, (m <= j)%nat -> nth_error target j <> Some (Z.of_nat k)).
Proof.
  intros Hrow Ha.
  assert (Hc : 0 <= zlength row0) by (unfold zlength; lia).
  assert (Hr0 : length row0 = Z.to_nat (zlength row0))
    by (unfold zlength; rewrite Nat2Z.id; reflexivity).
  destruct (step_rows (firstn m target) children added tc (zlength row0) row0
              Hinv Hr0 k row a Hrow Ha) as [Hr Hf].
  destruct (state_sizes k row Hrow) as (row' & Hrow' & Hlen).
  destruct Htree as (T1 & T2 & T3 & T4 & T5).
  pose proof (T4 k row' Hrow') as Hk.
  rewrite <- (kids_complete target m k) by lia.
  rewrite <- Hf, <- Hk, <- Hlen, length_firstn. unfold zlength in *. split; lia.
Qed.

Lemma state_done :
  (forall k, k = (m - 1)%nat \/ anc (firstn m target) (m - 1) k ->
     exists row ak, nth_error (children ++ [row0]) k = Some row
                    /\ nth_error added k = Some ak /\ zlength row = ak) ->
  m = length target.
Proof.
  intros Hall. destruct (Nat.eq_dec m (length target)) as [|Hne]; [assumption|exfalso].
  destruct (nth_error target m) as [p|] eqn:Hp; [|apply nth_error_None in Hp; lia].
  destruct Htree as (T1 & T2 & T3 & T4 & T5).
  pose proof (T3 m p ltac:(lia) Hp) as Hb.
  assert (Hp' : nth_error target (S (m - 1)) = Some (Z.of_nat (Z.to_nat p))).
  { replace (S (m - 1)) with m by lia. rewrite Hp. f_equal. lia. }
  destruct (preorder_path target target_before T5 _ _ Hp') as [Hchain _].
  assert (Hchain' : Z.to_nat p = (m - 1)%nat
                    \/ anc (firstn m target) (m - 1) (Z.to_nat p)).
  { destruct Hchain as [Hc|Hc]; [left; exact Hc|right].
    apply (proj2 (anc_firstn target m (m - 1) _ target_before ltac:(lia))). exact Hc. }
  destruct (Hall _ Hchain') as (row & ak & R1 & R2 & R3).
  apply (proj1 (state_full _ _ _ R1 R2) R3 m (le_n m)).
  rewrite Hp. f_equal. lia.
Qed.

Lemma state_next (b : nat) (rowb : list Z) (ab : Z) :
  (b = (m - 1)%nat \/ anc (firstn m target) (m - 1) b) ->
  nth_error (children ++ [row0]) b = Some rowb ->
  nth_error added b = Some ab ->
  zlength rowb <> ab ->
  (forall k, k = (m - 1)%nat \/ anc (firstn m target) (m - 1) k ->
     ~ (k = b \/ anc (firstn m target) b k) ->
     exists row ak, nth_error (children ++ [row0]) k = Some row
                    /\ nth_error added k = Some ak /\ zlength row = ak) ->
  nth_error target m = Some (Z.of_nat b).
Proof.
  intros Hchainb Hrowb Hab Hopen Hall.
  pose proof (state_full b rowb ab Hrowb Hab) as Hfullb.
  assert (Hlt : (m < length target)%nat).
  { destruct (Nat.eq_dec m (length target)) as [He|]; [exfalso|lia].
    apply Hopen, Hfullb. intros j Hj Hp.
    assert (j < length target)%nat by (apply nth_error_Some; congruence). lia. }
  assert (Hbm : (b < m)%nat).
  { destruct Hchainb as [->|Hc]; [lia|].
    pose proof (anc_lt _ _ _ state_before Hc). lia. }
  assert (Hchainb' : b = (m - 1)%nat \/ anc target (m - 1) b).
  { destruct Hchainb as [Hc|Hc]; [left; exact Hc|right].
    apply (proj1 (anc_firstn target m (m - 1) _ target_before ltac:(lia))). exact Hc. }
  destruct (nth_error target m) as [p|] eqn:Hp; [|apply nth_error_None in Hp; lia].
  destruct Htree as (T1 & T2 & T3 & T4 & T5).
  pose proof (T3 m p ltac:(lia) Hp) as Hb.
  assert (Hp' : nth_error target (S (m - 1)) = Some (Z.of_nat (Z.to_nat p))).
  { replace (S (m - 1)) with m by lia. rewrite Hp. f_equal. lia. }
  destruct (preorder_path target target_before T5 _ _ Hp') as [Hchain Hpre].
  set (q := Z.to_nat p) in *.
  assert (Hq : nth_error target m = Some (Z.of_nat q)).
  { rewrite Hp. f_equal. unfold q. lia. }
  assert (Hbelow : anc target b q -> False).
  { intros Hbq. apply Hopen, Hfullb. intros j Hj.
    exact (Hpre b Hchainb' Hbq j ltac:(lia)). }
  assert (Habove : anc target q b -> False).
  { intros Hqb.
    assert (Hchain' : q = (m - 1)%nat \/ anc (firstn m target) (m - 1) q).
    { destruct Hchain as [Hc|Hc]; [left; exact Hc|right].
      apply (proj2 (anc_firstn target m (m - 1) _ target_before ltac:(lia))).
      exact Hc. }
    pose proof (anc_lt _ _ _ target_before Hqb) as Hlt1.
    assert (Hnot : ~ (q = b \/ anc (firstn m target) b q)).
    { intros [He|Hc]; [lia|].
      pose proof (anc_lt _ _ _ state_before Hc). lia. }
    destruct (Hall q Hchain' Hnot) as (row & ak & R1 & R2 & R3).
    exact (proj1 (state_full _ _ _ R1 R2) R3 m (le_n m) Hq). }
  assert (Hcases : q = b \/ anc target q b \/ anc target b q).
  { destruct Hchain as [Hc|Hc]; destruct Hchainb' as [Hd|Hd].
    - left. congruence.
    - right. left. rewrite Hc. exact Hd.
    - right. right. rewrite Hd. exact Hc.
    - exact (anc_linear target (m - 1) q b Hc Hd). }
  destruct Hcases as [He|[Hc|Hc]].
  - rewrite <- He, <- Hq. symmetry. exact Hp.
  - destruct (Habove Hc).
  - destruct (Hbelow Hc).
Qed.

End State.

(** Reading the numbers of children of a tree laid out in the order of
    a depth-first traversal gives back its parents and its rows of
    children. *)
Lemma read_structure_rebuilds (fuel : nat) :
  forall (n m : nat) (st st' : sistate) children added tc,
    length target = (m + n)%nat -> (1 <= m)%nat ->
    structure_inv (firstn m target) children added tc ->
    (forall k row, nth_error children k = Some row ->
       exists row', nth_error rows k = Some row' /\ length row = length row') ->
    readShortInts_from (S n) st = Ok (map zlength (skipn (m - 1) rows), st') ->
    (S n <= fuel)%nat ->
    read_structure fuel st (firstn m target) children added (Z.of_nat (m - 1)) tc
    = Ok (mkStructure target rows (empty_rows rows) st').
Proof.
  induction fuel as [|fuel IH];
    intros n m st st' children added tc Hlen Hm Hinv Hsz Hs Hfuel; [lia|].
  pose proof Htree as (T1 & T2 & T3 & T4 & T5).
  assert (Hm' : (1 <= m <= length target)%nat) by lia.
  pose proof (state_length m (proj2 Hm')) as Hlenm.
  destruct (nth_error rows (m - 1)) as [rowm|] eqn:Hrowm;
    [|apply nth_error_None in Hrowm; lia].
  rewrite (skipn_nth _ _ _ Hrowm) in Hs. replace (S (m - 1)) with m in Hs by lia.
  cbn [readShortInts_from map] in Hs.
  destruct (readShortInt st) as [[v st1]| |] eqn:E1; try discriminate.
  cbn [bind] in Hs.
  destruct (readShortInts_from n st1) as [[vs st2]| |] eqn:E2; try discriminate.
  cbn [bind] in Hs. apply Ok_inj in Hs. injection Hs as Hv Hvs Hst. subst v vs st2.
  cbn [read_structure].
  replace (Z.of_nat (m - 1) >=? 0) with true by (symmetry; apply Z.geb_le; lia).
  rewrite E1. cbn [bind].
  set (row0 := repeat 0 (Z.to_nat (zlength rowm))).
  assert (Erow0 : vector_of (zlength rowm) 0 = Ok row0).
  { unfold vector_of.
    replace (zlength rowm <? 0) with false
      by (symmetry; apply Z.ltb_ge; unfold zlength; lia).
    reflexivity. }
  rewrite Erow0. cbn [bind].
  assert (Hrow0 : length row0 = length rowm).
  { unfold row0. rewrite repeat_length. unfold zlength. apply Nat2Z.id. }
  assert (Hcount : 0 <= zlength rowm) by (unfold zlength; lia).
  assert (Hrow0' : length row0 = Z.to_nat (zlength rowm))
    by (rewrite Hrow0; unfold zlength; rewrite Nat2Z.id; reflexivity).
  pose proof Hinv as (A1 & A2 & A3 & A4 & _).
  pose proof (step_length _ _ _ _ _ row0 Hinv Hrow0') as Hlen1.
  destruct (climb_total (firstn m target) (children ++ [row0]) added A3 A4 Hlen1 A1
              (m - 1) (S (length (firstn m target))) ltac:(lia) ltac:(lia))
    as [a Hclimb].
  rewrite Hclimb. cbn [bind].
  destruct (climb_spec (firstn m target) (children ++ [row0]) added A3 A4 _ _ _ Hclimb)
    as [[Ha Hall]|(b & Ha & Hchain & (rowb & ab & Hrowb & Hab & Hopenb) & Hall)].
  - subst a. change (-1 >=? 0) with false.
    pose proof (state_done m children added tc row0 rowm Hm' Hinv Hsz Hrowm Hrow0 Hall)
      as Hend.
    assert (n = 0%nat) by lia. subst n.
    cbn [readShortInts_from] in E2. apply Ok_inj in E2. injection E2 as _ <-.
    assert (Hall' : forall k,
               k = (length (firstn m target) - 1)%nat
               \/ anc (firstn m target) (length (firstn m target) - 1) k ->
               exists row ak, nth_error (children ++ [row0]) k = Some row
                              /\ nth_error added k = Some ak /\ zlength row = ak)
      by (rewrite Hlenm; exact Hall).
    pose proof (step_done _ _ _ _ _ row0 Hinv Hcount Hrow0' st1 Hall')
      as (C1 & C2 & C3 & C4 & C5).
    cbn [st_parents st_children st_tipCount] in C1, C2, C3, C4, C5.
    assert (Ht : firstn m target = target) by (rewrite Hend; apply firstn_all).
    assert (Hrows : children ++ [row0] = rows).
    { apply nth_error_ext. intros k.
      destruct (nth_error (children ++ [row0]) k) as [row|] eqn:Hk.
      - pose proof (C4 k row Hk) as Hrow. rewrite Ht in Hrow.
        destruct (nth_error rows k) as [row'|] eqn:Hk'.
        + rewrite (T4 k row' Hk'). congruence.
        + apply nth_error_None in Hk'.
          assert (k < length (children ++ [row0]))%nat
            by (apply nth_error_Some; congruence).
          rewrite Hlen1, Hlenm in *. lia.
      - apply nth_error_None in Hk. symmetry. apply nth_error_None.
        rewrite Hlen1, Hlenm in Hk. lia. }
    rewrite C5, Ht, Hrows. reflexivity.
  - subst a.
    replace (Z.of_nat b >=? 0) with true by (symmetry; apply Z.geb_le; lia).
    assert (Hopen' : zlength rowb <> ab) by exact Hopenb.
    pose proof (state_next m children added tc row0 rowm Hm' Hinv Hsz Hrowm Hrow0
                  b rowb ab Hchain Hrowb Hab Hopen' Hall) as Hnext.
    assert (Hlt : (m < length target)%nat) by (apply nth_error_Some; congruence).
    destruct n as [|n]; [lia|].
    destruct (step_rows _ _ _ _ _ row0 Hinv Hrow0' b rowb ab Hrowb Hab)
      as [Hr _].
    assert (Hnew : wrap32 (zlength (firstn m target)) = Z.of_nat m).
    { unfold zlength. rewrite Hlenm. apply wrap32_small. unfold zlength in Hsize. lia. }
    rewrite Hnew, !vget_nat, Hrowb. cbn [bind]. rewrite Hab. cbn [bind].
    destruct (list_set_total rowb (Z.to_nat ab) (Z.of_nat m)) as [rowb' Erow];
      [unfold zlength in *; lia|].
    replace ab with (Z.of_nat (Z.to_nat ab)) at 1 by lia.
    rewrite vset_nat, Erow. cbn [bind].
    destruct (list_set_total (children ++ [row0]) b rowb') as [children2 Echildren];
      [apply nth_error_Some; congruence|].
    rewrite vset_nat, Echildren. cbn [bind].
    destruct (list_set_total added b (ab + 1)) as [added2 Eadded];
      [apply nth_error_Some; congruence|].
    rewrite vset_nat, Eadded. cbn [bind].
    rewrite <- (firstn_S_nth _ _ _ Hnext).
    replace (Z.of_nat m) with (Z.of_nat (S m - 1)) by lia.
    apply (IH n (S m) st1 st' children2 (added2 ++ [0])); [lia|lia| | | |lia].
    + rewrite (firstn_S_nth _ _ _ Hnext).
      assert (Hall' : forall k,
                 k = (length (firstn m target) - 1)%nat
                 \/ anc (firstn m target) (length (firstn m target) - 1) k ->
                 ~ (k = b \/ anc (firstn m target) b k) ->
                 exists row ak, nth_error (children ++ [row0]) k = Some row
                                /\ nth_error added k = Some ak /\ zlength row = ak)
        by (rewrite Hlenm; exact Hall).
      rewrite <- Hlenm in Erow.
      exact (step_next _ _ _ _ _ row0 Hinv Hcount Hrow0' b rowb rowb' ab
               children2 added2 Hrowb Hab Hall' Erow Echildren Eadded).
    + intros k row Hk. destruct (Nat.eq_dec k b) as [->|Hkb].
      * rewrite (list_set_same _ _ _ _ Echildren) in Hk. injection Hk as <-.
        destruct (state_sizes m children added tc row0 rowm Hm' Hinv Hsz Hrowm Hrow0
                    b rowb Hrowb) as (row' & R1 & R2).
        exists row'. split; [exact R1|].
        rewrite (list_set_length _ _ _ _ Erow). exact R2.
      * rewrite (list_set_other _ _ _ _ k Echildren Hkb) in Hk.
        exact (state_sizes m children added tc row0 rowm Hm' Hinv Hsz Hrowm Hrow0
                 k row Hk).
    + replace (S m - 1)%nat with m by lia. exact E2.
Qed.

End Rebuild.
(** * The order in which [addChildren] lays out a tree *)

Lemma filter_none {A : Type} (f : A -> bool) (l : list A) :
  (forall x, In x l -> f x = false) -> filter f l = [].
Proof.
  induction l as [|x r IH]; intros H; [reflexivity|].
  cbn [filter]. rewrite (H x (or_introl eq_refl)).
  apply IH. intros y Hy. apply H. right. exact Hy.
Qed.

(** The children of [k] among the first [b'] nodes are those among the
    first [b] and those from [b] on. *)
Lemma kids_firstn_split (parents : list Z) (b b' k : nat) :
  (b <= b' <= length parents)%nat ->
  kids (firstn b' parents) k
  = kids (firstn b parents) k
    ++ map Z.of_nat
         (filter (fun j => match nth_error parents j with
                           | Some p => p =? Z.of_nat k
                           | None => false
                           end)
            (seq b (b' - b))).
Proof.
  intros Hb. unfold kids. rewrite !length_firstn, !Nat.min_l by lia.
  replace b' with (b + (b' - b))%nat at 1 by lia.
  rewrite seq_app, filter_app, map_app. cbn [Nat.add]. f_equal; f_equal.
  - apply filter_ext_in. intros j Hj. apply in_seq in Hj.
    rewrite !nth_error_firstn_below by lia. reflexivity.
  - apply filter_ext_in. intros j Hj. apply in_seq in Hj.
    rewrite nth_error_firstn_below by lia. reflexivity.
Qed.

Lemma kids_firstn_ext (parents parents' : list Z) (b k : nat) :
  (b <= length parents)%nat -> (b <= length parents')%nat ->
  (forall j, (j < b)%nat -> nth_error parents' j = nth_error parents j) ->
  kids (firstn b parents') k = kids (firstn b parents) k.
Proof.
  intros H1 H2 Hsame. unfold kids. rewrite !length_firstn, !Nat.min_l by lia.
  f_equal. apply filter_ext_in. intros j Hj. apply in_seq in Hj.
  rewrite !nth_error_firstn_below by lia. rewrite Hsame by lia. reflexivity.
Qed.

(** The children of an older node inside the block of a new child: the
    child itself for its parent, none for any other node. *)
Lemma kids_of_block (parents : list Z) (c c' i k : nat) :
  (c < c')%nat -> (k < c)%nat ->
  nth_error parents c = Some (Z.of_nat i) ->
  (forall j, (c < j < c')%nat ->
     exists p, nth_error parents j = Some (Z.of_nat p) /\ (c <= p)%nat) ->
  filter (fun j => match nth_error parents j with
                   | Some p => p =? Z.of_nat k
                   | None => false
                   end)
    (seq c (c' - c))
  = if Nat.eq_dec k i then [c] else [].
Proof.
  intros Hc Hk Hroot Hrest.
  replace (c' - c)%nat with (S (c' - S c)) by lia. cbn [seq filter]. rewrite Hroot.
  assert (Hnone : filter (fun j => match nth_error parents j with
                                   | Some p => p =? Z.of_nat k
                                   | None => false
                                   end)
                    (seq (S c) (c' - S c)) = []).
  { apply filter_none. intros j Hj. apply in_seq in Hj.
    destruct (Hrest j ltac:(lia)) as (p & Hp & Hcp). rewrite Hp.
    apply Z.eqb_neq. lia. }
  rewrite Hnone. destruct (Nat.eq_dec k i) as [->|Hne].
  - rewrite Z.eqb_refl. reflexivity.
  - replace (Z.of_nat i =? Z.of_nat k) with false
      by (symmetry; apply Z.eqb_neq; lia).
    reflexivity.
Qed.

Lemma kids_nobody (parents : list Z) (k : nat) :
  (forall j p, nth_error parents j = Some p -> p <> Z.of_nat k) ->
  kids parents k = [].
Proof.
  intros H. unfold kids. rewrite filter_none; [reflexivity|].
  intros j _. destruct (nth_error parents j) as [p|] eqn:Hp; [|reflexivity].
  apply Z.eqb_neq. exact (H j p Hp).
Qed.

(** The nodes stored by a call come after their parents, as those
    stored before. *)
Lemma visited_before (st0 st : dfs_state) (parent : Z) (i i' : nat) :
  ready st0 parent i -> visited st0 st parent i i' ->
  forall j p, (j < i')%nat -> nth_error (sortedParents st) j = Some p ->
              p < Z.of_nat j.
Proof.
  intros (R1 & R2 & R3 & R4 & R5) (V1 & V2 & V3 & V4 & V5 & V6 & V7 & V8 & V9 & V10)
    j p Hj Hp.
  destruct (Nat.lt_trichotomy j i) as [Hlt|[->|Hgt]].
  - rewrite V5 in Hp by exact Hlt. exact (R3 j p Hlt Hp).
  - rewrite V8 in Hp. injection Hp as <-. exact R4.
  - destruct (V9 j ltac:(lia)) as (q & Hq & Hrange & _).
    rewrite Hq in Hp. injection Hp as <-. lia.
Qed.

(** The state in which the loop over the children starts. *)
Lemma visited_start (st0 : dfs_state) (parent : Z) (i : nat)
    (sp sn : list Z) :
  ready st0 parent i ->
  list_set (sortedParents st0) i parent = Some sp ->
  visited st0 (mkDfs sp (sortedChildren st0) sn (currIndex st0 + 1)) parent i (S i).
Proof.
  intros (R1 & R2 & R3 & R4 & R5) Hsp.
  pose proof (list_set_length _ _ _ _ Hsp) as Hlen.
  pose proof (list_set_same _ _ _ _ Hsp) as Hsame.
  assert (Hi : (i < length sp)%nat) by (apply nth_error_Some; congruence).
  unfold visited. cbn [sortedParents sortedChildren currIndex].
  split; [lia|]. split; [lia|]. split; [exact Hlen|]. split; [reflexivity|].
  split; [intros j Hj; apply (list_set_other _ _ _ _ j Hsp); lia|].
  split; [reflexivity|].
  split; [intros k Hk; apply R5; lia|].
  split; [exact Hsame|].
  split; [intros j Hj; lia|].
  intros k Hk. assert (k = i) by lia. subst k.
  rewrite R5 by lia. f_equal. symmetry. apply kids_nobody.
  intros j p Hp. apply nth_error_firstn_some in Hp as Hp'.
  assert (Hj : (j < S i)%nat).
  { assert (j < length (firstn (S i) sp))%nat by (apply nth_error_Some; congruence).
    rewrite length_firstn in *. lia. }
  destruct (Nat.eq_dec j i) as [->|Hne].
  - rewrite Hsame in Hp'. injection Hp' as <-. lia.
  - rewrite (list_set_other _ _ _ _ j Hsp Hne) in Hp'.
    specialize (R3 j p ltac:(lia) Hp'). lia.
Qed.

(** The state after one more child: its block joins the nodes visited
    so far, and the child is appended to the row of its parent. *)
Lemma visited_extend (st0 st st2 : dfs_state) (parent : Z) (i c c' : nat)
    (row : list Z) (sc : list (list Z)) :
  visited st0 st parent i c ->
  visited st st2 (Z.of_nat i) c c' ->
  nth_error (sortedChildren st2) i = Some row ->
  list_set (sortedChildren st2) i (row ++ [Z.of_nat c]) = Some sc ->
  visited st0 (mkDfs (sortedParents st2) sc (sortedNodes st2) (currIndex st2))
    parent i c'.
Proof.
  intros (A1 & A2 & A3 & A4 & A5 & A6 & A7 & A8 & A9 & A10)
         (B1 & B2 & B3 & B4 & B5 & B6 & B7 & B8 & B9 & B10) Hrow Hsc.
  pose proof (list_set_length _ _ _ _ Hsc) as Hlen.
  unfold visited. cbn [sortedParents sortedChildren currIndex].
  split; [exact B1|]. split; [lia|]. split; [lia|]. split; [lia|].
  split; [intros j Hj; rewrite B5 by lia; apply A5; exact Hj|].
  split; [intros k Hk; rewrite (list_set_other _ _ _ _ k Hsc) by lia;
          rewrite B6 by lia; apply A6; exact Hk|].
  split; [intros k Hk; rewrite (list_set_other _ _ _ _ k Hsc) by lia;
          apply B7; lia|].
  split; [rewrite B5 by lia; exact A8|].
  assert (Hinside : forall j, (c < j < c')%nat ->
            exists p, nth_error (sortedParents st2) j = Some (Z.of_nat p)
                      /\ (c <= p)%nat).
  { intros j Hj. destruct (B9 j Hj) as (p & Hp & Hr & _). exists p. split; [exact Hp|lia]. }
  split.
  - intros j Hj. destruct (Nat.lt_trichotomy j c) as [Hlt|[->|Hgt]].
    + destruct (A9 j ltac:(lia)) as (p & Hp & Hr & Hnc).
      exists p. split; [rewrite B5 by lia; exact Hp|]. split; [exact Hr|].
      intros t q Ht Hq. rewrite B5 in Hq by lia. exact (Hnc t q Ht Hq).
    + exists i. split; [exact B8|]. split; [lia|].
      intros t q Ht Hq. rewrite B5 in Hq by lia.
      destruct (A9 t ltac:(lia)) as (p & Hp & Hr & _).
      rewrite Hp in Hq. injection Hq as <-. lia.
    + destruct (B9 j ltac:(lia)) as (p & Hp & Hr & Hnc).
      exists p. split; [exact Hp|]. split; [lia|exact Hnc].
  - intros k Hk.
    destruct (Nat.lt_ge_cases k c) as [Hlt|Hge].
    + rewrite (kids_firstn_split (sortedParents st2) c c' k) by lia.
      rewrite (kids_of_block (sortedParents st2) c c' i k ltac:(lia) Hlt B8 Hinside).
      rewrite (kids_firstn_ext (sortedParents st) (sortedParents st2) c k)
        by (try lia; intros j Hj; apply B5; exact Hj).
      destruct (Nat.eq_dec k i) as [->|Hne].
      * rewrite (list_set_same _ _ _ _ Hsc). f_equal. f_equal.
        rewrite B6 in Hrow by lia. rewrite A10 in Hrow by lia.
        injection Hrow as <-. reflexivity.
      * rewrite (list_set_other _ _ _ _ k Hsc Hne). cbn [map]. rewrite app_nil_r.
        rewrite B6 by lia. apply A10. lia.
    + rewrite (list_set_other _ _ _ _ k Hsc) by lia. apply B10. lia.
Qed.

Lemma visited_ready (st0 st : dfs_state) (parent : Z) (i c : nat) :
  ready st0 parent i -> visited st0 st parent i c -> ready st (Z.of_nat i) c.
Proof.
  intros Hready Hvis. pose proof (visited_before _ _ _ _ _ Hready Hvis) as Hbefore.
  destruct Hready as (R1 & R2 & R3 & R4 & R5).
  destruct Hvis as (V1 & V2 & V3 & V4 & V5 & V6 & V7 & V8 & V9 & V10).
  unfold ready. split; [exact V1|]. split; [lia|]. split; [exact Hbefore|].
  split; [lia|exact V7].
Qed.

(** A call of [addChildren] returns the index at which it started and
    leaves the block of its node filled in. *)
Lemma addChildren_visits (fuel : nat) :
  forall (children : list (list Z)) (st : dfs_state) (node parent : Z) (i : nat)
         (ind : Z) (st' : dfs_state),
    ready st parent i ->
    addChildren fuel children st node parent = Ok (ind, st') ->
    ind = Z.of_nat i /\ exists i', visited st st' parent i i'.
Proof.
  induction fuel as [|fuel IH]; intros children st0 node parent i ind st' Hready H;
    [discriminate|].
  pose proof Hready as (R1 & R2 & R3 & R4 & R5).
  cbn [addChildren] in H. rewrite R1 in H.
  destruct (vset (sortedParents st0) (Z.of_nat i) parent) as [sp| |] eqn:Esp;
    try discriminate.
  cbn [bind] in H.
  destruct (vset (sortedNodes st0) (Z.of_nat i) node) as [sn| |] eqn:Esn;
    try discriminate.
  cbn [bind] in H.
  destruct (vget children node) as [mine| |]; try discriminate.
  cbn [bind] in H.
  destruct (vset_Ok _ _ _ _ Esp) as [_ Esp']. rewrite Nat2Z.id in Esp'.
  pose proof (visited_start st0 parent i sp sn Hready Esp') as Hstart.
  rewrite R1 in Hstart.
  revert H Hstart.
  generalize (mkDfs sp (sortedChildren st0) sn (Z.of_nat i + 1)).
  generalize (S i) at 1.
  induction mine as [|child rest IHrest]; intros c st H Hvis.
  - apply Ok_inj in H. injection H as <- <-. split; [reflexivity|].
    exists c. exact Hvis.
  - destruct (addChildren fuel children st child (Z.of_nat i)) as [[childInd st2]| |]
      eqn:Echild; try discriminate.
    cbn [bind] in H.
    destruct (IH children st child (Z.of_nat i) c childInd st2
                (visited_ready _ _ _ _ _ Hready Hvis) Echild) as [-> [c' Hvis2]].
    rewrite vget_nat in H.
    destruct (nth_error (sortedChildren st2) i) as [row|] eqn:Hrow; try discriminate.
    cbn [bind] in H.
    destruct (vset (sortedChildren st2) (Z.of_nat i) (row ++ [Z.of_nat c]))
      as [sc| |] eqn:Esc; try discriminate.
    cbn [bind] in H.
    destruct (vset_Ok _ _ _ _ Esc) as [_ Esc']. rewrite Nat2Z.id in Esc'.
    exact (IHrest c' _ H (visited_extend _ _ _ _ _ _ _ _ _ Hvis Hvis2 Hrow Esc')).
Qed.

(** * What [traverse] leaves in its vectors *)

Lemma kids_length (parents : list Z) (k : nat) :
  (length (kids parents k) <= length parents)%nat.
Proof.
  unfold kids. rewrite length_map.
  etransitivity; [apply filter_length_le|]. rewrite length_seq. lia.
Qed.

Lemma kids_firstn_all (parents : list Z) (n k : nat) :
  (n <= length parents)%nat ->
  kids (firstn n parents) k
  = map Z.of_nat
      (filter (fun j => match nth_error parents j with
                        | Some p => p =? Z.of_nat k
                        | None => false
                        end)
         (seq 0 n)).
Proof.
  intros Hn. unfold kids. rewrite length_firstn, Nat.min_l by exact Hn.
  f_equal. apply filter_ext_in. intros j Hj. apply in_seq in Hj.
  rewrite nth_error_firstn_below by lia. reflexivity.
Qed.

(** The nodes of a finished block form a tree in the order of the
    traversal. *)
Lemma block_preorder (parents : list Z) (children : list (list Z)) (n : nat) :
  (0 < n <= length parents)%nat ->
  length children = length parents ->
  nth_error parents 0 = Some (-1) ->
  block parents children 0 n ->
  preorder_tree (firstn n parents) (firstn n children).
Proof.
  intros Hn Hlen Hroot [Hpar Hrows]. unfold preorder_tree.
  split; [rewrite !length_firstn; lia|].
  split; [rewrite nth_error_firstn_below by lia; exact Hroot|].
  split.
  { intros m p Hm Hp.
    assert (Hmn : (m < n)%nat).
    { assert (m < length (firstn n parents))%nat by (apply nth_error_Some; congruence).
      rewrite length_firstn in *. lia. }
    apply nth_error_firstn_some in Hp.
    destruct (Hpar m ltac:(lia)) as (q & Hq & Hr & _).
    rewrite Hq in Hp. injection Hp as <-. lia. }
  split.
  { intros k row Hk.
    assert (Hkn : (k < n)%nat).
    { assert (k < length (firstn n children))%nat by (apply nth_error_Some; congruence).
      rewrite length_firstn in *. lia. }
    apply nth_error_firstn_some in Hk. rewrite Hrows in Hk by lia.
    injection Hk as <-. reflexivity. }
  intros j t p q Hp Hq Hpt Htj.
  assert (Hjn : (j < n)%nat).
  { assert (j < length (firstn n parents))%nat by (apply nth_error_Some; congruence).
    rewrite length_firstn in *. lia. }
  apply nth_error_firstn_some in Hp. apply nth_error_firstn_some in Hq.
  destruct (Hpar j ltac:(lia)) as (p' & Hp' & Hr & Hnc).
  rewrite Hp' in Hp. injection Hp as <-.
  exact (Hnc t q ltac:(lia) Hq).
Qed.

Lemma nth_error_repeat_some {A : Type} (x : A) (n k : nat) :
  (k < n)%nat -> nth_error (repeat x n) k = Some x.
Proof.
  revert k. induction n as [|n IH]; intros [|k] H; try lia; [reflexivity|].
  cbn [repeat nth_error]. apply IH. lia.
Qed.

(** [traverse] fills a block that starts with the root. *)
Lemma traverse_visits (tree : phylo) (dfs : dfs_state) :
  traverse tree = Ok dfs ->
  exists n,
    currIndex dfs = Z.of_nat n
    /\ (0 < n <= length (sortedParents dfs))%nat
    /\ length (sortedChildren dfs) = length (sortedParents dfs)
    /\ nth_error (sortedParents dfs) 0 = Some (-1)
    /\ block (sortedParents dfs) (sortedChildren dfs) 0 n.
Proof.
  unfold traverse. intros H.
  destruct (vector_of (Nnode tree + zlength (tipLabel tree) + 1) 0) as [parents| |];
    try discriminate.
  cbn [bind] in H.
  destruct (vector_of (Nnode tree + zlength (tipLabel tree) + 1) ([] : list Z))
    as [children| |]; try discriminate.
  cbn [bind] in H.
  destruct (vector_of (Nnode tree + zlength (tipLabel tree)) 0) as [sp| |] eqn:Esp;
    try discriminate.
  cbn [bind] in H.
  destruct (vector_of (Nnode tree + zlength (tipLabel tree)) ([] : list Z))
    as [sc| |] eqn:Esc; try discriminate.
  cbn [bind] in H.
  destruct (fill_adjacency (edge tree) children parents) as [[children' parents']| |];
    try discriminate.
  cbn [bind] in H.
  destruct (addChildren (S (length sp)) children' (mkDfs sp sc sp 0)
              (find_root 1 (tl parents')) (-1)) as [[ind st]| |] eqn:Ecall;
    try discriminate.
  cbn [bind] in H. apply Ok_inj in H. subst st.
  assert (Hready : ready (mkDfs sp sc sp 0) (-1) 0).
  { unfold ready. cbn [currIndex sortedParents sortedChildren].
    split; [reflexivity|].
    split; [rewrite (vector_of_length _ _ _ Esp), (vector_of_length _ _ _ Esc);
            reflexivity|].
    split; [intros j p Hj; lia|]. split; [lia|].
    intros k Hk. unfold vector_of in Esc.
    destruct (Nnode tree + zlength (tipLabel tree) <? 0); [discriminate|].
    apply Ok_inj in Esc. subst sc. rewrite repeat_length in Hk.
    apply nth_error_repeat_some. lia. }
  destruct (addChildren_visits _ _ _ _ _ _ _ _ Hready Ecall) as [_ [n Hvis]].
  destruct Hvis as (V1 & V2 & V3 & V4 & V5 & V6 & V7 & V8 & V9).
  cbn [sortedParents sortedChildren] in V3, V4.
  exists n. split; [exact V1|]. split; [lia|].
  split; [destruct Hready as (_ & R2 & _); cbn [sortedParents sortedChildren] in R2; lia|].
  split; [exact V8|exact V9].
Qed.

(** * The bytes the counts take *)

Lemma packed_bits (v cb ci : Z) :
  cursor_ok cb ci -> count_ok v ->
  let '(out, _, ci') := packed v cb ci in
  ci + 2 <= ci' + 8 * zlength out.
Proof.
  intros Hc Hv. pose proof (writeInt_length v) as Hw.
  destruct (value_cases v Hv) as [->|[->|[->|[->|[->|[->|Hbig]]]]]];
  destruct Hc as [[-> ->]|[[-> Hcb]|[[-> Hcb]|[-> Hcb]]]];
  unfold packed, code_of; decide_tests;
  unfold zlength; cbn [app length]; try rewrite length_app; cbn [length]; lia.
Qed.

Lemma writeShortInts_bits (vs : list Z) :
  forall cb ci bytes,
    cursor_ok cb ci -> Forall count_ok vs ->
    writeShortInts_from vs cb ci = Ok bytes ->
    2 * zlength vs + ci <= 8 * zlength bytes.
Proof.
  induction vs as [|v vs IH]; intros cb ci bytes Hc Hvs Hw.
  - cbn [writeShortInts_from] in Hw.
    destruct Hc as [[-> ->]|[[-> Hcb]|[[-> Hcb]|[-> Hcb]]]];
      cbn in Hw; apply Ok_inj in Hw; subst bytes; cbn; lia.
  - inversion Hvs as [|? ? Hv Hvs']; subst.
    cbn [writeShortInts_from] in Hw. rewrite (writeShortInt_packed v cb ci Hc Hv) in Hw.
    pose proof (packed_shape v cb ci Hc Hv) as Hs.
    pose proof (packed_bits v cb ci Hc Hv) as Hb.
    destruct (packed v cb ci) as [[out cb'] ci']. cbv [bind] in Hw.
    destruct Hs as [Hc' _].
    destruct (writeShortInts_from vs cb' ci') as [more| |] eqn:E; try discriminate.
    apply Ok_inj in Hw. subst bytes.
    specialize (IH cb' ci' more Hc' Hvs' E).
    unfold zlength in *. rewrite length_app. cbn [length]. lia.
Qed.

(** The counts the writer packs are found again by the reader, which
    ends where the writer stopped. *)
Lemma written_counts_are_read (counts pre rest : list Z) :
  Forall count_ok counts -> rest <> [] ->
  exists bytes b st',
    writeShortInts counts = Ok bytes
    /\ readByte (mkStream (pre ++ bytes ++ rest) (length pre) false)
       = Ok (b, advance (mkStream (pre ++ bytes ++ rest) (length pre) false) 1)
    /\ readShortInts_from (length counts)
         (advance (mkStream (pre ++ bytes ++ rest) (length pre) false) 1, b, 0)
       = Ok (counts, st')
    /\ rewind st' = mkStream (pre ++ bytes ++ rest) (length pre + length bytes) false.
Proof.
  intros Hvs Hrest.
  assert (Hc0 : cursor_ok 0 0) by (left; split; reflexivity).
  destruct (writeShortInts_total counts 0 0 Hc0 Hvs) as (bytes & cf & Hw & Hcur).
  set (s0 := mkStream (pre ++ bytes ++ rest) (length pre) false).
  assert (Hrem0 : remaining s0 = bytes ++ rest).
  { unfold remaining, s0. cbn [spos sdata].
    rewrite skipn_app, Nat.sub_diag, skipn_all. reflexivity. }
  assert (HBR : exists B R, bytes ++ rest = B :: R).
  { destruct (bytes ++ rest) as [|B R] eqn:EB; [|eauto].
    apply app_eq_nil in EB. destruct EB as [_ ->]. contradiction. }
  destruct HBR as (B & R & EB). rewrite EB in Hrem0.
  pose proof (readByte_ok s0 B R eq_refl Hrem0) as Hrb.
  assert (Hrem1 : B :: remaining (advance s0 1) = bytes ++ rest).
  { rewrite EB. f_equal. exact (remaining_step s0 [B] R Hrem0). }
  destruct (readShortInts_from_written counts 0 0 bytes (advance s0 1) B rest
              Hc0 Hvs Hw eq_refl Hrem1 (fun _ => Hrest))
    as (s' & B' & ci' & Hread & Hcur' & Hd & Hfl & Hpos & _).
  rewrite Hcur in Hcur'. apply Ok_inj in Hcur'. subst ci'.
  exists bytes, B, (s', B', cf). fold s0.
  split; [exact Hw|]. split; [exact Hrb|]. split; [exact Hread|].
  unfold rewind. destruct s' as [d p f]. cbn [sdata sfail spos advance] in Hd, Hfl, Hpos.
  subst d f. unfold s0 in Hpos. cbn [spos] in Hpos.
  destruct (Z.eqb cf 0).
  - unfold seekg_cur, seekg. cbn [sfail spos sdata].
    destruct (Z.ltb_spec (Z.of_nat p + -1) 0); [lia|].
    unfold s0. cbn [sdata]. f_equal. lia.
  - unfold s0. cbn [sdata]. f_equal. lia.
Qed.
(** * The structure of a tree through the binary format *)

(** X26. The canonical traversal lays a tree out in depth-first
    order.  When [traverse] returns, the entries of [sortedParents] and
    [sortedChildren] below [*currIndex] (the nodes it has visited, at
    least one and at most as many as the vectors hold) form a tree: the
    first node is the root, every other node comes after its parent,
    every row holds the children of its node in increasing order, and
    the nodes between a parent and one of its children are all below that
    parent. *)
Theorem traverse_is_depth_first (tree : phylo) (dfs : dfs_state) :
  traverse tree = Ok dfs ->
  0 < currIndex dfs <= zlength (sortedParents dfs)
  /\ preorder_tree (firstn (Z.to_nat (currIndex dfs)) (sortedParents dfs))
       (firstn (Z.to_nat (currIndex dfs)) (sortedChildren dfs)).
Proof.
  intros H. destruct (traverse_visits tree dfs H) as (n & Hn & Hr & Hlen & Hroot & Hb).
  rewrite Hn, Nat2Z.id. split; [unfold zlength; lia|].
  exact (block_preorder _ _ n Hr Hlen Hroot Hb).
Qed.

(** X27. The structure of a tree survives the binary format.  When the
    traversal has visited every node of a tree with fewer than 2^31
    nodes, the numbers of children that [writeBinaryTree] packs are
    accepted by the loop of [readBinaryTree] wherever they stand in a
    file, provided a byte follows them (in a record, the data of the
    nodes do): the loop returns the parents and the rows of children of
    the traversal, the number of tips is the number of empty rows, and
    the reader is left where the packed numbers end. *)
Theorem structure_roundtrip (tree : phylo) (dfs : dfs_state) (pre rest : list Z) :
  traverse tree = Ok dfs ->
  currIndex dfs = zlength (sortedParents dfs) ->
  zlength (sortedParents dfs) < 2147483648 ->
  rest <> [] ->
  exists bytes currByte s st',
    writeShortInts (map (fun row => wrap32 (zlength row)) (sortedChildren dfs))
    = Ok bytes
    /\ readByte (mkStream (pre ++ bytes ++ rest) (length pre) false) = Ok (currByte, s)
    /\ read_structure (S (8 * length (pre ++ bytes ++ rest))) (s, currByte, 0)
         [-1] [] [0] 0 0
       = Ok (mkStructure (sortedParents dfs) (sortedChildren dfs)
               (empty_rows (sortedChildren dfs)) st')
    /\ rewind st'
       = mkStream (pre ++ bytes ++ rest) (length pre + length bytes) false.
Proof.
  intros H Hall Hsize Hrest.
  destruct (traverse_visits tree dfs H) as (n & Hn & Hr & Hlen & Hroot & Hb).
  assert (n = length (sortedParents dfs)) by (unfold zlength in Hall; lia). subst n.
  pose proof (block_preorder _ _ _ Hr Hlen Hroot Hb) as Htree.
  rewrite firstn_all in Htree. rewrite <- Hlen in Htree at 1. rewrite firstn_all in Htree.
  set (P := sortedParents dfs) in *. set (C := sortedChildren dfs) in *.
  pose proof Htree as (T1 & T2 & T3 & T4 & T5).
  assert (Hrows : forall row, In row C -> 0 <= zlength row < 2147483648).
  { intros row Hin. apply In_nth_error in Hin. destruct Hin as [k Hk].
    rewrite (T4 k row Hk). pose proof (kids_length P k).
    unfold zlength in *. lia. }
  assert (Hcounts : map (fun row => wrap32 (zlength row)) C = map zlength C).
  { apply map_ext_in. intros row Hin. apply wrap32_small.
    specialize (Hrows row Hin). lia. }
  assert (Hok : Forall count_ok (map zlength C)).
  { apply Forall_forall. intros v Hv. apply in_map_iff in Hv.
    destruct Hv as (row & <- & Hin). exact (Hrows row Hin). }
  destruct (written_counts_are_read (map zlength C) pre rest Hok Hrest)
    as (bytes & b & st' & Hw & Hrb & Hread & Hrew).
  exists bytes, b, (advance (mkStream (pre ++ bytes ++ rest) (length pre) false) 1), st'.
  rewrite Hcounts. split; [exact Hw|]. split; [exact Hrb|]. split; [|exact Hrew].
  assert (Hfirst : firstn 1 P = [-1]).
  { destruct P as [|p0 r]; [discriminate T2|]. cbn in T2. injection T2 as ->.
    reflexivity. }
  assert (Hbits : 2 * zlength (map zlength C) + 0 <= 8 * zlength bytes).
  { apply (writeShortInts_bits _ 0 0 bytes); [left; split; reflexivity|exact Hok|exact Hw]. }
  unfold zlength in Hbits. rewrite length_map in Hbits, Hread.
  pose proof (read_structure_rebuilds P C Htree Hsize
                (S (8 * length (pre ++ bytes ++ rest))) (length P - 1) 1
                (advance (mkStream (pre ++ bytes ++ rest) (length pre) false) 1, b, 0)
                st' [] [0] 0) as Hgo.
  rewrite Hfirst in Hgo. apply Hgo.
  - lia.
  - lia.
  - exact structure_inv_start.
  - intros k row Hk. destruct k; discriminate Hk.
  - cbn [skipn Nat.sub]. replace (S (length P - 1)) with (length C) by lia. exact Hread.
  - rewrite !length_app. lia.
Qed.
(** * The nodes behind the sorted indices *)

Lemma names_nodes_later (nodes nodes' : list Z) (b b' : nat) (row mine : list Z) :
  (b <= b')%nat ->
  (forall j, (j < b)%nat -> nth_error nodes' j = nth_error nodes j) ->
  names_nodes nodes b row mine -> names_nodes nodes' b' row mine.
Proof.
  intros Hb Hsame H. unfold names_nodes in *.
  induction H as [|j node row mine [Hj Hn] _ IH]; constructor; [|exact IH].
  split; [lia|]. rewrite Hsame by lia. exact Hn.
Qed.

(** [fill_adjacency] appends to the row of every node the children the
    edges give it. *)
Lemma fill_adjacency_rows (edges : list (list Z)) :
  forall children parents children' parents',
    fill_adjacency edges children parents = Ok (children', parents') ->
    forall v row, nth_error children v = Some row ->
      nth_error children' v = Some (row ++ edge_children edges (Z.of_nat v)).
Proof.
  induction edges as [|e rest IH]; intros children parents children' parents' H v row Hv.
  - cbn [fill_adjacency] in H. apply Ok_inj in H. injection H as <- _.
    cbn [edge_children]. rewrite app_nil_r. exact Hv.
  - cbn [fill_adjacency] in H.
    destruct (vget e 0) as [e0| |] eqn:E0; try discriminate. cbn [bind] in H.
    destruct (vget e 1) as [e1| |] eqn:E1; try discriminate. cbn [bind] in H.
    destruct (vget children e0) as [row0| |] eqn:Erow; try discriminate.
    cbn [bind] in H.
    destruct (vset children e0 (row0 ++ [e1])) as [children2| |] eqn:Eset;
      try discriminate.
    cbn [bind] in H.
    destruct (vset parents e1 e0) as [parents2| |]; try discriminate.
    cbn [bind] in H.
    destruct (vget_Ok _ _ _ E0) as [_ G0]. destruct (vget_Ok _ _ _ E1) as [_ G1].
    destruct e as [|x0 [|x1 e']]; try discriminate.
    cbn in G0, G1. injection G0 as ->. injection G1 as ->.
    destruct (vget_Ok _ _ _ Erow) as [He0 Grow].
    destruct (vset_Ok _ _ _ _ Eset) as [_ Gset].
    cbn [edge_children].
    destruct (Z.eqb_spec e0 (Z.of_nat v)) as [He|Hne].
    + assert (Z.to_nat e0 = v) by lia. subst v.
      rewrite Hv in Grow. injection Grow as <-.
      rewrite (IH _ _ _ _ H _ _ (list_set_same _ _ _ _ Gset)).
      rewrite <- app_assoc. reflexivity.
    + apply (IH _ _ _ _ H).
      rewrite (list_set_other _ _ _ _ v Gset) by lia. exact Hv.
Qed.

Lemma fill_adjacency_length (edges : list (list Z)) :
  forall children parents children' parents',
    fill_adjacency edges children parents = Ok (children', parents') ->
    length children' = length children.
Proof.
  induction edges as [|e rest IH]; intros children parents children' parents' H.
  - cbn [fill_adjacency] in H. apply Ok_inj in H. injection H as <- _. reflexivity.
  - cbn [fill_adjacency] in H.
    destruct (vget e 0) as [e0| |]; try discriminate. cbn [bind] in H.
    destruct (vget e 1) as [e1| |]; try discriminate. cbn [bind] in H.
    destruct (vget children e0) as [row0| |]; try discriminate. cbn [bind] in H.
    destruct (vset children e0 (row0 ++ [e1])) as [children2| |] eqn:Eset;
      try discriminate.
    cbn [bind] in H.
    destruct (vset parents e1 e0) as [parents2| |]; try discriminate.
    cbn [bind] in H.
    destruct (vset_Ok _ _ _ _ Eset) as [_ Gset].
    rewrite (IH _ _ _ _ H). exact (list_set_length _ _ _ _ Gset).
Qed.

(** A call of [addChildren] stores its node at the index at which it
    started, and the rows it fills stand for the rows of the same nodes
    in [children]. *)
Lemma addChildren_keeps (fuel : nat) :
  forall (children : list (list Z)) (st : dfs_state) (node parent : Z) (i : nat)
         (ind : Z) (st' : dfs_state),
    ready st parent i ->
    addChildren fuel children st node parent = Ok (ind, st') ->
    exists i',
      visited st st' parent i i'
      /\ (forall j, (j < i)%nat ->
            nth_error (sortedNodes st') j = nth_error (sortedNodes st) j)
      /\ nth_error (sortedNodes st') i = Some node
      /\ rows_kept children st' i i'.
Proof.
  induction fuel as [|fuel IH]; intros children st0 node parent i ind st' Hready H;
    [discriminate|].
  pose proof Hready as (R1 & R2 & R3 & R4 & R5).
  cbn [addChildren] in H. rewrite R1 in H.
  destruct (vset (sortedParents st0) (Z.of_nat i) parent) as [sp| |] eqn:Esp;
    try discriminate.
  cbn [bind] in H.
  destruct (vset (sortedNodes st0) (Z.of_nat i) node) as [sn| |] eqn:Esn;
    try discriminate.
  cbn [bind] in H.
  destruct (vget children node) as [mine| |] eqn:Emine; try discriminate.
  cbn [bind] in H.
  destruct (vset_Ok _ _ _ _ Esp) as [_ Esp']. rewrite Nat2Z.id in Esp'.
  destruct (vset_Ok _ _ _ _ Esn) as [_ Esn']. rewrite Nat2Z.id in Esn'.
  pose proof (visited_start st0 parent i sp sn Hready Esp') as Hstart.
  rewrite R1 in Hstart.
  match type of H with
  | ?f ?cs ?s1 = _ => set (each := f) in H; set (st1 := s1) in *
  end.
  assert (Hloop :
    forall cs done c st row,
      mine = done ++ cs ->
      visited st0 st parent i c ->
      (forall j, (j < i)%nat ->
         nth_error (sortedNodes st) j = nth_error (sortedNodes st0) j) ->
      nth_error (sortedNodes st) i = Some node ->
      rows_kept children st (S i) c ->
      nth_error (sortedChildren st) i = Some row ->
      names_nodes (sortedNodes st) c row done ->
      each cs st = Ok (ind, st') ->
      exists i',
        visited st0 st' parent i i'
        /\ (forall j, (j < i)%nat ->
              nth_error (sortedNodes st') j = nth_error (sortedNodes st0) j)
        /\ nth_error (sortedNodes st') i = Some node
        /\ rows_kept children st' i i').
  { induction cs as [|child cs IHcs];
      intros done c st row Hsplit Hvis Hold Hnode Hkept Hrow Hnames Hrun.
    - unfold each in Hrun. apply Ok_inj in Hrun. injection Hrun as _ <-.
      rewrite app_nil_r in Hsplit. subst done.
      exists c. split; [exact Hvis|]. split; [exact Hold|]. split; [exact Hnode|].
      intros k Hk. destruct (Nat.eq_dec k i) as [->|Hne].
      + exists node, row, mine. repeat split; assumption.
      + apply Hkept. lia.
    - unfold each in Hrun. lazy beta iota in Hrun. fold each in Hrun.
      destruct (addChildren fuel children st child (Z.of_nat i))
        as [[childInd st2]| |] eqn:Echild; try discriminate.
      cbn [bind] in Hrun.
      pose proof (visited_ready _ _ _ _ _ Hready Hvis) as Hready2.
      destruct (addChildren_visits _ _ _ _ _ _ _ _ Hready2 Echild) as [-> _].
      destruct (IH children st child (Z.of_nat i) c _ st2 Hready2 Echild)
        as (c' & Hvis2 & Hold2 & Hnode2 & Hkept2).
      rewrite vget_nat in Hrun.
      destruct (nth_error (sortedChildren st2) i) as [row2|] eqn:Hrow2;
        try discriminate.
      cbn [bind] in Hrun.
      destruct (vset (sortedChildren st2) (Z.of_nat i) (row2 ++ [Z.of_nat c]))
        as [sc| |] eqn:Esc; try discriminate.
      cbn [bind] in Hrun.
      destruct (vset_Ok _ _ _ _ Esc) as [_ Esc']. rewrite Nat2Z.id in Esc'.
      pose proof Hvis as (A1 & A2 & _).
      pose proof Hvis2 as (B1 & B2 & B3 & B4 & B5 & B6 & _).
      assert (Hrows : row2 = row).
      { rewrite B6 in Hrow2 by lia. rewrite Hrow in Hrow2. injection Hrow2 as <-.
        reflexivity. }
      subst row2.
      apply (IHcs (done ++ [child]) c'
               (mkDfs (sortedParents st2) sc (sortedNodes st2) (currIndex st2))
               (row ++ [Z.of_nat c])).
      + rewrite <- app_assoc. exact Hsplit.
      + exact (visited_extend _ _ _ _ _ _ _ _ _ Hvis Hvis2 Hrow2 Esc').
      + cbn [sortedNodes]. intros j Hj. rewrite Hold2 by lia. apply Hold. exact Hj.
      + cbn [sortedNodes]. rewrite Hold2 by lia. exact Hnode.
      + intros k Hk. cbn [sortedNodes sortedChildren].
        rewrite (list_set_other _ _ _ _ k Esc') by lia.
        destruct (Nat.lt_ge_cases k c) as [Hlt|Hge].
        * destruct (Hkept k ltac:(lia)) as (nk & rk & mk & K1 & K2 & K3 & K4).
          exists nk, rk, mk. split; [rewrite Hold2 by lia; exact K1|].
          split; [rewrite B6 by lia; exact K2|]. split; [exact K3|].
          apply (names_nodes_later (sortedNodes st) _ c c'); [lia| |exact K4].
          intros j Hj. apply Hold2. exact Hj.
        * exact (Hkept2 k ltac:(lia)).
      + cbn [sortedChildren]. exact (list_set_same _ _ _ _ Esc').
      + cbn [sortedNodes]. unfold names_nodes. apply Forall2_app.
        * apply (names_nodes_later (sortedNodes st) _ c c'); [lia| |exact Hnames].
          intros j Hj. apply Hold2. exact Hj.
        * constructor; [|constructor]. split; [lia|]. rewrite Nat2Z.id. exact Hnode2.
      + exact Hrun. }
  assert (Hrow0 : nth_error (sortedChildren st1) i = Some []).
  { unfold st1. cbn [sortedChildren]. apply R5.
    assert (i < length sp)%nat
      by (apply nth_error_Some; rewrite (list_set_same _ _ _ _ Esp'); discriminate).
    rewrite (list_set_length _ _ _ _ Esp') in *. lia. }
  apply (Hloop mine [] (S i) st1 []); try assumption.
  - reflexivity.
  - unfold st1. cbn [sortedNodes]. intros j Hj.
    apply (list_set_other _ _ _ _ j Esn'). lia.
  - unfold st1. cbn [sortedNodes]. exact (list_set_same _ _ _ _ Esn').
  - intros k Hk. lia.
  - constructor.
Qed.

(** X28. The canonical traversal keeps the children of every node.  A
    node the traversal has visited stands for the node of the tree that
    [sortedNodes] holds at its index; its row in [sortedChildren] lists,
    as indices of visited nodes, exactly the children the edge list gives
    to that node, in the order of the edges. *)
Theorem traverse_keeps_the_children (tree : phylo) (dfs : dfs_state) :
  traverse tree = Ok dfs ->
  forall k : nat,
    Z.of_nat k < currIndex dfs ->
    exists node row,
      nth_error (sortedNodes dfs) k = Some node
      /\ nth_error (sortedChildren dfs) k = Some row
      /\ Forall2 (fun j child =>
                    0 <= j < currIndex dfs
                    /\ nth_error (sortedNodes dfs) (Z.to_nat j) = Some child)
           row (edge_children (edge tree) node).
Proof.
  unfold traverse. intros H k Hk.
  destruct (vector_of (Nnode tree + zlength (tipLabel tree) + 1) 0) as [parents| |];
    try discriminate.
  cbn [bind] in H.
  destruct (vector_of (Nnode tree + zlength (tipLabel tree) + 1) ([] : list Z))
    as [children| |] eqn:Echildren; try discriminate.
  cbn [bind] in H.
  destruct (vector_of (Nnode tree + zlength (tipLabel tree)) 0) as [sp| |] eqn:Esp;
    try discriminate.
  cbn [bind] in H.
  destruct (vector_of (Nnode tree + zlength (tipLabel tree)) ([] : list Z))
    as [sc| |] eqn:Esc; try discriminate.
  cbn [bind] in H.
  destruct (fill_adjacency (edge tree) children parents) as [[children' parents']| |]
    eqn:Efill; try discriminate.
  cbn [bind] in H.
  destruct (addChildren (S (length sp)) children' (mkDfs sp sc sp 0)
              (find_root 1 (tl parents')) (-1)) as [[ind st]| |] eqn:Ecall;
    try discriminate.
  cbn [bind] in H. apply Ok_inj in H. subst st.
  assert (Hready : ready (mkDfs sp sc sp 0) (-1) 0).
  { unfold ready. cbn [currIndex sortedParents sortedChildren].
    split; [reflexivity|].
    split; [rewrite (vector_of_length _ _ _ Esp), (vector_of_length _ _ _ Esc);
            reflexivity|].
    split; [intros j p Hj; lia|]. split; [lia|].
    intros m Hm. unfold vector_of in Esc.
    destruct (Nnode tree + zlength (tipLabel tree) <? 0); [discriminate|].
    apply Ok_inj in Esc. subst sc. rewrite repeat_length in Hm.
    apply nth_error_repeat_some. lia. }
  destruct (addChildren_keeps _ _ _ _ _ _ _ _ Hready Ecall)
    as (n & Hvis & _ & _ & Hkept).
  destruct Hvis as (V1 & _). rewrite V1 in *.
  destruct (Hkept k ltac:(lia)) as (node & row & mine & K1 & K2 & K3 & K4).
  exists node, row. split; [exact K1|]. split; [exact K2|].
  destruct (vget_Ok _ _ _ K3) as [Hnode Gmine].
  assert (Hempty : nth_error children (Z.to_nat node) = Some []).
  { assert (Hlen : (Z.to_nat node < length children)%nat).
    { rewrite <- (fill_adjacency_length _ _ _ _ _ Efill).
      apply nth_error_Some. congruence. }
    unfold vector_of in Echildren.
    destruct (Nnode tree + zlength (tipLabel tree) + 1 <? 0); [discriminate|].
    apply Ok_inj in Echildren. subst children. rewrite repeat_length in Hlen.
    apply nth_error_repeat_some. exact Hlen. }
  rewrite (fill_adjacency_rows _ _ _ _ _ Efill _ _ Hempty) in Gmine.
  injection Gmine as <-. cbn [app] in K4.
  rewrite Z2Nat.id in K4 by exact Hnode. exact K4.
Qed.
(** * The counts behind a decoded structure *)

Lemma list_set_same_image {A B : Type} (f : A -> B) (l : list A) :
  forall i x y l',
    list_set l i x = Some l' -> nth_error l i = Some y -> f x = f y ->
    map f l' = map f l.
Proof.
  induction l as [|z r IH]; intros i x y l' H Hy Hf; cbn in H; [discriminate|].
  destruct i as [|i].
  - injection H as <-. cbn in Hy. injection Hy as ->. cbn [map]. rewrite Hf. reflexivity.
  - destruct (list_set r i x) as [r'|] eqn:E; [|discriminate].
    cbn in H. injection H as <-. cbn [map]. f_equal. exact (IH i x y r' E Hy Hf).
Qed.

(** The loop takes one count for every row it adds, and a row has as
    many places as its count says. *)
Lemma read_structure_counts (fuel : nat) :
  forall st parents children addedChildren cur tipCount shape,
    read_structure fuel st parents children addedChildren cur tipCount = Ok shape ->
    exists older newer,
      st_children shape = older ++ newer
      /\ map zlength older = map zlength children
      /\ readShortInts_from (length newer) st
         = Ok (map zlength newer, st_stream shape).
Proof.
  induction fuel as [|fuel IH]; intros st parents children added cur tc shape H;
    [discriminate|].
  cbn [read_structure] in H.
  destruct (cur >=? 0).
  2:{ apply Ok_inj in H. subst shape. exists children, [].
      cbn [st_children st_stream]. rewrite app_nil_r. repeat split; reflexivity. }
  destruct (readShortInt st) as [[currCount st1]| |] eqn:E1; try discriminate.
  cbn [bind] in H.
  destruct (vector_of currCount 0) as [row0| |] eqn:Erow0; try discriminate.
  cbn [bind] in H.
  assert (Hcount : zlength row0 = currCount).
  { pose proof (vector_of_length _ _ _ Erow0) as Hl. unfold vector_of in Erow0.
    destruct (Z.ltb_spec currCount 0); [discriminate|]. unfold zlength. lia. }
  match type of H with
  | bind ?x _ = _ => destruct x as [a| |]; try discriminate
  end.
  cbn [bind] in H.
  destruct (a >=? 0).
  2:{ apply Ok_inj in H. subst shape. exists children, [row0].
      cbn [st_children st_stream length readShortInts_from map].
      rewrite E1. cbn [bind]. rewrite Hcount. repeat split; reflexivity. }
  destruct (vget (children ++ [row0]) a) as [rowb| |] eqn:Erowb; try discriminate.
  cbn [bind] in H.
  destruct (vget added a) as [ab| |]; try discriminate.
  cbn [bind] in H.
  destruct (vset rowb ab (wrap32 (zlength parents))) as [rowb'| |] eqn:Erow;
    try discriminate.
  cbn [bind] in H.
  destruct (vset (children ++ [row0]) a rowb') as [children2| |] eqn:Echildren;
    try discriminate.
  cbn [bind] in H.
  destruct (vset added a (ab + 1)) as [added2| |]; try discriminate.
  cbn [bind] in H.
  destruct (IH _ _ _ _ _ _ _ H) as (older & newer & Hsplit & Hold & Hread).
  destruct (vget_Ok _ _ _ Erowb) as [_ Growb].
  destruct (vset_Ok _ _ _ _ Erow) as [_ Grow].
  destruct (vset_Ok _ _ _ _ Echildren) as [_ Gchildren].
  assert (Hsame : map zlength children2 = map zlength (children ++ [row0])).
  { apply (list_set_same_image zlength _ _ _ _ _ Gchildren Growb).
    unfold zlength. rewrite (list_set_length _ _ _ _ Grow). reflexivity. }
  rewrite Hsame, map_app in Hold. cbn [map] in Hold.
  assert (Hparts : exists older' row, older = older' ++ [row]
                                      /\ map zlength older' = map zlength children
                                      /\ zlength row = zlength row0).
  { destruct (exists_last (l := older)) as (older' & row & ->).
    - intros ->. destruct children; discriminate Hold.
    - rewrite map_app in Hold. cbn [map] in Hold.
      apply app_inj_tail in Hold. destruct Hold as [Ho Hr].
      exists older', row. repeat split; assumption. }
  destruct Hparts as (older' & row & -> & Hold' & Hrow).
  exists older', (row :: newer).
  split; [rewrite Hsplit, <- app_assoc; reflexivity|]. split; [exact Hold'|].
  cbn [length readShortInts_from map]. rewrite E1. cbn [bind]. rewrite Hread.
  cbn [bind]. rewrite Hrow, Hcount. reflexivity.
Qed.

(** X29. The structure loop of [readBinaryTree] takes one packed number
    for every node it returns, and gives every node as many children as
    its number says: reading as many numbers as the returned structure
    has rows, from the place where the loop started, yields the lengths
    of the rows, in order, and ends in the state in which the loop
    ended. *)
Theorem read_structure_follows_the_counts (fuel : nat) (st : sistate)
    (shape : structure) :
  read_structure fuel st [-1] [] [0] 0 0 = Ok shape ->
  readShortInts_from (length (st_children shape)) st
  = Ok (map zlength (st_children shape), st_stream shape).
Proof.
  intros H. destruct (read_structure_counts _ _ _ _ _ _ _ _ H)
    as (older & newer & Hsplit & Hold & Hread).
  destruct older; [|discriminate Hold]. cbn [app] in Hsplit. rewrite Hsplit.
  exact Hread.
Qed.
(** * The order of the nodes in a decoded structure *)

Lemma anc_trans (parents : list Z) (a b c : nat) :
  anc parents a b -> anc parents b c -> anc parents a c.
Proof.
  induction 1 as [m p H|m p k H _ IH]; intros Hc.
  - exact (anc_step _ _ _ _ H Hc).
  - exact (anc_step _ _ _ _ H (IH Hc)).
Qed.

Lemma anc_app_inv (parents : list Z) (b : Z) (m k : nat) :
  (forall j p, nth_error (parents ++ [b]) j = Some p -> p < Z.of_nat j) ->
  (m < length parents)%nat ->
  anc (parents ++ [b]) m k -> anc parents m k.
Proof.
  intros Hbefore Hm H.
  pose proof (proj2 (anc_firstn (parents ++ [b]) (length parents) m k Hbefore Hm) H)
    as Hf.
  rewrite firstn_app, firstn_all, Nat.sub_diag in Hf. cbn [firstn] in Hf.
  rewrite app_nil_r in Hf. exact Hf.
Qed.

(** A node read under a node on the way from the newest node to the
    root keeps the order. *)
Lemma in_order_step (parents : list Z) (b : nat) :
  (0 < length parents)%nat ->
  (forall m p, nth_error parents m = Some p -> p < Z.of_nat m) ->
  in_order parents ->
  b = (length parents - 1)%nat \/ anc parents (length parents - 1) b ->
  in_order (parents ++ [Z.of_nat b]).
Proof.
  intros Hpos Hbefore [Hnc Hway] Hb.
  set (n := length parents) in *.
  assert (Hbn : (b < n)%nat).
  { destruct Hb as [->|Hb]; [lia|]. pose proof (anc_lt _ _ _ Hbefore Hb). lia. }
  assert (Hnew : nth_error (parents ++ [Z.of_nat b]) n = Some (Z.of_nat b)).
  { rewrite nth_error_app2 by (fold n; lia). fold n. rewrite Nat.sub_diag. reflexivity. }
  assert (Hold : forall t, (t < n)%nat ->
            nth_error (parents ++ [Z.of_nat b]) t = nth_error parents t).
  { intros t Ht. apply nth_error_app1. exact Ht. }
  assert (Hrange : forall t q, nth_error (parents ++ [Z.of_nat b]) t = Some q ->
            (t <= n)%nat).
  { intros t q Hq.
    assert (t < length (parents ++ [Z.of_nat b]))%nat
      by (apply nth_error_Some; congruence).
    rewrite length_app in *. cbn [length] in *. fold n in H. lia. }
  assert (Hbefore' : forall m p, nth_error (parents ++ [Z.of_nat b]) m = Some p ->
            p < Z.of_nat m).
  { intros m p Hp. pose proof (Hrange _ _ Hp).
    destruct (Nat.eq_dec m n) as [->|Hne].
    - rewrite Hnew in Hp. injection Hp as <-. lia.
    - rewrite Hold in Hp by lia. exact (Hbefore _ _ Hp). }
  split.
  - intros j t p q Hp Hq Hpt Htj. pose proof (Hrange _ _ Hp).
    rewrite Hold in Hq by lia.
    destruct (Nat.eq_dec j n) as [->|Hne].
    + rewrite Hnew in Hp. injection Hp as <-.
      exact (Hway b t q Hb ltac:(lia) Hq).
    + rewrite Hold in Hp by lia. exact (Hnc j t p q Hp Hq Hpt Htj).
  - rewrite length_app. cbn [length]. fold n.
    replace (n + 1 - 1)%nat with n by lia.
    intros k t q Hk Hkt Hq. pose proof (Hrange _ _ Hq).
    destruct Hk as [->|Hk]; [lia|].
    assert (Hk' : k = b \/ anc parents b k).
    { destruct (anc_inv _ _ _ _ Hk Hnew) as [->|Ha]; [left; reflexivity|right].
      exact (anc_app_inv parents (Z.of_nat b) b k Hbefore' Hbn Ha). }
    assert (Hchain : k = (n - 1)%nat \/ anc parents (n - 1) k).
    { destruct Hk' as [->|Ha]; [exact Hb|]. right.
      destruct Hb as [->|Hb]; [exact Ha|exact (anc_trans _ _ _ _ Hb Ha)]. }
    destruct (Nat.eq_dec t n) as [->|Hne].
    + rewrite Hnew in Hq. injection Hq as <-.
      destruct Hk' as [->|Ha]; [lia|]. pose proof (anc_lt _ _ _ Hbefore Ha). lia.
    + rewrite Hold in Hq by lia. exact (Hway k t q Hchain Hkt Hq).
Qed.

Lemma in_order_start : in_order [-1].
Proof.
  split.
  - intros j t p q Hp Hq Hpt Htj. destruct j as [|[|j]]; try discriminate Hp. lia.
  - intros k t q _ Hkt Hq. destruct t as [|[|t]]; try discriminate Hq. lia.
Qed.

(** The loop keeps the order of the nodes. *)
Lemma read_structure_order (fuel : nat) :
  forall st parents children addedChildren tipCount shape,
    structure_inv parents children addedChildren tipCount ->
    in_order parents ->
    read_structure fuel st parents children addedChildren
      (Z.of_nat (length parents - 1)) tipCount = Ok shape ->
    zlength (st_parents shape) <= 2147483648 ->
    in_order (st_parents shape).
Proof.
  induction fuel as [|fuel IH];
    intros st parents children added tc shape Hinv Hord H Hsize; [discriminate|].
  pose proof Hinv as (A1 & A2 & A3 & A4 & _).
  set (n := length parents) in *.
  cbn [read_structure] in H.
  replace (Z.of_nat (n - 1) >=? 0) with true in H by (symmetry; apply Z.geb_le; lia).
  destruct (readShortInt st) as [[currCount st1]| |]; try discriminate.
  cbn [bind] in H.
  destruct (vector_of currCount 0) as [row0| |] eqn:Erow0; try discriminate.
  cbn [bind] in H.
  assert (Hcount : 0 <= currCount /\ length row0 = Z.to_nat currCount).
  { unfold vector_of in Erow0. destruct (Z.ltb_spec currCount 0); [discriminate|].
    apply Ok_inj in Erow0. subst row0. rewrite repeat_length. split; [lia|reflexivity]. }
  destruct Hcount as [Hcount Hrow0].
  match type of H with
  | bind ?x _ = _ => destruct x as [a| |] eqn:Hclimb; try discriminate
  end.
  cbn [bind] in H.
  destruct (climb_spec parents (children ++ [row0]) added A3 A4 _ _ _ Hclimb)
    as [[Ha Hall]|(b & Ha & Hchain & (rowb & ab & Hrowb & Hab & Hopenb) & Hall)].
  - subst a. change (-1 >=? 0) with false in H. apply Ok_inj in H. subst shape.
    exact Hord.
  - subst a.
    replace (Z.of_nat b >=? 0) with true in H by (symmetry; apply Z.geb_le; lia).
    rewrite !vget_nat, Hrowb in H. cbn [bind] in H. rewrite Hab in H. cbn [bind] in H.
    destruct (vset rowb ab (wrap32 (zlength parents))) as [rowb'| |] eqn:Erow;
      try discriminate.
    cbn [bind] in H.
    destruct (vset (children ++ [row0]) (Z.of_nat b) rowb') as [children2| |]
      eqn:Echildren; try discriminate.
    cbn [bind] in H.
    destruct (vset added (Z.of_nat b) (ab + 1)) as [added2| |] eqn:Eadded;
      try discriminate.
    cbn [bind] in H.
    pose proof (read_structure_grows _ _ _ _ _ _ _ _ H) as Hgrow.
    rewrite length_app in Hgrow. cbn [length] in Hgrow.
    assert (Hnew : wrap32 (zlength parents) = Z.of_nat n).
    { apply wrap32_small. unfold zlength in *. fold n. lia. }
    rewrite Hnew in *.
    destruct (vset_Ok _ _ _ _ Erow) as [_ Erow'].
    destruct (vset_Ok _ _ _ _ Echildren) as [_ Echildren'].
    destruct (vset_Ok _ _ _ _ Eadded) as [_ Eadded'].
    rewrite Nat2Z.id in Echildren', Eadded'.
    apply (IH st1 (parents ++ [Z.of_nat b]) children2 (added2 ++ [0])
             (if currCount =? 0 then tc + 1 else tc) shape);
      [| |rewrite length_app; cbn [length];
          replace (length parents + 1 - 1)%nat with n by (fold n; lia); exact H
       |exact Hsize].
    + exact (step_next parents children added tc currCount row0 Hinv Hcount Hrow0
               b rowb rowb' ab children2 added2 Hrowb Hab Hall Erow' Echildren' Eadded').
    + apply in_order_step; [fold n; lia| |exact Hord|exact Hchain].
      exact (step_before parents children added tc currCount row0 Hinv Hrow0).
Qed.

(** X30. The structure [readBinaryTree] decodes is always laid out in
    depth-first order, the order in which [writeBinaryTree] stores a
    tree: when the loop ends, the first node is the root, every other
    node comes after its parent, every row holds the children of its node
    in increasing order, and no node between a parent and one of its
    children has its own parent before that parent.  Node numbers are
    32-bit, so the statement is for at most 2^31 nodes. *)
Theorem read_structure_is_depth_first (fuel : nat) (st : sistate)
    (shape : structure) :
  read_structure fuel st [-1] [] [0] 0 0 = Ok shape ->
  zlength (st_parents shape) <= 2147483648 ->
  preorder_tree (st_parents shape) (st_children shape).
Proof.
  intros H Hsize.
  destruct (read_structure_complete fuel st [-1] [] [0] 0 shape structure_inv_start
              H Hsize) as (C1 & C2 & C3 & C4 & _).
  destruct (read_structure_order fuel st [-1] [] [0] 0 shape structure_inv_start
              in_order_start H Hsize) as [Hnc _].
  unfold preorder_tree. repeat (split; [assumption|]). exact Hnc.
Qed.

(** * Instances *)

Lemma bad_header_is_fatal_witness :
  readBinaryTrees to_string_f (open_stream [0x23; 0x54; 0x52; 0x45; 0x04; 0x00])
  = Throw (RcppStop "Invalid file header!").
Proof.
  apply bad_header_is_fatal. right.
  exists 0x04, [0x00], 2. repeat split; lia.
Defined.



Lemma translate_dictionary_applies_witness :
  exists st0 st st',
    nexus_start scenario_D = Ok st0 /\
    nexus_iterate to_string_f stod_decimal 9 st0 = Some st /\
    n_eof st = false /\
    status st = InTreeStatement /\
    word st <> "["%string /\
    nexus_switch to_string_f stod_decimal st = Ok st' /\
    translateDictionary st
    = [("1"%string, "Alpha"%string); ("2"%string, "Beta"%string)] /\
    exists rd0 rd1 rd2 rd3 rd4 preComments payload parsed tree,
      read_next (mkReader (n_file st) ftok0 false char_eof false) false = Ok rd0 /\
      skip_to_equals (S (length (tchars (n_file st)))) rd0 = Ok rd1 /\
      read_next rd1 (openComment rd1) = Ok rd2 /\
      read_preComments (S (length (tchars (n_file st)))) rd2 EmptyString
      = Ok (rd3, preComments) /\
      read_tree_text (S (length (tchars (n_file st)))) rd3 EmptyString
      = Ok (rd4, payload) /\
      payload = "(1:1,2:2)"%string /\
      parseNWKAStringOneTree to_string_f stod_decimal payload = Ok parsed /\
      n_trees st' = n_trees st ++ [tree] /\
      n_file st' = r_stream rd4 /\
      tipLabel tree = map (substitute (translateDictionary st)) (tipLabel parsed) /\
      nodeLabel tree = map (substitute (translateDictionary st)) (nodeLabel parsed) /\
      tipLabel parsed = ["1"%string; "2"%string] /\
      tipLabel tree = ["Alpha"%string; "Beta"%string].
Proof.
  eexists. eexists. eexists.
  split; [vm_compute; reflexivity|].
  split; [vm_compute; reflexivity|].
  split; [reflexivity|].
  split; [reflexivity|].
  split; [discriminate|].
  split; [vm_compute; reflexivity|].
  split; [reflexivity|].
  edestruct (proj1 translate_dictionary_applies to_string_f stod_decimal scenario_D 9%nat)
    as (rd0 & rd1 & rd2 & rd3 & rd4 & pre & payload & parsed & tree
        & R0 & R1 & R2 & R3 & R4 & Hp & Ht & Hf & Hl & Hn).
  - vm_compute; reflexivity.
  - vm_compute; reflexivity.
  - reflexivity.
  - reflexivity.
  - discriminate.
  - vm_compute; reflexivity.
  - exists rd0, rd1, rd2, rd3, rd4, pre, payload, parsed, tree.
    pose proof R0 as Q0. vm_compute in Q0. apply Ok_inj in Q0.
    pose proof R1 as Q1. rewrite <- Q0 in Q1. vm_compute in Q1. apply Ok_inj in Q1.
    pose proof R2 as Q2. rewrite <- Q1 in Q2. vm_compute in Q2. apply Ok_inj in Q2.
    pose proof R3 as Q3. rewrite <- Q2 in Q3. vm_compute in Q3. apply Ok_inj in Q3.
    injection Q3 as Q3 Q3'.
    pose proof R4 as Q4. rewrite <- Q3 in Q4. vm_compute in Q4. apply Ok_inj in Q4.
    injection Q4 as Q4 Q4'.
    pose proof Hp as Q5. rewrite <- Q4' in Q5. vm_compute in Q5. apply Ok_inj in Q5.
    assert (Hpl : tipLabel parsed = ["1"%string; "2"%string]) by (rewrite <- Q5; reflexivity).
    split; [exact R0|]. split; [exact R1|]. split; [exact R2|]. split; [exact R3|].
    split; [exact R4|]. split; [symmetry; exact Q4'|]. split; [exact Hp|].
    split; [exact Ht|]. split; [exact Hf|]. split; [exact Hl|]. split; [exact Hn|].
    split; [exact Hpl|]. rewrite Hl, Hpl. reflexivity.
Defined.

Lemma translation_is_case_sensitive_witness :
  exists tree,
    finish_tree stod_decimal [("alpha"%string, "Homo sapiens"%string)] "tree1" "[&R]"
      (cherry "Alpha" "alpha" "t") = Ok tree /\
    (forall k v,
        In (k, v) [("alpha"%string, "Homo sapiens"%string)] -> k <> "Alpha"%string) /\
    nth_error (tipLabel (cherry "Alpha" "alpha" "t")) 0 = Some "Alpha"%string /\
    nth_error (tipLabel tree) 0 = Some "Alpha"%string /\
    nth_error (tipLabel tree) 1 = Some "Homo sapiens"%string.
Proof.
  eexists. split; [vm_compute; reflexivity|].
  assert (H : forall k v : string,
             In (k, v) [("alpha"%string, "Homo sapiens"%string)] ->
             k <> "Alpha"%string).
  { intros k v [E|[]]. injection E as <- _. discriminate. }
  split; [exact H|]. split; [reflexivity|].
  split; [|reflexivity].
  apply (proj1 translation_is_case_sensitive stod_decimal
           [("alpha"%string, "Homo sapiens"%string)] "tree1"%string "[&R]"%string
           (cherry "Alpha" "alpha" "t") _ eq_refl 0%nat "Alpha"%string H).
  reflexivity.
Defined.

Lemma sequential_fallback_witness :
  exists tree,
    writeBinaryTree named_clade_tree false false [] [] [] = Ok named_clade_record /\
    recovered_file = header_magic ++ 0 :: named_clade_record ++ failing_record /\
    Z.land 0 0xfc = 0 /\
    skipn (length recovered_file - 4) recovered_file <> trailer_magic /\
    read_global_tables (mkStream recovered_file 5 false) false false
    = Ok ([], [], mkStream recovered_file 5 false) /\
    decodes_until_failure to_string_f false [] [] (mkStream recovered_file 5 false) 0
      [tree] ["tree1"%string] /\
    readBinaryTrees to_string_f (open_stream recovered_file)
    = Ok (mkMultiPhylo [tree] ["tree1"%string], ["Invalid file trailer!"%string]) /\
    tipLabel tree = ["A"%string; "B"%string; "C"%string] /\
    name_by_rule tree 1 = "tree1"%string.
Proof.
  eexists.
  split; [vm_compute; reflexivity|].
  split; [reflexivity|].
  split; [reflexivity|].
  assert (Htrailer : skipn (length recovered_file - 4) recovered_file <> trailer_magic)
    by (vm_compute; discriminate).
  split; [exact Htrailer|].
  split; [reflexivity|].
  assert (Hdecodes :
            decodes_until_failure to_string_f false [] []
              (mkStream recovered_file 5 false) 0
              [mkPhylo 2 nan [[3; 4]; [4; 0]; [4; 1]; [3; 2]]
                 ["A"%string; "B"%string; "C"%string] [EmptyString; "X"%string]
                 [one; one; two; two]
                 [StringVec ["A"%string; "B"%string; "C"%string];
                  DoubleVec [one; two; two]; DoubleVec [nan; nan; nan];
                  StringVec [EmptyString; EmptyString; EmptyString]]
                 [StringVec [EmptyString; "X"%string]; DoubleVec [nan; one];
                  DoubleVec [nan; nan]; StringVec ["tree1"%string; EmptyString]]
                 standard_attributes true true]
              ["tree1"%string]).
  { eapply decoding_goes_on.
    - vm_compute. reflexivity.
    - vm_compute. reflexivity.
    - eapply decoding_fails. vm_compute. reflexivity. }
  split; [exact Hdecodes|].
  split; [|split; reflexivity].
  exact (proj1 (sequential_fallback to_string_f recovered_file
                  (named_clade_record ++ failing_record) 0 [] []
                  (mkStream recovered_file 5 false) _ _
                  eq_refl eq_refl Htrailer eq_refl Hdecodes)).
Defined.

(** A file that ends after its one record: the record is decoded, the
    next decoding reads past the end of the file, where [readByte]
    returns a byte that was never set, and nothing is known about what the
    reader returns.  A file whose one-node tree has a numeric TreeName,
    followed by bytes that make the next decoding throw: the tree is
    decoded, but taking its name throws outside the handler, and the
    reader returns no tree at all. *)
Lemma fallback_without_result :
  (exists tree,
      readBinaryTree to_string_f (mkStream truncated_file 5 false) false [] []
      = Ok (tree, mkStream truncated_file (length truncated_file) false) /\
      skipn (length truncated_file - 4) truncated_file <> trailer_magic /\
      readBinaryTrees to_string_f (open_stream truncated_file) = Undef)
  /\ (exists tree s1 e,
        readBinaryTree to_string_f (mkStream numeric_name_file 5 false) false [] []
        = Ok (tree, s1) /\
        readBinaryTree to_string_f s1 false [] [] = Throw e /\
        skipn (length numeric_name_file - 4) numeric_name_file <> trailer_magic /\
        readBinaryTrees to_string_f (open_stream numeric_name_file)
        = Throw BadVariantAccess).
Proof.
  split.
  - eexists. split; [vm_compute; reflexivity|].
    split; [vm_compute; discriminate|]. vm_compute. reflexivity.
  - eexists. eexists. eexists. split; [vm_compute; reflexivity|].
    split; [vm_compute; reflexivity|].
    split; [vm_compute; discriminate|]. vm_compute. reflexivity.
Defined.

(** * Instances of the further properties *)

Lemma writeInt_readInt_witness :
  -2147483648 <= 1000 < 2147483648 /\
  remaining (open_stream (writeInt 1000 ++ [7])) = writeInt 1000 ++ [7] /\
  (readInt (open_stream (writeInt 1000 ++ [7]))
   = Ok (1000, advance (open_stream (writeInt 1000 ++ [7])) (length (writeInt 1000)))
   <-> 0 <= 1000).
Proof.
  split; [lia|]. split; [reflexivity|].
  apply (writeInt_readInt (open_stream (writeInt 1000 ++ [7])) 1000 [7]);
    [lia|reflexivity|reflexivity].
Defined.

Lemma writeDouble_readDouble_witness :
  0 <= ninety < 2 ^ 64 /\
  readDouble (open_stream (writeDouble ninety ++ [7]))
  = Ok (ninety, advance (open_stream (writeDouble ninety ++ [7])) 8).
Proof.
  split; [unfold ninety; lia|].
  apply (writeDouble_readDouble (open_stream (writeDouble ninety ++ [7])) ninety [7]);
    [unfold ninety; lia|reflexivity|reflexivity].
Defined.

Lemma writeInt64_readInt64_witness :
  readInt64 (open_stream (writeInt64 (-5) ++ [7]))
  = (-5, advance (open_stream (writeInt64 (-5) ++ [7])) 8).
Proof.
  apply (writeInt64_readInt64 (open_stream (writeInt64 (-5) ++ [7])) (-5) [7]);
    [lia|reflexivity|reflexivity].
Defined.

Lemma writeMyString_readMyString_witness :
  readMyString (open_stream (writeMyString "Homo sapiens" ++ [7]))
  = Ok ("Homo sapiens"%string,
        advance (open_stream (writeMyString "Homo sapiens" ++ [7]))
          (length (writeMyString "Homo sapiens"))).
Proof.
  apply (writeMyString_readMyString
           (open_stream (writeMyString "Homo sapiens" ++ [7])) "Homo sapiens" [7]).
  - vm_compute. reflexivity.
  - intros c Hc. cbn in Hc.
    repeat (destruct Hc as [<-|Hc]; [vm_compute; reflexivity|]). destruct Hc.
  - reflexivity.
  - reflexivity.
Defined.


Lemma readBinaryTree_shape_witness :
  exists tree s',
    readBinaryTree to_string_f (mkStream recovered_file 5 false) false [] []
    = Ok (tree, s') /\
    tipLabel tree = ["A"%string; "B"%string; "C"%string] /\
    length (edgeLength tree) = length (edge tree)
    /\ Forall (fun e => length e = 2%nat) (edge tree)
    /\ length (tipAttributes tree) = length (attributes tree)
    /\ length (nodeAttributes tree) = length (attributes tree)
    /\ Forall (fun col => attrvec_size col = length (tipLabel tree)) (tipAttributes tree)
    /\ exists internal,
         Forall (fun col => attrvec_size col = internal) (nodeAttributes tree).
Proof.
  destruct (readBinaryTree to_string_f (mkStream recovered_file 5 false) false [] [])
    as [[tree s']| |] eqn:E.
  - exists tree, s'. split; [reflexivity|]. split.
    + vm_compute in E. apply Ok_inj in E. apply (f_equal fst) in E. cbn [fst] in E.
      rewrite <- E. reflexivity.
    + exact (readBinaryTree_shape to_string_f _ _ _ _ _ _ E).
  - vm_compute in E. discriminate E.
  - vm_compute in E. discriminate E.
Defined.


Lemma translate_keys_are_not_empty_witness :
  exists st0 st,
    nexus_start scenario_D = Ok st0 /\
    nexus_iterate to_string_f stod_decimal 9 st0 = Some st /\
    translateDictionary st
    = [("1"%string, "Alpha"%string); ("2"%string, "Beta"%string)] /\
    Forall (fun entry => fst entry <> EmptyString) (translateDictionary st)
    /\ (n_eof st = false -> word st <> EmptyString).
Proof.
  destruct (nexus_start scenario_D) as [st0| |] eqn:E0;
    [|vm_compute in E0; discriminate E0|vm_compute in E0; discriminate E0].
  destruct (nexus_iterate to_string_f stod_decimal 9 st0) as [st|] eqn:E.
  - exists st0, st. split; [reflexivity|]. split; [exact E|]. split.
    + vm_compute in E0. apply Ok_inj in E0. subst st0.
      vm_compute in E. injection E as <-. reflexivity.
    + exact (translate_keys_are_not_empty to_string_f stod_decimal scenario_D 9
               st0 st E0 E).
  - vm_compute in E0. apply Ok_inj in E0. subst st0. vm_compute in E. discriminate E.
Defined.

Lemma finished_file_is_indexed_witness :
  exists tail,
    finishWritingBinaryTrees ([5] ++ [zlength truncated_file]) [] = Ok tail
    /\ readBinaryTrees to_string_f (open_stream (truncated_file ++ tail))
       = ('(allNames, allAttributes, s7) <-
            read_global_tables (mkStream (truncated_file ++ tail) 5 false)
              (negb (Z.land 0 0x01 =? 0)) (negb (Z.land 0 0x02 =? 0)) ;;
          '(parsedTrees, names) <-
            read_at_addresses to_string_f [5] 0 s7
              (negb (Z.land 0 0x01 =? 0)) allNames allAttributes ;;
          Ok (mkMultiPhylo parsedTrees names, [])).
Proof.
  eexists. split; [reflexivity|].
  apply (finished_file_is_indexed to_string_f truncated_file named_clade_record []
           [5] _ 0).
  - reflexivity.
  - reflexivity.
  - repeat constructor; lia.
  - reflexivity.
  - reflexivity.
  - reflexivity.
Defined.

Lemma written_file_is_indexed_witness :
  exists (bytes : list Z) (st : scan_state) (headerByte : Z) (tables : list Z)
         (records : list (list Z)) (rest : list Z),
    writeBinaryTrees diverging_trees [] = Ok bytes
    /\ scan_trees (trees diverging_trees) scan0 = Ok st
    /\ Forall2 (fun t record =>
                 writeBinaryTree t (negb (includeNamesPerTree st))
                   (negb (includeAttributesPerTree st))
                   (allNamesLookup st) (allAttributesLookup st)
                   (allAttributesLookupReverse st) = Ok record)
         (trees diverging_trees) records
    /\ bytes = header_magic ++ headerByte :: tables ++ concat records ++ rest
    /\ readBinaryTrees to_string_f (open_stream bytes)
       = ('(allNames, allAttributes, s7) <-
            read_global_tables (mkStream bytes 5 false)
              (negb (Z.land headerByte 0x01 =? 0))
              (negb (Z.land headerByte 0x02 =? 0)) ;;
          '(parsedTrees, names) <-
            read_at_addresses to_string_f
              (offsets_from (5 + zlength tables) records) 0 s7
              (negb (Z.land headerByte 0x01 =? 0)) allNames allAttributes ;;
          Ok (mkMultiPhylo parsedTrees names, [])).
Proof.
  destruct (writeBinaryTrees diverging_trees []) as [bytes| |] eqn:E.
  - exists bytes.
    destruct (written_file_is_indexed to_string_f diverging_trees [] bytes E)
      as (st & hb & tables & records & rest & H1 & H2 & H3 & H4).
    + reflexivity.
    + vm_compute in E. apply Ok_inj in E. subst bytes. reflexivity.
    + exists st, hb, tables, records, rest. repeat split; assumption.
  - vm_compute in E. discriminate E.
  - vm_compute in E. discriminate E.
Defined.

Lemma convertToPhylo_branches_witness :
  exists tree,
    convertToPhylo to_string_f (example_parents, example_children, example_maps) 2
    = Ok tree
    /\ rootEdge tree = nan
    /\ length (edgeLength tree) = 2%nat
    /\ vget (edge tree) 0 = Ok [2; 0]
    /\ vget (edgeLength tree) 0 = Ok one.
Proof.
  destruct (convertToPhylo to_string_f (example_parents, example_children, example_maps) 2)
    as [tree| |] eqn:E.
  - exists tree. split; [reflexivity|].
    destruct (convertToPhylo_branches to_string_f _ _ _ _ _ E)
      as ((root & Hroot & Hedge) & _ & Hl & Hs).
    split; [|split; [exact Hl|exact (Hs 1%nat 0%nat _ eq_refl (le_n 1) eq_refl)]].
    apply Ok_inj in Hroot. subst root. exact Hedge.
  - vm_compute in E. discriminate E.
  - vm_compute in E. discriminate E.
Defined.

Lemma parseNWKA_arrays_witness :
  exists (idx : Z) (ps : parse_state),
    parseNWKA stod_decimal (S (String.length scenario_B)) scenario_B parse0 (-1)
    = Ok (idx, ps)
    /\ idx = 0
    /\ length (allChildren ps) = length (allParents ps)
    /\ p_tipCount ps = empty_rows (allChildren ps)
    /\ nth_error (allParents ps) 0 = Some (-1).
Proof.
  destruct (parseNWKA stod_decimal (S (String.length scenario_B)) scenario_B parse0 (-1))
    as [[idx ps]| |] eqn:E.
  - exists idx, ps. split; [reflexivity|].
    destruct (parseNWKA_arrays stod_decimal _ _ _ _ E) as (H1 & H2 & _ & H4 & H5 & _).
    repeat split; assumption.
  - vm_compute in E. discriminate E.
  - vm_compute in E. discriminate E.
Defined.

Lemma parsed_tree_branches_witness :
  exists (tree : phylo) (ps : parse_state),
    parseNWKAStringOneTree to_string_f stod_decimal scenario_B = Ok tree
    /\ parseNWKA stod_decimal (S (String.length (tree_text scenario_B)))
         (tree_text scenario_B) parse0 (-1) = Ok (0, ps)
    /\ length (edge tree) = (length (allParents ps) - 1)%nat
    /\ length (edgeLength tree) = (length (allParents ps) - 1)%nat.
Proof.
  destruct (parseNWKAStringOneTree to_string_f stod_decimal scenario_B)
    as [tree| |] eqn:E.
  - exists tree.
    destruct (parsed_tree_branches to_string_f stod_decimal _ _ E)
      as (ps & H1 & H2 & H3 & _).
    exists ps. repeat split; assumption.
  - vm_compute in E. discriminate E.
  - vm_compute in E. discriminate E.
Defined.

Lemma translated_labels_follow_table_witness :
  exists (table : list (string * Z)) (index : Z),
    collect_all_labels (trees diverging_trees) [] 0 = (table, index)
    /\ numbering table index
    /\ forall t, In t (trees diverging_trees) ->
         tipLabel (fst (translateNames t table))
         = map (fun l => to_string_int (table_number table l + 1)) (tipLabel t).
Proof.
  destruct (collect_all_labels (trees diverging_trees) [] 0) as [table index] eqn:E.
  exists table, index. split; [reflexivity|].
  destruct (translated_labels_follow_table _ _ _ E) as [Hnum Hall].
  split; [exact Hnum|]. intros t Ht. exact (proj1 (Hall t Ht)).
Defined.

Lemma shared_tables_roundtrip_witness :
  read_global_tables
    (open_stream
       (shared_tables true true ["A"%string] [mkAttribute "Name" false] ++ [7]))
    true true
  = Ok (["A"%string], [mkAttribute "Name" false],
        advance
          (open_stream
             (shared_tables true true ["A"%string] [mkAttribute "Name" false] ++ [7]))
          (length (shared_tables true true ["A"%string] [mkAttribute "Name" false]))).
Proof.
  apply (shared_tables_roundtrip true true ["A"%string] [mkAttribute "Name" false]
           (open_stream
              (shared_tables true true ["A"%string] [mkAttribute "Name" false] ++ [7]))
           [7]).
  - repeat constructor. intros c Hc. cbn in Hc.
    repeat (destruct Hc as [<-|Hc]; [vm_compute; reflexivity|]). destruct Hc.
  - repeat constructor. intros c Hc. cbn in Hc.
    repeat (destruct Hc as [<-|Hc]; [vm_compute; reflexivity|]). destruct Hc.
  - reflexivity.
  - reflexivity.
  - reflexivity.
  - reflexivity.
Defined.

Lemma written_tables_are_read_witness :
  exists (bytes : list Z) (st : scan_state) (records : list (list Z)),
    writeBinaryTrees named_clade [] = Ok bytes
    /\ scan_trees (trees named_clade) scan0 = Ok st
    /\ readBinaryTrees to_string_f (open_stream bytes)
       = ('(parsedTrees, names) <-
            read_at_addresses to_string_f
              (offsets_from
                 (5 + zlength
                        (shared_tables (negb (includeNamesPerTree st))
                           (negb (includeAttributesPerTree st))
                           (allNamesLookupReverse st) (allAttributesLookupReverse st)))
                 records) 0
              (mkStream bytes
                 (5 + length
                        (shared_tables (negb (includeNamesPerTree st))
                           (negb (includeAttributesPerTree st))
                           (allNamesLookupReverse st) (allAttributesLookupReverse st)))
                 false)
              (negb (includeNamesPerTree st))
              (if negb (includeNamesPerTree st) then allNamesLookupReverse st else [])
              (if negb (includeAttributesPerTree st)
               then allAttributesLookupReverse st else []) ;;
          Ok (mkMultiPhylo parsedTrees names, [])).
Proof.
  destruct (writeBinaryTrees named_clade []) as [bytes| |] eqn:E;
    [|vm_compute in E; discriminate E|vm_compute in E; discriminate E].
  destruct (scan_trees (trees named_clade) scan0) as [st| |] eqn:Es;
    [|vm_compute in Es; discriminate Es|vm_compute in Es; discriminate Es].
  pose proof E as E'. vm_compute in E'. apply Ok_inj in E'.
  pose proof Es as Es'. vm_compute in Es'. apply Ok_inj in Es'.
  destruct (written_tables_are_read to_string_f named_clade [] bytes st E Es)
    as (records & _ & H).
  - subst st. cbn [allNamesLookupReverse]. repeat constructor.
    all: intros c Hc; cbn in Hc;
      repeat (destruct Hc as [<-|Hc]; [vm_compute; reflexivity|]); destruct Hc.
  - subst st. cbn [allAttributesLookupReverse]. repeat constructor.
    all: intros c Hc; cbn in Hc;
      repeat (destruct Hc as [<-|Hc]; [vm_compute; reflexivity|]); destruct Hc.
  - subst bytes. vm_compute. reflexivity.
  - exists bytes, st, records. split; [reflexivity|]. split; [reflexivity|]. exact H.
Defined.

Lemma hasValidTrailer_checks_the_end_witness :
  snd (hasValidTrailer (mkStream truncated_file 5 false))
  = mkStream truncated_file 5 false.
Proof.
  refine (proj1 (proj1 (hasValidTrailer_checks_the_end
                          (mkStream truncated_file 5 false) eq_refl) _)).
  cbn. lia.
Defined.

Lemma tokenizers_agree_witness :
  nextTokenF (stream_at scenario_B (tok0 0)) (flags_of (tok0 0))
  = Ok (fst (nextToken scenario_B (tok0 0)),
        flags_of (snd (nextToken scenario_B (tok0 0))),
        eof (snd (nextToken scenario_B (tok0 0))),
        mkText
          (skipn (srPosition (snd (nextToken scenario_B (tok0 0))))
             (string_chars scenario_B))
          (eof (snd (nextToken scenario_B (tok0 0))))).
Proof.
  apply (tokenizers_agree scenario_B (tok0 0)). cbn. lia.
Defined.

Lemma convertToPhylo_shape_witness :
  exists tree,
    convertToPhylo to_string_f (example_parents, example_children, example_maps) 2
    = Ok tree
    /\ Nnode tree = 1
    /\ length (tipLabel tree) = 2%nat
    /\ length (nodeLabel tree) = Z.to_nat (Nnode tree)
    /\ Forall2 (column_of 2) (attributes tree) (tipAttributes tree).
Proof.
  destruct (convertToPhylo to_string_f (example_parents, example_children, example_maps) 2)
    as [tree| |] eqn:E.
  - exists tree. split; [reflexivity|].
    destruct (convertToPhylo_shape to_string_f _ _ _ _ _ E)
      as (H1 & H2 & H3 & _ & H5 & _).
    repeat split; assumption.
  - vm_compute in E. discriminate E.
  - vm_compute in E. discriminate E.
Defined.

Lemma read_structure_is_a_tree_witness :
  exists shape,
    read_structure 100 (mkStream [1] 1 false, 1, 0) [-1] [] [0] 0 0 = Ok shape
    /\ length (st_children shape) = length (st_parents shape)
    /\ nth_error (st_parents shape) 0 = Some (-1)
    /\ st_tipCount shape = empty_rows (st_children shape).
Proof.
  destruct (read_structure 100 (mkStream [1] 1 false, 1, 0) [-1] [] [0] 0 0)
    as [shape| |] eqn:E.
  - exists shape. split; [reflexivity|].
    destruct (read_structure_is_a_tree _ _ _ E) as (H1 & H2 & _ & _ & H5).
    + pose proof E as E'. vm_compute in E'. apply Ok_inj in E'. subst shape.
      vm_compute. intros H. discriminate H.
    + repeat split; assumption.
  - vm_compute in E. discriminate E.
  - vm_compute in E. discriminate E.
Defined.

Lemma readBinaryTree_lengths_witness :
  exists tree s',
    readBinaryTree to_string_f (mkStream recovered_file 5 false) false [] []
    = Ok (tree, s')
    /\ exists (numAttributes : Z) (s1 : fstream) (attrs : list Attribute)
              (s2 : fstream) (currByte : Z) (s3 : fstream) (shape : structure),
         readInt (mkStream recovered_file 5 false) = Ok (numAttributes, s1)
         /\ (if numAttributes >? 0
             then read_attribute_table (Z.to_nat numAttributes) s1
             else Ok ([], s1)) = Ok (attrs, s2)
         /\ readByte s2 = Ok (currByte, s3)
         /\ read_structure (S (8 * length recovered_file)) (s3, currByte, 0)
              [-1] [] [0] 0 0 = Ok shape
         /\ st_parents shape = [-1; 0; 1; 1; 0]
         /\ length (rootEdge tree :: edgeLength tree) = length (st_parents shape)
         /\ nth_error (tipAttributes tree) 1
            = Some (DoubleVec
                      (select (map (fun row => Nat.eqb (length row) 0) (st_children shape))
                         (rootEdge tree :: edgeLength tree))).
Proof.
  destruct (readBinaryTree to_string_f (mkStream recovered_file 5 false) false [] [])
    as [[tree s']| |] eqn:E;
    [|vm_compute in E; discriminate E|vm_compute in E; discriminate E].
  exists tree, s'. split; [reflexivity|].
  pose proof E as E'. vm_compute in E'. apply Ok_inj in E'.
  apply (f_equal fst) in E'. cbn [fst] in E'.
  destruct (readBinaryTree_lengths to_string_f _ _ _ _ _ tree 1
              (mkAttribute "Length" true) E)
    as (numAttributes & s1 & attrs & s2 & currByte & s3 & shape
        & R1 & R2 & R3 & R4 & _ & H2 & H3 & _).
  - rewrite <- E'. reflexivity.
  - reflexivity.
  - reflexivity.
  - rewrite <- E'. cbn [attributes]. intros j' a' Hj Hnum Hname.
    destruct j' as [|[|[|[|j']]]].
    + cbn [nth_error] in Hj. injection Hj as <-. vm_compute in Hnum. discriminate.
    + reflexivity.
    + cbn [nth_error] in Hj. injection Hj as <-. vm_compute in Hname. discriminate.
    + cbn [nth_error] in Hj. injection Hj as <-. vm_compute in Hnum. discriminate.
    + cbn [nth_error] in Hj. destruct j'; discriminate.
  - exists numAttributes, s1, attrs, s2, currByte, s3, shape.
    split; [exact R1|]. split; [exact R2|]. split; [exact R3|]. split; [exact R4|].
    split; [|split; assumption].
    pose proof R1 as Q1. vm_compute in Q1. apply Ok_inj in Q1.
    injection Q1 as Qn Qs1.
    pose proof R2 as Q2. rewrite <- Qn, <- Qs1 in Q2. vm_compute in Q2.
    apply Ok_inj in Q2. injection Q2 as _ Qs2.
    pose proof R3 as Q3. rewrite <- Qs2 in Q3. vm_compute in Q3.
    apply Ok_inj in Q3. injection Q3 as Qb Qs3.
    pose proof R4 as Q4. rewrite <- Qb, <- Qs3 in Q4. vm_compute in Q4.
    apply Ok_inj in Q4. rewrite <- Q4. reflexivity.
Defined.

Lemma readBinaryTree_edges_witness :
  exists tree s',
    readBinaryTree to_string_f (mkStream recovered_file 5 false) false [] []
    = Ok (tree, s')
    /\ exists (numAttributes : Z) (s1 : fstream) (attrs : list Attribute)
              (s2 : fstream) (currByte : Z) (s3 : fstream) (shape : structure),
         readInt (mkStream recovered_file 5 false) = Ok (numAttributes, s1)
         /\ (if numAttributes >? 0
             then read_attribute_table (Z.to_nat numAttributes) s1
             else Ok ([], s1)) = Ok (attrs, s2)
         /\ readByte s2 = Ok (currByte, s3)
         /\ read_structure (S (8 * length recovered_file)) (s3, currByte, 0)
              [-1] [] [0] 0 0 = Ok shape
         /\ Nnode tree = wrap32 (zlength (st_parents shape)) - st_tipCount shape
         /\ length (edge tree) = (length (st_parents shape) - 1)%nat.
Proof.
  destruct (readBinaryTree to_string_f (mkStream recovered_file 5 false) false [] [])
    as [[tree s']| |] eqn:E;
    [|vm_compute in E; discriminate E|vm_compute in E; discriminate E].
  exists tree, s'. split; [reflexivity|].
  destruct (readBinaryTree_edges to_string_f _ _ _ _ _ _ E)
    as (numAttributes & s1 & attrs & s2 & currByte & s3 & shape
        & R1 & R2 & R3 & R4 & H1 & H2 & _).
  exists numAttributes, s1, attrs, s2, currByte, s3, shape.
  repeat split; assumption.
Defined.

Lemma traverse_is_depth_first_witness :
  exists dfs,
    traverse named_tree = Ok dfs
    /\ 0 < currIndex dfs <= zlength (sortedParents dfs)
    /\ preorder_tree (firstn (Z.to_nat (currIndex dfs)) (sortedParents dfs))
         (firstn (Z.to_nat (currIndex dfs)) (sortedChildren dfs)).
Proof.
  destruct (traverse named_tree) as [dfs| |] eqn:E.
  - exists dfs. split; [reflexivity|]. exact (traverse_is_depth_first named_tree dfs E).
  - vm_compute in E. discriminate E.
  - vm_compute in E. discriminate E.
Defined.

Lemma structure_roundtrip_witness :
  exists dfs bytes currByte s st',
    traverse named_tree = Ok dfs
    /\ writeShortInts (map (fun row => wrap32 (zlength row)) (sortedChildren dfs))
       = Ok bytes
    /\ readByte (mkStream ([0] ++ bytes ++ [0]) 1 false) = Ok (currByte, s)
    /\ read_structure (S (8 * length ([0] ++ bytes ++ [0]))) (s, currByte, 0)
         [-1] [] [0] 0 0
       = Ok (mkStructure (sortedParents dfs) (sortedChildren dfs)
               (empty_rows (sortedChildren dfs)) st')
    /\ rewind st' = mkStream ([0] ++ bytes ++ [0]) (1 + length bytes) false.
Proof.
  destruct (traverse named_tree) as [dfs| |] eqn:E.
  - assert (Hd : dfs = mkDfs [-1; 0; 0] [[1; 2]; []; []] [3; 1; 2] 3).
    { pose proof E as E'. vm_compute in E'. apply Ok_inj in E'. symmetry. exact E'. }
    destruct (structure_roundtrip named_tree dfs [0] [0] E)
      as (bytes & b & s & st' & H1 & H2 & H3 & H4).
    + rewrite Hd. reflexivity.
    + rewrite Hd. reflexivity.
    + discriminate.
    + exists dfs, bytes, b, s, st'. repeat split; assumption.
  - vm_compute in E. discriminate E.
  - vm_compute in E. discriminate E.
Defined.

Lemma traverse_keeps_the_children_witness :
  exists dfs,
    traverse named_tree = Ok dfs
    /\ exists node row,
         nth_error (sortedNodes dfs) 0 = Some node
         /\ nth_error (sortedChildren dfs) 0 = Some row
         /\ Forall2 (fun j child =>
                       0 <= j < currIndex dfs
                       /\ nth_error (sortedNodes dfs) (Z.to_nat j) = Some child)
              row (edge_children (edge named_tree) node).
Proof.
  destruct (traverse named_tree) as [dfs| |] eqn:E.
  - exists dfs. split; [reflexivity|].
    apply (traverse_keeps_the_children named_tree dfs E 0%nat).
    pose proof E as E'. vm_compute in E'. apply Ok_inj in E'. subst dfs. reflexivity.
  - vm_compute in E. discriminate E.
  - vm_compute in E. discriminate E.
Defined.

Lemma read_structure_follows_the_counts_witness :
  exists shape,
    read_structure 100 (mkStream [1] 1 false, 1, 0) [-1] [] [0] 0 0 = Ok shape
    /\ readShortInts_from (length (st_children shape)) (mkStream [1] 1 false, 1, 0)
       = Ok (map zlength (st_children shape), st_stream shape).
Proof.
  destruct (read_structure 100 (mkStream [1] 1 false, 1, 0) [-1] [] [0] 0 0)
    as [shape| |] eqn:E.
  - exists shape. split; [reflexivity|].
    exact (read_structure_follows_the_counts _ _ _ E).
  - vm_compute in E. discriminate E.
  - vm_compute in E. discriminate E.
Defined.

Lemma read_structure_is_depth_first_witness :
  exists shape,
    read_structure 100 (mkStream [1] 1 false, 1, 0) [-1] [] [0] 0 0 = Ok shape
    /\ preorder_tree (st_parents shape) (st_children shape).
Proof.
  destruct (read_structure 100 (mkStream [1] 1 false, 1, 0) [-1] [] [0] 0 0)
    as [shape| |] eqn:E.
  - exists shape. split; [reflexivity|].
    apply (read_structure_is_depth_first _ _ _ E).
    pose proof E as E'. vm_compute in E'. apply Ok_inj in E'. subst shape.
    vm_compute. intros H. discriminate H.
  - vm_compute in E. discriminate E.
  - vm_compute in E. discriminate E.
Defined.
